(** * covdiff: coverage-diff attribution pipeline

    A shallow embedding of the three scripts of the repository

      - [scripts/coverage_parser.py]   (module [Parser]),
      - [scripts/coverage_analyzer.py] (modules [Resolver], [Expand],
        [Labels], [Graph], [Frontier], [Reach], [Attribution], [Pipeline]),
      - [scripts/export_viz_data.py]   (module [Viz]),

    together with the properties of the specification that concern them.

    SQLite tables are lists of rows (records); a primary key is a function
    from rows to keys.  Python dicts are [gmap]s, Python sets are [gset]s.
    Addresses, identifiers and counters are [Z]; the 0/1 INTEGER flags
    [in_A], [in_B], [is_new], [is_shared] are [bool]. *)

From Stdlib Require Import ZArith Lia.
From Stdlib Require Import HexString.
From stdpp Require Import strings numbers gmap sets list.

#[local] Set Warnings "-clear-no-such-hyp".
Local Open Scope Z_scope.

(** ------------------------------------------------------------------ *)
(** * SQL tables with a primary key                                     *)
(** ------------------------------------------------------------------ *)

Module Sql.
Section pk.
Context {Row Key : Type} `{!EqDecision Key} (key : Row → Key).

Definition has_key (t : list Row) (k : Key) : bool :=
  bool_decide (k ∈ key <$> t).

(** [INSERT INTO t VALUES r]: raises [IntegrityError] ([None]) when the
    primary key is already present. *)
Definition insert (t : list Row) (r : Row) : option (list Row) :=
  if has_key t (key r) then None else Some (t ++ [r]).

(** [INSERT OR IGNORE INTO t VALUES r]. *)
Definition insert_or_ignore (t : list Row) (r : Row) : list Row :=
  if has_key t (key r) then t else t ++ [r].

(** [INSERT OR REPLACE INTO t VALUES r]. *)
Definition insert_or_replace (t : list Row) (r : Row) : list Row :=
  filter (λ r', key r' ≠ key r) t ++ [r].

(** [INSERT INTO t SELECT ...] and [executemany("INSERT ...", rs)]:
    the rows are inserted one after the other. *)
Definition insert_all (t : list Row) (rs : list Row) : option (list Row) :=
  foldl (λ acc r, acc ≫= λ t', insert t' r) (Some t) rs.

Definition insert_or_ignore_all (t : list Row) (rs : list Row) : list Row :=
  foldl insert_or_ignore t rs.

Definition insert_or_replace_all (t : list Row) (rs : list Row) : list Row :=
  foldl insert_or_replace t rs.

(** The rows of [t] sit under pairwise different keys. *)
Definition pk_ok (t : list Row) : Prop := NoDup (key <$> t).
End pk.
End Sql.

(** ------------------------------------------------------------------ *)
(** * coverage_parser.py                                                *)
(** ------------------------------------------------------------------ *)

Module Parser.

(** Rows of [cov_S_blocks (module_id, bb_rva)], primary key both columns. *)
Definition block_row : Type := Z * Z.
(** Rows of [cov_S_edges (module_id, src_bb_rva, dst_bb_rva)],
    primary key all three columns. *)
Definition edge_row : Type := Z * Z * Z.

(** [upper_32 = (value >> 32) & 0xFFFFFFFF] *)
Definition upper_32 (value : Z) : Z := Z.land (Z.shiftr value 32) 0xFFFFFFFF.
(** [lower_32 = value & 0xFFFFFFFF] *)
Definition lower_32 (value : Z) : Z := Z.land value 0xFFFFFFFF.

(** One matched line [(module_name, value)] of the coverage file: the body
    of the [for line in f] loop after the regular expression matched and
    [int(match.group(2), 16)] was taken.  The state is
    [(blocks_data, edges_data)]. *)
Definition parse_entry (module_name_to_id : gmap string Z)
    (st : list block_row * list edge_row) (entry : string * Z)
    : list block_row * list edge_row :=
  let '(blocks_data, edges_data) := st in
  let '(module_name, value) := entry in
  match module_name_to_id !! module_name with
  | None => (blocks_data, edges_data)            (* unknown module: skipped *)
  | Some module_id =>
      if bool_decide (upper_32 value ≠ 0)
      then (blocks_data, edges_data ++ [(module_id, upper_32 value, lower_32 value)])
      else (blocks_data ++ [(module_id, lower_32 value)], edges_data)
  end.

(** [parse_coverage_file]: all matched lines, then the two bulk
    [INSERT OR IGNORE]s into the sample's tables. *)
Definition parse_coverage_file (module_name_to_id : gmap string Z)
    (entries : list (string * Z))
    (tables : list block_row * list edge_row)
    : list block_row * list edge_row :=
  let '(blocks_data, edges_data) :=
    foldl (parse_entry module_name_to_id) ([], []) entries in
  (Sql.insert_or_ignore_all id tables.1 blocks_data,
   Sql.insert_or_ignore_all id tables.2 edges_data).

End Parser.

(** ------------------------------------------------------------------ *)
(** * coverage_analyzer.py: RVA to basic block resolution               *)
(** ------------------------------------------------------------------ *)

Module Resolver.

(** A row of the master table
    [basic_blocks (binary_id, func_id, bb_rva, bb_start_va, bb_end_va)];
    the columns hold integers, which SQLite keeps in 64 bits. *)
Record basic_block := BasicBlock {
  bb_binary_id : Z;
  bb_func_id : Z;
  bb_rva : Z;
  bb_start_va : Z;
  bb_end_va : Z
}.

(** A row of [rva_to_bb_cache], primary key [(binary_id, instruction_rva)]. *)
Record cache_row := CacheRow {
  c_binary_id : Z;
  c_instruction_rva : Z;
  c_bb_rva : Z;
  c_func_id : Z
}.

Definition cache_key (c : cache_row) : Z * Z := (c_binary_id c, c_instruction_rva c).

(** [SELECT bb_rva, func_id FROM rva_to_bb_cache
     WHERE binary_id = ? AND instruction_rva = ?] then [fetchone()]. *)
Definition cache_lookup (cache : list cache_row) (binary_id instruction_rva : Z)
    : option (Z * Z) :=
  (λ c, (c_bb_rva c, c_func_id c)) <$>
    head (filter (λ c, cache_key c = (binary_id, instruction_rva)) cache).

(** [SELECT bb_rva, func_id FROM basic_blocks
     WHERE binary_id = ? AND bb_rva = ?] then [fetchone()]. *)
Definition exact_match (blocks : list basic_block) (binary_id instruction_rva : Z)
    : option (Z * Z) :=
  (λ b, (bb_rva b, bb_func_id b)) <$>
    head (filter (λ b, bb_binary_id b = binary_id ∧ bb_rva b = instruction_rva) blocks).

(** [ORDER BY bb_rva DESC LIMIT 1] over a list of candidate rows: a row
    with the greatest [bb_rva] (the first such row of the table). *)
Fixpoint greatest (cands : list basic_block) : option basic_block :=
  match cands with
  | [] => None
  | b :: rest =>
      match greatest rest with
      | Some b' => if bool_decide (bb_rva b < bb_rva b') then Some b' else Some b
      | None => Some b
      end
  end.

(** A number as the query hands it to Python: an [int], or a [float].
    The floats that arise here are sums and differences of integers, so
    their values are integers too. *)
Inductive number := Int (z : Z) | Float (z : Z).

Definition value (n : number) : Z :=
  match n with Int z => z | Float z => z end.

(** The range of SQLite's INTEGER. *)
Definition int64 (z : Z) : Prop := - 2 ^ 63 ≤ z < 2 ^ 63.

#[global] Instance int64_dec z : Decision (int64 z).
Proof. unfold int64. apply _. Defined.

(** The integer [z] as an IEEE 754 double: [z] itself up to 53 bits, and
    beyond that the nearest number with a mantissa of 53 bits, the even
    mantissa when two are equally near. *)
Definition double_of (z : Z) : Z :=
  let a := Z.abs z in
  if bool_decide (a < 2 ^ 53) then z
  else
    let e := Z.log2 a - 52 in
    let q := a / 2 ^ e in
    let r := a mod 2 ^ e in
    let half := 2 ^ (e - 1) in
    let q' := if bool_decide (half < r ∨ (r = half ∧ Z.odd q = true)) then q + 1 else q in
    Z.sgn z * (q' * 2 ^ e).

(** SQLite's [a - b] on two integers: the difference when it fits 64 bits;
    when it does not, both are converted to REAL and subtracted there. *)
Definition sql_subtract (a b : Z) : number :=
  if bool_decide (int64 (a - b)) then Int (a - b)
  else Float (double_of (double_of a - double_of b)).

(** Python's [a + n] for an [int] [a]: exact for an [int], and for a
    [float] the sum of the doubles. *)
Definition py_add (a : Z) (n : number) : number :=
  match n with
  | Int z => Int (a + z)
  | Float x => Float (double_of (double_of a + x))
  end.

(** The column [bb_end_va - bb_start_va as bb_size] of the block. *)
Definition bb_size (blk : basic_block) : number :=
  sql_subtract (bb_end_va blk) (bb_start_va blk).

(** [SELECT bb_rva, func_id, bb_end_va - bb_start_va as bb_size
     FROM basic_blocks WHERE binary_id = ? AND bb_rva <= ?
     ORDER BY bb_rva DESC LIMIT 1] then [fetchone()]. *)
Definition greatest_below (blocks : list basic_block) (binary_id instruction_rva : Z)
    : option (Z * Z * number) :=
  (λ b, (bb_rva b, bb_func_id b, bb_size b)) <$>
    greatest (filter (λ b, bb_binary_id b = binary_id ∧ bb_rva b ≤ instruction_rva) blocks).

(** [instruction_rva <= bb_rva + bb_size]: Python compares an [int] with
    an [int] or a [float] by their exact values. *)
Definition in_bounds (instruction_rva bb : Z) (bb_size : number) : Prop :=
  instruction_rva ≤ value (py_add bb bb_size).

#[global] Instance in_bounds_dec rva bb size : Decision (in_bounds rva bb size).
Proof. unfold in_bounds. apply _. Defined.

(** The two master queries of [find_containing_basic_block], without the cache. *)
Definition resolve (blocks : list basic_block) (binary_id instruction_rva : Z)
    : option (Z * Z) :=
  match exact_match blocks binary_id instruction_rva with
  | Some r => Some r
  | None =>
      match greatest_below blocks binary_id instruction_rva with
      | Some (bb, func_id, bb_size) =>
          if bool_decide (in_bounds instruction_rva bb bb_size)
          then Some (bb, func_id) else None
      | None => None
      end
  end.

(** [find_containing_basic_block(master_cur, cov_cur, binary_id, instruction_rva)]:
    the result and the cache table after the call. *)
Definition find_containing_basic_block (blocks : list basic_block)
    (cache : list cache_row) (binary_id instruction_rva : Z)
    : option (Z * Z) * list cache_row :=
  match cache_lookup cache binary_id instruction_rva with
  | Some r => (Some r, cache)
  | None =>
      match exact_match blocks binary_id instruction_rva with
      | Some (bb, func_id) =>
          (Some (bb, func_id),
           Sql.insert_or_ignore cache_key cache
             (CacheRow binary_id instruction_rva bb func_id))
      | None =>
          match greatest_below blocks binary_id instruction_rva with
          | Some (bb, func_id, bb_size) =>
              if bool_decide (in_bounds instruction_rva bb bb_size)
              then (Some (bb, func_id),
                    Sql.insert_or_ignore cache_key cache
                      (CacheRow binary_id instruction_rva bb func_id))
              else (None, cache)
          | None => (None, cache)
          end
      end
  end.

(** Every cached answer is the answer of the master queries. *)
Definition cache_consistent (blocks : list basic_block) (cache : list cache_row) : Prop :=
  ∀ c, c ∈ cache →
    resolve blocks (c_binary_id c) (c_instruction_rva c) = Some (c_bb_rva c, c_func_id c).

(** *** Notions of the specification *)

(** The block's length, [bb_end_va - bb_start_va]. *)
Definition bb_length (blk : basic_block) : Z := bb_end_va blk - bb_start_va blk.

(** The address lies within the block's inclusive bound. *)
Definition within (blk : basic_block) (rva : Z) : Prop :=
  bb_rva blk ≤ rva ≤ bb_rva blk + bb_length blk.

(** The cache has no row for the address, or every row of it is the
    answer of the master queries: the state of a cache that only
    [find_containing_basic_block] has filled, from the same [basic_blocks]. *)
Definition cache_usable (blocks : list basic_block) (cache : list cache_row)
    (binary_id instruction_rva : Z) : Prop :=
  cache_lookup cache binary_id instruction_rva = None ∨ cache_consistent blocks cache.

(** The blocks of a binary start at different addresses, have a length
    that is not negative and fits 64 bits, and do not overlap. *)
Record layout_ok (blocks : list basic_block) (binary_id : Z) : Prop := LayoutOk {
  layout_starts :
    ∀ x y, x ∈ blocks → y ∈ blocks → bb_binary_id x = binary_id →
           bb_binary_id y = binary_id → bb_rva x = bb_rva y → x = y;
  layout_lengths :
    ∀ x, x ∈ blocks → bb_binary_id x = binary_id → 0 ≤ bb_length x < 2 ^ 63;
  layout_disjoint :
    ∀ x y, x ∈ blocks → y ∈ blocks → bb_binary_id x = binary_id →
           bb_binary_id y = binary_id → bb_rva x < bb_rva y →
           bb_rva x + bb_length x ≤ bb_rva y
}.

End Resolver.

(** ------------------------------------------------------------------ *)
(** * coverage_analyzer.py: deterministic path expansion                *)
(** ------------------------------------------------------------------ *)

Module Expand.

(** A row of the master table
    [cfg_edges (binary_id, src_bb_rva, dst_bb_rva, edge_kind)];
    [edge_kind] may be NULL. *)
Record cfg_edge := CfgEdge {
  ce_binary_id : Z;
  ce_src : Z;
  ce_dst : Z;
  ce_kind : option string
}.

(** A row of [cov_S_blocks_joined (binary_id, func_id, bb_rva)],
    primary key [(binary_id, bb_rva)]. *)
Record joined_row := Joined {
  j_binary_id : Z;
  j_func_id : Z;
  j_bb_rva : Z
}.

Definition joined_key (r : joined_row) : Z * Z := (j_binary_id r, j_bb_rva r).

(** [kind if kind else 'unknown'] *)
Definition kind_or_unknown (kind : option string) : string :=
  match kind with
  | Some k => if bool_decide (k = "") then "unknown" else k
  | None => "unknown"
  end.

(** [cfg = defaultdict(list)], filled by
    [for src, dst, kind in rows: cfg[src].append((dst, kind or 'unknown'))]. *)
Definition build_cfg (rows : list cfg_edge) : gmap Z (list (Z * string)) :=
  foldl (λ cfg e,
           <[ce_src e := default [] (cfg !! ce_src e) ++ [(ce_dst e, kind_or_unknown (ce_kind e))]]> cfg)
        ∅ rows.

(** [kind in ('fallthrough', 'branch_unconditional')] *)
Definition is_deterministic_kind (kind : string) : bool :=
  bool_decide (kind = "fallthrough" ∨ kind = "branch_unconditional").

(** The state of the walk from one start block.  [enqueued] is a ghost
    field: the blocks that were ever put on [queue], in order. *)
Record walk_state := WalkState {
  queue : list Z;
  visited_from_start : gset Z;
  newly_discovered : gset Z;
  enqueued : list Z
}.

(** The body of the [while queue] loop, after [current = queue.popleft()];
    [rest] is the queue without [current]. *)
Definition walk_step (cfg : gmap Z (list (Z * string))) (covered_blocks : gset Z)
    (current : Z) (rest : list Z) (st : walk_state) : walk_state :=
  let skip := WalkState rest (visited_from_start st) (newly_discovered st) (enqueued st) in
  match cfg !! current with
  | None => skip
  | Some [(dst, kind)] =>
      if is_deterministic_kind kind then
        if decide (dst ∈ visited_from_start st) then skip
        else if decide (dst ∈ covered_blocks)
        then WalkState rest ({[dst]} ∪ visited_from_start st) (newly_discovered st) (enqueued st)
        else WalkState (rest ++ [dst]) ({[dst]} ∪ visited_from_start st)
                       ({[dst]} ∪ newly_discovered st) (enqueued st ++ [dst])
      else skip
  | Some _ => skip
  end.

(** [while queue: ...] with a bound on the number of iterations. *)
Fixpoint walk (fuel : nat) (cfg : gmap Z (list (Z * string))) (covered_blocks : gset Z)
    (st : walk_state) : option walk_state :=
  match fuel with
  | O => None
  | S fuel' =>
      match queue st with
      | [] => Some st
      | current :: rest =>
          walk fuel' cfg covered_blocks (walk_step cfg covered_blocks current rest st)
      end
  end.

(** The walk from [start_bb]:
    [queue = deque([start_bb]); visited_from_start = {start_bb}]. *)
Definition walk_from (fuel : nat) (cfg : gmap Z (list (Z * string)))
    (covered_blocks newly : gset Z) (start_bb : Z) : option walk_state :=
  walk fuel cfg covered_blocks (WalkState [start_bb] {[start_bb]} newly [start_bb]).

(** [for start_bb in covered_blocks: ...], accumulating [newly_discovered]. *)
Definition discover (fuel : nat) (cfg : gmap Z (list (Z * string)))
    (covered_blocks : gset Z) : option (gset Z) :=
  foldl (λ acc start_bb,
           acc ≫= λ newly,
             newly_discovered <$> walk_from fuel cfg covered_blocks newly start_bb)
        (Some ∅) (elements covered_blocks).

(** The number of loop iterations granted to one walk: one per CFG row of
    the binary, plus the first and the last. *)
Definition walk_fuel (rows : list cfg_edge) : nat := S (S (length rows)).

(** [SELECT func_id FROM basic_blocks WHERE binary_id = ? AND bb_rva = ?]
    then [fetchone()]. *)
Definition func_id_of (blocks : list Resolver.basic_block) (binary_id bb_rva : Z)
    : option Z :=
  Resolver.bb_func_id <$>
    head (filter (λ b, Resolver.bb_binary_id b = binary_id ∧ Resolver.bb_rva b = bb_rva) blocks).

(** [SELECT bb_rva FROM source_table WHERE binary_id = ?] as a set. *)
Definition covered_of (table : list joined_row) (binary_id : Z) : gset Z :=
  list_to_set (j_bb_rva <$> filter (λ r, j_binary_id r = binary_id) table).

(** The rows of [cfg_edges] of one binary. *)
Definition cfg_rows_of (cfg_edges : list cfg_edge) (binary_id : Z) : list cfg_edge :=
  filter (λ e, ce_binary_id e = binary_id) cfg_edges.

(** The blocks a binary's walks discover: the set [newly_discovered] at the
    end of the [for start_bb] loop. *)
Definition discovered_of (cfg_edges : list cfg_edge) (table : list joined_row)
    (binary_id : Z) : option (gset Z) :=
  let rows := cfg_rows_of cfg_edges binary_id in
  discover (walk_fuel rows) (build_cfg rows) (covered_of table binary_id).

(** The body of [for (binary_id,) in binaries]. *)
Definition expand_binary (blocks : list Resolver.basic_block) (cfg_edges : list cfg_edge)
    (table : list joined_row) (binary_id : Z) : option (list joined_row) :=
  newly ← discovered_of cfg_edges table binary_id;
  let blocks_to_add :=
    omap (λ bb_rva, (λ func_id, Joined binary_id func_id bb_rva) <$> func_id_of blocks binary_id bb_rva)
         (elements newly) in
  Some (Sql.insert_or_ignore_all joined_key table blocks_to_add).

(** [expand_deterministic_for_sample]: [None] stands for a walk that ran
    out of iterations ([ExpandFacts.expand_rows] below: it does not happen). *)
Definition expand_deterministic_for_sample (blocks : list Resolver.basic_block)
    (cfg_edges : list cfg_edge) (table : list joined_row) : option (list joined_row) :=
  foldl (λ acc binary_id, acc ≫= λ t, expand_binary blocks cfg_edges t binary_id)
        (Some table) (remove_dups (j_binary_id <$> table)).

(** *** The path relation of the specification *)

(** [x] has exactly one outgoing CFG edge, it leads to [y], and its kind is
    [fallthrough] or [branch_unconditional]. *)
Definition det_step (rows : list cfg_edge) (x y : Z) : Prop :=
  ∃ e, filter (λ r, ce_src r = x) rows = [e] ∧ ce_dst e = y
       ∧ (ce_kind e = Some "fallthrough" ∨ ce_kind e = Some "branch_unconditional").

(** [y] is reached from [x] by one or more such steps, none of which enters
    a block of the covered set. *)
Inductive det_chain (rows : list cfg_edge) (covered : gset Z) : Z → Z → Prop :=
  | det_chain_one x y :
      det_step rows x y → y ∉ covered → det_chain rows covered x y
  | det_chain_next x y z :
      det_chain rows covered x y → det_step rows y z → z ∉ covered →
      det_chain rows covered x z.

(** *** Notions used in the proofs about the walk *)

(** The successors of [x] as the dict [cfg] lists them. *)
Definition succs (rows : list cfg_edge) (x : Z) : list (Z * string) :=
  (λ e, (ce_dst e, kind_or_unknown (ce_kind e))) <$> filter (λ r, ce_src r = x) rows.

(** The destinations of the CFG rows. *)
Definition dsts_of (rows : list cfg_edge) : gset Z := list_to_set (ce_dst <$> rows).

(** The blocks still to be visited plus the blocks waiting in the queue:
    it decreases with every iteration of the walk. *)
Definition measure (rows : list cfg_edge) (st : walk_state) : nat :=
  length (queue st) + size (dsts_of rows ∖ visited_from_start st).

(** The ghost list has no duplicates and lies within the visited set. *)
Definition enqueued_once (st : walk_state) : Prop :=
  NoDup (enqueued st) ∧ ∀ x, x ∈ enqueued st → x ∈ visited_from_start st.

(** What the walk from [start] has found lies on a path from [start]. *)
Definition walk_sound (rows : list cfg_edge) (covered : gset Z) (start : Z)
    (newly0 : gset Z) (st : walk_state) : Prop :=
  (∀ q, q ∈ queue st → q = start ∨ det_chain rows covered start q) ∧
  (∀ d, d ∈ newly_discovered st → d ∈ newly0 ∨ det_chain rows covered start d).

(** Every step out of [x] that leaves the covered set ends in [newly]. *)
Definition closed (rows : list cfg_edge) (covered newly : gset Z) (x : Z) : Prop :=
  ∀ d, det_step rows x d → d ∉ covered → d ∈ newly.

(** The start block and the discovered blocks are closed or still wait in
    the queue. *)
Definition walk_complete (rows : list cfg_edge) (covered : gset Z) (start : Z)
    (newly0 : gset Z) (st : walk_state) : Prop :=
  newly0 ⊆ newly_discovered st ∧
  (∀ v, v ∈ visited_from_start st →
        v = start ∨ v ∈ covered ∨ v ∈ newly_discovered st) ∧
  (start ∈ queue st ∨ closed rows covered (newly_discovered st) start) ∧
  (∀ d, d ∈ newly_discovered st →
        d ∈ queue st ∨ closed rows covered (newly_discovered st) d).

(** The blocks that the specification lets the expansion add for a binary:
    those on a path from a covered block. *)
Definition det_reachable (rows : list cfg_edge) (covered : gset Z) (d : Z) : Prop :=
  ∃ s, s ∈ covered ∧ det_chain rows covered s d.

(** The row that is added for a discovered block, when [basic_blocks]
    knows its function. *)
Definition to_row (blocks : list Resolver.basic_block) (binary_id bb_rva : Z)
    : option joined_row :=
  (λ func_id, Joined binary_id func_id bb_rva) <$> func_id_of blocks binary_id bb_rva.

(** The rows that belong to the binary [j_binary_id r] after the expansion
    of the table [table], beyond those of [table] itself. *)
Definition added (blocks : list Resolver.basic_block) (cfg_edges : list cfg_edge)
    (table : list joined_row) (r : joined_row) : Prop :=
  det_reachable (cfg_rows_of cfg_edges (j_binary_id r))
                (covered_of table (j_binary_id r)) (j_bb_rva r) ∧
  func_id_of blocks (j_binary_id r) (j_bb_rva r) = Some (j_func_id r).

(** Referential integrity of the master store: the destination of every
    row of [cfg_edges] is a block of the same binary in [basic_blocks]. *)
Definition cfg_in_blocks (blocks : list Resolver.basic_block) (cfg_edges : list cfg_edge)
    : Prop :=
  ∀ e, e ∈ cfg_edges →
       ∃ blk, blk ∈ blocks ∧ Resolver.bb_binary_id blk = ce_binary_id e
              ∧ Resolver.bb_rva blk = ce_dst e.

(** *** A CFG with a back-edge: 10 -> 20 -> 30 -> 10, all fallthrough *)

Definition loop_cfg : list cfg_edge :=
  [CfgEdge 1 10 20 (Some "fallthrough"); CfgEdge 1 20 30 (Some "fallthrough");
   CfgEdge 1 30 10 (Some "fallthrough")].

(** *** Scenario 6 of the specification *)

Definition scenario6_blocks : list Resolver.basic_block :=
  [Resolver.BasicBlock 1 7 10 0x1010 0x1020; Resolver.BasicBlock 1 7 20 0x1020 0x1030;
   Resolver.BasicBlock 1 7 30 0x1030 0x1040; Resolver.BasicBlock 1 7 40 0x1040 0x1050;
   Resolver.BasicBlock 1 7 50 0x1050 0x1060].

Definition scenario6_cfg : list cfg_edge :=
  [CfgEdge 1 10 20 (Some "fallthrough"); CfgEdge 1 20 30 (Some "branch_unconditional");
   CfgEdge 1 30 40 (Some "branch_conditional"); CfgEdge 1 30 50 (Some "branch_conditional")].

Definition scenario6_recorded : list joined_row := [Joined 1 7 10; Joined 1 7 40].

End Expand.

(** ------------------------------------------------------------------ *)
(** * coverage_analyzer.py: diff labels                                 *)
(** ------------------------------------------------------------------ *)

Module Labels.
Import Expand.

(** A row of [bb_labels], primary key [(binary_id, bb_rva)]. *)
Record label := Label {
  l_binary_id : Z;
  l_func_id : Z;
  l_bb_rva : Z;
  l_in_A : bool;
  l_in_B : bool;
  l_is_new : bool
}.

Definition label_key (l : label) : Z * Z := (l_binary_id l, l_bb_rva l).

(** The inner [SELECT ... FROM cov_A_blocks_joined UNION ALL
    SELECT ... FROM cov_B_blocks_joined]: rows [(row, in_A, in_B)]. *)
Definition union_all (cov_A cov_B : list joined_row) : list (joined_row * bool * bool) :=
  ((λ r, (r, true, false)) <$> cov_A) ++ ((λ r, (r, false, true)) <$> cov_B).

(** One group of [GROUP BY binary_id, bb_rva]: [MAX(in_A)], [MAX(in_B)],
    the [CASE] for [is_new].  The bare column [func_id] comes from the row
    on which the last of the [MAX] aggregates, [MAX(in_B)], reaches its
    maximum first: the first [cov_B] row of the group, and the first row
    when the group has no [cov_B] row. *)
Definition group_label (rows : list (joined_row * bool * bool)) (k : Z * Z)
    : option label :=
  match filter (λ x, joined_key x.1.1 = k) rows with
  | [] => None
  | first :: others =>
      let max_in_A := existsb (λ x, x.1.2) (first :: others) in
      let max_in_B := existsb (λ x, x.2) (first :: others) in
      let bare := default first (head (filter (λ x, x.2 = true) (first :: others))) in
      Some (Label k.1 (j_func_id bare.1.1) k.2 max_in_A max_in_B
                  (if max_in_B && negb max_in_A then true else false))
  end.

(** The rows the [INSERT INTO bb_labels SELECT ... GROUP BY] produces. *)
Definition diff_rows (cov_A cov_B : list joined_row) : list label :=
  let rows := union_all cov_A cov_B in
  omap (group_label rows) (remove_dups ((λ x, joined_key x.1.1) <$> rows)).

(** [compute_diff_labels]: a plain [INSERT INTO bb_labels]. *)
Definition compute_diff_labels (cov_A cov_B : list joined_row) (bb_labels : list label)
    : option (list label) :=
  Sql.insert_all label_key bb_labels (diff_rows cov_A cov_B).

(** [JOIN bb_labels lbl ON lbl.binary_id = ? AND lbl.bb_rva = ?] *)
Definition labels_at (bb_labels : list label) (binary_id bb_rva : Z) : list label :=
  filter (λ l, label_key l = (binary_id, bb_rva)) bb_labels.

(** What the rows of [bb_labels] satisfy after a run on a new store: the
    primary key, and [is_new = in_B AND NOT in_A]. *)
Record labels_ok (bb_labels : list label) : Prop := LabelsOk {
  labels_pk : NoDup (label_key <$> bb_labels);
  labels_new : ∀ l, l ∈ bb_labels → l_is_new l = l_in_B l && negb (l_in_A l)
}.

End Labels.

(** ------------------------------------------------------------------ *)
(** * coverage_analyzer.py: the executed graph G_B                      *)
(** ------------------------------------------------------------------ *)

Module Graph.
Import Expand Labels.

(** The values of the column [edge_type] of [graph_B_edges] that
    [build_executed_graph] writes. *)
Inductive edge_type :=
  | super_root
  | cfg_fallthrough
  | cfg_branch_unconditional
  | call_direct
  | observed_conditional
  | observed_return_continuation
  | super_root_orphan.

#[global] Instance edge_type_eq_dec : EqDecision edge_type.
Proof. solve_decision. Defined.

(** The text stored in the column. *)
Definition edge_type_name (t : edge_type) : string :=
  match t with
  | super_root => "super_root"
  | cfg_fallthrough => "cfg_fallthrough"
  | cfg_branch_unconditional => "cfg_branch_unconditional"
  | call_direct => "call_direct"
  | observed_conditional => "observed_conditional"
  | observed_return_continuation => "observed_return_continuation"
  | super_root_orphan => "super_root_orphan"
  end.

(** [edge_type LIKE 'super_root%'] *)
Definition like_super_root (t : edge_type) : bool :=
  match t with
  | super_root | super_root_orphan => true
  | _ => false
  end.

(** A row of [graph_B_nodes], primary key [(binary_id, bb_rva)]. *)
Record node := Node {
  n_binary_id : Z;
  n_bb_rva : Z;
  n_func_id : Z;
  n_is_new : bool;
  n_in_A : bool
}.

Definition node_key (n : node) : Z * Z := (n_binary_id n, n_bb_rva n).

(** A row of [graph_B_edges] (and of [frontier_edges]); the primary key is
    the whole row. *)
Record edge := Edge {
  e_binary_id : Z;
  e_src : Z;
  e_dst : Z;
  e_type : edge_type
}.

#[global] Instance edge_eq_dec : EqDecision edge.
Proof. solve_decision. Defined.

(** A row of the master table [call_edges_static]; [dst_func_id] may be NULL. *)
Record call_edge := CallEdge {
  ca_binary_id : Z;
  ca_src_bb_rva : Z;
  ca_dst_func_id : option Z
}.

(** The columns of the master table [functions] that the analyzer reads. *)
Record function_row := FunctionRow {
  fn_binary_id : Z;
  fn_func_id : Z;
  fn_entry_rva : Z
}.

(** The columns of [module_binary_map] that the analyzer reads. *)
Record map_row := MapRow {
  m_module_id : Z;
  m_binary_id : Z
}.

(** The master store. *)
Record master_db := MasterDb {
  basic_blocks : list Resolver.basic_block;
  cfg_edges : list cfg_edge;
  call_edges_static : list call_edge;
  functions : list function_row
}.

(** The super-root sentinel. *)
Definition SUPER : Z := -1.

(** [INSERT INTO graph_B_nodes SELECT ... FROM bb_labels WHERE in_B = 1] *)
Definition block_nodes (bb_labels : list label) : list node :=
  (λ l, Node (l_binary_id l) (l_bb_rva l) (l_func_id l) (l_is_new l) (l_in_A l))
    <$> filter (λ l, l_in_B l = true) bb_labels.

(** [SELECT DISTINCT binary_id FROM bb_labels] *)
Definition binaries_of (bb_labels : list label) : list Z :=
  remove_dups (l_binary_id <$> bb_labels).

(** [SELECT DISTINCT binary_id, -1, -1, 0, 1 FROM bb_labels] *)
Definition super_root_nodes (bb_labels : list label) : list node :=
  (λ b, Node b SUPER (-1) false true) <$> binaries_of bb_labels.

(** [SELECT binary_id, -1, bb_rva, 'super_root' FROM bb_labels WHERE in_A = 1] *)
Definition super_root_edges (bb_labels : list label) : list edge :=
  (λ l, Edge (l_binary_id l) SUPER (l_bb_rva l) super_root)
    <$> filter (λ l, l_in_A l = true) bb_labels.

(** [b_nodes = set(SELECT binary_id, bb_rva FROM graph_B_nodes WHERE bb_rva != -1)] *)
Definition b_nodes_of (nodes : list node) : gset (Z * Z) :=
  list_to_set (node_key <$> filter (λ n, n_bb_rva n ≠ SUPER) nodes).

(** The rows of [cfg_edges WHERE binary_id = ? AND edge_kind IN
    ('fallthrough', 'branch_unconditional')] carry one of two kinds;
    [f'cfg_{kind}'] is then one of two edge types. *)
Definition cfg_edge_type (kind : option string) : option edge_type :=
  if decide (kind = Some "fallthrough") then Some cfg_fallthrough
  else if decide (kind = Some "branch_unconditional") then Some cfg_branch_unconditional
  else None.

(** The list [cfg_edges] built for one binary. *)
Definition cfg_graph_edges (b_nodes : gset (Z * Z)) (rows : list cfg_edge)
    (binary_id : Z) : list edge :=
  omap (λ r,
          if decide (ce_binary_id r = binary_id) then
            t ← cfg_edge_type (ce_kind r);
            if decide ((binary_id, ce_src r) ∈ b_nodes ∧ (binary_id, ce_dst r) ∈ b_nodes)
            then Some (Edge binary_id (ce_src r) (ce_dst r) t) else None
          else None) rows.

(** [SELECT entry_rva FROM functions WHERE binary_id = ? AND func_id = ?]
    then [fetchone()]. *)
Definition entry_rva_of (fns : list function_row) (binary_id func_id : Z) : option Z :=
  fn_entry_rva <$>
    head (filter (λ f, fn_binary_id f = binary_id ∧ fn_func_id f = func_id) fns).

(** The list [call_edges] built for one binary. *)
Definition call_graph_edges (b_nodes : gset (Z * Z)) (calls : list call_edge)
    (fns : list function_row) (binary_id : Z) : list edge :=
  omap (λ c,
          if decide (ca_binary_id c = binary_id) then
            dst_func_id ← ca_dst_func_id c;
            dst_rva ← entry_rva_of fns binary_id dst_func_id;
            if decide ((binary_id, ca_src_bb_rva c) ∈ b_nodes ∧ (binary_id, dst_rva) ∈ b_nodes)
            then Some (Edge binary_id (ca_src_bb_rva c) dst_rva call_direct) else None
          else None) calls.

(** The body of [for (binary_id,) in binaries]: two [INSERT OR IGNORE]s. *)
Definition add_static_edges (master : master_db) (b_nodes : gset (Z * Z))
    (edges : list edge) (binary_id : Z) : list edge :=
  let edges' :=
    Sql.insert_or_ignore_all id edges (cfg_graph_edges b_nodes (cfg_edges master) binary_id) in
  Sql.insert_or_ignore_all id edges'
    (call_graph_edges b_nodes (call_edges_static master) (functions master) binary_id).

(** [SELECT m.binary_id, e.src_bb_rva, e.dst_bb_rva FROM edges_B e
     JOIN module_binary_map m ON e.module_id = m.module_id] *)
Definition observed_rows (edges_B : list Parser.edge_row) (mapping : list map_row)
    : list (Z * Z * Z) :=
  e ← edges_B;
  m ← filter (λ m, m_module_id m = e.1.1) mapping;
  [(m_binary_id m, e.1.2, e.2)].

(** The body of the loop over the observed edges; the state is
    [(observed_edges, rva_to_bb_cache)]. *)
Definition observe_edge (blocks : list Resolver.basic_block) (b_nodes : gset (Z * Z))
    (st : list edge * list Resolver.cache_row) (row : Z * Z * Z)
    : list edge * list Resolver.cache_row :=
  let '(observed_edges, cache) := st in
  let '(binary_id, src_instruction_rva, dst_instruction_rva) := row in
  let '(src_result, cache1) :=
    Resolver.find_containing_basic_block blocks cache binary_id src_instruction_rva in
  let '(dst_result, cache2) :=
    Resolver.find_containing_basic_block blocks cache1 binary_id dst_instruction_rva in
  match src_result, dst_result with
  | Some (src_bb_rva, _), Some (dst_bb_rva, _) =>
      if decide ((binary_id, src_bb_rva) ∈ b_nodes ∧ (binary_id, dst_bb_rva) ∈ b_nodes)
      then
        let edge_type :=
          if decide (src_instruction_rva ≠ src_bb_rva)
          then observed_return_continuation else observed_conditional in
        (observed_edges ++ [Edge binary_id src_bb_rva dst_bb_rva edge_type], cache2)
      else (observed_edges, cache2)
  | _, _ => (observed_edges, cache2)
  end.

(** The destinations of the edges of a binary that are neither
    ['super_root'] nor ['super_root_orphan']: the inner [SELECT] of the
    orphan query. *)
Definition entered (edges : list edge) (binary_id : Z) : list Z :=
  e_dst <$> filter (λ e, e_binary_id e = binary_id
                         ∧ e_type e ≠ super_root ∧ e_type e ≠ super_root_orphan) edges.

(** [SELECT DISTINCT bb.binary_id, -1, bb.bb_rva, 'super_root_orphan'
     FROM bb_labels bb WHERE bb.is_new = 1 AND bb.bb_rva NOT IN (...)] *)
Definition orphan_edges (bb_labels : list label) (edges : list edge) : list edge :=
  remove_dups
    ((λ l, Edge (l_binary_id l) SUPER (l_bb_rva l) super_root_orphan)
       <$> filter (λ l, l_is_new l = true ∧ l_bb_rva l ∉ entered edges (l_binary_id l))
                  bb_labels).

(** The loop over the binaries and, [if edges_B_table], the loop over the
    observed edges with its [INSERT OR IGNORE]: the edges and the cache
    after them. *)
Definition add_inner_edges (master : master_db) (bb_labels : list label)
    (mapping : list map_row) (edges_B : option (list Parser.edge_row))
    (b_nodes : gset (Z * Z)) (edges1 : list edge) (cache0 : list Resolver.cache_row)
    : list edge * list Resolver.cache_row :=
  let edges2 := foldl (add_static_edges master b_nodes) edges1 (binaries_of bb_labels) in
  match edges_B with
  | Some tbl =>
      let '(observed_edges, cache') :=
        foldl (observe_edge (basic_blocks master) b_nodes) ([], cache0)
              (observed_rows tbl mapping) in
      (Sql.insert_or_ignore_all id edges2 observed_edges, cache')
  | None => (edges2, cache0)
  end.

(** [build_executed_graph]; [edges_B] is [None] when no edge table is
    given.  The result is [(graph_B_nodes, graph_B_edges, rva_to_bb_cache)];
    [None] is an [IntegrityError] of one of the plain [INSERT]s. *)
Definition build_executed_graph (master : master_db) (bb_labels : list label)
    (mapping : list map_row) (edges_B : option (list Parser.edge_row))
    (nodes0 : list node) (edges0 : list edge) (cache0 : list Resolver.cache_row)
    : option (list node * list edge * list Resolver.cache_row) :=
  nodes1 ← Sql.insert_all node_key nodes0 (block_nodes bb_labels);
  nodes2 ← Sql.insert_all node_key nodes1 (super_root_nodes bb_labels);
  edges1 ← Sql.insert_all id edges0 (super_root_edges bb_labels);
  let '(edges3, cache1) :=
    add_inner_edges master bb_labels mapping edges_B (b_nodes_of nodes2) edges1 cache0 in
  edges4 ← Sql.insert_all id edges3 (orphan_edges bb_labels edges3);
  Some (nodes2, edges4, cache1).

(** An edge between two nodes of [b_nodes], of a type that is not a
    super-root type. *)
Definition inner (b_nodes : gset (Z * Z)) (e : edge) : Prop :=
  like_super_root (e_type e) = false ∧
  (e_binary_id e, e_src e) ∈ b_nodes ∧ (e_binary_id e, e_dst e) ∈ b_nodes.

(** What a graph built on a new store satisfies. *)
Record graph_ok (bb_labels : list label) (nodes : list node) (edges : list edge)
    : Prop := GraphOk {
  (* no B-covered block sits at the address of the super-root *)
  g_super_unlabelled :
    ∀ l, l ∈ bb_labels → l_bb_rva l = SUPER → l_in_B l = false;
  (* every B-covered block is a node *)
  g_nodes :
    ∀ l, l ∈ bb_labels → l_in_B l = true →
      Node (l_binary_id l) (l_bb_rva l) (l_func_id l) (l_is_new l) (l_in_A l) ∈ nodes;
  (* CFG, call and observed edges join B-covered blocks *)
  g_inner :
    ∀ e, e ∈ edges → like_super_root (e_type e) = false →
      ∃ ls ld, ls ∈ bb_labels ∧ label_key ls = (e_binary_id e, e_src e) ∧ l_in_B ls = true
             ∧ ld ∈ bb_labels ∧ label_key ld = (e_binary_id e, e_dst e) ∧ l_in_B ld = true;
  (* the other edges leave the super-root *)
  g_super :
    ∀ e, e ∈ edges → like_super_root (e_type e) = true → e_src e = SUPER;
  (* an orphan edge enters a new block that no CFG, call or observed edge enters *)
  g_orphan :
    ∀ e, e ∈ edges → e_type e = super_root_orphan →
      (∃ l, l ∈ bb_labels ∧ label_key l = (e_binary_id e, e_dst e) ∧ l_is_new l = true) ∧
      (∀ e', e' ∈ edges → e_binary_id e' = e_binary_id e → e_dst e' = e_dst e →
             like_super_root (e_type e') = true)
}.

End Graph.

(** ------------------------------------------------------------------ *)
(** * coverage_analyzer.py: frontier identification                     *)
(** ------------------------------------------------------------------ *)

Module Frontier.
Import Labels Graph.

(** The values of the column [frontier_type]. *)
Inductive frontier_type := strong | weak.

#[global] Instance frontier_type_eq_dec : EqDecision frontier_type.
Proof. solve_decision. Defined.

(** A row of [frontier_targets], primary key [(binary_id, bb_rva)]. *)
Record target := Target {
  t_binary_id : Z;
  t_bb_rva : Z;
  t_func_id : Z;
  t_type : frontier_type
}.

Definition target_key (t : target) : Z * Z := (t_binary_id t, t_bb_rva t).

(** The first [INSERT INTO frontier_edges SELECT ...]: the edges of G_B,
    joined with the labels of source and destination, with
    [lbl_src.in_A = 1 AND lbl_dst.is_new = 1 AND e.edge_type != 'super_root']. *)
Definition frontier_query (bb_labels : list label) (graph_B_edges : list edge)
    : list edge :=
  e ← graph_B_edges;
  lbl_src ← labels_at bb_labels (e_binary_id e) (e_src e);
  lbl_dst ← labels_at bb_labels (e_binary_id e) (e_dst e);
  if l_in_A lbl_src && l_is_new lbl_dst && bool_decide (e_type e ≠ super_root)
  then [e] else [].

(** The second one: [... FROM graph_B_edges WHERE edge_type = 'super_root_orphan']. *)
Definition orphan_query (graph_B_edges : list edge) : list edge :=
  filter (λ e, e_type e = super_root_orphan) graph_B_edges.

(** [SELECT DISTINCT e.binary_id, e.dst_bb_rva, lbl.func_id
     FROM frontier_edges e JOIN bb_labels lbl ON ...] *)
Definition frontier_candidates (bb_labels : list label) (frontier_edges : list edge)
    : list (Z * Z * Z) :=
  remove_dups (e ← frontier_edges;
               lbl ← labels_at bb_labels (e_binary_id e) (e_dst e);
               [(e_binary_id e, e_dst e, l_func_id lbl)]).

(** [SELECT COUNT( * ) FROM graph_B_edges WHERE binary_id = ? AND dst_bb_rva = ?
     AND edge_type = 'super_root_orphan'] *)
Definition orphan_count (graph_B_edges : list edge) (binary_id bb_rva : Z) : nat :=
  length (filter (λ e, e_binary_id e = binary_id ∧ e_dst e = bb_rva
                       ∧ e_type e = super_root_orphan) graph_B_edges).

(** [SELECT e.src_bb_rva, lbl.in_A, lbl.is_new FROM graph_B_edges e
     JOIN bb_labels lbl ON ... e.src_bb_rva = lbl.bb_rva
     WHERE e.binary_id = ? AND e.dst_bb_rva = ?
       AND e.edge_type NOT LIKE 'super_root%'] *)
Definition incoming_edges (bb_labels : list label) (graph_B_edges : list edge)
    (binary_id bb_rva : Z) : list (Z * bool * bool) :=
  e ← filter (λ e, e_binary_id e = binary_id ∧ e_dst e = bb_rva
                   ∧ like_super_root (e_type e) = false) graph_B_edges;
  lbl ← labels_at bb_labels (e_binary_id e) (e_src e);
  [(e_src e, l_in_A lbl, l_is_new lbl)].

(** The loop [for src_rva, in_A, is_new in incoming_edges] over the flags
    [(has_a_edge, has_new_edge)]. *)
Definition scan_incoming (incoming : list (Z * bool * bool)) : bool * bool :=
  foldl (λ (flags : bool * bool) (row : Z * bool * bool),
           (if row.1.2 then true else flags.1, if row.2 then true else flags.2))
        (false, false) incoming.

(** The body of [for binary_id, bb_rva, func_id in frontier_candidates]. *)
Definition classify (bb_labels : list label) (graph_B_edges : list edge)
    (binary_id bb_rva : Z) : frontier_type :=
  if decide (0 < orphan_count graph_B_edges binary_id bb_rva)%nat then weak
  else
    let '(has_a_edge, has_new_edge) :=
      scan_incoming (incoming_edges bb_labels graph_B_edges binary_id bb_rva) in
    if has_a_edge && negb has_new_edge then strong else weak.

(** [identify_frontier]: the result is [(frontier_edges, frontier_targets)];
    [None] is an [IntegrityError] of one of the plain [INSERT]s. *)
Definition identify_frontier (bb_labels : list label) (graph_B_edges : list edge)
    (frontier_edges0 : list edge) (frontier_targets0 : list target)
    : option (list edge * list target) :=
  fe1 ← Sql.insert_all id frontier_edges0 (frontier_query bb_labels graph_B_edges);
  fe2 ← Sql.insert_all id fe1 (orphan_query graph_B_edges);
  let frontier_data :=
    (λ c, Target c.1.1 c.1.2 c.2 (classify bb_labels graph_B_edges c.1.1 c.1.2))
      <$> frontier_candidates bb_labels fe2 in
  ft ← Sql.insert_all target_key frontier_targets0 frontier_data;
  Some (fe2, ft).

(** *** The notions of the specification *)

(** The block [(binary_id, bb_rva)] is labelled with [in_A = 1]. *)
Definition block_in_A (bb_labels : list label) (binary_id bb_rva : Z) : Prop :=
  ∃ l, l ∈ bb_labels ∧ label_key l = (binary_id, bb_rva) ∧ l_in_A l = true.

(** The block [(binary_id, bb_rva)] is labelled with [is_new = 1]. *)
Definition block_is_new (bb_labels : list label) (binary_id bb_rva : Z) : Prop :=
  ∃ l, l ∈ bb_labels ∧ label_key l = (binary_id, bb_rva) ∧ l_is_new l = true.

(** [e] is an incoming edge of the block [(binary_id, bb_rva)]. *)
Definition enters (e : edge) (binary_id bb_rva : Z) : Prop :=
  e_binary_id e = binary_id ∧ e_dst e = bb_rva.

(** The block has an incoming [super_root_orphan] edge. *)
Definition orphan_entered (graph_B_edges : list edge) (binary_id bb_rva : Z) : Prop :=
  ∃ e, e ∈ graph_B_edges ∧ enters e binary_id bb_rva ∧ e_type e = super_root_orphan.

(** The condition of the specification for ['strong']: every incoming
    non-super-root edge has a source block with [in_A = 1], and no incoming
    edge has a source block with [is_new = 1].  An edge is non-super-root
    when its type is not ['super_root']; a block has the flags that
    [bb_labels] gives it (the super-root is no block of [bb_labels]). *)
Definition only_A_predecessors (bb_labels : list label) (graph_B_edges : list edge)
    (binary_id bb_rva : Z) : Prop :=
  (∀ e, e ∈ graph_B_edges → enters e binary_id bb_rva →
        e_type e ≠ super_root → block_in_A bb_labels binary_id (e_src e)) ∧
  (∀ e, e ∈ graph_B_edges → enters e binary_id bb_rva →
        ¬ block_is_new bb_labels binary_id (e_src e)).

(** Two other readings of that condition, for comparison.  In the first
    the [super_root_orphan] edges count as super-root edges too; in the
    second the flags are those of [graph_B_nodes], where the super-root has
    [in_A = 1] and [is_new = 0]. *)
Definition only_A_predecessors_inner (bb_labels : list label) (graph_B_edges : list edge)
    (binary_id bb_rva : Z) : Prop :=
  (∀ e, e ∈ graph_B_edges → enters e binary_id bb_rva →
        like_super_root (e_type e) = false → block_in_A bb_labels binary_id (e_src e)) ∧
  (∀ e, e ∈ graph_B_edges → enters e binary_id bb_rva →
        ¬ block_is_new bb_labels binary_id (e_src e)).

Definition only_A_predecessors_nodes (graph_B_nodes : list node)
    (graph_B_edges : list edge) (binary_id bb_rva : Z) : Prop :=
  (∀ e, e ∈ graph_B_edges → enters e binary_id bb_rva → e_type e ≠ super_root →
        ∃ n, n ∈ graph_B_nodes ∧ node_key n = (binary_id, e_src e) ∧ n_in_A n = true) ∧
  (∀ e, e ∈ graph_B_edges → enters e binary_id bb_rva →
        ¬ ∃ n, n ∈ graph_B_nodes ∧ node_key n = (binary_id, e_src e) ∧ n_is_new n = true).

End Frontier.

(** ------------------------------------------------------------------ *)
(** * coverage_analyzer.py: reachability                                *)
(** ------------------------------------------------------------------ *)

Module Reach.
Import Labels Graph Frontier.

(** A row of [frontier_reachability]; the primary key is the whole row. *)
Record reach_row := ReachRow {
  r_binary_id : Z;
  r_frontier_bb_rva : Z;
  r_new_bb_rva : Z
}.

#[global] Instance reach_row_eq_dec : EqDecision reach_row.
Proof. solve_decision. Defined.

(** [adjacency = defaultdict(list)], filled by
    [for src, dst in edges: adjacency[src].append(dst)]. *)
Definition build_adjacency (edges : list (Z * Z)) : gmap Z (list Z) :=
  foldl (λ adj e, <[e.1 := default [] (adj !! e.1) ++ [e.2]]> adj) ∅ edges.

(** The body of [for neighbor in adjacency[current]] on [(queue, visited)]. *)
Definition visit_neighbor (st : list Z * gset Z) (neighbor : Z) : list Z * gset Z :=
  if decide (neighbor ∈ st.2) then st else (st.1 ++ [neighbor], {[neighbor]} ∪ st.2).

(** [while queue: ...] of the BFS, with a bound on the number of
    iterations; the result is [reachable_new]. *)
Fixpoint bfs (fuel : nat) (adjacency : gmap Z (list Z)) (new_blocks : gset Z)
    (queue : list Z) (visited reachable_new : gset Z) : option (gset Z) :=
  match fuel with
  | O => None
  | S fuel' =>
      match queue with
      | [] => Some reachable_new
      | current :: rest =>
          let reachable_new' :=
            if decide (current ∈ new_blocks) then {[current]} ∪ reachable_new
            else reachable_new in
          let '(queue', visited') :=
            foldl visit_neighbor (rest, visited) (default [] (adjacency !! current)) in
          bfs fuel' adjacency new_blocks queue' visited' reachable_new'
      end
  end.

(** [SELECT src_bb_rva, dst_bb_rva FROM graph_B_edges WHERE binary_id = ?] *)
Definition edge_pairs (graph_B_edges : list edge) (binary_id : Z) : list (Z * Z) :=
  (λ e, (e_src e, e_dst e)) <$> filter (λ e, e_binary_id e = binary_id) graph_B_edges.

(** [SELECT bb_rva FROM bb_labels WHERE binary_id = ? AND is_new = 1] as a set. *)
Definition new_blocks_of (bb_labels : list label) (binary_id : Z) : gset Z :=
  list_to_set (l_bb_rva <$> filter (λ l, l_binary_id l = binary_id ∧ l_is_new l = true)
                                   bb_labels).

(** [SELECT bb_rva FROM frontier_targets WHERE binary_id = ?] *)
Definition targets_of (frontier_targets : list target) (binary_id : Z) : list Z :=
  t_bb_rva <$> filter (λ t, t_binary_id t = binary_id) frontier_targets.

(** The number of loop iterations granted to one BFS: one per edge of the
    binary, plus the first and the last. *)
Definition bfs_fuel (edges : list (Z * Z)) : nat := S (S (length edges)).

(** The BFS from one frontier target of a binary. *)
Definition reachable_from (graph_B_edges : list edge) (bb_labels : list label)
    (binary_id frontier_bb : Z) : option (gset Z) :=
  let edges := edge_pairs graph_B_edges binary_id in
  bfs (bfs_fuel edges) (build_adjacency edges) (new_blocks_of bb_labels binary_id)
      [frontier_bb] {[frontier_bb]} ∅.

(** The list [reachability_data] of one binary. *)
Definition reachability_data (graph_B_edges : list edge) (bb_labels : list label)
    (frontier_targets : list target) (binary_id : Z) : option (list reach_row) :=
  foldl (λ (acc : option (list reach_row)) frontier_bb,
           data ← acc;
           reachable_new ← reachable_from graph_B_edges bb_labels binary_id frontier_bb;
           Some (data ++ (ReachRow binary_id frontier_bb <$> elements reachable_new)))
        (Some []) (targets_of frontier_targets binary_id).

(** [SELECT DISTINCT binary_id FROM graph_B_nodes] *)
Definition node_binaries (graph_B_nodes : list node) : list Z :=
  remove_dups (n_binary_id <$> graph_B_nodes).

(** [compute_reachability]: [None] stands for a BFS that ran out of
    iterations ([ReachFacts.compute_reachability_fresh] below: it does not happen). *)
Definition compute_reachability (graph_B_nodes : list node) (graph_B_edges : list edge)
    (bb_labels : list label) (frontier_targets : list target)
    (frontier_reachability : list reach_row) : option (list reach_row) :=
  foldl (λ (acc : option (list reach_row)) binary_id,
           table ← acc;
           data ← reachability_data graph_B_edges bb_labels frontier_targets binary_id;
           Some (Sql.insert_or_ignore_all id table data))
        (Some frontier_reachability) (node_binaries graph_B_nodes).

(** *** Notions used in the proofs about the BFS *)

(** The nodes that some edge enters. *)
Definition entered_nodes (edges : list (Z * Z)) : gset Z := list_to_set (snd <$> edges).

(** The nodes waiting in the queue plus the nodes still to be visited: it
    decreases with every iteration of the BFS. *)
Definition bfs_measure (edges : list (Z * Z)) (st : list Z * gset Z) : nat :=
  length st.1 + size (entered_nodes edges ∖ st.2).

(** The pairs that belong into [frontier_reachability]. *)
Definition reaches (graph_B_edges : list edge) (bb_labels : list label)
    (frontier_targets : list target) (r : reach_row) : Prop :=
  r_frontier_bb_rva r ∈ targets_of frontier_targets (r_binary_id r) ∧
  ∃ result, reachable_from graph_B_edges bb_labels (r_binary_id r) (r_frontier_bb_rva r)
            = Some result ∧ r_new_bb_rva r ∈ result.

End Reach.

(** ------------------------------------------------------------------ *)
(** * coverage_analyzer.py: attribution                                 *)
(** ------------------------------------------------------------------ *)

Module Attribution.
Import Labels Graph Frontier Reach.

(** A row of [bb_attributed_to], primary key [(binary_id, new_bb_rva)];
    [frontier_bb_rva] may be NULL. *)
Record attributed_row := Attributed {
  a_binary_id : Z;
  a_new_bb_rva : Z;
  a_frontier_bb_rva : option Z;
  a_is_shared : bool
}.

Definition attributed_key (a : attributed_row) : Z * Z := (a_binary_id a, a_new_bb_rva a).

(** [new_blocks = {row[0]: row[1] for row in
     SELECT bb_rva, func_id FROM bb_labels WHERE binary_id = ? AND is_new = 1}] *)
Definition new_block_funcs (bb_labels : list label) (binary_id : Z) : gmap Z Z :=
  foldl (λ m l, <[l_bb_rva l := l_func_id l]> m) ∅
        (filter (λ l, l_binary_id l = binary_id ∧ l_is_new l = true) bb_labels).

(** [new_block_to_frontiers = defaultdict(list)], filled by
    [for frontier_bb, new_bb in rows: new_block_to_frontiers[new_bb].append(frontier_bb)]
    over [SELECT frontier_bb_rva, new_bb_rva FROM frontier_reachability
    WHERE binary_id = ?]. *)
Definition group_frontiers (frontier_reachability : list reach_row) (binary_id : Z)
    : gmap Z (list Z) :=
  foldl (λ m r, <[r_new_bb_rva r := default [] (m !! r_new_bb_rva r) ++ [r_frontier_bb_rva r]]> m)
        ∅ (filter (λ r, r_binary_id r = binary_id) frontier_reachability).

(** The body of [for new_bb, frontiers in new_block_to_frontiers.items()],
    as far as [block_attribution] is concerned: [new_blocks[new_bb]] raises
    [KeyError] ([None]) for a block that is not new; one frontier gives
    [(frontier, 0)], several give [(None, 1)]. *)
Definition attribute_block (new_blocks : gmap Z Z) (new_bb : Z) (frontiers : list Z)
    : option (option Z * bool) :=
  _ ← new_blocks !! new_bb;
  match frontiers with
  | [frontier] => Some (Some frontier, false)
  | _ => Some (None, true)
  end.

(** The dict [block_attribution] of one binary. *)
Definition block_attribution (new_blocks : gmap Z Z)
    (new_block_to_frontiers : gmap Z (list Z)) : option (gmap Z (option Z * bool)) :=
  foldl (λ (acc : option (gmap Z (option Z * bool))) item,
           m ← acc;
           a ← attribute_block new_blocks item.1 item.2;
           Some (<[item.1 := a]> m))
        (Some ∅) (map_to_list new_block_to_frontiers).

(** The body of [for (binary_id,) in binaries], as far as
    [bb_attributed_to] is concerned (the counters written to
    [frontier_attribution] are not part of this embedding). *)
Definition attribute_binary (bb_labels : list label) (frontier_reachability : list reach_row)
    (table : list attributed_row) (binary_id : Z) : option (list attributed_row) :=
  attribution ← block_attribution (new_block_funcs bb_labels binary_id)
                                  (group_frontiers frontier_reachability binary_id);
  let block_attr_data :=
    (λ item, Attributed binary_id item.1 item.2.1 item.2.2) <$> map_to_list attribution in
  Some (Sql.insert_or_replace_all attributed_key table block_attr_data).

(** [compute_attribution]: [None] is the [KeyError]. *)
Definition compute_attribution (graph_B_nodes : list node) (bb_labels : list label)
    (frontier_reachability : list reach_row) (bb_attributed_to : list attributed_row)
    : option (list attributed_row) :=
  foldl (λ acc binary_id,
           acc ≫= λ table, attribute_binary bb_labels frontier_reachability table binary_id)
        (Some bb_attributed_to) (node_binaries graph_B_nodes).

(** *** The notions of the specification *)

(** F(n): the frontier targets that the rows of [frontier_reachability]
    name for the block [(binary_id, new_bb)]. *)
Definition frontiers_of (frontier_reachability : list reach_row) (binary_id new_bb : Z)
    : list Z :=
  r_frontier_bb_rva <$>
    filter (λ r, r_new_bb_rva r = new_bb)
           (filter (λ r, r_binary_id r = binary_id) frontier_reachability).

(** The rows of [bb_attributed_to] for the block. *)
Definition attributed_rows (bb_attributed_to : list attributed_row)
    (binary_id new_bb : Z) : list attributed_row :=
  filter (λ a, attributed_key a = (binary_id, new_bb)) bb_attributed_to.

(** The row [a] is the one that attribution writes for its block. *)
Definition row_for (bb_labels : list label) (frontier_reachability : list reach_row)
    (a : attributed_row) : Prop :=
  frontiers_of frontier_reachability (a_binary_id a) (a_new_bb_rva a) ≠ [] ∧
  attribute_block (new_block_funcs bb_labels (a_binary_id a)) (a_new_bb_rva a)
    (frontiers_of frontier_reachability (a_binary_id a) (a_new_bb_rva a))
  = Some (a_frontier_bb_rva a, a_is_shared a).

End Attribution.

(** ------------------------------------------------------------------ *)
(** * coverage_analyzer.py: the stages of [main] after the joins        *)
(** ------------------------------------------------------------------ *)

Module Pipeline.
Import Expand Labels Graph Frontier Reach Attribution.

(** The derived tables of the coverage store. *)
Record store := Store {
  bb_labels : list label;
  graph_B_nodes : list node;
  graph_B_edges : list edge;
  frontier_edges : list edge;
  frontier_targets : list target;
  frontier_reachability : list reach_row;
  bb_attributed_to : list attributed_row;
  rva_to_bb_cache : list Resolver.cache_row
}.

(** The tables as [create_analysis_tables] makes them in a new store; the
    cache holds what the joins left in it. *)
Definition fresh (cache : list Resolver.cache_row) : store :=
  Store [] [] [] [] [] [] [] cache.

(** [compute_diff_labels; build_executed_graph; identify_frontier;
    compute_reachability; compute_attribution] of [main], from the joined
    (and expanded) coverage tables of the two samples.  [None]: a stage
    raised, and [main] exits with status 1. *)
Definition analyze (master : master_db) (mapping : list map_row)
    (edges_B : option (list Parser.edge_row)) (cov_A cov_B : list joined_row)
    (st : store) : option store :=
  labels ← compute_diff_labels cov_A cov_B (bb_labels st);
  g ← build_executed_graph master labels mapping edges_B
         (graph_B_nodes st) (graph_B_edges st) (rva_to_bb_cache st);
  f ← identify_frontier labels g.1.2 (frontier_edges st) (frontier_targets st);
  reach ← compute_reachability g.1.1 g.1.2 labels f.2 (frontier_reachability st);
  attributed ← compute_attribution g.1.1 labels reach (bb_attributed_to st);
  Some (Store labels g.1.1 g.1.2 f.1 f.2 reach attributed g.2).

(** *** A run of the stages

    One binary (id 1, module id 5) with the blocks 100, 300, 500 and 2000.
    A covers {100}; B covers all four.  B's coverage has the observed edge
    100 -> 300; the static CFG has 300 -> 500 and 2000 -> 500.  Block 2000
    is entered by no CFG, call or observed edge (scenario 4 of the
    specification); block 500 is reached from both 300 and 2000. *)

Definition scenario_master : master_db :=
  MasterDb
    [Resolver.BasicBlock 1 7 100 0x1100 0x1110; Resolver.BasicBlock 1 7 300 0x1300 0x1310;
     Resolver.BasicBlock 1 7 500 0x1500 0x1510; Resolver.BasicBlock 1 9 2000 0x2000 0x2010]
    [CfgEdge 1 300 500 (Some "fallthrough");
     CfgEdge 1 2000 500 (Some "branch_unconditional")]
    [] [].

Definition scenario_mapping : list map_row := [MapRow 5 1].
Definition scenario_edges_B : list Parser.edge_row := [(5, 100, 300)].
Definition scenario_cov_A : list joined_row := [Joined 1 7 100].
Definition scenario_cov_B : list joined_row :=
  [Joined 1 7 100; Joined 1 7 300; Joined 1 7 500; Joined 1 9 2000].

(** The store after the run. *)
Definition scenario_store : store :=
  Store
    [Label 1 7 100 true true false; Label 1 7 300 false true true;
     Label 1 7 500 false true true; Label 1 9 2000 false true true]
    [Node 1 100 7 false true; Node 1 300 7 true false; Node 1 500 7 true false;
     Node 1 2000 9 true false; Node 1 (-1) (-1) false true]
    [Edge 1 (-1) 100 super_root; Edge 1 300 500 cfg_fallthrough;
     Edge 1 2000 500 cfg_branch_unconditional; Edge 1 100 300 observed_conditional;
     Edge 1 (-1) 2000 super_root_orphan]
    [Edge 1 100 300 observed_conditional; Edge 1 (-1) 2000 super_root_orphan]
    [Target 1 300 7 strong; Target 1 2000 9 weak]
    [ReachRow 1 300 300; ReachRow 1 300 500; ReachRow 1 2000 500; ReachRow 1 2000 2000]
    [Attributed 1 300 (Some 300) false; Attributed 1 500 None true;
     Attributed 1 2000 (Some 2000) false]
    [Resolver.CacheRow 1 100 100 7; Resolver.CacheRow 1 300 300 7].

End Pipeline.

(** ------------------------------------------------------------------ *)
(** * export_viz_data.py: the blocks of the export                      *)
(** ------------------------------------------------------------------ *)

Module Viz.
Import Labels Frontier Attribution.

(** Python's [hex] on an [int]. *)
Definition hex (z : Z) : string := HexString.of_Z z.

(** [get_block_status(in_A, in_B)] *)
Definition get_block_status (in_A in_B : bool) : string :=
  if in_B && negb in_A then "new"
  else if in_A && negb in_B then "in_A"
  else if in_A && in_B then "in_both"
  else "neither".

(** An entry of the dict [block_details]; the default of
    [block_details.get] has [None] for both addresses. *)
Record details := Details {
  d_start_va : option Z;
  d_end_va : option Z;
  d_size : Z
}.

(** [block_details[bb_rva] = {'start_va': ..., 'end_va': ..., 'size': end_va - start_va}]
    for the rows of [basic_blocks] of the binary whose [bb_rva] is a covered block. *)
Definition block_details_of (blocks : list Resolver.basic_block) (binary_id : Z)
    (covered : gset Z) : gmap Z details :=
  foldl (λ m b,
           <[Resolver.bb_rva b :=
               Details (Some (Resolver.bb_start_va b)) (Some (Resolver.bb_end_va b))
                       (Resolver.bb_end_va b - Resolver.bb_start_va b)]> m)
        ∅ (filter (λ b, Resolver.bb_binary_id b = binary_id ∧ Resolver.bb_rva b ∈ covered)
                  blocks).

(** [frontier_blocks[bb_rva] = frontier_type] over the binary's rows of
    [frontier_targets]. *)
Definition frontier_blocks_of (frontier_targets : list target) (binary_id : Z)
    : gmap Z frontier_type :=
  foldl (λ m t, <[t_bb_rva t := t_type t]> m) ∅
        (filter (λ t, t_binary_id t = binary_id) frontier_targets).

(** [block_attribution[new_bb_rva] = {'frontier_bb_rva': ..., 'is_shared': bool(...)}]
    over the binary's rows of [bb_attributed_to]. *)
Definition block_attribution_of (bb_attributed_to : list attributed_row) (binary_id : Z)
    : gmap Z (option Z * bool) :=
  foldl (λ m a, <[a_new_bb_rva a := (a_frontier_bb_rva a, a_is_shared a)]> m) ∅
        (filter (λ a, a_binary_id a = binary_id) bb_attributed_to).

(** [hex(v) if v else None]: [None] and [0] are both falsy. *)
Definition hex_if (v : option Z) : option string :=
  match v with
  | Some x => if bool_decide (x ≠ 0) then Some (hex x) else None
  | None => None
  end.

(** The dict [block_obj['attribution']]. *)
Record attribution_obj := AttributionObj {
  is_attributed : bool;
  frontier_bb_rva : option string;
  is_shared : bool
}.

(** The dict [block_obj]. *)
Record block_obj := BlockObj {
  o_bb_rva : string;
  o_bb_start_va : option string;
  o_bb_end_va : option string;
  o_bb_size : Z;
  o_status : string;
  o_is_frontier : bool;
  o_frontier_type : option frontier_type;
  o_attribution : attribution_obj
}.

(** The body of [for bb_rva in func_blocks[func_id].keys()] for the block
    labelled [lbl]. *)
Definition export_block (block_details : gmap Z details)
    (frontier_blocks : gmap Z frontier_type)
    (block_attribution : gmap Z (option Z * bool)) (lbl : label) : block_obj :=
  let bb_rva := l_bb_rva lbl in
  let d := default (Details None None 0) (block_details !! bb_rva) in
  BlockObj (hex bb_rva) (hex_if (d_start_va d)) (hex_if (d_end_va d)) (d_size d)
           (get_block_status (l_in_A lbl) (l_in_B lbl))
           (bool_decide (is_Some (frontier_blocks !! bb_rva)))
           (frontier_blocks !! bb_rva)
           (match block_attribution !! bb_rva with
            | Some attr => AttributionObj true (hex_if attr.1) attr.2
            | None => AttributionObj false None false
            end).

(** The list [blocks_array] of a function of a binary, before sorting. *)
Definition blocks_array (blocks : list Resolver.basic_block) (bb_labels : list label)
    (frontier_targets : list target) (bb_attributed_to : list attributed_row)
    (binary_id func_id : Z) : list block_obj :=
  let mine := filter (λ l, l_binary_id l = binary_id) bb_labels in
  let covered : gset Z := list_to_set (l_bb_rva <$> mine) in
  export_block (block_details_of blocks binary_id covered)
               (frontier_blocks_of frontier_targets binary_id)
               (block_attribution_of bb_attributed_to binary_id)
    <$> filter (λ l, l_func_id l = func_id) mine.

End Viz.

(** ------------------------------------------------------------------ *)
(** * coverage_parser.py: the table [modules]                           *)
(** ------------------------------------------------------------------ *)

Module Modules.

(** A row of [modules (id, name, sha256_hash)]: [id] is
    [INTEGER PRIMARY KEY AUTOINCREMENT], [name] is [UNIQUE]. *)
Record module_row := ModuleRow {
  mod_id : Z;
  mod_name : string;
  mod_sha256_hash : string
}.

(** The table together with the counter that SQLite keeps for an
    [AUTOINCREMENT] column in [sqlite_sequence]. *)
Record modules_table := ModulesTable {
  rows : list module_row;
  seq : Z
}.

(** The id of the next row: one more than the greatest id the table holds
    or has held. *)
Definition next_id (t : modules_table) : Z :=
  1 + foldr Z.max (seq t) (mod_id <$> rows t).

(** A value of the JSON object as [json.load] gives it: a [str], a number
    (an [int] or a [float], here by its literal in the file), [True],
    [False], [None], a [list] or a [dict] (whose contents play no part). *)
Inductive json_value :=
  | JString (s : string)
  | JNumber (literal : string)
  | JTrue
  | JFalse
  | JNull
  | JArray
  | JObject.

(** What SQLite receives for the parameter [sha256_hash], after the [TEXT]
    affinity of the column. *)
Inductive parameter :=
  | Text (s : string)
  | Null.

Section autoincrement.
(** SQLite leaves open whether an insert that is ignored uses up an id. *)
Variable ignored_insert_takes_id : bool.
(** What [sqlite3] makes of the number that Python reads from a literal:
    the text that SQLite converts the number to, NULL for [NaN], and
    [None] for the [OverflowError] of an [int] beyond 64 bits. *)
Variable bind_number : string → option parameter.

(** The binding of the parameter [sha256_hash]; [None]: [sqlite3] raises
    (a [list] or a [dict] is not supported).  A [bool] is bound as the
    integer 1 or 0. *)
Definition bind (sha256_hash : json_value) : option parameter :=
  match sha256_hash with
  | JString s => Some (Text s)
  | JNumber literal => bind_number literal
  | JTrue => Some (Text "1")
  | JFalse => Some (Text "0")
  | JNull => Some Null
  | JArray | JObject => None
  end.

(** The table after an insert that is ignored. *)
Definition ignored (t : modules_table) : modules_table :=
  ModulesTable (rows t) (if ignored_insert_takes_id then next_id t else seq t).

(** [INSERT OR IGNORE INTO modules (name, sha256_hash) VALUES (?, ?)]:
    ignored for a NULL hash ([NOT NULL]) and for a name that the table has
    ([UNIQUE]). *)
Definition insert_or_ignore_module (t : modules_table) (name : string)
    (sha256_hash : parameter) : modules_table :=
  match sha256_hash with
  | Null => ignored t
  | Text hash =>
      if bool_decide (name ∈ mod_name <$> rows t) then ignored t
      else ModulesTable (rows t ++ [ModuleRow (next_id t) name hash]) (next_id t)
  end.

(** [SELECT id FROM modules WHERE name = ?] then [fetchone()]. *)
Definition id_of (t : modules_table) (name : string) : option Z :=
  mod_id <$> head (filter (λ r, mod_name r = name) (rows t)).

(** The body of [for module_name, sha256_hash in modules_data.items()];
    [None]: the binding raises, or [fetchone()[0]] raises [TypeError] when
    no row is found. *)
Definition add_module (st : modules_table * gmap string Z) (item : string * json_value)
    : option (modules_table * gmap string Z) :=
  sha256_hash ← bind item.2;
  let t' := insert_or_ignore_module st.1 item.1 sha256_hash in
  module_id ← id_of t' item.1;
  Some (t', <[item.1 := module_id]> st.2).

(** [create_modules_table]: the table afterwards and the dict
    [module_name_to_id]; [modules_data] is the list of the items of the
    JSON object. *)
Definition create_modules_table (t : modules_table)
    (modules_data : list (string * json_value))
    : option (modules_table * gmap string Z) :=
  foldl (λ acc item, acc ≫= λ st, add_module st item) (Some (t, ∅)) modules_data.

(** The item can be bound, and a NULL belongs to a name of the table. *)
Definition item_ok (t : modules_table) (item : string * json_value) : Prop :=
  ∃ p, bind item.2 = Some p ∧ (p = Null → item.1 ∈ mod_name <$> rows t).
End autoincrement.

(** The primary key: the rows have pairwise different ids. *)
Definition ids_ok (t : modules_table) : Prop := NoDup (mod_id <$> rows t).

End Modules.

(** ------------------------------------------------------------------ *)
(** * coverage_parser.py: the lines of a coverage file                  *)
(** ------------------------------------------------------------------ *)

Module Lines.

(** The characters [\n] (code 10) and [+] (code 43). *)
Definition newline : Ascii.ascii := Ascii.ascii_of_N 10.
Definition plus : Ascii.ascii := Ascii.ascii_of_N 43.

(** The value of a character of [[0-9a-fA-F]]. *)
Definition hex_digit_value (c : Ascii.ascii) : option Z :=
  let n := Z.of_N (Ascii.N_of_ascii c) in
  if bool_decide (48 ≤ n ≤ 57) then Some (n - 48)
  else if bool_decide (97 ≤ n ≤ 102) then Some (n - 87)
  else if bool_decide (65 ≤ n ≤ 70) then Some (n - 55)
  else None.

Definition is_hex (c : Ascii.ascii) : bool := bool_decide (is_Some (hex_digit_value c)).

(** A run of hexadecimal digits. *)
Definition hex_run (d : list Ascii.ascii) : Prop := Forall (λ c, is_hex c = true) d.

(** [int(digits, 16)] on a string of hexadecimal digits; [None] is the
    [ValueError] for any other string. *)
Definition int16 (digits : list Ascii.ascii) : option Z :=
  match digits with
  | [] => None
  | _ => foldl (λ acc c, v ← acc; d ← hex_digit_value c; Some (16 * v + d)) (Some 0) digits
  end.

(** [[0-9a-fA-F]+$] at the start of [s]: [s] is one or more hexadecimal
    digits up to its end, or up to a newline that ends it.  The result is
    the run of digits. *)
Fixpoint hex_to_end (s : list Ascii.ascii) : option (list Ascii.ascii) :=
  match s with
  | [] => None
  | c :: rest =>
      if is_hex c then
        if bool_decide (rest = [] ∨ rest = [newline]) then Some [c]
        else (c ::.) <$> hex_to_end rest
      else None
  end.

(** [^(.+?)\+([0-9a-fA-F]+)$]: the lazy group 1 has taken [group1] and grows
    by one character (any but a newline) until a [+] follows it after which
    the rest matches.  The result is [(group(1), group(2))]. *)
Fixpoint lazy_match (group1 rest : list Ascii.ascii) : option (list Ascii.ascii * list Ascii.ascii) :=
  match rest with
  | [] => None
  | c :: rest' =>
      match (if bool_decide (group1 ≠ [] ∧ c = plus) then hex_to_end rest' else None) with
      | Some group2 => Some (group1, group2)
      | None =>
          if bool_decide (c = newline) then None else lazy_match (group1 ++ [c]) rest'
      end
  end.

(** [pattern.match(line)] *)
Definition pattern_match (line : list Ascii.ascii) : option (list Ascii.ascii * list Ascii.ascii) :=
  lazy_match [] line.

(** The body of [for line in f] up to [value = int(match.group(2), 16)], on
    the line after [line.strip()]: [None] when the line is skipped. *)
Definition parse_line (line : string) : option (string * Z) :=
  if bool_decide (line = "") then None
  else
    groups ← pattern_match (String.list_ascii_of_string line);
    value ← int16 groups.2;
    Some (String.string_of_list_ascii groups.1, value).

(** [parse_coverage_file] on the stripped lines of the file. *)
Definition parse_lines (module_name_to_id : gmap string Z) (lines : list string)
    (tables : list Parser.block_row * list Parser.edge_row)
    : list Parser.block_row * list Parser.edge_row :=
  Parser.parse_coverage_file module_name_to_id (omap parse_line lines) tables.

(** The row of [cov_S_blocks] comes from an entry of a known module whose
    upper half is zero. *)
Definition block_of (ids : gmap string Z) (entries : list (string * Z))
    (row : Parser.block_row) : Prop :=
  ∃ name value, (name, value) ∈ entries ∧ ids !! name = Some row.1
                ∧ Parser.upper_32 value = 0 ∧ row.2 = Parser.lower_32 value.

(** The row of [cov_S_edges] comes from an entry of a known module whose
    upper half is not zero. *)
Definition edge_of (ids : gmap string Z) (entries : list (string * Z))
    (row : Parser.edge_row) : Prop :=
  ∃ name value, (name, value) ∈ entries ∧ ids !! name = Some row.1.1
                ∧ Parser.upper_32 value ≠ 0 ∧ row.1.2 = Parser.upper_32 value
                ∧ row.2 = Parser.lower_32 value.

End Lines.

(** ------------------------------------------------------------------ *)
(** * coverage_analyzer.py: modules to binaries                         *)
(** ------------------------------------------------------------------ *)

Module Mapping.
Import Modules.

(** The columns of the master table [analyzed_binaries] that the analyzer
    reads; [sha256_hash] may be NULL. *)
Record binary_row := BinaryRow {
  ab_binary_id : Z;
  ab_binary_name : string;
  ab_sha256_hash : option string
}.

(** A row of [module_binary_map], primary key [module_id]. *)
Record mapping_row := MappingRow {
  mp_module_id : Z;
  mp_binary_id : Z;
  mp_module_name : string;
  mp_binary_name : string;
  mp_sha256_hash : string
}.

(** [SELECT binary_id, binary_name FROM analyzed_binaries WHERE sha256_hash = ?]
    then [fetchone()]. *)
Definition find_binary (binaries : list binary_row) (sha256_hash : string)
    : option binary_row :=
  head (filter (λ b, ab_sha256_hash b = Some sha256_hash) binaries).

(** The body of [for module_id, module_name, sha256_hash in modules] on
    [(mapping, unmapped)]. *)
Definition map_module (binaries : list binary_row)
    (st : list mapping_row * list module_row) (m : module_row)
    : list mapping_row * list module_row :=
  match find_binary binaries (mod_sha256_hash m) with
  | Some b =>
      (st.1 ++ [MappingRow (mod_id m) (ab_binary_id b) (mod_name m) (ab_binary_name b)
                           (mod_sha256_hash m)], st.2)
  | None => (st.1, st.2 ++ [m])
  end.

(** [map_modules_to_binaries]: the table [module_binary_map] afterwards and
    the returned pair [(len(mapping), unmapped)]. *)
Definition map_modules_to_binaries (modules : list module_row) (binaries : list binary_row)
    (module_binary_map : list mapping_row)
    : list mapping_row * (nat * list module_row) :=
  let '(mapping, unmapped) := foldl (map_module binaries) ([], []) modules in
  (Sql.insert_or_replace_all mp_module_id module_binary_map mapping,
   (length mapping, unmapped)).

(** The row that a module with a known hash gets in the list [mapping]. *)
Definition mapped_row (binaries : list binary_row) (m : module_row) : option mapping_row :=
  (λ b, MappingRow (mod_id m) (ab_binary_id b) (mod_name m) (ab_binary_name b)
                   (mod_sha256_hash m)) <$> find_binary binaries (mod_sha256_hash m).

(** The two columns of the table that the later stages read. *)
Definition to_map_row (r : mapping_row) : Graph.map_row :=
  Graph.MapRow (mp_module_id r) (mp_binary_id r).

End Mapping.

(** ------------------------------------------------------------------ *)
(** * coverage_analyzer.py: coverage joined to basic blocks             *)
(** ------------------------------------------------------------------ *)

Module Join.
Import Expand.

(** The values of ['reason'] in the report of missing blocks. *)
Inductive reason := module_not_mapped | not_found_in_static_analysis.

(** An entry of [missing_blocks]; the key ['binary_id'] is present in the
    second kind of entry only. *)
Record missing_block := Missing {
  ms_module_id : Z;
  ms_binary_id : option Z;
  ms_instruction_rva : Z;
  ms_reason : reason
}.

(** The list [coverage_blocks]: the rows of the blocks table, then, [if
    edges_table], source and destination of every row of the edges table. *)
Definition coverage_blocks (blocks_table : list Parser.block_row)
    (edges_table : option (list Parser.edge_row)) : list (Z * Z) :=
  blocks_table ++
  match edges_table with
  | Some edges => e ← edges; [(e.1.1, e.1.2); (e.1.1, e.2)]
  | None => []
  end.

(** [SELECT binary_id FROM module_binary_map WHERE module_id = ?] then
    [fetchone()]. *)
Definition binary_of (mapping : list Graph.map_row) (module_id : Z) : option Z :=
  Graph.m_binary_id <$> head (filter (λ m, Graph.m_module_id m = module_id) mapping).

(** The state of the loop over the coverage entries (the counters of
    [stats], which are only printed, are left out). *)
Record join_state := JoinState {
  processed_blocks : gset (Z * Z);
  missing_blocks : list missing_block;
  joined_data : list joined_row;
  cache : list Resolver.cache_row
}.

(** The body of [for module_id, instruction_rva in coverage_blocks]. *)
Definition join_entry (blocks : list Resolver.basic_block) (mapping : list Graph.map_row)
    (st : join_state) (entry : Z * Z) : join_state :=
  if decide (entry ∈ processed_blocks st) then st
  else
    let processed := {[entry]} ∪ processed_blocks st in
    match binary_of mapping entry.1 with
    | None =>
        JoinState processed
          (missing_blocks st ++ [Missing entry.1 None entry.2 module_not_mapped])
          (joined_data st) (cache st)
    | Some binary_id =>
        match Resolver.find_containing_basic_block blocks (cache st) binary_id entry.2 with
        | (Some (bb_rva, func_id), cache') =>
            JoinState processed (missing_blocks st)
              (joined_data st ++ [Joined binary_id func_id bb_rva]) cache'
        | (None, cache') =>
            JoinState processed
              (missing_blocks st
                 ++ [Missing entry.1 (Some binary_id) entry.2 not_found_in_static_analysis])
              (joined_data st) cache'
        end
    end.

(** The loop of [join_coverage_to_blocks]. *)
Definition join_entries (blocks : list Resolver.basic_block) (mapping : list Graph.map_row)
    (cache0 : list Resolver.cache_row) (entries : list (Z * Z)) : join_state :=
  foldl (join_entry blocks mapping) (JoinState ∅ [] [] cache0) entries.

(** [join_coverage_to_blocks]: the returned [missing_blocks], the table
    [cov_S_blocks_joined] and the cache afterwards. *)
Definition join_coverage_to_blocks (blocks : list Resolver.basic_block)
    (mapping : list Graph.map_row) (blocks_table : list Parser.block_row)
    (edges_table : option (list Parser.edge_row)) (joined : list joined_row)
    (cache0 : list Resolver.cache_row)
    : list missing_block * list joined_row * list Resolver.cache_row :=
  let st := join_entries blocks mapping cache0 (coverage_blocks blocks_table edges_table) in
  (missing_blocks st, Sql.insert_or_ignore_all joined_key joined (joined_data st), cache st).

(** The coverage entry [(module_id, instruction_rva)] resolves to the block
    [(binary_id, bb_rva)] of function [func_id]. *)
Definition resolves_to (blocks : list Resolver.basic_block) (mapping : list Graph.map_row)
    (entry : Z * Z) (r : joined_row) : Prop :=
  binary_of mapping entry.1 = Some (j_binary_id r) ∧
  Resolver.resolve blocks (j_binary_id r) entry.2 = Some (j_bb_rva r, j_func_id r).

(** The coverage entry has no block: its module is not mapped, or the
    master queries find no block for it. *)
Definition unresolved (blocks : list Resolver.basic_block) (mapping : list Graph.map_row)
    (entry : Z * Z) (m : missing_block) : Prop :=
  ms_module_id m = entry.1 ∧ ms_instruction_rva m = entry.2 ∧
  ((binary_of mapping entry.1 = None ∧ ms_binary_id m = None
    ∧ ms_reason m = module_not_mapped) ∨
   (∃ b, binary_of mapping entry.1 = Some b ∧ Resolver.resolve blocks b entry.2 = None
         ∧ ms_binary_id m = Some b ∧ ms_reason m = not_found_in_static_analysis)).

End Join.

(** ------------------------------------------------------------------ *)
(** * Paths in the executed graph                                       *)
(** ------------------------------------------------------------------ *)

Module Paths.
Import Graph.

(** [graph_B_edges] has an edge of the binary from [x] to [y], of any type. *)
Definition edge_step (graph_B_edges : list edge) (binary_id : Z) (x y : Z) : Prop :=
  ∃ e, e ∈ graph_B_edges ∧ e_binary_id e = binary_id ∧ e_src e = x ∧ e_dst e = y.

(** [y] is reached from [x] along zero or more edges of the binary. *)
Definition path (graph_B_edges : list edge) (binary_id : Z) : Z → Z → Prop :=
  rtc (edge_step graph_B_edges binary_id).

(** What holds of [(queue, visited, reachable_new)] at every iteration of
    the BFS from [start] over the pairs [edges]. *)
Record bfs_inv (edges : list (Z * Z)) (new_blocks : gset Z) (start : Z)
    (queue : list Z) (visited reachable_new : gset Z) : Prop := BfsInv {
  inv_queue : ∀ q, q ∈ queue → q ∈ visited;
  inv_sound : ∀ v, v ∈ visited → rtc (λ x y, (x, y) ∈ edges) start v;
  inv_start : start ∈ visited;
  inv_done : ∀ v, v ∈ visited →
    v ∈ queue ∨
    ((∀ w, (v, w) ∈ edges → w ∈ visited) ∧ (v ∈ new_blocks → v ∈ reachable_new));
  inv_new : ∀ n, n ∈ reachable_new → n ∈ new_blocks ∧ n ∈ visited
}.

End Paths.

(** ------------------------------------------------------------------ *)
(** * export_viz_data.py: statuses and statistics                       *)
(** ------------------------------------------------------------------ *)

Module Status.
Import Labels Graph Viz.

(** [get_function_status(blocks_status)]; [blocks_status] is a dict from
    [bb_rva] to the status of the block. *)
Definition get_function_status (blocks_status : gmap Z string) : string :=
  let statuses : gset string := list_to_set (snd <$> map_to_list blocks_status) in
  if decide ("new" ∈ statuses) then
    if decide (size statuses = 1%nat) then "new" else "changed"
  else "old".

(** The status of a labelled block, [get_block_status(in_A, in_B)]. *)
Definition status_of (l : label) : string := get_block_status (l_in_A l) (l_in_B l).

(** The dict [covered_blocks] of a binary: [bb_rva] to the row of
    [bb_labels]. *)
Definition covered_blocks_of (bb_labels : list label) (binary_id : Z) : gmap Z label :=
  foldl (λ m l, <[l_bb_rva l := l]> m) ∅
        (filter (λ l, l_binary_id l = binary_id) bb_labels).

(** [func_blocks[func_id]]: the statuses of the covered blocks of a function. *)
Definition func_blocks_of (covered_blocks : gmap Z label) (func_id : Z) : gmap Z string :=
  status_of <$> filter (λ kv, l_func_id kv.2 = func_id) covered_blocks.

(** [covered_func_ids = set(func_blocks.keys())] *)
Definition covered_func_ids (covered_blocks : gmap Z label) : gset Z :=
  list_to_set (l_func_id <$> (snd <$> map_to_list covered_blocks)).

(** [functions_data[func_id]['status']] over the rows of [functions] of
    the binary whose [func_id] is a covered function. *)
Definition function_statuses (fns : list function_row) (covered_blocks : gmap Z label)
    (binary_id : Z) : gmap Z string :=
  foldl (λ m f, <[fn_func_id f :=
                    get_function_status (func_blocks_of covered_blocks (fn_func_id f))]> m)
        ∅
        (filter (λ f, fn_binary_id f = binary_id
                      ∧ fn_func_id f ∈ covered_func_ids covered_blocks) fns).

(** [sum(1 for x in xs if x == status)] *)
Definition count (status : string) (statuses : list string) : nat :=
  length (filter (λ s, s = status) statuses).

(** The dict [module_obj['statistics']]. *)
Record statistics := Statistics {
  total_functions : nat;
  new_functions : nat;
  changed_functions : nat;
  old_functions : nat;
  total_blocks : nat;
  new_blocks : nat;
  blocks_in_A : nat;
  blocks_in_B : nat
}.

(** The module-level statistics of [export_module_data]. *)
Definition module_statistics (fns : list function_row) (bb_labels : list label)
    (binary_id : Z) : statistics :=
  let covered_blocks := covered_blocks_of bb_labels binary_id in
  let blocks := snd <$> map_to_list covered_blocks in
  let functions_data := snd <$> map_to_list (function_statuses fns covered_blocks binary_id) in
  Statistics (length functions_data) (count "new" functions_data)
             (count "changed" functions_data) (count "old" functions_data)
             (length blocks) (count "new" (status_of <$> blocks))
             (length (filter (λ l, l_in_A l = true) blocks))
             (length (filter (λ l, l_in_B l = true) blocks)).

(** [module_status] *)
Definition module_status (st : statistics) : string :=
  if decide (0 < new_functions st ∨ 0 < changed_functions st)%nat then
    if decide (new_functions st = total_functions st) then "new" else "changed"
  else "old".

End Status.

(** ------------------------------------------------------------------ *)
(** * coverage_analyzer.py: the counters of [frontier_attribution]      *)
(** ------------------------------------------------------------------ *)

Module Counters.
Import Labels Graph Frontier Reach Attribution.

(** An entry of [frontier_attribution_map]:
    [{'unique': set(), 'shared': set(), 'funcs': set()}]. *)
Record bucket := Bucket {
  unique : gset Z;
  shared : gset Z;
  funcs : gset Z
}.

(** The entry that the [defaultdict] makes at the first access. *)
Definition empty_bucket : bucket := Bucket ∅ ∅ ∅.

(** [frontier_attribution_map[frontier]['unique'].add(new_bb)] and
    [...['funcs'].add(func_id)]. *)
Definition add_unique (m : gmap Z bucket) (frontier new_bb func_id : Z) : gmap Z bucket :=
  let d := default empty_bucket (m !! frontier) in
  <[frontier := Bucket ({[new_bb]} ∪ unique d) (shared d) ({[func_id]} ∪ funcs d)]> m.

(** [frontier_attribution_map[frontier]['shared'].add(new_bb)] and
    [...['funcs'].add(func_id)]. *)
Definition add_shared (m : gmap Z bucket) (frontier new_bb func_id : Z) : gmap Z bucket :=
  let d := default empty_bucket (m !! frontier) in
  <[frontier := Bucket (unique d) ({[new_bb]} ∪ shared d) ({[func_id]} ∪ funcs d)]> m.

(** The body of [for new_bb, frontiers in new_block_to_frontiers.items()],
    as far as [frontier_attribution_map] is concerned; [new_blocks[new_bb]]
    raises [KeyError] ([None]) for a block that is not new. *)
Definition count_block (new_blocks : gmap Z Z) (m : gmap Z bucket) (new_bb : Z)
    (frontiers : list Z) : option (gmap Z bucket) :=
  func_id ← new_blocks !! new_bb;
  match frontiers with
  | [frontier] => Some (add_unique m frontier new_bb func_id)
  | _ => Some (foldl (λ m' frontier, add_shared m' frontier new_bb func_id) m frontiers)
  end.

(** The dict [frontier_attribution_map] of one binary. *)
Definition frontier_attribution_map (new_blocks : gmap Z Z)
    (new_block_to_frontiers : gmap Z (list Z)) : option (gmap Z bucket) :=
  foldl (λ (acc : option (gmap Z bucket)) item,
           m ← acc; count_block new_blocks m item.1 item.2)
        (Some ∅) (map_to_list new_block_to_frontiers).

(** A row of [frontier_attribution], primary key
    [(binary_id, frontier_bb_rva)]. *)
Record attribution_count := AttributionCount {
  fa_binary_id : Z;
  fa_frontier_bb_rva : Z;
  fa_attributed_new_bb_count : nat;
  fa_unique_new_bb_count : nat;
  fa_shared_new_bb_count : nat;
  fa_attributed_new_func_count : nat
}.

Definition count_key (r : attribution_count) : Z * Z :=
  (fa_binary_id r, fa_frontier_bb_rva r).

(** The list [attr_data] of one binary. *)
Definition attr_data (binary_id : Z) (m : gmap Z bucket) : list attribution_count :=
  (λ item, AttributionCount binary_id item.1
             (size (unique item.2) + size (shared item.2))
             (size (unique item.2)) (size (shared item.2)) (size (funcs item.2)))
    <$> map_to_list m.

(** The body of [for (binary_id,) in binaries], as far as
    [frontier_attribution] is concerned. *)
Definition count_binary (bb_labels : list label) (frontier_reachability : list reach_row)
    (table : list attribution_count) (binary_id : Z) : option (list attribution_count) :=
  m ← frontier_attribution_map (new_block_funcs bb_labels binary_id)
                               (group_frontiers frontier_reachability binary_id);
  Some (Sql.insert_or_replace_all count_key table (attr_data binary_id m)).

(** [compute_attribution], as far as [frontier_attribution] is concerned:
    [None] is the [KeyError]. *)
Definition compute_frontier_attribution (graph_B_nodes : list node)
    (bb_labels : list label) (frontier_reachability : list reach_row)
    (frontier_attribution : list attribution_count) : option (list attribution_count) :=
  foldl (λ acc binary_id,
           acc ≫= λ table, count_binary bb_labels frontier_reachability table binary_id)
        (Some frontier_attribution) (node_binaries graph_B_nodes).

(** *** The sets that the counters count *)

(** The blocks that the rows of [frontier_reachability] give the frontier. *)
Definition reached_by (frontier_reachability : list reach_row) (binary_id frontier : Z)
    : gset Z :=
  list_to_set (r_new_bb_rva <$>
                 filter (λ r, r_binary_id r = binary_id ∧ r_frontier_bb_rva r = frontier)
                        frontier_reachability).

(** Those of them that no other frontier reaches, and the others. *)
Definition reached_alone (frontier_reachability : list reach_row) (binary_id frontier : Z)
    : gset Z :=
  filter (λ n, frontiers_of frontier_reachability binary_id n = [frontier])
         (reached_by frontier_reachability binary_id frontier).

Definition reached_with_others (frontier_reachability : list reach_row)
    (binary_id frontier : Z) : gset Z :=
  filter (λ n, frontiers_of frontier_reachability binary_id n ≠ [frontier])
         (reached_by frontier_reachability binary_id frontier).

(** The functions of the reached blocks. *)
Definition reached_funcs (bb_labels : list label) (frontier_reachability : list reach_row)
    (binary_id frontier : Z) : gset Z :=
  list_to_set (omap (λ n, new_block_funcs bb_labels binary_id !! n)
                    (elements (reached_by frontier_reachability binary_id frontier))).

(** The row has the counts of its frontier. *)
Definition counts_ok (bb_labels : list label) (frontier_reachability : list reach_row)
    (row : attribution_count) : Prop :=
  fa_unique_new_bb_count row
  = size (reached_alone frontier_reachability (fa_binary_id row) (fa_frontier_bb_rva row)) ∧
  fa_shared_new_bb_count row
  = size (reached_with_others frontier_reachability (fa_binary_id row)
            (fa_frontier_bb_rva row)) ∧
  fa_attributed_new_bb_count row
  = size (reached_by frontier_reachability (fa_binary_id row) (fa_frontier_bb_rva row)) ∧
  fa_attributed_new_func_count row
  = size (reached_funcs bb_labels frontier_reachability (fa_binary_id row)
            (fa_frontier_bb_rva row)).

(** What the fold over the items of [new_block_to_frontiers] keeps: the
    buckets hold what the items seen so far give them. *)
Record buckets_ok (new_blocks : gmap Z Z) (items : list (Z * list Z))
    (m : gmap Z bucket) : Prop := BucketsOk {
  b_unique : ∀ f n, n ∈ unique (default empty_bucket (m !! f)) ↔ (n, [f]) ∈ items;
  b_shared : ∀ f n, n ∈ shared (default empty_bucket (m !! f)) ↔
                    ∃ fs, (n, fs) ∈ items ∧ f ∈ fs ∧ length fs ≠ 1%nat;
  b_funcs : ∀ f g, g ∈ funcs (default empty_bucket (m !! f)) ↔
                   ∃ n fs, (n, fs) ∈ items ∧ f ∈ fs ∧ new_blocks !! n = Some g;
  b_keys : ∀ f, is_Some (m !! f) ↔ ∃ n fs, (n, fs) ∈ items ∧ f ∈ fs
}.

End Counters.

(** ------------------------------------------------------------------ *)
(** * coverage_analyzer.py: the numbers of [print_summary]              *)
(** ------------------------------------------------------------------ *)

Module Summary.
Import Labels Frontier Reach Attribution.

(** [SELECT COUNT( * ) FROM ...] *)
Definition count {A} (rows : list A) : Z := Z.of_nat (length rows).

(** The numbers that [print_summary] prints under "Frontier
    Classification" and "Overall Statistics" (the ten rows of
    [function_unlock_scores] between them are not part of this embedding). *)
Record summary := SummaryOf {
  strong_count : Z;
  weak_count : Z;
  total_frontier : Z;
  total_new : Z;
  total_attributed : Z;
  unique_attributed : Z;
  shared_attributed : Z;
  unattributed : Z
}.

Definition print_summary (frontier_targets : list target) (bb_labels : list label)
    (bb_attributed_to : list attributed_row) : summary :=
  let strong_count := count (filter (λ t, t_type t = strong) frontier_targets) in
  let weak_count := count (filter (λ t, t_type t = weak) frontier_targets) in
  let total_new := count (filter (λ l, l_is_new l = true) bb_labels) in
  let total_attributed := count bb_attributed_to in
  let unique_attributed := count (filter (λ a, a_is_shared a = false) bb_attributed_to) in
  let shared_attributed := count (filter (λ a, a_is_shared a = true) bb_attributed_to) in
  SummaryOf strong_count weak_count (strong_count + weak_count)
            total_new total_attributed unique_attributed shared_attributed
            (total_new - total_attributed).

(** The new blocks whose list F(n) satisfies [P]. *)
Definition new_blocks_with (P : list Z → Prop) `{!∀ fs, Decision (P fs)}
    (bb_labels : list label) (frontier_reachability : list reach_row) : list label :=
  filter (λ l, l_is_new l = true ∧
               P (frontiers_of frontier_reachability (l_binary_id l) (l_bb_rva l)))
         bb_labels.

End Summary.

(** ================================================================== *)
(** * Properties                                                        *)
(** ================================================================== *)

(** ------------------------------------------------------------------ *)
(** ** SQL tables                                                       *)
(** ------------------------------------------------------------------ *)

Module SqlFacts.
Import Sql.
Section pk.
Context {Row Key : Type} `{!EqDecision Key} (key : Row → Key).

Lemma has_key_true (t : list Row) k : has_key key t k = true ↔ k ∈ key <$> t.
Proof. unfold has_key. apply bool_decide_eq_true. Qed.

Lemma has_key_false (t : list Row) k : has_key key t k = false ↔ k ∉ key <$> t.
Proof. unfold has_key. apply bool_decide_eq_false. Qed.

Lemma insert_all_nil (t : list Row) : insert_all key t [] = Some t.
Proof. reflexivity. Qed.

Lemma insert_all_cons (t : list Row) r rs :
  insert_all key t (r :: rs) = insert key t r ≫= λ t', insert_all key t' rs.
Proof.
  unfold insert_all. simpl. destruct (insert key t r) as [t'|]; simpl; [done|].
  induction rs as [|r' rs IH]; simpl; [done|]. exact IH.
Qed.

(** A plain bulk insert succeeds exactly when it meets no key twice; it
    then appends the rows. *)
Lemma insert_all_Some (t rs t' : list Row) :
  insert_all key t rs = Some t' ↔
  t' = t ++ rs ∧ NoDup (key <$> rs) ∧ (∀ r, r ∈ rs → key r ∉ key <$> t).
Proof.
  revert t. induction rs as [|r rs IH]; intros t.
  - rewrite insert_all_nil, app_nil_r. split.
    + intros [= ->]. split_and!; [done|constructor|]. intros r Hr. inversion Hr.
    + intros (-> & _ & _). done.
  - rewrite insert_all_cons. unfold insert at 1.
    destruct (has_key key t (key r)) eqn:Hk.
    + apply has_key_true in Hk. split; [done|].
      intros (_ & _ & Hfresh). exfalso. apply (Hfresh r); [left|done].
    + apply has_key_false in Hk. cbn [mbind option_bind]. rewrite IH, <- app_assoc.
      change ([r] ++ rs) with (r :: rs). rewrite fmap_cons, NoDup_cons. split.
      * intros (-> & Hnd & Hfresh). split_and!; [done| |done|].
        -- intros Hin. apply list_elem_of_fmap in Hin as (r' & Heq & Hr').
           apply (Hfresh r' Hr'). rewrite fmap_app. apply elem_of_app. right.
           rewrite <- Heq. simpl. left.
        -- intros r' Hr'. apply elem_of_cons in Hr' as [->|Hr']; [done|].
           intros Hin. apply (Hfresh r' Hr'). rewrite fmap_app. apply elem_of_app. by left.
      * intros (-> & [Hnotin Hnd] & Hfresh). split_and!; [done|done|].
        intros r' Hr'. rewrite fmap_app, elem_of_app. intros [Hin|Hin].
        -- apply (Hfresh r'); [by right|done].
        -- simpl in Hin. apply list_elem_of_singleton in Hin.
           apply Hnotin. rewrite <- Hin. apply list_elem_of_fmap. eauto.
Qed.

Lemma insert_all_fresh (rs t' : list Row) :
  insert_all key [] rs = Some t' → t' = rs ∧ NoDup (key <$> rs).
Proof. rewrite insert_all_Some. simpl. naive_solver. Qed.

Lemma insert_or_ignore_all_snoc (t rs : list Row) r :
  insert_or_ignore_all key t (rs ++ [r])
  = insert_or_ignore key (insert_or_ignore_all key t rs) r.
Proof. unfold insert_or_ignore_all. by rewrite foldl_app. Qed.

(** What [INSERT OR IGNORE] leaves in the table. *)
Lemma elem_of_insert_or_ignore (t : list Row) r x :
  x ∈ insert_or_ignore key t r ↔ x ∈ t ∨ (x = r ∧ key r ∉ key <$> t).
Proof.
  unfold insert_or_ignore. destruct (has_key key t (key r)) eqn:Hk.
  - apply has_key_true in Hk. naive_solver.
  - apply has_key_false in Hk. rewrite elem_of_app, list_elem_of_singleton. naive_solver.
Qed.

Lemma insert_or_ignore_all_incl (t rs : list Row) x :
  x ∈ insert_or_ignore_all key t rs → x ∈ t ∨ x ∈ rs.
Proof.
  induction rs as [|r rs IH] using rev_ind; [by left|].
  rewrite insert_or_ignore_all_snoc, elem_of_insert_or_ignore, elem_of_app,
    list_elem_of_singleton. naive_solver.
Qed.

Lemma insert_or_ignore_all_keep (t rs : list Row) x :
  x ∈ t → x ∈ insert_or_ignore_all key t rs.
Proof.
  intros Hx. induction rs as [|r rs IH] using rev_ind; [done|].
  rewrite insert_or_ignore_all_snoc, elem_of_insert_or_ignore. by left.
Qed.

Lemma insert_or_ignore_all_keys (t rs : list Row) k :
  k ∈ key <$> insert_or_ignore_all key t rs ↔ k ∈ key <$> t ∨ k ∈ key <$> rs.
Proof.
  revert k. induction rs as [|r rs IH] using rev_ind; intros k.
  - simpl. split; [by left|]. intros [?|H]; [done|]. inversion H.
  - rewrite insert_or_ignore_all_snoc. unfold insert_or_ignore.
    destruct (has_key key _ (key r)) eqn:Hk.
    + apply has_key_true in Hk. rewrite IH. rewrite fmap_app, elem_of_app. simpl.
      rewrite list_elem_of_singleton. rewrite IH in Hk. naive_solver.
    + rewrite !fmap_app, !elem_of_app, IH. naive_solver.
Qed.

Lemma insert_or_ignore_all_pk_ok (t rs : list Row) :
  pk_ok key t → pk_ok key (insert_or_ignore_all key t rs).
Proof.
  unfold pk_ok. intros Ht. induction rs as [|r rs IH] using rev_ind; [done|].
  rewrite insert_or_ignore_all_snoc. unfold insert_or_ignore.
  destruct (has_key key _ (key r)) eqn:Hk; [done|].
  apply has_key_false in Hk. rewrite fmap_app. apply NoDup_app. split_and!; [done| |].
  - intros k Hk1 Hk2. simpl in Hk2. apply list_elem_of_singleton in Hk2. by subst.
  - simpl. apply NoDup_singleton.
Qed.

(** A bulk [INSERT OR IGNORE] of rows with pairwise different keys adds
    exactly the rows whose key was not in the table. *)
Lemma elem_of_insert_or_ignore_all (t rs : list Row) x :
  NoDup (key <$> rs) →
  x ∈ insert_or_ignore_all key t rs ↔ x ∈ t ∨ (x ∈ rs ∧ key x ∉ key <$> t).
Proof.
  induction rs as [|r rs IH] using rev_ind; intros Hnd.
  - simpl. split; [by left|]. intros [?|[Hx _]]; [done|inversion Hx].
  - rewrite fmap_app in Hnd. apply NoDup_app in Hnd as (Hnd & Hr & _).
    rewrite insert_or_ignore_all_snoc, elem_of_insert_or_ignore, IH by done.
    rewrite insert_or_ignore_all_keys, elem_of_app, list_elem_of_singleton.
    split.
    + intros [[?|[? ?]]|[-> Hk]]; [by left|by right; auto|]. right. split; [by right|].
      intros ?. apply Hk. by left.
    + intros [?|[[?| ->] Hk]]; [by left; left|by left; right|].
      right. split; [done|]. intros [?|Hin]; [done|].
      apply (Hr (key r) Hin). simpl. left.
Qed.

Lemma insert_or_replace_all_snoc (t rs : list Row) r :
  insert_or_replace_all key t (rs ++ [r])
  = insert_or_replace key (insert_or_replace_all key t rs) r.
Proof. unfold insert_or_replace_all. by rewrite foldl_app. Qed.

(** What [INSERT OR REPLACE] leaves in the table. *)
Lemma elem_of_insert_or_replace (t : list Row) r x :
  x ∈ insert_or_replace key t r ↔ (x ∈ t ∧ key x ≠ key r) ∨ x = r.
Proof.
  unfold insert_or_replace.
  rewrite elem_of_app, list_elem_of_filter, list_elem_of_singleton. tauto.
Qed.

Lemma insert_or_replace_pk_ok (t : list Row) r :
  pk_ok key t → pk_ok key (insert_or_replace key t r).
Proof.
  unfold pk_ok, insert_or_replace. intros Ht. rewrite fmap_app.
  apply NoDup_app. split_and!.
  - induction t as [|y t IH]; [constructor|]. rewrite fmap_cons in Ht.
    apply NoDup_cons in Ht as [Hy Ht]. rewrite filter_cons. case_decide; [|auto].
    rewrite fmap_cons. apply NoDup_cons. split; [|auto].
    intros (z & Hz & [_ Hin]%list_elem_of_filter)%list_elem_of_fmap.
    apply Hy. apply list_elem_of_fmap. eauto.
  - intros k (z & -> & [Hne _]%list_elem_of_filter)%list_elem_of_fmap
             Hk%list_elem_of_singleton. done.
  - apply NoDup_singleton.
Qed.

Lemma insert_or_replace_all_pk_ok (t rs : list Row) :
  pk_ok key t → pk_ok key (insert_or_replace_all key t rs).
Proof.
  intros Ht. induction rs as [|r rs IH] using rev_ind; [done|].
  rewrite insert_or_replace_all_snoc. by apply insert_or_replace_pk_ok.
Qed.

(** A bulk [INSERT OR REPLACE] of rows with pairwise different keys. *)
Lemma elem_of_insert_or_replace_all (t rs : list Row) x :
  NoDup (key <$> rs) →
  x ∈ insert_or_replace_all key t rs ↔ (x ∈ t ∧ key x ∉ key <$> rs) ∨ x ∈ rs.
Proof.
  induction rs as [|r rs IH] using rev_ind; intros Hnd.
  - simpl. split; [|by intros [[? _]|Hx]; [|inversion Hx]].
    intros Hx. left. split; [done|]. intros Hk. inversion Hk.
  - rewrite fmap_app in Hnd. apply NoDup_app in Hnd as (Hnd & Hr & _).
    rewrite insert_or_replace_all_snoc, elem_of_insert_or_replace, IH by done.
    rewrite fmap_app, !elem_of_app, list_elem_of_singleton. simpl.
    rewrite list_elem_of_singleton. split.
    + intros [[[[? ?]|?] ?]| ->]; [left|right; by left|right; by right].
      split; [done|]. intros [?|?]; done.
    + intros [[? Hk]|[?| ->]]; [left|left|by right].
      * split; [|by intros ?; apply Hk; right]. left. split; [done|].
        intros ?. apply Hk. by left.
      * split; [by right|]. intros Heq. apply (Hr (key x)).
        -- apply list_elem_of_fmap. eauto.
        -- rewrite Heq. left.
Qed.

(** Under a primary key a key selects at most one row. *)
Lemma filter_key_unique (t : list Row) x :
  pk_ok key t → x ∈ t → filter (λ y, key y = key x) t = [x].
Proof.
  unfold pk_ok. induction t as [|y t IH]; intros Hnd Hx; [inversion Hx|].
  rewrite fmap_cons in Hnd. apply NoDup_cons in Hnd as [Hy Hnd].
  rewrite filter_cons. apply elem_of_cons in Hx as [->|Hx].
  - rewrite decide_True by done. f_equal.
    destruct (filter (λ y0, key y0 = key y) t) as [|z l] eqn:E; [done|].
    assert (z ∈ filter (λ y0, key y0 = key y) t) as Hz by (rewrite E; left).
    apply list_elem_of_filter in Hz as [Hk Hz]. exfalso. apply Hy.
    rewrite <- Hk. apply list_elem_of_fmap. eauto.
  - rewrite decide_False; [auto|]. intros Heq. apply Hy. rewrite Heq.
    apply list_elem_of_fmap. eauto.
Qed.

Lemma filter_key_none (t : list Row) k :
  (∀ x, x ∈ t → key x ≠ k) → filter (λ y, key y = k) t = [].
Proof.
  intros H. destruct (filter (λ y, key y = k) t) as [|z l] eqn:E; [done|].
  assert (z ∈ filter (λ y, key y = k) t) as Hz by (rewrite E; left).
  apply list_elem_of_filter in Hz as [Hk Hz]. by destruct (H z Hz).
Qed.

End pk.

(** With the whole row as key, [INSERT OR IGNORE] is set union. *)
Lemma elem_of_insert_or_ignore_all_id {Row : Type} `{!EqDecision Row}
    (t rs : list Row) x :
  x ∈ insert_or_ignore_all id t rs ↔ x ∈ t ∨ x ∈ rs.
Proof.
  split; [apply insert_or_ignore_all_incl|].
  intros Hx.
  assert (id x ∈ id <$> insert_or_ignore_all id t rs) as H.
  { apply insert_or_ignore_all_keys. rewrite !list_fmap_id. done. }
  by rewrite list_fmap_id in H.
Qed.

Lemma insert_or_ignore_all_id_NoDup {Row : Type} `{!EqDecision Row} (t rs : list Row) :
  NoDup t → NoDup (insert_or_ignore_all id t rs).
Proof.
  intros Ht. pose proof (insert_or_ignore_all_pk_ok id t rs) as H.
  unfold pk_ok in H. rewrite !list_fmap_id in H. auto.
Qed.

End SqlFacts.

(** ------------------------------------------------------------------ *)
(** ** The coverage parser                                              *)
(** ------------------------------------------------------------------ *)

Module ParserFacts.
Import Parser.

Lemma lower_32_mod value : lower_32 value = value mod 2 ^ 32.
Proof. unfold lower_32. change 0xFFFFFFFF with (Z.ones 32). by rewrite Z.land_ones. Qed.

Lemma upper_32_div value :
  0 ≤ value < 2 ^ 64 → upper_32 value = value / 2 ^ 32.
Proof.
  intros Hv. unfold upper_32. change 0xFFFFFFFF with (Z.ones 32).
  rewrite Z.land_ones, Z.shiftr_div_pow2 by lia.
  apply Z.mod_small. split.
  - apply Z.div_pos; lia.
  - apply Z.div_lt_upper_bound; lia.
Qed.

Lemma split_join value :
  0 ≤ value < 2 ^ 64 → value = upper_32 value * 2 ^ 32 + lower_32 value.
Proof.
  intros Hv. rewrite upper_32_div, lower_32_mod by done.
  pose proof (Z.div_mod value (2 ^ 32)). lia.
Qed.

(** The lists [blocks_data] and [edges_data] only grow. *)
Lemma parse_entry_mono ids st entry :
  (∀ x, x ∈ st.1 → x ∈ (parse_entry ids st entry).1) ∧
  (∀ x, x ∈ st.2 → x ∈ (parse_entry ids st entry).2).
Proof.
  destruct st as [bs es], entry as [name value]. unfold parse_entry.
  destruct (ids !! name); [|done].
  case_bool_decide; simpl; split; intros x Hx; try done; apply elem_of_app; by left.
Qed.

Lemma parse_entries_mono ids entries st :
  (∀ x, x ∈ st.1 → x ∈ (foldl (parse_entry ids) st entries).1) ∧
  (∀ x, x ∈ st.2 → x ∈ (foldl (parse_entry ids) st entries).2).
Proof.
  revert st. induction entries as [|e entries IH]; intros st; [done|].
  simpl. destruct (IH (parse_entry ids st e)) as [IH1 IH2].
  destruct (parse_entry_mono ids st e) as [H1 H2]. split; auto.
Qed.

(** What one line with a known module appends. *)
Lemma parse_entry_known ids bs es name value module_id :
  ids !! name = Some module_id →
  parse_entry ids (bs, es) (name, value) =
    if bool_decide (upper_32 value ≠ 0)
    then (bs, es ++ [(module_id, upper_32 value, lower_32 value)])
    else (bs ++ [(module_id, lower_32 value)], es).
Proof. intros H. unfold parse_entry. by rewrite H. Qed.

Lemma parse_entries_row ids entries st name value module_id :
  (name, value) ∈ entries → ids !! name = Some module_id →
  let data := foldl (parse_entry ids) st entries in
  (upper_32 value ≠ 0 → (module_id, upper_32 value, lower_32 value) ∈ data.2) ∧
  (upper_32 value = 0 → (module_id, lower_32 value) ∈ data.1).
Proof.
  intros Hin Hid. revert st. induction entries as [|e entries IH]; intros st.
  { inversion Hin. }
  apply elem_of_cons in Hin as [<-|Hin]; [|apply (IH Hin)].
  simpl. destruct st as [bs es]. rewrite (parse_entry_known _ _ _ _ _ _ Hid).
  case_bool_decide as Hu.
  - split; [|done]. intros _. apply parse_entries_mono. simpl.
    apply elem_of_app. right. apply list_elem_of_singleton. done.
  - split; [done|]. intros _. apply parse_entries_mono. simpl.
    apply elem_of_app. right. apply list_elem_of_singleton. done.
Qed.

(** C8.  A line of a coverage file with a known module and a 64-bit value
    [v] is split into [upper = v / 2^32] (the high 32 bits) and
    [lower = v mod 2^32] (the low 32 bits), with [v = upper * 2^32 + lower];
    when [upper] is not zero the row [(module_id, upper, lower)] is in
    [cov_S_edges] after the import, and when it is zero the row
    [(module_id, lower)] is in [cov_S_blocks]. *)
Theorem parse_coverage_file_split ids entries tables name value module_id :
  (name, value) ∈ entries →
  ids !! name = Some module_id →
  0 ≤ value < 2 ^ 64 →
  let upper := value / 2 ^ 32 in
  let lower := value mod 2 ^ 32 in
  let result := parse_coverage_file ids entries tables in
  upper_32 value = upper ∧ lower_32 value = lower ∧
  value = upper * 2 ^ 32 + lower ∧
  (upper ≠ 0 → (module_id, upper, lower) ∈ result.2) ∧
  (upper = 0 → (module_id, lower) ∈ result.1).
Proof.
  intros Hin Hid Hv upper lower result.
  pose proof (upper_32_div value Hv) as Hup.
  pose proof (lower_32_mod value) as Hlo.
  pose proof (split_join value Hv) as Hsplit.
  destruct (parse_entries_row ids entries ([], []) name value module_id Hin Hid)
    as [He Hb].
  subst upper lower result. rewrite <- Hup, <- Hlo.
  split_and!; [done|done|done| |].
  - intros Hne. specialize (He Hne). unfold parse_coverage_file.
    destruct (foldl (parse_entry ids) ([], []) entries) as [bs es]. simpl in *.
    apply SqlFacts.elem_of_insert_or_ignore_all_id. by right.
  - intros Hz. specialize (Hb Hz). unfold parse_coverage_file.
    destruct (foldl (parse_entry ids) ([], []) entries) as [bs es]. simpl in *.
    apply SqlFacts.elem_of_insert_or_ignore_all_id. by right.
Qed.

(** The theorem at the line [mod.dll+100000003000]: an indirect edge from
    RVA [0x1000] to RVA [0x3000]. *)
Lemma parse_coverage_file_split_witness :
  let value := 0x100000003000 in
  let result := parse_coverage_file {["mod.dll" := 5]} [("mod.dll", value)] ([], []) in
  ("mod.dll", value) ∈ [("mod.dll", value)] ∧
  ({["mod.dll" := 5]} : gmap string Z) !! "mod.dll" = Some 5 ∧
  0 ≤ value < 2 ^ 64 ∧
  upper_32 value = 0x1000 ∧ lower_32 value = 0x3000 ∧
  (5, 0x1000, 0x3000) ∈ result.2.
Proof.
  assert (("mod.dll", 0x100000003000) ∈ [("mod.dll", 0x100000003000)]) as Hin
    by (apply list_elem_of_singleton; reflexivity).
  assert (0 ≤ 0x100000003000 < 2 ^ 64) as Hv by lia.
  assert (({["mod.dll" := 5]} : gmap string Z) !! "mod.dll" = Some 5) as Hid
    by apply lookup_singleton_eq.
  destruct (parse_coverage_file_split {["mod.dll" := 5]}
              [("mod.dll", 0x100000003000)] ([], []) "mod.dll" 0x100000003000 5
              Hin Hid Hv) as (Hu & Hl & _ & He & _).
  split; [exact Hin|]. split; [exact Hid|]. split; [exact Hv|].
  split; [exact Hu|]. split; [exact Hl|].
  apply He. discriminate.
Defined.

End ParserFacts.

(** ------------------------------------------------------------------ *)
(** ** fetchone() on a filtered table                                   *)
(** ------------------------------------------------------------------ *)

Module ListFacts.
Section head_filter.
Context {A : Type} (P : A → Prop) `{Pdec : !∀ x, Decision (P x)}.

Lemma head_filter_Some (l : list A) x : head (filter P l) = Some x → x ∈ l ∧ P x.
Proof.
  intros H. apply head_Some_elem_of in H. apply list_elem_of_filter in H. tauto.
Qed.

Lemma head_filter_None (l : list A) : head (filter P l) = None ↔ ∀ x, x ∈ l → ¬ P x.
Proof.
  rewrite head_None. split.
  - intros H x Hx HP. by apply (filter_nil_not_elem_of P l x).
  - intros H. destruct (filter P l) as [|y l'] eqn:E; [done|].
    assert (y ∈ filter P l) as Hy by (rewrite E; left).
    apply list_elem_of_filter in Hy as [HP Hy]. by destruct (H y Hy).
Qed.

Lemma head_filter_is_Some (l : list A) x : x ∈ l → P x → is_Some (head (filter P l)).
Proof.
  intros Hx HP. destruct (head (filter P l)) eqn:E; [eauto|].
  rewrite head_filter_None in E. by destruct (E x Hx).
Qed.

(** When a single row satisfies the condition, [fetchone] returns it. *)
Lemma head_filter_unique (l : list A) x :
  x ∈ l → P x → (∀ y, y ∈ l → P y → y = x) → head (filter P l) = Some x.
Proof.
  intros Hx HP Huniq. destruct (head_filter_is_Some l x Hx HP) as [y Hy].
  rewrite Hy. f_equal. apply head_filter_Some in Hy as [? ?]. auto.
Qed.
End head_filter.

(** The dicts of lists that the analyzer fills with
    [d[k(x)].append(v(x))] hold, under a key, the values of the rows with
    that key, in order. *)
Lemma group_lookup {A V : Type} (k : A → Z) (v : A → V) (l : list A) (key : Z) :
  foldl (λ (m : gmap Z (list V)) x, <[k x := default [] (m !! k x) ++ [v x]]> m) ∅ l !! key
  = match v <$> filter (λ x, k x = key) l with
    | [] => None
    | g => Some g
    end.
Proof.
  induction l as [|x l IH] using rev_ind; [done|].
  rewrite foldl_app, filter_app, fmap_app. simpl.
  destruct (decide (k x = key)) as [Heq|Hne].
  - subst key. rewrite lookup_insert_eq, IH.
    rewrite (filter_cons_True (λ y, k y = k x)) by done. rewrite filter_nil.
    by destruct (v <$> filter _ l).
  - rewrite lookup_insert_ne, IH by done.
    rewrite (filter_cons_False (λ y, k y = key)) by done.
    rewrite filter_nil. simpl. by rewrite app_nil_r.
Qed.

End ListFacts.

(** ------------------------------------------------------------------ *)
(** ** RVA resolution                                                   *)
(** ------------------------------------------------------------------ *)

Module ResolverFacts.
Import Resolver ListFacts.

Lemma greatest_Some cands g :
  greatest cands = Some g → g ∈ cands ∧ ∀ x, x ∈ cands → bb_rva x ≤ bb_rva g.
Proof.
  revert g. induction cands as [|b rest IH]; intros g; simpl; [done|].
  destruct (greatest rest) as [b'|] eqn:E.
  - destruct (IH b' eq_refl) as [Hin Hmax]. case_bool_decide as Hlt; intros [= <-].
    + split; [by right|]. intros x [->|Hx]%elem_of_cons; [lia|auto].
    + split; [left|]. intros x [->|Hx]%elem_of_cons; [lia|].
      specialize (Hmax x Hx). lia.
  - intros [= <-]. split; [left|]. destruct rest as [|b1 rest]; simpl in E.
    + intros x [->|Hx]%elem_of_cons; [lia|inversion Hx].
    + destruct (greatest rest); [case_bool_decide|]; done.
Qed.

Lemma greatest_None cands : greatest cands = None ↔ cands = [].
Proof.
  destruct cands as [|b rest]; simpl; [done|]. split; [|done].
  destruct (greatest rest); [case_bool_decide|]; done.
Qed.

(** The first query: a block of the binary that starts at the address. *)
Lemma exact_match_Some blocks b rva p :
  exact_match blocks b rva = Some p →
  ∃ blk, blk ∈ blocks ∧ bb_binary_id blk = b ∧ bb_rva blk = rva
         ∧ p = (rva, bb_func_id blk).
Proof.
  unfold exact_match. intros H. apply fmap_Some in H as (blk & Hh & ->).
  apply head_filter_Some in Hh as (Hin & Hb & Hr). exists blk. by rewrite Hr.
Qed.

Lemma exact_match_None blocks b rva :
  exact_match blocks b rva = None ↔
  ∀ blk, blk ∈ blocks → bb_binary_id blk = b → bb_rva blk ≠ rva.
Proof.
  unfold exact_match. rewrite fmap_None, head_filter_None. naive_solver.
Qed.

(** The second query: a block of the binary with the greatest start at or
    below the address. *)
Lemma greatest_below_Some blocks b rva bb func_id size :
  greatest_below blocks b rva = Some (bb, func_id, size) →
  ∃ g, g ∈ blocks ∧ bb_binary_id g = b ∧ bb_rva g = bb ∧ bb ≤ rva
       ∧ func_id = bb_func_id g ∧ size = bb_size g
       ∧ ∀ x, x ∈ blocks → bb_binary_id x = b → bb_rva x ≤ rva → bb_rva x ≤ bb.
Proof.
  unfold greatest_below. intros H. apply fmap_Some in H as (g & Hg & [= -> -> ->]).
  apply greatest_Some in Hg as [Hin Hmax].
  apply list_elem_of_filter in Hin as [[Hb Hle] Hin].
  exists g. split_and!; try done.
  intros x Hx Hxb Hxle. apply Hmax. apply list_elem_of_filter. done.
Qed.

Lemma greatest_below_None blocks b rva :
  greatest_below blocks b rva = None ↔
  ∀ x, x ∈ blocks → bb_binary_id x = b → ¬ bb_rva x ≤ rva.
Proof.
  unfold greatest_below. rewrite fmap_None, greatest_None. split.
  - intros H x Hx Hb Hle.
    by apply (filter_nil_not_elem_of (λ b0, bb_binary_id b0 = b ∧ bb_rva b0 ≤ rva) blocks x).
  - intros H. destruct (filter _ blocks) as [|y l] eqn:E; [done|].
    assert (y ∈ filter (λ b0, bb_binary_id b0 = b ∧ bb_rva b0 ≤ rva) blocks) as Hy
      by (rewrite E; left).
    apply list_elem_of_filter in Hy as [[Hb Hle] Hy]. by destruct (H y Hy Hb).
Qed.

(** With a consistent cache the function answers as the master queries do,
    and leaves the cache consistent. *)
Lemma find_resolve blocks cache b rva :
  cache_consistent blocks cache →
  (find_containing_basic_block blocks cache b rva).1 = resolve blocks b rva ∧
  cache_consistent blocks (find_containing_basic_block blocks cache b rva).2.
Proof.
  intros Hc. unfold find_containing_basic_block.
  destruct (cache_lookup cache b rva) as [r|] eqn:Hl.
  - split; [|done]. simpl. unfold cache_lookup in Hl.
    apply fmap_Some in Hl as (c & Hh & ->).
    apply head_filter_Some in Hh as [Hin Hk]. unfold cache_key in Hk.
    injection Hk as <- <-. symmetry. by apply Hc.
  - assert (∀ bb f, resolve blocks b rva = Some (bb, f) →
              cache_consistent blocks
                (Sql.insert_or_ignore cache_key cache (CacheRow b rva bb f))) as Hins.
    { intros bb f Hr c Hin. apply SqlFacts.elem_of_insert_or_ignore in Hin as [Hin|[-> _]].
      - by apply Hc.
      - done. }
    unfold resolve in *. destruct (exact_match blocks b rva) as [[bb f]|].
    + split; [done|]. by apply Hins.
    + destruct (greatest_below blocks b rva) as [[[bb f] size]|]; [|done].
      case_bool_decide; [|done]. split; [done|]. by apply Hins.
Qed.

Lemma cache_consistent_nil blocks : cache_consistent blocks [].
Proof. intros c Hc. inversion Hc. Qed.

(** When the length fits 64 bits the test of the code is the bound of the
    specification. *)
Lemma in_bounds_exact blk rva :
  int64 (bb_length blk) →
  in_bounds rva (bb_rva blk) (bb_size blk) ↔ rva ≤ bb_rva blk + bb_length blk.
Proof.
  intros Hfit. unfold in_bounds, bb_size, sql_subtract. fold (bb_length blk).
  by rewrite bool_decide_eq_true_2.
Qed.

(** With a usable cache the function answers as the master queries do. *)
Lemma find_usable blocks cache b rva :
  cache_usable blocks cache b rva →
  (find_containing_basic_block blocks cache b rva).1 = resolve blocks b rva.
Proof.
  intros [Hnone|Hc]; [|by apply find_resolve].
  unfold find_containing_basic_block, resolve. rewrite Hnone.
  destruct (exact_match blocks b rva) as [[bb f]|]; [done|].
  destruct (greatest_below blocks b rva) as [[[bb f] size]|]; [|done].
  by case_bool_decide.
Qed.

(** C4 (amended).  A row of [rva_to_bb_cache] for [(binary_id, rva)] is
    returned as it is, and the cache stays as it was.  When the cache has
    no such row, or every row of it is the answer of the master queries:
    (1) a block of the binary that starts at [rva] is matched first;
    (2) otherwise the result is the block with the greatest start at or
        below [rva], accepted iff [rva <= bb_rva + bb_size] as the code
        computes it;
    (3) for a block whose length [bb_end_va - bb_start_va] fits 64 bits
        that test is [rva <= bb_rva + (bb_end_va - bb_start_va)];
    (4) a block [blk] with such a length and with
        [bb_rva <= rva <= bb_rva + length] is the one returned provided no
        other block of the binary starts in [[bb_rva blk, rva]];
    (5) when the blocks of the binary start at different addresses, have
        lengths that are not negative and fit 64 bits, and do not overlap,
        the result is [None] exactly when no block satisfies the bound, and
        a block that satisfies it is the one returned unless another block
        starts at [rva]. *)
Theorem find_containing_basic_block_spec blocks cache b rva :
  (∀ r, cache_lookup cache b rva = Some r →
        find_containing_basic_block blocks cache b rva = (Some r, cache)) ∧
  (cache_usable blocks cache b rva →
   (∀ blk, blk ∈ blocks → bb_binary_id blk = b → bb_rva blk = rva →
      ∃ blk', blk' ∈ blocks ∧ bb_binary_id blk' = b ∧ bb_rva blk' = rva
              ∧ (find_containing_basic_block blocks cache b rva).1
                = Some (rva, bb_func_id blk')) ∧
   ((∀ blk, blk ∈ blocks → bb_binary_id blk = b → bb_rva blk ≠ rva) →
      ∀ p, (find_containing_basic_block blocks cache b rva).1 = Some p ↔
        ∃ g, g ∈ blocks ∧ bb_binary_id g = b ∧ bb_rva g ≤ rva
             ∧ (∀ x, x ∈ blocks → bb_binary_id x = b → bb_rva x ≤ rva →
                     bb_rva x ≤ bb_rva g)
             ∧ greatest_below blocks b rva = Some (bb_rva g, bb_func_id g, bb_size g)
             ∧ in_bounds rva (bb_rva g) (bb_size g)
             ∧ p = (bb_rva g, bb_func_id g)) ∧
   (∀ g, int64 (bb_length g) →
      (in_bounds rva (bb_rva g) (bb_size g) ↔ rva ≤ bb_rva g + bb_length g)) ∧
   (∀ blk, blk ∈ blocks → bb_binary_id blk = b → int64 (bb_length blk) →
      within blk rva →
      (∀ x, x ∈ blocks → bb_binary_id x = b → bb_rva blk ≤ bb_rva x ≤ rva → x = blk) →
      (find_containing_basic_block blocks cache b rva).1
      = Some (bb_rva blk, bb_func_id blk)) ∧
   (layout_ok blocks b →
      ((find_containing_basic_block blocks cache b rva).1 = None ↔
       ∀ blk, blk ∈ blocks → bb_binary_id blk = b → ¬ within blk rva) ∧
      (∀ blk, blk ∈ blocks → bb_binary_id blk = b → within blk rva →
         (∀ x, x ∈ blocks → bb_binary_id x = b → bb_rva x = rva → x = blk) →
         (find_containing_basic_block blocks cache b rva).1
         = Some (bb_rva blk, bb_func_id blk)))).
Proof.
  split.
  { intros r Hr. unfold find_containing_basic_block. by rewrite Hr. }
  intros Hc. rewrite (find_usable blocks cache b rva Hc).
  assert (∀ blk, blk ∈ blocks → bb_binary_id blk = b → int64 (bb_length blk) →
     within blk rva →
     (∀ x, x ∈ blocks → bb_binary_id x = b → bb_rva blk ≤ bb_rva x ≤ rva → x = blk) →
     resolve blocks b rva = Some (bb_rva blk, bb_func_id blk)) as Hthird.
  { intros blk Hin Hb Hfit [Hlo Hhi] Huniq. unfold resolve.
    destruct (exact_match blocks b rva) as [p|] eqn:E.
    + apply exact_match_Some in E as (blk' & Hin' & Hb' & Hr' & ->).
      assert (blk' = blk) as -> by (apply Huniq; [done|done|lia]). by rewrite Hr'.
    + destruct (greatest_below blocks b rva) as [[[bb f] size]|] eqn:E2.
      * apply greatest_below_Some in E2 as (g & Hg & Hgb & <- & Hle & -> & -> & Hmax).
        assert (g = blk) as ->.
        { apply Huniq; [done|done|]. split; [|done]. by apply Hmax. }
        rewrite bool_decide_eq_true_2; [done|]. by apply in_bounds_exact.
      * rewrite greatest_below_None in E2. by destruct (E2 blk Hin Hb). }
  split_and!.
  - intros blk Hin Hb Hr. unfold resolve.
    destruct (exact_match blocks b rva) as [p|] eqn:E.
    + apply exact_match_Some in E as (blk' & ? & ? & ? & ->). by exists blk'.
    + rewrite exact_match_None in E. by destruct (E blk Hin Hb).
  - intros Hno p. unfold resolve. apply exact_match_None in Hno. rewrite Hno. split.
    + destruct (greatest_below blocks b rva) as [[[bb f] size]|] eqn:E; [|done].
      case_bool_decide as Hle; [|done]. intros [= <-].
      pose proof E as E'.
      apply greatest_below_Some in E as (g & Hin & Hb & <- & Hle' & -> & -> & Hmax).
      exists g. split_and!; done.
    + intros (g & _ & _ & _ & _ & -> & Hle & ->). by rewrite bool_decide_eq_true_2.
  - intros g Hfit. by apply in_bounds_exact.
  - exact Hthird.
  - intros [Hstarts Hlen Hdisj].
    assert (∀ x, x ∈ blocks → bb_binary_id x = b → int64 (bb_length x)) as Hfits.
    { intros x Hx Hxb. pose proof (Hlen x Hx Hxb). unfold int64. lia. }
    (* a block that satisfies the bound is returned unless another starts at rva *)
    assert (∀ blk, blk ∈ blocks → bb_binary_id blk = b → within blk rva →
              (∀ x, x ∈ blocks → bb_binary_id x = b → bb_rva x = rva → x = blk) →
              resolve blocks b rva = Some (bb_rva blk, bb_func_id blk)) as Hret.
    { intros blk Hin Hb Hw Hat. apply Hthird; [done|done|by apply Hfits|done|].
      intros x Hx Hxb [Hlo Hhi]. destruct (decide (bb_rva blk = bb_rva x)) as [Heq|Hne].
      - symmetry. by apply Hstarts.
      - apply Hat; [done|done|]. destruct Hw as [_ Hw].
        pose proof (Hdisj blk x Hin Hx Hb Hxb ltac:(lia)). lia. }
    split; [|exact Hret]. split.
    + intros Hnone blk Hin Hb Hw.
      destruct (exact_match blocks b rva) as [p|] eqn:E.
      { unfold resolve in Hnone. by rewrite E in Hnone. }
      rewrite exact_match_None in E.
      rewrite (Hret blk Hin Hb Hw) in Hnone; [done|].
      intros x Hx Hxb Hxr. by destruct (E x Hx Hxb).
    + intros Hno. unfold resolve.
      destruct (exact_match blocks b rva) as [p|] eqn:E.
      { apply exact_match_Some in E as (blk & Hin & Hb & Hr & _).
        destruct (Hno blk Hin Hb). pose proof (Hlen blk Hin Hb). unfold within. lia. }
      destruct (greatest_below blocks b rva) as [[[bb f] size]|] eqn:E2; [|done].
      apply greatest_below_Some in E2 as (g & Hg & Hgb & <- & Hle & -> & -> & Hmax).
      case_bool_decide as Hbound; [|done]. destruct (Hno g Hg Hgb).
      apply in_bounds_exact in Hbound; [by split|by apply Hfits].
Qed.

(** The theorem at scenario 3: the block at [0x1000] of size [0x20] and the
    return address [0x101c]. *)
Lemma find_containing_basic_block_spec_witness :
  cache_usable [BasicBlock 1 7 0x1000 0x401000 0x401020] [] 1 0x101c ∧
  (find_containing_basic_block [BasicBlock 1 7 0x1000 0x401000 0x401020] [] 1 0x101c).1
  = Some (0x1000, 7).
Proof.
  assert (cache_usable [BasicBlock 1 7 0x1000 0x401000 0x401020] [] 1 0x101c) as Hc
    by (left; reflexivity).
  split; [exact Hc|].
  destruct (proj2 (find_containing_basic_block_spec
                     [BasicBlock 1 7 0x1000 0x401000 0x401020] [] 1 0x101c) Hc)
    as (_ & _ & _ & H & _).
  apply (H (BasicBlock 1 7 0x1000 0x401000 0x401020)).
  - left.
  - reflexivity.
  - unfold int64, bb_length. simpl. lia.
  - unfold within, bb_length. simpl. lia.
  - intros x Hx _ _. by apply list_elem_of_singleton in Hx.
Defined.

(** C4 as stated fails in two ways.  On two adjacent blocks, the address
    one past the end of the first block satisfies the first block's bound
    and is the start of the second block: the resolver returns the second
    block.  On a block that lies inside another one, an address beyond the
    inner block satisfies the outer block's bound, and the resolver, which
    looks at the block with the greatest start only, returns [None]. *)
Lemma find_containing_basic_block_adjacent :
  ¬ (∀ blocks b rva blk,
       blk ∈ blocks → bb_binary_id blk = b →
       bb_rva blk ≤ rva ≤ bb_rva blk + (bb_end_va blk - bb_start_va blk) →
       (find_containing_basic_block blocks [] b rva).1
       = Some (bb_rva blk, bb_func_id blk)) ∧
  ¬ (∀ blocks b rva,
       (find_containing_basic_block blocks [] b rva).1 = None ↔
       ¬ ∃ blk, blk ∈ blocks ∧ bb_binary_id blk = b ∧
                bb_rva blk ≤ rva ≤ bb_rva blk + (bb_end_va blk - bb_start_va blk)).
Proof.
  split; intros H.
  - specialize (H [BasicBlock 1 7 0x1000 0x401000 0x401020;
                   BasicBlock 1 8 0x1020 0x401020 0x401030]
                  1 0x1020 (BasicBlock 1 7 0x1000 0x401000 0x401020)).
    assert ((find_containing_basic_block
               [BasicBlock 1 7 0x1000 0x401000 0x401020;
                BasicBlock 1 8 0x1020 0x401020 0x401030] [] 1 0x1020).1
            = Some (0x1020, 8)) as Hrun by (vm_compute; reflexivity).
    rewrite Hrun in H. cbn [bb_rva bb_func_id bb_binary_id bb_end_va bb_start_va] in H.
    discriminate H; [left|reflexivity|lia].
  - specialize (H [BasicBlock 1 7 0x1000 0x401000 0x401100;
                   BasicBlock 1 7 0x1010 0x401010 0x401014]
                  1 0x1050).
    destruct H as [H _]. apply H; [vm_compute; reflexivity|].
    exists (BasicBlock 1 7 0x1000 0x401000 0x401100).
    split; [left|]. split; [done|]. simpl. lia.
Qed.

(** A cache row that the master queries would not give is returned all the
    same: the block at [0x1000] is not looked at. *)
Remark find_containing_basic_block_stale_row :
  find_containing_basic_block [BasicBlock 1 7 0x1000 0x401000 0x401020]
    [CacheRow 1 0x1000 0x900 3] 1 0x1000
  = (Some (0x900, 3), [CacheRow 1 0x1000 0x900 3]).
Proof. vm_compute. reflexivity. Qed.

(** A length beyond 64 bits: the block at [-2^62] with
    [bb_end_va - bb_start_va = 2^63 + 1].  SQLite hands the length over as
    the double [2^63], and the last address of the bound, [2^62 + 1], is
    not accepted. *)
Remark find_containing_basic_block_long_block :
  let blk := BasicBlock 1 7 (- 2 ^ 62) (- 2 ^ 62) (2 ^ 62 + 1) in
  within blk (2 ^ 62 + 1) ∧
  bb_size blk = Float (2 ^ 63) ∧
  find_containing_basic_block [blk] [] 1 (2 ^ 62 + 1) = (None, []) ∧
  find_containing_basic_block [blk] [] 1 (2 ^ 62) = (Some (- 2 ^ 62, 7),
                                                      [CacheRow 1 (2 ^ 62) (- 2 ^ 62) 7]).
Proof.
  cbn zeta. split_and!.
  - unfold within, bb_length. simpl. lia.
  - vm_compute. reflexivity.
  - vm_compute. reflexivity.
  - vm_compute. reflexivity.
Qed.

End ResolverFacts.

(** ------------------------------------------------------------------ *)
(** ** Deterministic expansion                                          *)
(** ------------------------------------------------------------------ *)

Module ExpandFacts.
Import Expand ListFacts.

Lemma build_cfg_snoc rows e :
  build_cfg (rows ++ [e]) =
  <[ce_src e := default [] (build_cfg rows !! ce_src e)
                ++ [(ce_dst e, kind_or_unknown (ce_kind e))]]> (build_cfg rows).
Proof. unfold build_cfg. by rewrite foldl_app. Qed.

Lemma build_cfg_lookup rows x :
  build_cfg rows !! x = if decide (succs rows x = []) then None else Some (succs rows x).
Proof.
  induction rows as [|e rows IH] using rev_ind; [done|].
  rewrite build_cfg_snoc. unfold succs in *. rewrite filter_app, fmap_app.
  destruct (decide (ce_src e = x)) as [Heq|Hne].
  - subst x. rewrite lookup_insert_eq, IH.
    rewrite (filter_cons_True (λ r, ce_src r = ce_src e)) by done. rewrite filter_nil.
    destruct (_ <$> filter _ rows) as [|p L]; simpl; by repeat case_decide.
  - rewrite lookup_insert_ne, IH by done.
    rewrite (filter_cons_False (λ r, ce_src r = x)) by done.
    rewrite filter_nil. simpl. by rewrite app_nil_r.
Qed.

Lemma deterministic_kind k :
  is_deterministic_kind (kind_or_unknown k) = true ↔
  k = Some "fallthrough" ∨ k = Some "branch_unconditional".
Proof.
  unfold is_deterministic_kind, kind_or_unknown. rewrite bool_decide_eq_true.
  destruct k as [k|].
  - case_bool_decide as E; [subst k|]; naive_solver.
  - naive_solver.
Qed.

(** The dict [cfg] and the path relation agree on what a deterministic
    step is. *)
Lemma det_step_cfg rows x y :
  det_step rows x y ↔
  ∃ kind, build_cfg rows !! x = Some [(y, kind)] ∧ is_deterministic_kind kind = true.
Proof.
  rewrite build_cfg_lookup. unfold det_step, succs. split.
  - intros (e & -> & <- & Hk). exists (kind_or_unknown (ce_kind e)). simpl.
    split; [done|]. by apply deterministic_kind.
  - intros (kind & Hl & Hk). case_decide as E; [done|]. injection Hl as Hl.
    destruct (filter (λ r, ce_src r = x) rows) as [|e [|e' l]]; try done.
    simpl in Hl. injection Hl as <- <-. exists e. split_and!; [done|done|].
    by apply deterministic_kind.
Qed.

(** Every successor the dict lists is the destination of a row. *)
Lemma build_cfg_dst rows x l d k :
  build_cfg rows !! x = Some l → (d, k) ∈ l → d ∈ ce_dst <$> rows.
Proof.
  rewrite build_cfg_lookup. case_decide; [done|]. intros [= <-]. unfold succs.
  intros (e & [= -> ->] & He)%list_elem_of_fmap.
  apply list_elem_of_filter in He as [_ He]. apply list_elem_of_fmap. eauto.
Qed.

Lemma size_dsts rows : (size (dsts_of rows) ≤ length rows)%nat.
Proof.
  unfold dsts_of. induction rows as [|e l IH]; [done|].
  rewrite fmap_cons, list_to_set_cons, size_union_alt, size_singleton.
  pose proof (subseteq_size (list_to_set (ce_dst <$> l) ∖ {[ce_dst e]})
                (list_to_set (ce_dst <$> l) : gset Z) ltac:(set_solver)).
  simpl. lia.
Qed.

Section walk.
Context (rows : list cfg_edge) (covered : gset Z).
Let cfg := build_cfg rows.

(** *** An invariant rule for the [while] loop *)

Lemma walk_invariant (P : walk_state → Prop) :
  (∀ st current rest,
     queue st = current :: rest → P st → P (walk_step cfg covered current rest st)) →
  ∀ fuel st st', walk fuel cfg covered st = Some st' → P st → P st' ∧ queue st' = [].
Proof.
  intros Hstep. induction fuel as [|fuel IH]; intros st st'; simpl; [done|].
  destruct (queue st) as [|current rest] eqn:Hq.
  - intros [= <-] HP. done.
  - intros Hw HP. eapply IH; [exact Hw|]. by apply Hstep.
Qed.

(** *** Termination *)

Lemma walk_step_measure st current rest :
  queue st = current :: rest →
  (measure rows (walk_step cfg covered current rest st) < measure rows st)%nat.
Proof.
  intros Hq. unfold measure, walk_step. rewrite Hq.
  destruct (cfg !! current) as [l|] eqn:Hl; simpl; [|lia].
  destruct l as [|[dst kind] [|? ?]]; simpl; try lia.
  destruct (is_deterministic_kind kind); simpl; [|lia].
  case_decide as Hv; simpl; [lia|].
  assert (dst ∈ dsts_of rows) as Hd.
  { apply elem_of_list_to_set. eapply build_cfg_dst; [exact Hl|left]. }
  assert (size (dsts_of rows ∖ ({[dst]} ∪ visited_from_start st))
          < size (dsts_of rows ∖ visited_from_start st))%nat as Hlt.
  { apply subset_size. split; [set_solver|]. intros Hsub.
    assert (dst ∈ dsts_of rows ∖ visited_from_start st) as Hin by set_solver.
    apply Hsub in Hin. set_solver. }
  case_decide; simpl; [lia|]. rewrite length_app. simpl. lia.
Qed.

Lemma walk_terminates fuel st :
  (measure rows st < fuel)%nat → is_Some (walk fuel cfg covered st).
Proof.
  revert st. induction fuel as [|fuel IH]; intros st Hm; [lia|]. simpl.
  destruct (queue st) as [|current rest] eqn:Hq; [eauto|].
  apply IH. pose proof (walk_step_measure st current rest Hq). lia.
Qed.

Lemma walk_from_terminates newly start_bb :
  is_Some (walk_from (walk_fuel rows) cfg covered newly start_bb).
Proof.
  apply walk_terminates. unfold measure, walk_fuel. simpl.
  pose proof (size_dsts rows).
  pose proof (subseteq_size (dsts_of rows ∖ {[start_bb]}) (dsts_of rows) ltac:(set_solver)). lia.
Qed.

(** *** No block is put on the queue twice *)

Lemma walk_step_enqueued_once st current rest :
  enqueued_once st → enqueued_once (walk_step cfg covered current rest st).
Proof.
  intros [Hnd Hvis]. unfold walk_step.
  destruct (cfg !! current) as [l|]; [|done].
  destruct l as [|[dst kind] [|? ?]]; try done.
  destruct (is_deterministic_kind kind); [|done].
  case_decide as Hv; [done|]. case_decide.
  - split; [done|]. simpl. intros x Hx. apply elem_of_union. right. by apply Hvis.
  - split; simpl.
    + apply NoDup_app. split_and!; [done| |apply NoDup_singleton].
      intros x Hx ->%list_elem_of_singleton. by apply Hv, Hvis.
    + intros x [Hx| ->%list_elem_of_singleton]%elem_of_app; set_solver.
Qed.

(** *** What a walk discovers lies on a path from its start block *)

Lemma walk_step_sound start newly0 st current rest :
  queue st = current :: rest →
  walk_sound rows covered start newly0 st →
  walk_sound rows covered start newly0 (walk_step cfg covered current rest st).
Proof.
  intros Hq [Hqueue Hnew]. rewrite Hq in Hqueue.
  assert (∀ q, q ∈ rest → q = start ∨ det_chain rows covered start q) as Hrest.
  { intros q Hin. apply Hqueue. by right. }
  unfold walk_step.
  destruct (cfg !! current) as [l|] eqn:Hl; [|by split].
  destruct l as [|[dst kind] [|? ?]]; try by split.
  destruct (is_deterministic_kind kind) eqn:Hk; [|by split].
  case_decide as Hv; [by split|]. case_decide as Hc; [by split|].
  assert (det_chain rows covered start dst) as Hchain.
  { assert (det_step rows current dst) as Hstep by (apply det_step_cfg; eauto).
    destruct (Hqueue current ltac:(left)) as [->|Hcur].
    - by apply det_chain_one.
    - by eapply det_chain_next. }
  split; simpl.
  - intros q [Hin| ->%list_elem_of_singleton]%elem_of_app; auto.
  - intros d [->%elem_of_singleton|Hin]%elem_of_union; auto.
Qed.

(** *** A walk closes its start block and all it discovers *)

Lemma closed_mono newly newly' x :
  newly ⊆ newly' → closed rows covered newly x → closed rows covered newly' x.
Proof. intros Hsub Hcl d Hstep Hd. apply Hsub. by apply Hcl. Qed.

Lemma walk_step_complete start newly0 st current rest :
  start ∈ covered →
  queue st = current :: rest →
  walk_complete rows covered start newly0 st →
  walk_complete rows covered start newly0 (walk_step cfg covered current rest st).
Proof.
  intros Hstart Hq (Hsub & Hvis & Hs & Hnew). rewrite Hq in Hs, Hnew.
  (* what the iteration establishes for [current] *)
  assert (∀ st', newly_discovered st ⊆ newly_discovered st' →
            closed rows covered (newly_discovered st') current →
            (∀ x, x ∈ rest → x ∈ queue st') →
            (∀ d, d ∈ newly_discovered st' → d ∈ newly_discovered st ∨ d ∈ queue st') →
            (∀ v, v ∈ visited_from_start st' →
                  v = start ∨ v ∈ covered ∨ v ∈ newly_discovered st') →
            walk_complete rows covered start newly0 st') as Hgoal.
  { intros st' Hmono Hcur Hrest Hfresh Hvis'. split_and!.
    - set_solver.
    - done.
    - destruct Hs as [[->|Hin]%elem_of_cons|Hcl]; [by right|left; auto|].
      right. by eapply closed_mono.
    - intros d Hd. destruct (Hfresh d Hd) as [Hold|Hin]; [|by left].
      destruct (Hnew d Hold) as [[->|Hin]%elem_of_cons|Hcl]; [by right|left; auto|].
      right. by eapply closed_mono. }
  (* when [current] has no deterministic successor it is closed already *)
  assert ((∀ d, ¬ det_step rows current d) →
          walk_complete rows covered start newly0
            (WalkState rest (visited_from_start st) (newly_discovered st) (enqueued st)))
    as Hskip.
  { intros Hno. apply Hgoal; simpl; auto. intros d Hstep. by destruct (Hno d). }
  unfold walk_step.
  destruct (cfg !! current) as [l|] eqn:Hl.
  2:{ apply Hskip. intros d (k & Hk & _)%det_step_cfg. fold cfg in Hk. congruence. }
  destruct l as [|[dst kind] [|? ?]].
  1,3: apply Hskip; intros d (k & Hk & _)%det_step_cfg; fold cfg in Hk; congruence.
  destruct (is_deterministic_kind kind) eqn:Hkind.
  2:{ apply Hskip. intros d (k & Hk & Hdet)%det_step_cfg. fold cfg in Hk. congruence. }
  assert (∀ d, det_step rows current d → d = dst) as Honly.
  { intros d (k & Hk & _)%det_step_cfg. fold cfg in Hk. congruence. }
  case_decide as Hv; [|case_decide as Hc].
  - apply Hgoal; simpl; auto. intros d ->%Honly Hd.
    destruct (Hvis dst Hv) as [->|[?|?]]; done.
  - apply Hgoal; simpl; auto.
    + intros d ->%Honly Hd. done.
    + intros v [->%elem_of_singleton|Hin]%elem_of_union; auto.
  - apply Hgoal; simpl.
    + set_solver.
    + intros d ->%Honly _. set_solver.
    + intros x Hx. apply elem_of_app. by left.
    + intros d [->%elem_of_singleton|Hin]%elem_of_union; [|by left].
      right. apply elem_of_app. right. by left.
    + intros v [->%elem_of_singleton|Hin]%elem_of_union; [set_solver|].
      destruct (Hvis v Hin) as [?|[?|?]]; set_solver.
Qed.

(** What one walk yields. *)
Lemma walk_from_spec newly0 start st :
  start ∈ covered →
  (∀ d, d ∈ newly0 → closed rows covered newly0 d) →
  walk_from (walk_fuel rows) cfg covered newly0 start = Some st →
  newly0 ⊆ newly_discovered st ∧
  (∀ d, d ∈ newly_discovered st → d ∈ newly0 ∨ det_chain rows covered start d) ∧
  closed rows covered (newly_discovered st) start ∧
  (∀ d, d ∈ newly_discovered st → closed rows covered (newly_discovered st) d).
Proof.
  intros Hstart Hcl0 Hw. unfold walk_from in Hw.
  apply (walk_invariant
           (λ st, walk_sound rows covered start newly0 st
                  ∧ walk_complete rows covered start newly0 st)) in Hw.
  - destruct Hw as [[[_ Hsound] (Hsub & _ & Hs & Hnew)] Hq]. rewrite Hq in Hs, Hnew.
    split_and!; [done|done| |].
    + destruct Hs as [Hin|?]; [inversion Hin|done].
    + intros d Hd. destruct (Hnew d Hd) as [Hin|?]; [inversion Hin|done].
  - intros st0 current rest Hq [Hso Hco]. split.
    + by apply walk_step_sound.
    + by apply walk_step_complete.
  - split.
    + split; simpl; [|auto]. intros q ->%list_elem_of_singleton. by left.
    + split_and!; simpl.
      * done.
      * intros v ->%elem_of_singleton. by left.
      * left. left.
      * intros d Hd. right. by apply Hcl0.
Qed.

End walk.

Lemma foldl_bind_None {A B} (f : B → A → option B) (l : list A) :
  foldl (λ acc x, acc ≫= λ b, f b x) None l = None.
Proof. induction l as [|x l IH]; [done|]. exact IH. Qed.

Section discover.
Context (rows : list cfg_edge) (covered : gset Z).

Lemma discover_fold (starts : list Z) newly0 newly :
  (∀ s, s ∈ starts → s ∈ covered) →
  (∀ d, d ∈ newly0 → closed rows covered newly0 d) →
  foldl (λ acc start_bb,
           acc ≫= λ n, newly_discovered <$>
             walk_from (walk_fuel rows) (build_cfg rows) covered n start_bb)
        (Some newly0) starts = Some newly →
  newly0 ⊆ newly ∧
  (∀ d, d ∈ newly → d ∈ newly0 ∨ det_reachable rows covered d) ∧
  (∀ s, s ∈ starts → closed rows covered newly s) ∧
  (∀ d, d ∈ newly → closed rows covered newly d).
Proof.
  revert newly0. induction starts as [|s starts IH]; intros newly0 Hcov Hcl0; simpl.
  - intros [= <-]. split_and!; [done|auto| |done]. intros s Hs. inversion Hs.
  - destruct (walk_from (walk_fuel rows) (build_cfg rows) covered newly0 s)
      as [st|] eqn:Hw; simpl; [|by rewrite foldl_bind_None].
    intros Hfold.
    apply walk_from_spec in Hw as (Hsub1 & Hsound1 & Hs1 & Hcl1);
      [|apply Hcov; left|done].
    apply IH in Hfold as (Hsub & Hsound & Hstarts & Hcl);
      [|intros s' Hs'; apply Hcov; by right|done].
    split_and!.
    + set_solver.
    + intros d Hd. destruct (Hsound d Hd) as [Hd1|?]; [|by right].
      destruct (Hsound1 d Hd1) as [?|Hchain]; [by left|].
      right. exists s. split; [apply Hcov; left|done].
    + intros s' [->|Hs']%elem_of_cons; [|auto]. by eapply closed_mono.
    + done.
Qed.

(** The set [newly_discovered] at the end of the loop over the covered
    blocks is the set of blocks on a path from a covered block. *)
Lemma discover_spec newly :
  discover (walk_fuel rows) (build_cfg rows) covered = Some newly →
  ∀ d, d ∈ newly ↔ det_reachable rows covered d.
Proof.
  unfold discover. intros H.
  apply discover_fold in H as (_ & Hsound & Hstarts & Hcl).
  - intros d. split.
    + intros Hd. destruct (Hsound d Hd) as [Hd0|?]; [set_solver|done].
    + intros (s & Hs & Hchain). induction Hchain as [x y Hstep Hy|x y z _ IH Hstep Hz].
      * apply (Hstarts x); [by apply elem_of_elements|done|done].
      * by apply (Hcl y (IH Hs)).
  - intros s Hs. by apply elem_of_elements in Hs.
  - set_solver.
Qed.

Lemma discover_total : is_Some (discover (walk_fuel rows) (build_cfg rows) covered).
Proof.
  unfold discover. generalize (∅ : gset Z) as newly0.
  induction (elements covered) as [|s starts IH]; intros newly0; simpl; [eauto|].
  destruct (walk_from_terminates rows covered newly0 s) as [st ->]. simpl. apply IH.
Qed.

End discover.

(** *** The rows added for one binary *)

Lemma det_chain_not_covered rows covered x y :
  det_chain rows covered x y → y ∉ covered.
Proof. by intros [? ? ? ?|? ? ? ? ? ?]. Qed.

Lemma elem_of_covered_of table b rva :
  rva ∈ covered_of table b ↔ (b, rva) ∈ joined_key <$> table.
Proof.
  unfold covered_of. rewrite elem_of_list_to_set, !list_elem_of_fmap. split.
  - intros (r & -> & [Hb Hr]%list_elem_of_filter). exists r. by rewrite <- Hb.
  - intros (r & [= -> ->] & Hr). exists r. split; [done|]. by apply list_elem_of_filter.
Qed.

Lemma covered_of_ext table table' b :
  (∀ r, j_binary_id r = b → r ∈ table' ↔ r ∈ table) →
  covered_of table' b = covered_of table b.
Proof.
  intros H. apply set_eq. intros rva. rewrite !elem_of_covered_of, !list_elem_of_fmap.
  split; intros (r & Hk & Hr); exists r; (split; [done|]); apply H; try done;
    by injection Hk as -> _.
Qed.

Section add.
Context (blocks : list Resolver.basic_block) (binary_id : Z).

Lemma to_row_Some bb_rva r :
  to_row blocks binary_id bb_rva = Some r ↔
  j_binary_id r = binary_id ∧ j_bb_rva r = bb_rva
  ∧ func_id_of blocks binary_id bb_rva = Some (j_func_id r).
Proof.
  unfold to_row. rewrite fmap_Some. split.
  - intros (f & Hf & ->). done.
  - intros (<- & <- & Hf). exists (j_func_id r). split; [done|]. by destruct r.
Qed.

Lemma blocks_to_add_keys (l : list Z) :
  NoDup l → NoDup (joined_key <$> omap (to_row blocks binary_id) l).
Proof.
  induction 1 as [|x l Hx Hnd IH]; simpl; [constructor|].
  destruct (to_row blocks binary_id x) as [r|] eqn:Hr; [|done].
  rewrite fmap_cons. apply NoDup_cons. split; [|done].
  intros (r' & Hk & (x' & Hx' & Hr')%list_elem_of_omap)%list_elem_of_fmap.
  apply to_row_Some in Hr as (_ & <- & _). apply to_row_Some in Hr' as (_ & <- & _).
  injection Hk as _ Hk. by rewrite Hk in Hx.
Qed.
End add.

Lemma expand_binary_spec blocks cfg_edges table b :
  ∃ table', expand_binary blocks cfg_edges table b = Some table' ∧
    ∀ r, r ∈ table' ↔ r ∈ table ∨ (j_binary_id r = b ∧ added blocks cfg_edges table r).
Proof.
  unfold expand_binary, discovered_of.
  destruct (discover_total (cfg_rows_of cfg_edges b) (covered_of table b)) as [newly Hd].
  rewrite Hd. simpl. eexists. split; [done|]. intros r.
  pose proof (discover_spec _ _ _ Hd) as Hspec.
  rewrite SqlFacts.elem_of_insert_or_ignore_all
    by (apply (blocks_to_add_keys blocks b), NoDup_elements).
  fold (to_row blocks b). rewrite list_elem_of_omap. unfold added. split.
  - intros [?|[(rva & Hrva & Hr) Hk]]; [by left|]. right.
    apply to_row_Some in Hr as (<- & <- & Hf). split_and!; [done| |done].
    apply Hspec. by apply elem_of_elements.
  - intros [?|(<- & Hreach & Hf)]; [by left|]. right. split.
    + exists (j_bb_rva r). split; [by apply elem_of_elements, Hspec|].
      by apply to_row_Some.
    + intros Hk. destruct Hreach as (s & _ & Hchain).
      apply det_chain_not_covered in Hchain. apply Hchain.
      by apply elem_of_covered_of.
Qed.

(** *** The loop over the binaries *)

Lemma expand_fold blocks cfg_edges table (bs done : list Z) t :
  NoDup bs → (∀ b, b ∈ bs → b ∉ done) →
  (∀ r, r ∈ t ↔ r ∈ table ∨ (j_binary_id r ∈ done ∧ added blocks cfg_edges table r)) →
  ∃ t', foldl (λ acc b, acc ≫= λ t0, expand_binary blocks cfg_edges t0 b) (Some t) bs
        = Some t' ∧
    ∀ r, r ∈ t' ↔
         r ∈ table ∨ (j_binary_id r ∈ done ++ bs ∧ added blocks cfg_edges table r).
Proof.
  revert done t. induction bs as [|b bs IH]; intros done t Hnd Hfresh Hinv; simpl.
  - exists t. split; [done|]. by rewrite app_nil_r.
  - apply NoDup_cons in Hnd as [Hb Hnd].
    destruct (expand_binary_spec blocks cfg_edges t b) as (t1 & -> & H1). simpl.
    assert (covered_of t b = covered_of table b) as Hcov.
    { apply covered_of_ext. intros r Hr. rewrite Hinv. split; [|by left].
      intros [?|[Hin _]]; [done|]. rewrite Hr in Hin.
      destruct (Hfresh b ltac:(left) Hin). }
    destruct (IH (done ++ [b]) t1 Hnd) as (t' & Hfold & H').
    + intros b' Hb' [Hin| ->%list_elem_of_singleton]%elem_of_app; [|done].
      apply (Hfresh b'); [by right|done].
    + intros r. rewrite H1, Hinv, elem_of_app, list_elem_of_singleton.
      unfold added. split.
      * intros [[?|[? ?]]|[Hrb [Hreach Hf]]]; [by left|right; auto|].
        right. split; [by right|]. rewrite Hrb in *. by rewrite <- Hcov.
      * intros [?|[[?|Hrb] Hadd]]; [by left; left|left; right; auto|].
        right. split; [done|]. rewrite Hrb in *. by rewrite Hcov.
    + exists t'. split; [done|]. intros r. rewrite H'. by rewrite <- app_assoc.
Qed.

(** The expansion of a sample completes, and adds the rows [added]. *)
Lemma expand_rows blocks cfg_edges table :
  ∃ table', expand_deterministic_for_sample blocks cfg_edges table = Some table' ∧
    ∀ r, r ∈ table' ↔ r ∈ table ∨ added blocks cfg_edges table r.
Proof.
  unfold expand_deterministic_for_sample.
  destruct (expand_fold blocks cfg_edges table (remove_dups (j_binary_id <$> table))
              [] table) as (t' & Hfold & H').
  - apply NoDup_remove_dups.
  - intros b _ Hb. inversion Hb.
  - intros r. split; [by left|]. intros [?|[Hin _]]; [done|inversion Hin].
  - exists t'. split; [done|]. intros r. rewrite H'. simpl.
    split; (intros [?|Hadd]; [by left|right]); [tauto|]. split; [|done].
    destruct Hadd as [(s & Hs & _) _]. apply elem_of_covered_of in Hs.
    apply elem_of_remove_dups.
    apply list_elem_of_fmap in Hs as (r' & [= Hb _] & Hr').
    apply list_elem_of_fmap. exists r'. done.
Qed.

(** The last step of a chain. *)
Lemma det_chain_last rows covered s d :
  det_chain rows covered s d → ∃ x, det_step rows x d.
Proof. intros H. inversion H; eauto. Qed.

(** With referential integrity, every block on a chain has its row in
    [basic_blocks]. *)
Lemma det_reachable_func_id blocks cfg_edges table b d :
  cfg_in_blocks blocks cfg_edges →
  det_reachable (cfg_rows_of cfg_edges b) (covered_of table b) d →
  is_Some (func_id_of blocks b d).
Proof.
  intros Hint (s & _ & (x & e & He & Hd & _)%det_chain_last).
  assert (e ∈ cfg_rows_of cfg_edges b) as Hin.
  { assert (e ∈ filter (λ r, ce_src r = x) (cfg_rows_of cfg_edges b)) as H
      by (rewrite He; left).
    by apply list_elem_of_filter in H as [_ ?]. }
  apply list_elem_of_filter in Hin as [Hb Hin].
  destruct (Hint e Hin) as (blk & Hblk & Hbb & Hrva).
  unfold func_id_of.
  destruct (head_filter_is_Some
              (λ b0, Resolver.bb_binary_id b0 = b ∧ Resolver.bb_rva b0 = d) blocks blk)
    as [y ->]; [done|split; congruence|]. by eexists.
Qed.

(** C5.  On a master store whose CFG edges lead to blocks of
    [basic_blocks], deterministic expansion of a sample completes, and the
    blocks of [cov_S_blocks_joined] afterwards are, for every binary, the
    covered blocks plus exactly the blocks that are reachable from a
    covered block by one or more steps along a [fallthrough] or
    [branch_unconditional] edge out of a block with exactly one successor,
    none of the steps entering a covered block; each added row carries the
    [func_id] that [basic_blocks] gives the block.  In scenario 6 the final
    joined set is {10, 20, 30, 40}. *)
Theorem expand_deterministic_for_sample_spec :
  (∀ blocks cfg_edges table,
     cfg_in_blocks blocks cfg_edges →
     ∃ table', expand_deterministic_for_sample blocks cfg_edges table = Some table' ∧
       (∀ b d, d ∈ covered_of table' b ↔
               d ∈ covered_of table b ∨
               det_reachable (cfg_rows_of cfg_edges b) (covered_of table b) d) ∧
       (∀ r, r ∈ table' ↔ r ∈ table ∨ added blocks cfg_edges table r)) ∧
  (cfg_in_blocks scenario6_blocks scenario6_cfg ∧
   ∃ table', expand_deterministic_for_sample scenario6_blocks scenario6_cfg
               scenario6_recorded = Some table' ∧
     covered_of table' 1 = {[10; 20; 30; 40]}).
Proof.
  split.
  - intros blocks cfg_edges table Hint.
    destruct (expand_rows blocks cfg_edges table) as (table' & He & Hrows).
    exists table'. split; [done|]. split; [|done].
    intros b d. rewrite !elem_of_covered_of, !list_elem_of_fmap. split.
    + intros (r & Hk & [Hr|[Hreach _]]%Hrows); [left; by exists r|right].
      injection Hk as -> ->. done.
    + intros [(r & Hk & Hr)|Hreach].
      * exists r. split; [done|]. apply Hrows. by left.
      * destruct (det_reachable_func_id _ _ _ _ _ Hint Hreach) as [f Hf].
        exists (Joined b f d). split; [done|]. apply Hrows. right. by split.
  - split.
    + intros e He. unfold scenario6_cfg in He.
      rewrite !elem_of_cons in He.
      destruct He as [->|[->|[->|[->|He]]]]; [| | | |inversion He];
        [exists (Resolver.BasicBlock 1 7 20 0x1020 0x1030)
        |exists (Resolver.BasicBlock 1 7 30 0x1030 0x1040)
        |exists (Resolver.BasicBlock 1 7 40 0x1040 0x1050)
        |exists (Resolver.BasicBlock 1 7 50 0x1050 0x1060)];
        (split; [|done]); unfold scenario6_blocks;
        repeat first [apply list_elem_of_here|apply list_elem_of_further].
    + eexists. split; [vm_compute; reflexivity|].
      apply set_eq. intros x. rewrite elem_of_covered_of. unfold joined_key. simpl.
      rewrite !elem_of_cons, !elem_of_union, !elem_of_singleton.
      split.
      * intros [[= ->]|[[= ->]|[[= ->]|[[= ->]|Hnil]]]]; auto. inversion Hnil.
      * intros [[[->| ->]| ->]| ->]; auto.
Qed.

(** The theorem at scenario 6. *)
Lemma expand_deterministic_for_sample_spec_witness :
  cfg_in_blocks scenario6_blocks scenario6_cfg ∧
  ∃ table', expand_deterministic_for_sample scenario6_blocks scenario6_cfg
              scenario6_recorded = Some table' ∧
    (∀ b d, d ∈ covered_of table' b ↔
            d ∈ covered_of scenario6_recorded b ∨
            det_reachable (cfg_rows_of scenario6_cfg b)
                          (covered_of scenario6_recorded b) d) ∧
    (∀ r, r ∈ table' ↔
          r ∈ scenario6_recorded ∨ added scenario6_blocks scenario6_cfg scenario6_recorded r).
Proof.
  destruct expand_deterministic_for_sample_spec as [Hall [Hint _]].
  split; [exact Hint|].
  exact (Hall scenario6_blocks scenario6_cfg scenario6_recorded Hint).
Defined.

(** Where the master store breaks that integrity the row is skipped: with
    the single edge 10 -> 20 (fallthrough), coverage {10} and no row for
    block 20 in [basic_blocks], block 20 is discovered and not added. *)
Remark expand_skips_unlisted_block :
  ¬ (∀ blocks cfg_edges table table' b d,
       expand_deterministic_for_sample blocks cfg_edges table = Some table' →
       det_reachable (cfg_rows_of cfg_edges b) (covered_of table b) d →
       d ∈ covered_of table' b).
Proof.
  intros H.
  specialize (H [Resolver.BasicBlock 1 7 10 0x1010 0x1020]
                [CfgEdge 1 10 20 (Some "fallthrough")]
                [Joined 1 7 10] [Joined 1 7 10] 1 20 eq_refl).
  assert (20 ∉ covered_of [Joined 1 7 10] 1) as Hnot.
  { rewrite elem_of_covered_of. simpl. rewrite list_elem_of_singleton. by intros [= ?]. }
  apply Hnot, H. exists 10. split.
  - apply elem_of_covered_of. simpl. by apply list_elem_of_singleton.
  - apply det_chain_one; [|done].
    exists (CfgEdge 1 10 20 (Some "fallthrough")). split_and!; [done|done|by left].
Qed.

(** On the loop 10 -> 20 -> 30 -> 10 with coverage {10} the walk from 10
    puts 10, 20 and 30 on the queue, once each, and stops when it comes
    back to 10. *)
Example walk_on_loop :
  (λ st, (queue st, elements (newly_discovered st), enqueued st))
    <$> walk_from (walk_fuel loop_cfg) (build_cfg loop_cfg) {[10]} ∅ 10
  = Some ([], elements ({[20; 30]} : gset Z), [10; 20; 30]).
Proof. vm_compute. reflexivity. Qed.

(** C6.  For every list of CFG rows, cyclic or not, every covered set and
    every start block, the walk ends within the iterations it is granted,
    with an empty queue, and no block was put on the queue twice; the
    expansion of a sample as a whole ends as well. *)
Theorem walk_terminates_enqueues_once :
  (∀ rows covered newly start_bb,
     ∃ st, walk_from (walk_fuel rows) (build_cfg rows) covered newly start_bb = Some st
           ∧ queue st = [] ∧ NoDup (enqueued st)) ∧
  (∀ blocks cfg_edges table,
     is_Some (expand_deterministic_for_sample blocks cfg_edges table)).
Proof.
  split.
  - intros rows covered newly start_bb.
    destruct (walk_from_terminates rows covered newly start_bb) as [st Hw].
    exists st. split; [done|]. unfold walk_from in Hw.
    apply (walk_invariant rows covered enqueued_once) in Hw.
    + destruct Hw as [[Hnd _] Hq]. done.
    + intros st0 current rest _. apply walk_step_enqueued_once.
    + split; simpl; [apply NoDup_singleton|].
      intros x ->%list_elem_of_singleton. by apply elem_of_singleton.
  - intros blocks cfg_edges table.
    destruct (expand_rows blocks cfg_edges table) as (t' & -> & _). eauto.
Qed.

End ExpandFacts.

(** ------------------------------------------------------------------ *)
(** ** Diff labels                                                      *)
(** ------------------------------------------------------------------ *)

Module LabelsFacts.
Import Expand Labels ListFacts.

Lemma group_label_Some rows k l :
  group_label rows k = Some l →
  label_key l = k ∧ l_is_new l = l_in_B l && negb (l_in_A l).
Proof.
  unfold group_label. destruct (filter _ rows) as [|first others]; [done|].
  intros [= <-]. split; [by destruct k|]. simpl.
  by destruct (_ && negb _).
Qed.

Lemma group_label_is_Some rows k :
  k ∈ (λ x, joined_key x.1.1) <$> rows → is_Some (group_label rows k).
Proof.
  intros (x & -> & Hx)%list_elem_of_fmap. unfold group_label.
  destruct (filter _ rows) as [|first others] eqn:E; [|eauto].
  exfalso. by apply (filter_nil_not_elem_of _ _ x E).
Qed.

Lemma NoDup_omap_key {A B} (f : A → option B) (g : B → A) (l : list A) :
  (∀ x y, f x = Some y → g y = x) → NoDup l → NoDup (g <$> omap f l).
Proof.
  intros Hfg. induction 1 as [|x l Hx Hnd IH]; simpl; [constructor|].
  destruct (f x) as [y|] eqn:Hy; [|done].
  rewrite fmap_cons. apply NoDup_cons. split; [|done].
  intros (y' & Hg & (x' & Hx' & Hy')%list_elem_of_omap)%list_elem_of_fmap.
  apply Hfg in Hy, Hy'. congruence.
Qed.

(** [GROUP BY binary_id, bb_rva] yields one row per key. *)
Lemma diff_rows_pk cov_A cov_B : NoDup (label_key <$> diff_rows cov_A cov_B).
Proof.
  unfold diff_rows. apply NoDup_omap_key; [|apply NoDup_remove_dups].
  intros k l Hl. by apply group_label_Some in Hl as [? _].
Qed.

Lemma elem_of_diff_rows_keys cov_A cov_B k :
  k ∈ label_key <$> diff_rows cov_A cov_B ↔ k ∈ joined_key <$> (cov_A ++ cov_B).
Proof.
  unfold diff_rows.
  assert ((λ x : joined_row * bool * bool, joined_key x.1.1) <$> union_all cov_A cov_B
          = joined_key <$> (cov_A ++ cov_B)) as Hkeys.
  { unfold union_all. rewrite !fmap_app, <- !list_fmap_compose. done. }
  rewrite <- Hkeys. rewrite list_elem_of_fmap. split.
  - intros (l & -> & (k' & Hk & Hl)%list_elem_of_omap).
    apply group_label_Some in Hl as [Hl _]. rewrite Hl.
    by rewrite elem_of_remove_dups in Hk.
  - intros Hk. destruct (group_label_is_Some _ _ Hk) as [l Hl]. exists l. split.
    + by apply group_label_Some in Hl as [Hl _].
    + apply list_elem_of_omap. exists k. split; [|done]. by apply elem_of_remove_dups.
Qed.

(** On an empty [bb_labels] the stage succeeds. *)
Lemma compute_diff_labels_fresh cov_A cov_B :
  compute_diff_labels cov_A cov_B [] = Some (diff_rows cov_A cov_B).
Proof.
  unfold compute_diff_labels. apply SqlFacts.insert_all_Some.
  split_and!; [done|apply diff_rows_pk|]. intros r _ Hr. inversion Hr.
Qed.

(** On a [bb_labels] that already holds one of the blocks it raises. *)
Lemma compute_diff_labels_again cov_A cov_B bb_labels k :
  k ∈ label_key <$> bb_labels → k ∈ joined_key <$> (cov_A ++ cov_B) →
  compute_diff_labels cov_A cov_B bb_labels = None.
Proof.
  intros Hold Hnew. unfold compute_diff_labels.
  destruct (Sql.insert_all label_key bb_labels (diff_rows cov_A cov_B)) as [t|] eqn:E;
    [|done].
  apply SqlFacts.insert_all_Some in E as (_ & _ & Hfresh).
  apply elem_of_diff_rows_keys in Hnew as (l & -> & Hl)%list_elem_of_fmap.
  by destruct (Hfresh l Hl).
Qed.

Lemma diff_rows_ok cov_A cov_B : labels_ok (diff_rows cov_A cov_B).
Proof.
  split; [apply diff_rows_pk|].
  intros l (k & _ & Hl)%list_elem_of_omap. by apply group_label_Some in Hl as [_ ?].
Qed.

(** With a primary key, the join on [(binary_id, bb_rva)] finds one row. *)
Lemma labels_at_unique bb_labels l l' :
  NoDup (label_key <$> bb_labels) →
  l ∈ bb_labels → l' ∈ bb_labels → label_key l = label_key l' → l = l'.
Proof.
  intros Hnd Hl Hl' Hk.
  apply list_elem_of_lookup in Hl as [i Hi]. apply list_elem_of_lookup in Hl' as [j Hj].
  assert (i = j) as ->.
  { eapply NoDup_lookup; [exact Hnd| |]; rewrite list_lookup_fmap.
    - by rewrite Hi.
    - rewrite Hj. simpl. by rewrite Hk. }
  congruence.
Qed.

Lemma elem_of_labels_at bb_labels b rva l :
  l ∈ labels_at bb_labels b rva ↔ l ∈ bb_labels ∧ label_key l = (b, rva).
Proof. unfold labels_at. rewrite list_elem_of_filter. tauto. Qed.

Lemma labels_at_cases bb_labels b rva :
  NoDup (label_key <$> bb_labels) →
  labels_at bb_labels b rva = [] ∨ ∃ l, labels_at bb_labels b rva = [l].
Proof.
  intros Hpk. unfold labels_at.
  destruct (filter (λ l, label_key l = (b, rva)) bb_labels) as [|l ls] eqn:E; [by left|].
  right. exists l.
  assert (l ∈ filter (λ l, label_key l = (b, rva)) bb_labels) as Hl by (rewrite E; left).
  apply list_elem_of_filter in Hl as [Hk Hl]. rewrite <- E, <- Hk.
  by apply (SqlFacts.filter_key_unique label_key).
Qed.

(** A [WHERE] clause keeps the primary key. *)
Lemma filter_labels_pk (P : label → Prop) `{!∀ l, Decision (P l)} bb_labels :
  NoDup (label_key <$> bb_labels) → NoDup (label_key <$> filter P bb_labels).
Proof.
  intros Hpk. apply (NoDup_fmap_2_strong _).
  - intros l l' [_ Hl]%list_elem_of_filter [_ Hl']%list_elem_of_filter.
    by apply (labels_at_unique bb_labels).
  - apply NoDup_filter. by apply NoDup_fmap_1 in Hpk.
Qed.

End LabelsFacts.

(** ------------------------------------------------------------------ *)
(** ** The executed graph                                               *)
(** ------------------------------------------------------------------ *)

Module GraphFacts.
Import Expand Labels Graph ListFacts LabelsFacts.

Section build.
Context (master : master_db) (bb_labels : list label).

(** Membership in [b_nodes] for the nodes of a new store. *)
Lemma elem_of_b_nodes b rva :
  (b, rva) ∈ b_nodes_of (block_nodes bb_labels ++ super_root_nodes bb_labels) ↔
  rva ≠ SUPER ∧ ∃ l, l ∈ bb_labels ∧ label_key l = (b, rva) ∧ l_in_B l = true.
Proof.
  unfold b_nodes_of. rewrite elem_of_list_to_set, list_elem_of_fmap. split.
  - intros (n & Hk & [Hne Hn]%list_elem_of_filter).
    apply elem_of_app in Hn as [Hn|Hn].
    + apply list_elem_of_fmap in Hn as (l & -> & [HB Hl]%list_elem_of_filter).
      injection Hk as -> ->. simpl in Hne. split; [done|]. by exists l.
    + apply list_elem_of_fmap in Hn as (b' & -> & _). by simpl in Hne.
  - intros (Hne & l & Hl & Hk & HB).
    exists (Node (l_binary_id l) (l_bb_rva l) (l_func_id l) (l_is_new l) (l_in_A l)).
    injection Hk as <- <-. split; [done|]. apply list_elem_of_filter. split; [done|].
    apply elem_of_app. left. apply list_elem_of_fmap. exists l. split; [done|].
    by apply list_elem_of_filter.
Qed.

Lemma cfg_graph_edges_inner b_nodes rows b e :
  e ∈ cfg_graph_edges b_nodes rows b → inner b_nodes e.
Proof.
  intros (r & _ & Hr)%list_elem_of_omap. case_decide; [|done].
  unfold cfg_edge_type in Hr. repeat case_decide; simplify_option_eq; done.
Qed.

Lemma call_graph_edges_inner b_nodes calls fns b e :
  e ∈ call_graph_edges b_nodes calls fns b → inner b_nodes e.
Proof.
  intros (c & _ & Hc)%list_elem_of_omap. case_decide; [|done].
  destruct (ca_dst_func_id c) as [f|]; [|done]. simpl in Hc.
  destruct (entry_rva_of fns b f) as [dst|]; [|done]. simpl in Hc.
  case_decide as Hn; [|done]. injection Hc as <-. destruct Hn. done.
Qed.

Lemma observe_edge_inner blocks b_nodes st row :
  (∀ e, e ∈ st.1 → inner b_nodes e) →
  ∀ e, e ∈ (observe_edge blocks b_nodes st row).1 → inner b_nodes e.
Proof.
  destruct st as [observed cache], row as [[b src] dst]. simpl. intros Hall.
  destruct (Resolver.find_containing_basic_block blocks cache b src) as [rs cache1].
  destruct (Resolver.find_containing_basic_block blocks cache1 b dst) as [rd cache2].
  destruct rs as [[src_bb ?]|], rd as [[dst_bb ?]|]; simpl; try done.
  case_decide as Hn; simpl; [|done].
  intros e [He| ->%list_elem_of_singleton]%elem_of_app; [auto|].
  destruct Hn. split_and!; [|done|done]. simpl. by case_decide.
Qed.

Lemma observed_edges_inner blocks b_nodes rows st :
  (∀ e, e ∈ st.1 → inner b_nodes e) →
  ∀ e, e ∈ (foldl (observe_edge blocks b_nodes) st rows).1 → inner b_nodes e.
Proof.
  revert st. induction rows as [|row rows IH]; intros st Hst; [done|].
  simpl. apply IH. by apply observe_edge_inner.
Qed.

Lemma static_edges_inner b_nodes (binaries : list Z) edges0 (P : edge → Prop) :
  (∀ e, inner b_nodes e → P e) →
  (∀ e, e ∈ edges0 → P e) →
  ∀ e, e ∈ foldl (add_static_edges master b_nodes) edges0 binaries → P e.
Proof.
  intros Hinner. revert edges0.
  induction binaries as [|b binaries IH]; intros edges0 H0; [done|].
  simpl. apply IH. intros e. unfold add_static_edges.
  rewrite !SqlFacts.elem_of_insert_or_ignore_all_id.
  intros [[?|He]|He]; [auto| |].
  - by eapply Hinner, cfg_graph_edges_inner.
  - by eapply Hinner, call_graph_edges_inner.
Qed.

Lemma elem_of_orphan_edges edges e :
  e ∈ orphan_edges bb_labels edges ↔
  ∃ l, l ∈ bb_labels ∧ l_is_new l = true ∧ (l_bb_rva l ∉ entered edges (l_binary_id l))
       ∧ e = Edge (l_binary_id l) SUPER (l_bb_rva l) super_root_orphan.
Proof.
  unfold orphan_edges. rewrite elem_of_remove_dups, list_elem_of_fmap.
  split; intros (l & H1 & H2); exists l.
  - apply list_elem_of_filter in H2 as [[? ?] ?]. done.
  - destruct H2 as (? & ? & ->). split; [done|]. by apply list_elem_of_filter.
Qed.

Lemma not_entered edges b x :
  x ∉ entered edges b ↔
  ∀ e, e ∈ edges → e_binary_id e = b → e_dst e = x → like_super_root (e_type e) = true.
Proof.
  unfold entered. rewrite list_elem_of_fmap. split.
  - intros Hno e He Hb Hd. destruct (like_super_root (e_type e)) eqn:Ht; [done|].
    exfalso. apply Hno. exists e. split; [done|]. apply list_elem_of_filter.
    split; [|done]. split_and!; [done| |]; intros Heq; by rewrite Heq in Ht.
  - intros Hall (e & -> & [(Hb & Ht1 & Ht2) He]%list_elem_of_filter).
    specialize (Hall e He Hb eq_refl). by destruct (e_type e).
Qed.

(** What holds of the first edges and of the edges between nodes of
    [b_nodes] holds of all edges before the orphan query. *)
Lemma add_inner_edges_inv mapping edges_B b_nodes edges1 cache0 (P : edge → Prop) :
  (∀ e, inner b_nodes e → P e) →
  (∀ e, e ∈ edges1 → P e) →
  ∀ e, e ∈ (add_inner_edges master bb_labels mapping edges_B b_nodes edges1 cache0).1 → P e.
Proof.
  intros Hinner H1. unfold add_inner_edges.
  set (edges2 := foldl (add_static_edges master b_nodes) edges1 (binaries_of bb_labels)).
  assert (∀ e, e ∈ edges2 → P e) as H2 by (by apply static_edges_inner).
  destruct edges_B as [tbl|]; [|done].
  destruct (foldl _ ([], cache0) (observed_rows tbl mapping)) as [obs c] eqn:Eo.
  simpl. intros e. rewrite SqlFacts.elem_of_insert_or_ignore_all_id. intros [?|He]; [auto|].
  apply Hinner. apply (observed_edges_inner (basic_blocks master) b_nodes
                         (observed_rows tbl mapping) ([], cache0)).
  - intros e' He'. inversion He'.
  - by rewrite Eo.
Qed.

(** No row of [graph_B_edges] is doubled by them. *)
Lemma add_inner_edges_NoDup mapping edges_B b_nodes edges1 cache0 :
  NoDup edges1 →
  NoDup (add_inner_edges master bb_labels mapping edges_B b_nodes edges1 cache0).1.
Proof.
  intros H1. unfold add_inner_edges.
  assert (NoDup (foldl (add_static_edges master b_nodes) edges1 (binaries_of bb_labels)))
    as H2.
  { revert edges1 H1. induction (binaries_of bb_labels) as [|b bs IH]; intros edges1 H1;
      [done|].
    simpl. apply IH. unfold add_static_edges.
    by do 2 apply SqlFacts.insert_or_ignore_all_id_NoDup. }
  destruct edges_B as [tbl|]; [|done].
  destruct (foldl _ ([], cache0) (observed_rows tbl mapping)) as [obs c].
  simpl. by apply SqlFacts.insert_or_ignore_all_id_NoDup.
Qed.

(** The graph that [build_executed_graph] makes on a new store. *)
Lemma build_graph_ok mapping edges_B cache0 nodes edges cache' :
  build_executed_graph master bb_labels mapping edges_B [] [] cache0
  = Some (nodes, edges, cache') →
  graph_ok bb_labels nodes edges.
Proof.
  unfold build_executed_graph. intros H.
  apply bind_Some in H as (nodes1 & H1 & H).
  apply SqlFacts.insert_all_Some in H1 as (-> & _ & _).
  apply bind_Some in H as (nodes2 & H2 & H).
  apply SqlFacts.insert_all_Some in H2 as (-> & _ & Hfresh).
  apply bind_Some in H as (edges1 & H3 & H).
  apply SqlFacts.insert_all_Some in H3 as (-> & _ & _).
  simpl in H. simpl in Hfresh.
  set (b_nodes := b_nodes_of (block_nodes bb_labels ++ super_root_nodes bb_labels)) in *.
  set (P := λ e, e ∈ super_root_edges bb_labels ∨ inner b_nodes e).
  destruct (add_inner_edges master bb_labels mapping edges_B b_nodes
              (super_root_edges bb_labels) cache0) as [edges3 cache1] eqn:E3.
  assert (∀ e, e ∈ edges3 → P e) as H3.
  { intros e He.
    apply (add_inner_edges_inv mapping edges_B b_nodes (super_root_edges bb_labels)
             cache0 P); [by right|by left|by rewrite E3]. }
  apply bind_Some in H as (edges4 & H4 & [= <- <- <-]).
  apply SqlFacts.insert_all_Some in H4 as (-> & _ & _).
  assert (∀ e, e ∈ super_root_edges bb_labels →
               e_type e = super_root ∧ e_src e = SUPER) as Hsr.
  { by intros e (l & -> & _)%list_elem_of_fmap. }
  split.
  - intros l Hl Hrva. destruct (l_in_B l) eqn:HB; [exfalso|done].
    apply (Hfresh (Node (l_binary_id l) SUPER (-1) false true)).
    + apply list_elem_of_fmap. exists (l_binary_id l). split; [done|].
      apply elem_of_remove_dups, list_elem_of_fmap. eauto.
    + apply list_elem_of_fmap.
      exists (Node (l_binary_id l) (l_bb_rva l) (l_func_id l) (l_is_new l) (l_in_A l)).
      split; [by rewrite <- Hrva|].
      apply list_elem_of_fmap. exists l. split; [done|]. by apply list_elem_of_filter.
  - intros l Hl HB. apply elem_of_app. left.
    apply list_elem_of_fmap. exists l. split; [done|]. by apply list_elem_of_filter.
  - intros e [He|He]%elem_of_app Ht.
    + destruct (H3 e He) as [Hs|(_ & Hsrc & Hdst)].
      * apply Hsr in Hs as [Hs _]. by rewrite Hs in Ht.
      * apply elem_of_b_nodes in Hsrc as (_ & ls & ? & ? & ?).
        apply elem_of_b_nodes in Hdst as (_ & ld & ? & ? & ?).
        exists ls, ld. done.
    + apply elem_of_orphan_edges in He as (l & _ & _ & _ & ->). done.
  - intros e [He|He]%elem_of_app Ht.
    + destruct (H3 e He) as [Hs|(Hn & _)]; [by apply Hsr in Hs as [_ ?]|congruence].
    + by apply elem_of_orphan_edges in He as (l & _ & _ & _ & ->).
  - intros e [He|He]%elem_of_app Ht.
    + destruct (H3 e He) as [Hs|(Hn & _)].
      * apply Hsr in Hs as [Hs _]. congruence.
      * by rewrite Ht in Hn.
    + apply elem_of_orphan_edges in He as (l & Hl & Hnew & Hent & ->). simpl. split.
      * exists l. done.
      * intros e' [He'|He']%elem_of_app Hb Hd.
        -- by apply (not_entered edges3 (l_binary_id l) (l_bb_rva l)).
        -- by apply elem_of_orphan_edges in He' as (l' & _ & _ & _ & ->).
Qed.

(** On a new store, with labels under their primary key and no block at
    the super-root's address, [build_executed_graph] does not raise, and
    [graph_B_edges] respects its primary key. *)
Lemma build_graph_completes mapping edges_B cache0 :
  NoDup (label_key <$> bb_labels) →
  (∀ l, l ∈ bb_labels → l_bb_rva l ≠ SUPER) →
  ∃ nodes edges cache',
    build_executed_graph master bb_labels mapping edges_B [] [] cache0
    = Some (nodes, edges, cache') ∧ NoDup edges.
Proof.
  intros Hpk Hrva. unfold build_executed_graph.
  assert (Sql.insert_all node_key [] (block_nodes bb_labels)
          = Some (block_nodes bb_labels)) as ->.
  { apply SqlFacts.insert_all_Some. split_and!; [done| |by intros r _ Hr; inversion Hr].
    unfold block_nodes. rewrite <- list_fmap_compose.
    by apply (filter_labels_pk (λ l, l_in_B l = true)). }
  simpl.
  assert (Sql.insert_all node_key (block_nodes bb_labels) (super_root_nodes bb_labels)
          = Some (block_nodes bb_labels ++ super_root_nodes bb_labels)) as ->.
  { apply SqlFacts.insert_all_Some. split_and!; [done| |].
    - unfold super_root_nodes. rewrite <- list_fmap_compose.
      apply (NoDup_fmap_2_strong _); [|apply NoDup_remove_dups].
      by intros b b' _ _ [= ->].
    - intros r (b & -> & _)%list_elem_of_fmap
               (n & Hk & (l & -> & [_ Hl]%list_elem_of_filter)%list_elem_of_fmap)
               %list_elem_of_fmap.
      injection Hk as _ Hk. by apply (Hrva l Hl). }
  simpl.
  assert (NoDup (super_root_edges bb_labels)) as Hnd1.
  { unfold super_root_edges. apply (NoDup_fmap_2_strong _).
    - intros l l' [_ Hl]%list_elem_of_filter [_ Hl']%list_elem_of_filter [= Hb Hr].
      apply (labels_at_unique bb_labels); [done|done|done|]. unfold label_key. congruence.
    - apply NoDup_filter. by apply NoDup_fmap_1 in Hpk. }
  assert (Sql.insert_all id [] (super_root_edges bb_labels)
          = Some (super_root_edges bb_labels)) as ->.
  { apply SqlFacts.insert_all_Some. rewrite list_fmap_id.
    split_and!; [done|done|by intros r _ Hr; inversion Hr]. }
  simpl.
  set (b_nodes := b_nodes_of (block_nodes bb_labels ++ super_root_nodes bb_labels)).
  pose proof (add_inner_edges_NoDup mapping edges_B b_nodes _ cache0 Hnd1) as Hnd3.
  pose proof (add_inner_edges_inv mapping edges_B b_nodes (super_root_edges bb_labels)
                cache0 (λ e, e_type e ≠ super_root_orphan)) as H3.
  destruct (add_inner_edges master bb_labels mapping edges_B b_nodes
              (super_root_edges bb_labels) cache0) as [edges3 cache1].
  simpl in Hnd3, H3.
  assert (∀ e, e ∈ edges3 → e_type e ≠ super_root_orphan) as Hno.
  { apply H3.
    - intros e [Ht _] Heq. by rewrite Heq in Ht.
    - by intros e (l & -> & _)%list_elem_of_fmap. }
  assert (∀ e, e ∈ orphan_edges bb_labels edges3 → e ∉ edges3) as Hfresh.
  { intros e (l & _ & _ & _ & ->)%elem_of_orphan_edges Hin. by apply (Hno _ Hin). }
  assert (Sql.insert_all id edges3 (orphan_edges bb_labels edges3)
          = Some (edges3 ++ orphan_edges bb_labels edges3)) as ->.
  { apply SqlFacts.insert_all_Some. rewrite !list_fmap_id.
    split_and!; [done|apply NoDup_remove_dups|done]. }
  simpl. eexists _, _, _. split; [done|].
  apply NoDup_app. split_and!; [done| |apply NoDup_remove_dups].
  intros e He Ho. by apply (Hfresh e Ho).
Qed.

End build.
End GraphFacts.

(** ------------------------------------------------------------------ *)
(** ** Frontier identification                                          *)
(** ------------------------------------------------------------------ *)

Module FrontierFacts.
Import Labels Graph Frontier ListFacts LabelsFacts.

Lemma elem_of_frontier_query bb_labels edges e :
  e ∈ frontier_query bb_labels edges ↔
  e ∈ edges ∧ e_type e ≠ super_root ∧
  block_in_A bb_labels (e_binary_id e) (e_src e) ∧
  block_is_new bb_labels (e_binary_id e) (e_dst e).
Proof.
  unfold frontier_query, block_in_A, block_is_new. rewrite list_elem_of_bind. split.
  - intros (e' & He & He'). apply list_elem_of_bind in He as (ls & He & Hls).
    apply list_elem_of_bind in He as (ld & He & Hld).
    apply elem_of_labels_at in Hls as [? ?]. apply elem_of_labels_at in Hld as [? ?].
    destruct (l_in_A ls) eqn:?, (l_is_new ld) eqn:?; simpl in He; try by inversion He.
    case_bool_decide; simpl in He; [|by inversion He].
    apply list_elem_of_singleton in He as ->. split_and!; [done|done|by exists ls|by exists ld].
  - intros (He & Ht & (ls & ? & ? & HA) & (ld & ? & ? & HN)). exists e. split; [|done].
    apply list_elem_of_bind. exists ls. split; [|by apply elem_of_labels_at].
    apply list_elem_of_bind. exists ld. split; [|by apply elem_of_labels_at].
    rewrite HA, HN, bool_decide_eq_true_2 by done. simpl. by apply list_elem_of_singleton.
Qed.

Lemma elem_of_frontier_candidates bb_labels fe c :
  c ∈ frontier_candidates bb_labels fe ↔
  ∃ e l, e ∈ fe ∧ l ∈ bb_labels ∧ label_key l = (e_binary_id e, e_dst e)
         ∧ c = (e_binary_id e, e_dst e, l_func_id l).
Proof.
  unfold frontier_candidates. rewrite elem_of_remove_dups, list_elem_of_bind. split.
  - intros (e & Hc & He). apply list_elem_of_bind in Hc as (l & Hc & Hl).
    apply elem_of_labels_at in Hl as [? ?]. apply list_elem_of_singleton in Hc.
    by exists e, l.
  - intros (e & l & ? & ? & ? & ->). exists e. split; [|done].
    apply list_elem_of_bind. exists l. split; [by apply list_elem_of_singleton|].
    by apply elem_of_labels_at.
Qed.

(** The loop over the incoming edges computes two disjunctions. *)
Lemma scan_incoming_spec incoming :
  scan_incoming incoming
  = (existsb (λ row, row.1.2) incoming, existsb (λ row, row.2) incoming).
Proof.
  unfold scan_incoming.
  assert (∀ a n, foldl (λ (flags : bool * bool) (row : Z * bool * bool),
                          (if row.1.2 then true else flags.1,
                           if row.2 then true else flags.2)) (a, n) incoming
                 = (a || existsb (λ row, row.1.2) incoming,
                    n || existsb (λ row, row.2) incoming)) as H.
  { induction incoming as [|[[src a'] n'] l IH]; intros a n; simpl.
    - by rewrite !orb_false_r.
    - rewrite IH. destruct a, a', n, n'; done. }
  apply H.
Qed.

Lemma orphan_count_pos edges b f :
  (0 < orphan_count edges b f)%nat ↔ orphan_entered edges b f.
Proof.
  unfold orphan_count, orphan_entered, enters. split.
  - intros Hlen. destruct (filter _ edges) as [|e l] eqn:E; [simpl in Hlen; lia|].
    assert (e ∈ filter (λ e, e_binary_id e = b ∧ e_dst e = f
                             ∧ e_type e = super_root_orphan) edges) as He
      by (rewrite E; left).
    apply list_elem_of_filter in He as [(? & ? & ?) ?]. by exists e.
  - intros (e & He & [? ?] & ?).
    assert (e ∈ filter (λ e, e_binary_id e = b ∧ e_dst e = f
                             ∧ e_type e = super_root_orphan) edges) as Hin
      by (by apply list_elem_of_filter).
    destruct (filter _ edges); [inversion Hin|simpl; lia].
Qed.

Lemma elem_of_incoming_edges bb_labels edges b f row :
  row ∈ incoming_edges bb_labels edges b f ↔
  ∃ e l, e ∈ edges ∧ enters e b f ∧ like_super_root (e_type e) = false
         ∧ l ∈ bb_labels ∧ label_key l = (b, e_src e)
         ∧ row = (e_src e, l_in_A l, l_is_new l).
Proof.
  unfold incoming_edges, enters. rewrite list_elem_of_bind. split.
  - intros (e & Hrow & [(Hb & Hd & Ht) He]%list_elem_of_filter).
    apply list_elem_of_bind in Hrow as (l & Hrow & [Hl Hk]%elem_of_labels_at).
    apply list_elem_of_singleton in Hrow. exists e, l. rewrite Hb in Hk. done.
  - intros (e & l & He & [Hb Hd] & Ht & Hl & Hk & ->). exists e. split.
    + apply list_elem_of_bind. exists l. split; [by apply list_elem_of_singleton|].
      apply elem_of_labels_at. by rewrite Hb.
    + by apply list_elem_of_filter.
Qed.

(** What [classify] answers. *)
Lemma classify_orphan bb_labels edges b f :
  orphan_entered edges b f → classify bb_labels edges b f = weak.
Proof. intros H%orphan_count_pos. unfold classify. by rewrite decide_True. Qed.

Lemma classify_strong bb_labels edges b f :
  ¬ orphan_entered edges b f →
  classify bb_labels edges b f = strong ↔
  (∃ e, e ∈ edges ∧ enters e b f ∧ like_super_root (e_type e) = false
        ∧ block_in_A bb_labels b (e_src e)) ∧
  ¬ (∃ e, e ∈ edges ∧ enters e b f ∧ like_super_root (e_type e) = false
          ∧ block_is_new bb_labels b (e_src e)).
Proof.
  intros Hno. unfold classify. rewrite decide_False by (by rewrite orphan_count_pos).
  rewrite scan_incoming_spec.
  set (incoming := incoming_edges bb_labels edges b f).
  assert (existsb (λ row : Z * bool * bool, row.1.2) incoming = true ↔
          ∃ e, e ∈ edges ∧ enters e b f ∧ like_super_root (e_type e) = false
               ∧ block_in_A bb_labels b (e_src e)) as HA.
  { rewrite existsb_exists. split.
    - intros ([[src a] n] & (e & l & ? & ? & ? & ? & ? & [= -> -> ->])%list_elem_of_In
                          %elem_of_incoming_edges & Ha).
      exists e. split_and!; try done. by exists l.
    - intros (e & ? & ? & ? & l & ? & ? & Hflag). exists (e_src e, l_in_A l, l_is_new l).
      split; [|done]. apply list_elem_of_In, elem_of_incoming_edges. by exists e, l. }
  assert (existsb (λ row : Z * bool * bool, row.2) incoming = true ↔
          ∃ e, e ∈ edges ∧ enters e b f ∧ like_super_root (e_type e) = false
               ∧ block_is_new bb_labels b (e_src e)) as HN.
  { rewrite existsb_exists. split.
    - intros ([[src a] n] & (e & l & ? & ? & ? & ? & ? & [= -> -> ->])%list_elem_of_In
                          %elem_of_incoming_edges & Ha).
      exists e. split_and!; try done. by exists l.
    - intros (e & ? & ? & ? & l & ? & ? & Hflag). exists (e_src e, l_in_A l, l_is_new l).
      split; [|done]. apply list_elem_of_In, elem_of_incoming_edges. by exists e, l. }
  rewrite <- HA, <- HN.
  destruct (existsb _ incoming), (existsb _ incoming); simpl; naive_solver.
Qed.

(** The tables that [identify_frontier] fills on a new store. *)
Lemma identify_frontier_fresh bb_labels edges fe ft :
  identify_frontier bb_labels edges [] [] = Some (fe, ft) →
  fe = frontier_query bb_labels edges ++ orphan_query edges ∧
  ft = (λ c, Target c.1.1 c.1.2 c.2 (classify bb_labels edges c.1.1 c.1.2))
         <$> frontier_candidates bb_labels fe.
Proof.
  unfold identify_frontier. intros H.
  apply bind_Some in H as (fe1 & H1 & H).
  apply SqlFacts.insert_all_Some in H1 as (-> & _ & _).
  apply bind_Some in H as (fe2 & H2 & H).
  apply SqlFacts.insert_all_Some in H2 as (-> & _ & _).
  apply bind_Some in H as (ft' & H3 & [= <- <-]).
  apply SqlFacts.insert_all_Some in H3 as (-> & _ & _). done.
Qed.

(** The second [INSERT INTO frontier_edges] succeeded: no orphan edge was
    among the rows of the first. *)
Lemma identify_frontier_orphans bb_labels edges fe ft e :
  identify_frontier bb_labels edges [] [] = Some (fe, ft) →
  e ∈ edges → e_type e = super_root_orphan →
  e ∉ frontier_query bb_labels edges.
Proof.
  unfold identify_frontier. intros H He Hty.
  apply bind_Some in H as (fe1 & H1 & H).
  apply SqlFacts.insert_all_Some in H1 as (-> & _ & _).
  apply bind_Some in H as (fe2 & H2 & _).
  apply SqlFacts.insert_all_Some in H2 as (_ & _ & Hfresh).
  specialize (Hfresh e). rewrite list_fmap_id in Hfresh. simpl in Hfresh.
  apply Hfresh. by apply list_elem_of_filter.
Qed.

(** Every frontier target is the destination of a frontier edge, carries a
    label, and has the type that [classify] computes. *)
Lemma frontier_target_inv bb_labels edges fe ft t :
  identify_frontier bb_labels edges [] [] = Some (fe, ft) →
  t ∈ ft →
  t_type t = classify bb_labels edges (t_binary_id t) (t_bb_rva t) ∧
  (∃ l, l ∈ bb_labels ∧ label_key l = (t_binary_id t, t_bb_rva t)) ∧
  ((∃ e, e ∈ edges ∧ enters e (t_binary_id t) (t_bb_rva t) ∧ e_type e ≠ super_root
         ∧ block_in_A bb_labels (t_binary_id t) (e_src e)
         ∧ block_is_new bb_labels (t_binary_id t) (t_bb_rva t)) ∨
   orphan_entered edges (t_binary_id t) (t_bb_rva t)).
Proof.
  intros (-> & ->)%identify_frontier_fresh
         (c & -> & (e & l & He & Hl & Hk & ->)%elem_of_frontier_candidates)%list_elem_of_fmap.
  simpl. split_and!; [done|by exists l|].
  apply elem_of_app in He as [He|He].
  - left. apply elem_of_frontier_query in He as (? & ? & ? & ?). by exists e.
  - right. apply list_elem_of_filter in He as [? ?]. by exists e.
Qed.

(** On a new store, with labels and edges under their primary keys and no
    block at the super-root's address, [identify_frontier] does not raise. *)
Lemma identify_frontier_completes bb_labels edges :
  NoDup (label_key <$> bb_labels) → NoDup edges →
  (∀ l, l ∈ bb_labels → l_bb_rva l ≠ SUPER) →
  (∀ e, e ∈ edges → like_super_root (e_type e) = true → e_src e = SUPER) →
  is_Some (identify_frontier bb_labels edges [] []).
Proof.
  intros Hpk Hnd Hrva Hsuper. unfold identify_frontier.
  assert (NoDup (frontier_query bb_labels edges)) as Hq.
  { unfold frontier_query. apply NoDup_bind; [| |done].
    - intros e e' x _ _ Hx Hx'.
      apply list_elem_of_bind in Hx as (ls & Hx & _).
      apply list_elem_of_bind in Hx as (ld & Hx & _).
      apply list_elem_of_bind in Hx' as (ls' & Hx' & _).
      apply list_elem_of_bind in Hx' as (ld' & Hx' & _).
      destruct (_ && _ && _); [|inversion Hx]. destruct (_ && _ && _); [|inversion Hx'].
      apply list_elem_of_singleton in Hx, Hx'. congruence.
    - intros e _.
      destruct (labels_at_cases bb_labels (e_binary_id e) (e_src e) Hpk) as [->|[ls ->]];
        [constructor|].
      destruct (labels_at_cases bb_labels (e_binary_id e) (e_dst e) Hpk) as [->|[ld ->]];
        [constructor|].
      simpl. rewrite !app_nil_r. destruct (_ && _ && _); [apply NoDup_singleton|constructor]. }
  assert (Sql.insert_all id [] (frontier_query bb_labels edges)
          = Some (frontier_query bb_labels edges)) as ->.
  { apply SqlFacts.insert_all_Some. rewrite list_fmap_id.
    split_and!; [done|done|by intros r _ Hr; inversion Hr]. }
  simpl.
  assert (Sql.insert_all id (frontier_query bb_labels edges) (orphan_query edges)
          = Some (frontier_query bb_labels edges ++ orphan_query edges)) as ->.
  { apply SqlFacts.insert_all_Some. rewrite !list_fmap_id.
    split_and!; [done|by apply NoDup_filter|].
    intros e [Hty He]%list_elem_of_filter
           (_ & _ & (l & Hl & [= _ Hr] & _) & _)%elem_of_frontier_query.
    apply (Hrva l Hl). rewrite Hr. apply Hsuper; [done|]. by rewrite Hty. }
  simpl.
  set (fe := frontier_query bb_labels edges ++ orphan_query edges).
  match goal with
  | |- is_Some (Sql.insert_all target_key [] ?data ≫= _) =>
      assert (Sql.insert_all target_key [] data = Some data) as ->
  end; [|simpl; eauto].
  apply SqlFacts.insert_all_Some. split_and!; [done| |by intros r _ Hr; inversion Hr].
  rewrite <- list_fmap_compose. apply (NoDup_fmap_2_strong _).
  - intros c c' (e & l & _ & Hl & Hk & ->)%elem_of_frontier_candidates
                (e' & l' & _ & Hl' & Hk' & ->)%elem_of_frontier_candidates [= Hb Hd].
    simpl in *. rewrite Hb, Hd in Hk.
    assert (l = l') as -> by (apply (labels_at_unique bb_labels); congruence).
    congruence.
  - unfold frontier_candidates. apply NoDup_remove_dups.
Qed.

End FrontierFacts.

(** ------------------------------------------------------------------ *)
(** ** Reachability                                                     *)
(** ------------------------------------------------------------------ *)

Module ReachFacts.
Import Labels Graph Frontier Reach ListFacts.

Lemma build_adjacency_snoc edges e :
  build_adjacency (edges ++ [e])
  = <[e.1 := default [] (build_adjacency edges !! e.1) ++ [e.2]]> (build_adjacency edges).
Proof. unfold build_adjacency. by rewrite foldl_app. Qed.

(** Every neighbour the adjacency list names is entered by an edge. *)
Lemma build_adjacency_dst edges x l d :
  build_adjacency edges !! x = Some l → d ∈ l → d ∈ entered_nodes edges.
Proof.
  unfold entered_nodes. rewrite elem_of_list_to_set. revert l.
  induction edges as [|e edges IH] using rev_ind; intros l; [done|].
  rewrite build_adjacency_snoc, fmap_app, elem_of_app. simpl.
  destruct (decide (e.1 = x)) as [<-|Hne].
  - rewrite lookup_insert_eq. intros [= <-] [Hd| ->%list_elem_of_singleton]%elem_of_app.
    + destruct (build_adjacency edges !! e.1) as [l'|] eqn:E; [|inversion Hd].
      left. by apply (IH l').
    + right. left.
  - rewrite lookup_insert_ne by done. intros Hl Hd. left. by apply (IH l).
Qed.

Section bfs.
Context (edges : list (Z * Z)) (new_blocks : gset Z).
Let adjacency := build_adjacency edges.

Lemma visit_neighbor_measure st n :
  n ∈ entered_nodes edges →
  bfs_measure edges (visit_neighbor st n) = bfs_measure edges st.
Proof.
  intros Hn. unfold visit_neighbor, bfs_measure. case_decide as Hv; [done|]. simpl.
  rewrite length_app. simpl.
  assert (entered_nodes edges ∖ st.2
          = ({[n]} : gset Z) ∪ (entered_nodes edges ∖ ({[n]} ∪ st.2))) as ->.
  { apply set_eq. intros x. destruct (decide (x = n)); set_solver. }
  pose proof (size_union ({[n]} : gset Z) (entered_nodes edges ∖ ({[n]} ∪ st.2))
                ltac:(set_solver)) as Hs.
  rewrite size_singleton in Hs. lia.
Qed.

Lemma visit_neighbors_measure ns st :
  (∀ n, n ∈ ns → n ∈ entered_nodes edges) →
  bfs_measure edges (foldl visit_neighbor st ns) = bfs_measure edges st.
Proof.
  revert st. induction ns as [|n ns IH]; intros st Hns; [done|]. simpl.
  rewrite IH by (intros; apply Hns; by right).
  apply visit_neighbor_measure, Hns. left.
Qed.

Lemma bfs_terminates fuel queue visited reachable_new :
  (bfs_measure edges (queue, visited) < fuel)%nat →
  is_Some (bfs fuel adjacency new_blocks queue visited reachable_new).
Proof.
  revert queue visited reachable_new.
  induction fuel as [|fuel IH]; intros queue visited rn Hm; [lia|]. simpl.
  destruct queue as [|current rest]; [eauto|].
  destruct (foldl visit_neighbor (rest, visited) (default [] (adjacency !! current)))
    as [queue' visited'] eqn:E.
  apply IH. rewrite <- E. rewrite visit_neighbors_measure.
  - unfold bfs_measure in *. simpl in *. lia.
  - intros n Hn. destruct (adjacency !! current) as [l|] eqn:El; [|inversion Hn].
    by eapply build_adjacency_dst.
Qed.

(** [reachable_new] only grows. *)
Lemma bfs_mono fuel queue visited reachable_new result :
  bfs fuel adjacency new_blocks queue visited reachable_new = Some result →
  reachable_new ⊆ result.
Proof.
  revert queue visited reachable_new.
  induction fuel as [|fuel IH]; intros queue visited rn; simpl; [done|].
  destruct queue as [|current rest]; [by intros [= <-]|].
  destruct (foldl visit_neighbor (rest, visited) (default [] (adjacency !! current)))
    as [queue' visited'].
  intros H%IH. case_decide; set_solver.
Qed.

(** It holds new blocks only. *)
Lemma bfs_new fuel queue visited reachable_new result :
  bfs fuel adjacency new_blocks queue visited reachable_new = Some result →
  reachable_new ⊆ new_blocks → result ⊆ new_blocks.
Proof.
  revert queue visited reachable_new.
  induction fuel as [|fuel IH]; intros queue visited rn; simpl; [done|].
  destruct queue as [|current rest]; [by intros [= <-]|].
  destruct (foldl visit_neighbor (rest, visited) (default [] (adjacency !! current)))
    as [queue' visited'].
  intros H Hrn. eapply IH; [exact H|]. case_decide; set_solver.
Qed.

(** The node at the head of the queue is recorded when it is new. *)
Lemma bfs_head fuel current rest visited reachable_new result :
  bfs fuel adjacency new_blocks (current :: rest) visited reachable_new = Some result →
  current ∈ new_blocks → current ∈ result.
Proof.
  destruct fuel as [|fuel]; simpl; [done|]. intros Hr Hc.
  rewrite decide_True in Hr by done.
  destruct (foldl visit_neighbor (rest, visited) (default [] (adjacency !! current)))
    as [queue' visited'].
  apply bfs_mono in Hr. set_solver.
Qed.

End bfs.

Lemma size_entered_nodes edges : (size (entered_nodes edges) ≤ length edges)%nat.
Proof.
  unfold entered_nodes. induction edges as [|e l IH]; [done|].
  rewrite fmap_cons, list_to_set_cons, size_union_alt, size_singleton.
  pose proof (subseteq_size (list_to_set (snd <$> l) ∖ {[e.2]})
                (list_to_set (snd <$> l) : gset Z) ltac:(set_solver)).
  simpl. lia.
Qed.

(** The BFS from a frontier target ends, holds new blocks only, and holds
    the target itself when that is new. *)
Lemma reachable_from_spec graph_B_edges bb_labels b f :
  ∃ result, reachable_from graph_B_edges bb_labels b f = Some result ∧
    result ⊆ new_blocks_of bb_labels b ∧
    (f ∈ new_blocks_of bb_labels b → f ∈ result).
Proof.
  unfold reachable_from.
  set (edges := edge_pairs graph_B_edges b).
  destruct (bfs_terminates edges (new_blocks_of bb_labels b) (bfs_fuel edges)
              [f] {[f]} ∅) as [result Hr].
  { unfold bfs_measure, bfs_fuel. simpl. pose proof (size_entered_nodes edges).
    pose proof (subseteq_size (entered_nodes edges ∖ {[f]}) (entered_nodes edges)
                  ltac:(set_solver)). lia. }
  exists result. split; [done|]. split.
  - eapply bfs_new; [exact Hr|set_solver].
  - intros Hf. by eapply bfs_head.
Qed.

(** The list [reachability_data] of a binary. *)
Lemma reachability_data_spec graph_B_edges bb_labels frontier_targets b :
  ∃ data, reachability_data graph_B_edges bb_labels frontier_targets b = Some data ∧
    ∀ r, r ∈ data ↔ r_binary_id r = b ∧ reaches graph_B_edges bb_labels frontier_targets r.
Proof.
  unfold reachability_data, reaches.
  assert (∀ (fs : list Z) (data0 : list reach_row),
    ∃ data, foldl (λ (acc : option (list reach_row)) frontier_bb,
                     data ← acc;
                     reachable_new ← reachable_from graph_B_edges bb_labels b frontier_bb;
                     Some (data ++ (ReachRow b frontier_bb <$> elements reachable_new)))
                  (Some data0) fs = Some data ∧
      ∀ r, r ∈ data ↔
           r ∈ data0 ∨ (r_binary_id r = b ∧ r_frontier_bb_rva r ∈ fs ∧
             ∃ result, reachable_from graph_B_edges bb_labels b (r_frontier_bb_rva r)
                       = Some result ∧ r_new_bb_rva r ∈ result)) as H.
  { intros fs. induction fs as [|f fs IH]; intros data0; simpl.
    - exists data0. split; [done|]. intros r. split; [by left|].
      intros [?|(_ & Hin & _)]; [done|inversion Hin].
    - destruct (reachable_from_spec graph_B_edges bb_labels b f) as (res & Hres & _).
      rewrite Hres. simpl.
      destruct (IH (data0 ++ (ReachRow b f <$> elements res))) as (data & -> & Hdata).
      exists data. split; [done|]. intros r. rewrite Hdata, elem_of_app, list_elem_of_fmap.
      split.
      + intros [[?|(n & -> & Hn%elem_of_elements)]|(? & ? & ?)]; [by left| |].
        * right. simpl. split_and!; [done|left|]. by exists res.
        * right. split_and!; [done|by right|done].
      + intros [?|(Hb & [Hf|Hin]%elem_of_cons & res' & Hres' & Hn)]; [by left; left| |].
        * left. right. exists (r_new_bb_rva r). rewrite Hf, Hres in Hres'.
          injection Hres' as <-. split; [by destruct r; simpl in *; subst|].
          by apply elem_of_elements.
        * right. split_and!; [done|done|]. by exists res'. }
  destruct (H (targets_of frontier_targets b) []) as (data & Hd & Hdata).
  exists data. split; [done|]. intros r. rewrite Hdata. split.
  - intros [Hin|(Hb & Hf & res & Hres & Hn)]; [inversion Hin|].
    split; [done|]. rewrite Hb. split; [done|]. by exists res.
  - intros (Hb & Hf & res & Hres & Hn). right. rewrite Hb in Hf, Hres.
    split_and!; [done|done|]. by exists res.
Qed.

(** [compute_reachability] on a new store: it ends, and the table holds,
    without duplicates, the pairs [reaches] of the binaries of G_B. *)
Lemma compute_reachability_fresh graph_B_nodes graph_B_edges bb_labels frontier_targets :
  ∃ reach,
    compute_reachability graph_B_nodes graph_B_edges bb_labels frontier_targets []
    = Some reach ∧
    NoDup reach ∧
    ∀ r, r ∈ reach ↔
         r_binary_id r ∈ node_binaries graph_B_nodes
         ∧ reaches graph_B_edges bb_labels frontier_targets r.
Proof.
  unfold compute_reachability.
  assert (∀ (bs : list Z) (table0 : list reach_row), NoDup table0 →
    ∃ reach, foldl (λ (acc : option (list reach_row)) binary_id,
                      table ← acc;
                      data ← reachability_data graph_B_edges bb_labels frontier_targets
                                               binary_id;
                      Some (Sql.insert_or_ignore_all id table data))
                   (Some table0) bs = Some reach ∧
      NoDup reach ∧
      ∀ r, r ∈ reach ↔
           r ∈ table0 ∨ (r_binary_id r ∈ bs
                         ∧ reaches graph_B_edges bb_labels frontier_targets r)) as H.
  { intros bs. induction bs as [|b bs IH]; intros table0 Hnd; simpl.
    - exists table0. split_and!; [done|done|]. intros r. split; [by left|].
      intros [?|[Hin _]]; [done|inversion Hin].
    - destruct (reachability_data_spec graph_B_edges bb_labels frontier_targets b)
        as (data & -> & Hdata). simpl.
      destruct (IH (Sql.insert_or_ignore_all id table0 data)) as (reach & -> & Hnd' & Hr).
      { by apply SqlFacts.insert_or_ignore_all_id_NoDup. }
      exists reach. split_and!; [done|done|]. intros r.
      rewrite Hr, SqlFacts.elem_of_insert_or_ignore_all_id, Hdata, elem_of_cons.
      naive_solver. }
  destruct (H (node_binaries graph_B_nodes) [] (NoDup_nil_2)) as (reach & Hc & Hnd & Hr).
  exists reach. split_and!; [done|done|]. intros r. rewrite Hr.
  split; [|by right]. intros [Hin|?]; [inversion Hin|done].
Qed.

End ReachFacts.

(** ------------------------------------------------------------------ *)
(** ** Attribution                                                      *)
(** ------------------------------------------------------------------ *)

Module AttributionFacts.
Import Labels Graph Frontier Reach Attribution ListFacts.

Lemma group_frontiers_lookup reach b n :
  group_frontiers reach b !! n
  = match frontiers_of reach b n with
    | [] => None
    | g => Some g
    end.
Proof. unfold group_frontiers, frontiers_of. apply group_lookup. Qed.

Lemma attribute_block_Some new_blocks n fs att :
  attribute_block new_blocks n fs = Some att →
  (∀ f, fs = [f] → att = (Some f, false)) ∧
  (length fs ≠ 1%nat → att = (None, true)).
Proof.
  unfold attribute_block. destruct (new_blocks !! n); simpl; [|done].
  destruct fs as [|f [|f' fs]]; intros [= <-]; split; try done.
  by intros f0 [= ->].
Qed.

(** The dict [block_attribution] has an entry for every key of
    [new_block_to_frontiers], and no other. *)
Lemma block_attribution_fold new_blocks (items : list (Z * list Z)) m0 m :
  NoDup items.*1 →
  foldl (λ (acc : option (gmap Z (option Z * bool))) item,
           m ← acc;
           a ← attribute_block new_blocks item.1 item.2;
           Some (<[item.1 := a]> m)) (Some m0) items = Some m →
  (∀ n fs, (n, fs) ∈ items → ∃ a, attribute_block new_blocks n fs = Some a
                                  ∧ m !! n = Some a) ∧
  (∀ n, n ∉ items.*1 → m !! n = m0 !! n).
Proof.
  revert m0. induction items as [|[n1 fs1] items IH]; intros m0 Hnd; simpl.
  - intros [= <-]. split; [|done]. intros n fs Hin. inversion Hin.
  - apply NoDup_cons in Hnd as [Hn1 Hnd].
    destruct (attribute_block new_blocks n1 fs1) as [a1|] eqn:Ha; simpl.
    2:{ intros H. exfalso. revert H. clear.
        induction items as [|i items IH]; [done|]. exact IH. }
    intros H. apply IH in H as [Hitems Hother]; [|done]. split.
    + intros n fs [[= -> ->]|Hin]%elem_of_cons; [|auto].
      exists a1. split; [done|]. rewrite Hother by done. apply lookup_insert_eq.
    + intros n Hn. apply not_elem_of_cons in Hn as [Hne Hn].
      rewrite Hother by done. by apply lookup_insert_ne.
Qed.

Lemma block_attribution_spec new_blocks groups m :
  block_attribution new_blocks groups = Some m →
  ∀ n, match groups !! n with
       | Some fs => ∃ a, attribute_block new_blocks n fs = Some a ∧ m !! n = Some a
       | None => m !! n = None
       end.
Proof.
  unfold block_attribution. intros H n.
  apply block_attribution_fold in H as [Hitems Hother];
    [|apply NoDup_fst_map_to_list].
  destruct (groups !! n) as [fs|] eqn:E.
  - apply Hitems. by apply elem_of_map_to_list.
  - rewrite Hother; [done|]. intros ([n' fs] & -> & Hin%elem_of_map_to_list)%list_elem_of_fmap.
    simpl in E. congruence.
Qed.

(** One binary: its rows are added, the others stay. *)
Lemma attribute_binary_spec bb_labels reach table b table' :
  attribute_binary bb_labels reach table b = Some table' →
  Sql.pk_ok attributed_key table →
  (∀ a, a ∈ table → a_binary_id a ≠ b) →
  Sql.pk_ok attributed_key table' ∧
  (∀ n, frontiers_of reach b n ≠ [] →
        is_Some (attribute_block (new_block_funcs bb_labels b) n (frontiers_of reach b n))) ∧
  (∀ a, a ∈ table' ↔ a ∈ table ∨ (a_binary_id a = b ∧ row_for bb_labels reach a)).
Proof.
  unfold attribute_binary. intros H Hpk Hother.
  apply bind_Some in H as (m & Hm & [= <-]).
  pose proof (block_attribution_spec _ _ _ Hm) as Hspec.
  set (data := (λ item : Z * (option Z * bool),
                  Attributed b item.1 item.2.1 item.2.2) <$> map_to_list m).
  assert (NoDup (attributed_key <$> data)) as Hnd.
  { subst data. rewrite <- list_fmap_compose.
    apply (NoDup_fmap_2_strong _); [|apply NoDup_map_to_list].
    intros [n1 a1] [n2 a2] H1%elem_of_map_to_list H2%elem_of_map_to_list [= ->].
    congruence. }
  assert (∀ a, a ∈ data ↔ a_binary_id a = b ∧ row_for bb_labels reach a) as Hdata.
  { intros a. subst data. rewrite list_elem_of_fmap. unfold row_for. split.
    - intros ([n att] & -> & Hin%elem_of_map_to_list). simpl.
      specialize (Hspec n). rewrite group_frontiers_lookup in Hspec.
      destruct (frontiers_of reach b n) as [|f fs] eqn:E; [congruence|].
      destruct Hspec as (att' & Hatt & Hl). rewrite Hin in Hl. injection Hl as <-.
      split_and!; [done|done|]. by destruct att.
    - intros (<- & Hne & Hatt). exists (a_new_bb_rva a, (a_frontier_bb_rva a, a_is_shared a)).
      split; [by destruct a|]. apply elem_of_map_to_list.
      specialize (Hspec (a_new_bb_rva a)). rewrite group_frontiers_lookup in Hspec.
      destruct (frontiers_of reach (a_binary_id a) (a_new_bb_rva a)) as [|f fs] eqn:E;
        [done|].
      destruct Hspec as (att' & Hatt' & Hl). congruence. }
  split_and!.
  - by apply SqlFacts.insert_or_replace_all_pk_ok.
  - intros n Hne. specialize (Hspec n). rewrite group_frontiers_lookup in Hspec.
    destruct (frontiers_of reach b n) as [|f fs] eqn:E; [done|].
    destruct Hspec as (att & -> & _). eauto.
  - intros a. rewrite SqlFacts.elem_of_insert_or_replace_all by done.
    rewrite Hdata. split; [tauto|]. intros [Ha|?]; [left|by right].
    split; [done|]. intros (a' & Hk & [Hb _]%Hdata)%list_elem_of_fmap.
    apply (Hother a Ha). injection Hk as -> _. done.
Qed.

(** [compute_attribution] on a new store. *)
Lemma compute_attribution_fresh graph_B_nodes bb_labels reach attributed :
  compute_attribution graph_B_nodes bb_labels reach [] = Some attributed →
  Sql.pk_ok attributed_key attributed ∧
  (∀ b n, b ∈ node_binaries graph_B_nodes → frontiers_of reach b n ≠ [] →
          is_Some (attribute_block (new_block_funcs bb_labels b) n (frontiers_of reach b n))) ∧
  (∀ a, a ∈ attributed ↔
        a_binary_id a ∈ node_binaries graph_B_nodes ∧ row_for bb_labels reach a).
Proof.
  unfold compute_attribution.
  assert (∀ (bs done : list Z) (table0 table : list attributed_row),
    NoDup bs → (∀ b, b ∈ bs → b ∉ done) →
    Sql.pk_ok attributed_key table0 →
    (∀ a, a ∈ table0 ↔ a_binary_id a ∈ done ∧ row_for bb_labels reach a) →
    foldl (λ acc binary_id,
             acc ≫= λ t, attribute_binary bb_labels reach t binary_id)
          (Some table0) bs = Some table →
    Sql.pk_ok attributed_key table ∧
    (∀ b n, b ∈ bs → frontiers_of reach b n ≠ [] →
            is_Some (attribute_block (new_block_funcs bb_labels b) n
                       (frontiers_of reach b n))) ∧
    (∀ a, a ∈ table ↔ a_binary_id a ∈ done ++ bs ∧ row_for bb_labels reach a)) as H.
  { intros bs. induction bs as [|b bs IH]; intros done table0 table Hnd Hfresh Hpk H0; simpl.
    - intros [= <-]. split_and!; [done| |by rewrite app_nil_r].
      intros b n Hb. inversion Hb.
    - apply NoDup_cons in Hnd as [Hb Hnd].
      destruct (attribute_binary bb_labels reach table0 b) as [t1|] eqn:E1; simpl.
      2:{ intros H. exfalso. revert H. clear.
          induction bs as [|i bs IH]; [done|]. exact IH. }
      assert (∀ a, a ∈ table0 → a_binary_id a ≠ b) as Hoth.
      { intros a [Ha _]%H0 Heq. subst b. by apply (Hfresh (a_binary_id a)); [left|]. }
      apply attribute_binary_spec in E1 as (Hpk1 & Hsome1 & H1); [|done|done].
      intros Hfold. apply (IH (done ++ [b])) in Hfold as (Hpk' & Hsome' & H'); [|done| |done|].
      + split_and!; [done| |].
        * intros b' n [->|Hb']%elem_of_cons; auto.
        * intros a. rewrite H', <- app_assoc. done.
      + intros b' Hb' [Hin| ->%list_elem_of_singleton]%elem_of_app; [|done].
        apply (Hfresh b'); [by right|done].
      + intros a. rewrite H1, H0, elem_of_app, list_elem_of_singleton. naive_solver. }
  intros Hc. apply (H _ [] [] attributed) in Hc; [done|apply NoDup_remove_dups| | |].
  - intros b _ Hb. inversion Hb.
  - constructor.
  - intros a. split; [intros Ha; inversion Ha|intros [Ha _]; inversion Ha].
Qed.

(** The keys of the dict [new_blocks] are the new blocks of the binary. *)
Lemma new_block_funcs_lookup bb_labels b n :
  is_Some (new_block_funcs bb_labels b !! n) ↔ n ∈ new_blocks_of bb_labels b.
Proof.
  unfold new_block_funcs, new_blocks_of. rewrite elem_of_list_to_set.
  induction (filter _ bb_labels) as [|l ls IH] using rev_ind.
  - simpl. rewrite lookup_empty. split; [by intros [? ?]|intros H; inversion H].
  - rewrite foldl_app, fmap_app, elem_of_app. simpl. rewrite list_elem_of_singleton.
    destruct (decide (l_bb_rva l = n)) as [->|Hne].
    + rewrite lookup_insert_eq. split; [by right|eauto].
    + rewrite lookup_insert_ne by done. rewrite IH. naive_solver.
Qed.

(** When every block that [frontier_reachability] names is new,
    [compute_attribution] does not raise. *)
Lemma compute_attribution_completes graph_B_nodes bb_labels reach table :
  (∀ r, r ∈ reach → r_new_bb_rva r ∈ new_blocks_of bb_labels (r_binary_id r)) →
  is_Some (compute_attribution graph_B_nodes bb_labels reach table).
Proof.
  intros Hnew. unfold compute_attribution. revert table.
  induction (node_binaries graph_B_nodes) as [|b bs IH]; intros table; simpl; [eauto|].
  assert (is_Some (attribute_binary bb_labels reach table b)) as [t1 ->]; [|apply IH].
  unfold attribute_binary.
  assert (is_Some (block_attribution (new_block_funcs bb_labels b)
                     (group_frontiers reach b))) as [m ->]; [|simpl; eauto].
  unfold block_attribution.
  assert (∀ item, item ∈ map_to_list (group_frontiers reach b) →
            is_Some (new_block_funcs bb_labels b !! item.1)) as Hitems.
  { intros [n fs] Hin%elem_of_map_to_list. simpl.
    rewrite group_frontiers_lookup in Hin.
    destruct (frontiers_of reach b n) as [|f fs'] eqn:E; [done|].
    assert (f ∈ frontiers_of reach b n) as Hf by (rewrite E; left).
    apply list_elem_of_fmap in Hf
      as (r & _ & [Hn [Hb Hr]%list_elem_of_filter]%list_elem_of_filter).
    apply new_block_funcs_lookup. rewrite <- Hn, <- Hb. by apply Hnew. }
  generalize (∅ : gmap Z (option Z * bool)) as m0.
  induction (map_to_list (group_frontiers reach b)) as [|item items IHi]; intros m0;
    simpl; [eauto|].
  destruct (Hitems item ltac:(left)) as [func Hfunc].
  unfold attribute_block at 2. rewrite Hfunc. simpl.
  destruct item.2 as [|f [|f' fs]]; simpl; apply IHi; intros i Hi; apply Hitems; by right.
Qed.

End AttributionFacts.

(** ------------------------------------------------------------------ *)
(** ** The stages together                                              *)
(** ------------------------------------------------------------------ *)

Module PipelineFacts.
Import Expand Labels Graph Frontier Reach Attribution Pipeline.
Import ListFacts LabelsFacts GraphFacts FrontierFacts ReachFacts AttributionFacts.

(** The run of the scenario ends in [scenario_store]. *)
Lemma scenario_run :
  analyze scenario_master scenario_mapping (Some scenario_edges_B)
          scenario_cov_A scenario_cov_B (fresh [])
  = Some scenario_store.
Proof. vm_compute. reflexivity. Defined.

Section run.
Context (master : master_db) (mapping : list map_row)
        (edges_B : option (list Parser.edge_row)) (cov_A cov_B : list joined_row)
        (cache : list Resolver.cache_row) (st : store).
Hypothesis Hrun : analyze master mapping edges_B cov_A cov_B (fresh cache) = Some st.

(** What the stages of a completed run on a new store returned. *)
Lemma analyze_stages :
  bb_labels st = diff_rows cov_A cov_B ∧
  build_executed_graph master (bb_labels st) mapping edges_B [] [] cache
  = Some (graph_B_nodes st, graph_B_edges st, rva_to_bb_cache st) ∧
  identify_frontier (bb_labels st) (graph_B_edges st) [] []
  = Some (frontier_edges st, frontier_targets st) ∧
  compute_reachability (graph_B_nodes st) (graph_B_edges st) (bb_labels st)
                       (frontier_targets st) []
  = Some (frontier_reachability st) ∧
  compute_attribution (graph_B_nodes st) (bb_labels st) (frontier_reachability st) []
  = Some (bb_attributed_to st).
Proof.
  unfold analyze in Hrun. simpl in Hrun.
  rewrite compute_diff_labels_fresh in Hrun. simpl in Hrun.
  apply bind_Some in Hrun as ([[nodes edges] cache'] & Hg & H). simpl in H.
  apply bind_Some in H as ([fe ft] & Hf & H). simpl in H.
  apply bind_Some in H as (reach & Hr & H).
  apply bind_Some in H as (attributed & Ha & [= <-]). simpl. done.
Qed.

Lemma run_labels_ok : labels_ok (bb_labels st).
Proof. destruct analyze_stages as (-> & _). apply diff_rows_ok. Qed.

Lemma run_graph_ok : graph_ok (bb_labels st) (graph_B_nodes st) (graph_B_edges st).
Proof. destruct analyze_stages as (_ & Hg & _). by eapply build_graph_ok. Qed.

(** The label of a block is unique. *)
Lemma run_label_unique l l' :
  l ∈ bb_labels st → l' ∈ bb_labels st → label_key l = label_key l' → l = l'.
Proof. apply labels_at_unique, run_labels_ok. Qed.

(** The source of an incoming edge that is not a super-root edge is
    A-covered or new, and not both. *)
Lemma inner_source e :
  e ∈ graph_B_edges st → like_super_root (e_type e) = false →
  (block_in_A (bb_labels st) (e_binary_id e) (e_src e)
   ∨ block_is_new (bb_labels st) (e_binary_id e) (e_src e)).
Proof.
  intros He Ht. destruct (g_inner _ _ _ run_graph_ok e He Ht)
    as (ls & _ & Hls & Hk & HB & _).
  pose proof (labels_new _ run_labels_ok ls Hls) as Hnew. rewrite HB in Hnew.
  destruct (l_in_A ls) eqn:HA; [left|right]; by exists ls.
Qed.

(** A source with the super-root's address is not new. *)
Lemma super_source_not_new b : ¬ block_is_new (bb_labels st) b SUPER.
Proof.
  intros (l & Hl & [= _ Hrva] & Hnew).
  pose proof (g_super_unlabelled _ _ _ run_graph_ok l Hl Hrva) as HB.
  pose proof (labels_new _ run_labels_ok l Hl) as Hn. rewrite HB in Hn.
  simpl in Hn. congruence.
Qed.

(** A new block is a node of G_B, so its binary is processed by the
    reachability and attribution stages. *)
Lemma new_block_binary b f :
  block_is_new (bb_labels st) b f → b ∈ node_binaries (graph_B_nodes st).
Proof.
  intros (l & Hl & [= <- <-] & Hnew).
  pose proof (labels_new _ run_labels_ok l Hl) as Hn. rewrite Hnew in Hn.
  symmetry in Hn. apply andb_true_iff in Hn as [HB _].
  pose proof (g_nodes _ _ _ run_graph_ok l Hl HB) as Hnode.
  unfold node_binaries. apply elem_of_remove_dups, list_elem_of_fmap.
  eexists. split; [|exact Hnode]. done.
Qed.

(** A frontier target is a new block; it is orphan-entered or the
    destination of an edge, not of a super-root type, from an A-covered
    block. *)
Lemma run_target t :
  t ∈ frontier_targets st →
  t_type t = classify (bb_labels st) (graph_B_edges st) (t_binary_id t) (t_bb_rva t) ∧
  block_is_new (bb_labels st) (t_binary_id t) (t_bb_rva t) ∧
  ((∃ e, e ∈ graph_B_edges st ∧ enters e (t_binary_id t) (t_bb_rva t)
         ∧ like_super_root (e_type e) = false
         ∧ block_in_A (bb_labels st) (t_binary_id t) (e_src e)) ∨
   orphan_entered (graph_B_edges st) (t_binary_id t) (t_bb_rva t)).
Proof.
  intros Ht. destruct analyze_stages as (_ & _ & Hf & _).
  destruct (frontier_target_inv _ _ _ _ t Hf Ht) as (Hty & _ & Hcase).
  split; [done|].
  destruct Hcase as [(e & He & Hent & Hne & HA & Hnew)|Horph].
  - split; [done|]. destruct (e_type e) eqn:Hte; try done.
    + left. exists e. by rewrite Hte.
    + left. exists e. by rewrite Hte.
    + left. exists e. by rewrite Hte.
    + left. exists e. by rewrite Hte.
    + left. exists e. by rewrite Hte.
    + right. by exists e.
  - split; [|by right]. destruct Horph as (e & He & [Hb Hd] & Hte).
    destruct (g_orphan _ _ _ run_graph_ok e He Hte) as [Hnew _].
    by rewrite Hb, Hd in Hnew.
Qed.

(** The rows of [bb_attributed_to] for a block, by its list F(n). *)
Lemma run_attributed_rows b n :
  NoDup (frontiers_of (frontier_reachability st) b n) ∧
  (∀ f, frontiers_of (frontier_reachability st) b n = [f] →
        attributed_rows (bb_attributed_to st) b n = [Attributed b n (Some f) false]) ∧
  ((2 ≤ length (frontiers_of (frontier_reachability st) b n))%nat →
        attributed_rows (bb_attributed_to st) b n = [Attributed b n None true]) ∧
  (frontiers_of (frontier_reachability st) b n = [] →
        attributed_rows (bb_attributed_to st) b n = []).
Proof.
  destruct analyze_stages as (_ & _ & _ & Hr & Ha).
  destruct (compute_reachability_fresh (graph_B_nodes st) (graph_B_edges st)
              (bb_labels st) (frontier_targets st)) as (reach & Hr' & Hnd & Hreach).
  rewrite Hr in Hr'. injection Hr' as <-.
  apply compute_attribution_fresh in Ha as (Hpk & Hsome & Hattr).
  set (F := frontiers_of (frontier_reachability st) b n).
  (* a nonempty F(n) belongs to a binary of G_B *)
  assert (F ≠ [] → b ∈ node_binaries (graph_B_nodes st)) as Hbin.
  { intros HF. destruct F as [|f F'] eqn:E; [done|].
    assert (f ∈ frontiers_of (frontier_reachability st) b n) as Hf
      by (fold F; rewrite E; left).
    apply list_elem_of_fmap in Hf
      as (r & _ & [_ [Hb Hin]%list_elem_of_filter]%list_elem_of_filter).
    apply Hreach in Hin as [Hin _]. by rewrite Hb in Hin. }
  (* the row that a nonempty F(n) gets *)
  assert (∀ att, F ≠ [] →
            attribute_block (new_block_funcs (bb_labels st) b) n F = Some att →
            attributed_rows (bb_attributed_to st) b n = [Attributed b n att.1 att.2])
    as Hrow.
  { intros att HF Hatt. unfold attributed_rows.
    apply (SqlFacts.filter_key_unique attributed_key _ (Attributed b n att.1 att.2));
      [done|].
    apply Hattr. simpl. split; [auto|]. split; [done|]. by destruct att. }
  split_and!.
  - unfold frontiers_of. apply (NoDup_fmap_2_strong _).
    + intros r r' [Hn [Hb _]%list_elem_of_filter]%list_elem_of_filter
                  [Hn' [Hb' _]%list_elem_of_filter]%list_elem_of_filter Hf.
      destruct r, r'. simpl in *. congruence.
    + by do 2 apply NoDup_filter.
  - intros f HF. destruct (Hsome b n) as [att Hatt]; [apply Hbin| |]; try (fold F; by rewrite HF).
    fold F in Hatt. pose proof Hatt as Hatt'.
    apply attribute_block_Some in Hatt' as [H1 _]. rewrite (H1 f HF) in Hatt.
    apply (Hrow _ ltac:(by rewrite HF) Hatt).
  - intros HF. assert (F ≠ []) as Hne by (intros E; rewrite E in HF; simpl in HF; lia).
    destruct (Hsome b n (Hbin Hne) Hne) as [att Hatt].
    fold F in Hatt. pose proof Hatt as Hatt'.
    apply attribute_block_Some in Hatt' as [_ H2]. rewrite H2 in Hatt by lia.
    apply (Hrow _ Hne Hatt).
  - intros HF. unfold attributed_rows. apply SqlFacts.filter_key_none.
    intros a [_ [Hne _]]%Hattr [= Hb Hn]. rewrite Hb, Hn in Hne. done.
Qed.

End run.

(** A run on a new store completes whenever no joined block sits at the
    address [-1] of the super-root (RVAs are unsigned offsets). *)
Lemma analyze_completes master mapping edges_B cov_A cov_B cache :
  (∀ r, r ∈ cov_A ++ cov_B → j_bb_rva r ≠ SUPER) →
  is_Some (analyze master mapping edges_B cov_A cov_B (fresh cache)).
Proof.
  intros Hrva. unfold analyze. simpl.
  rewrite compute_diff_labels_fresh. simpl.
  set (labels := diff_rows cov_A cov_B).
  pose proof (labels_pk _ (diff_rows_ok cov_A cov_B)) as Hpk. fold labels in Hpk.
  assert (∀ l, l ∈ labels → l_bb_rva l ≠ SUPER) as Hl.
  { intros l Hin.
    assert (label_key l ∈ label_key <$> labels) as Hk
      by (apply list_elem_of_fmap; eauto).
    apply elem_of_diff_rows_keys in Hk as (r & [= _ ->] & Hr)%list_elem_of_fmap.
    by apply Hrva. }
  destruct (build_graph_completes master labels mapping edges_B cache Hpk Hl)
    as (nodes & edges & cache' & Hg & Hnd).
  pose proof (build_graph_ok _ _ _ _ _ _ _ _ Hg) as Hok.
  rewrite Hg. simpl.
  destruct (identify_frontier_completes labels edges Hpk Hnd Hl (g_super _ _ _ Hok))
    as [[fe ft] ->].
  simpl.
  destruct (compute_reachability_fresh nodes edges labels ft) as (reach & -> & _ & Hreach).
  simpl.
  destruct (compute_attribution_completes nodes labels reach []) as [attributed ->];
    [|simpl; eauto].
  intros r [_ (_ & result & Hres & Hin)]%Hreach.
  destruct (reachable_from_spec edges labels (r_binary_id r) (r_frontier_bb_rva r))
    as (result' & Hres' & Hsub & _).
  rewrite Hres in Hres'. injection Hres' as <-. by apply Hsub.
Qed.

(** The cases of [H : x ∈ [a; b; ...]]. *)
Ltac elem_cases H :=
  repeat (apply elem_of_cons in H as [H|H]); try (by apply elem_of_nil in H).

(** The source of an orphan edge is not an A-covered block. *)
Lemma orphan_source_not_in_A master mapping edges_B cov_A cov_B cache st e :
  analyze master mapping edges_B cov_A cov_B (fresh cache) = Some st →
  e ∈ graph_B_edges st → e_type e = super_root_orphan →
  ¬ block_in_A (bb_labels st) (e_binary_id e) (e_src e).
Proof.
  intros Hrun He Hty HA.
  destruct (analyze_stages _ _ _ _ _ _ _ Hrun) as (_ & _ & Hf & _).
  apply (identify_frontier_orphans _ _ _ _ e Hf He Hty).
  apply elem_of_frontier_query. split_and!; [done|by rewrite Hty|done|].
  by destruct (g_orphan _ _ _ (run_graph_ok _ _ _ _ _ _ _ Hrun) e He Hty) as [? _].
Qed.

(** C1.  After a run on a new store, a frontier target is classified
    ['strong'] if and only if every incoming non-super-root edge has a
    source block with [in_A = 1] and no incoming edge has a source block
    with [is_new = 1]; and every frontier target with an incoming
    [super_root_orphan] edge is classified ['weak'] (that edge is not a
    ['super_root'] edge, and its source is no block with [in_A = 1]). *)
Theorem frontier_classification master mapping edges_B cov_A cov_B cache st t :
  analyze master mapping edges_B cov_A cov_B (fresh cache) = Some st →
  t ∈ frontier_targets st →
  (t_type t = strong ↔
   only_A_predecessors (bb_labels st) (graph_B_edges st) (t_binary_id t) (t_bb_rva t)) ∧
  (orphan_entered (graph_B_edges st) (t_binary_id t) (t_bb_rva t) → t_type t = weak).
Proof.
  intros Hrun Ht.
  destruct (run_target _ _ _ _ _ _ _ Hrun t Ht) as (-> & Hnew & Hcase).
  split; [|apply classify_orphan].
  unfold only_A_predecessors.
  destruct (decide (0 < orphan_count (graph_B_edges st) (t_binary_id t) (t_bb_rva t))%nat)
    as [Horph|Hno]; rewrite orphan_count_pos in *.
  - (* orphan-entered: weak, and the orphan edge breaks the condition *)
    rewrite classify_orphan by done. split; [done|]. intros [HallA _]. exfalso.
    destruct Horph as (e & He & [Hb Hd] & Hty).
    apply (orphan_source_not_in_A _ _ _ _ _ _ _ e Hrun He Hty).
    rewrite Hb. apply HallA; [done|done|by rewrite Hty].
  - rewrite classify_strong by done. split.
    + intros [_ Hnonew]. split.
      * intros e He [Hb Hd] Hty.
        assert (like_super_root (e_type e) = false) as Hinner.
        { destruct (e_type e) eqn:E; try done. destruct Hno. by exists e. }
        destruct (inner_source _ _ _ _ _ _ _ Hrun e He Hinner) as [HA|HN];
          rewrite Hb in *; [done|].
        destruct Hnonew. by exists e.
      * intros e He [Hb Hd] HN. destruct (like_super_root (e_type e)) eqn:Hty.
        -- rewrite (g_super _ _ _ (run_graph_ok _ _ _ _ _ _ _ Hrun) e He Hty) in HN.
           by apply (super_source_not_new _ _ _ _ _ _ _ Hrun) in HN.
        -- destruct Hnonew. by exists e.
    + intros [HallA Hnonew]. split.
      * by destruct Hcase as [?|?].
      * intros (e & He & Hent & _ & HN). by apply (Hnonew e He Hent).
Qed.

(** The theorem at the two frontier targets of the scenario: block 300 is
    strong, and block 2000, which is orphan-entered, is weak. *)
Lemma frontier_classification_witness :
  analyze scenario_master scenario_mapping (Some scenario_edges_B)
          scenario_cov_A scenario_cov_B (fresh []) = Some scenario_store ∧
  Target 1 300 7 strong ∈ frontier_targets scenario_store ∧
  Target 1 2000 9 weak ∈ frontier_targets scenario_store ∧
  only_A_predecessors (bb_labels scenario_store) (graph_B_edges scenario_store) 1 300 ∧
  ¬ only_A_predecessors (bb_labels scenario_store) (graph_B_edges scenario_store) 1 2000.
Proof.
  split; [exact scenario_run|].
  split; [apply list_elem_of_here|].
  split; [apply list_elem_of_further, list_elem_of_here|].
  split.
  - apply (frontier_classification scenario_master scenario_mapping
             (Some scenario_edges_B) scenario_cov_A scenario_cov_B [] scenario_store
             (Target 1 300 7 strong) scenario_run (list_elem_of_here _ _)).
    reflexivity.
  - intros H.
    apply (frontier_classification scenario_master scenario_mapping
             (Some scenario_edges_B) scenario_cov_A scenario_cov_B [] scenario_store
             (Target 1 2000 9 weak) scenario_run
             (list_elem_of_further _ _ _ (list_elem_of_here _ _))) in H.
    discriminate H.
Defined.

(** A remark on the other readings of the condition.  In the scenario the
    orphan edge is the only incoming edge of block 2000, which is weak.
    If the orphan edge counted as a super-root edge, or if the super-root
    counted as a source with [in_A = 1] (its flag in [graph_B_nodes]), the
    condition would hold for block 2000, and the equivalence would fail
    there. *)
Remark orphan_target_other_readings :
  Target 1 2000 9 weak ∈ frontier_targets scenario_store ∧
  only_A_predecessors_inner (bb_labels scenario_store)
                            (graph_B_edges scenario_store) 1 2000 ∧
  only_A_predecessors_nodes (graph_B_nodes scenario_store)
                            (graph_B_edges scenario_store) 1 2000.
Proof.
  split; [apply list_elem_of_further, list_elem_of_here|]. split.
  - split.
    + intros e He [Hb Hd] Hty. elem_cases He; subst e; simpl in *; discriminate.
    + intros e He [Hb Hd] (l & Hl & Hk & Hn).
      elem_cases He; subst e; simpl in *; try discriminate.
      elem_cases Hl; subst l; simpl in *; discriminate.
  - split.
    + intros e He [Hb Hd] Hty. elem_cases He; subst e; simpl in *; try discriminate.
      exists (Node 1 (-1) (-1) false true). split; [|done].
      do 4 apply list_elem_of_further. apply list_elem_of_here.
    + intros e He [Hb Hd] (n & Hn & Hk & Hnew).
      elem_cases He; subst e; simpl in *; try discriminate.
      elem_cases Hn; subst n; simpl in *; discriminate.
Qed.

(** C3.  After a run on a new store every row of [frontier_targets] refers
    to a block with [is_new = 1] that has an incoming edge, not of a
    super-root type, whose source block has [in_A = 1], or has an incoming
    [super_root_orphan] edge; and a [super_root_orphan] edge of G_B enters
    a new block that no CFG, direct-call or observed edge enters. *)
Theorem frontier_target_invariant master mapping edges_B cov_A cov_B cache st :
  analyze master mapping edges_B cov_A cov_B (fresh cache) = Some st →
  (∀ t, t ∈ frontier_targets st →
     block_is_new (bb_labels st) (t_binary_id t) (t_bb_rva t) ∧
     ((∃ e, e ∈ graph_B_edges st ∧ enters e (t_binary_id t) (t_bb_rva t)
            ∧ like_super_root (e_type e) = false
            ∧ block_in_A (bb_labels st) (t_binary_id t) (e_src e)) ∨
      orphan_entered (graph_B_edges st) (t_binary_id t) (t_bb_rva t))) ∧
  (∀ e, e ∈ graph_B_edges st → e_type e = super_root_orphan →
     block_is_new (bb_labels st) (e_binary_id e) (e_dst e) ∧
     ∀ e', e' ∈ graph_B_edges st → enters e' (e_binary_id e) (e_dst e) →
           like_super_root (e_type e') = true).
Proof.
  intros Hrun. split.
  - intros t Ht. by destruct (run_target _ _ _ _ _ _ _ Hrun t Ht) as (_ & ? & ?).
  - intros e He Hty.
    destruct (g_orphan _ _ _ (run_graph_ok _ _ _ _ _ _ _ Hrun) e He Hty) as [Hnew Hno].
    split; [done|]. intros e' He' [Hb Hd]. by apply Hno.
Qed.

(** The theorem at the scenario. *)
Lemma frontier_target_invariant_witness :
  analyze scenario_master scenario_mapping (Some scenario_edges_B)
          scenario_cov_A scenario_cov_B (fresh []) = Some scenario_store ∧
  block_is_new (bb_labels scenario_store) 1 300 ∧
  block_is_new (bb_labels scenario_store) 1 2000.
Proof.
  split; [exact scenario_run|].
  destruct (frontier_target_invariant scenario_master scenario_mapping
              (Some scenario_edges_B) scenario_cov_A scenario_cov_B [] scenario_store
              scenario_run) as [Htargets Horphans].
  split.
  - apply (Htargets (Target 1 300 7 strong)). apply list_elem_of_here.
  - apply (Htargets (Target 1 2000 9 weak)).
    apply list_elem_of_further, list_elem_of_here.
Defined.

(** C2.  After a run on a new store, for every block [n] of a binary, with
    F(n) the frontier targets that the rows of [frontier_reachability] name
    for [n] (they are pairwise different): if F(n) has one element,
    [bb_attributed_to] has exactly one row for [n], with that frontier and
    [is_shared = false]; if F(n) has two or more elements, exactly one row,
    with a null frontier and [is_shared = true]; if F(n) is empty, no row. *)
Theorem attribution_by_reachability master mapping edges_B cov_A cov_B cache st b n :
  analyze master mapping edges_B cov_A cov_B (fresh cache) = Some st →
  NoDup (frontiers_of (frontier_reachability st) b n) ∧
  (∀ f, frontiers_of (frontier_reachability st) b n = [f] →
        attributed_rows (bb_attributed_to st) b n = [Attributed b n (Some f) false]) ∧
  ((2 ≤ length (frontiers_of (frontier_reachability st) b n))%nat →
        attributed_rows (bb_attributed_to st) b n = [Attributed b n None true]) ∧
  (frontiers_of (frontier_reachability st) b n = [] →
        attributed_rows (bb_attributed_to st) b n = []).
Proof. intros Hrun. by eapply run_attributed_rows. Qed.

(** The theorem at block 500 of the scenario, which two frontiers reach. *)
Lemma attribution_by_reachability_witness :
  analyze scenario_master scenario_mapping (Some scenario_edges_B)
          scenario_cov_A scenario_cov_B (fresh []) = Some scenario_store ∧
  frontiers_of (frontier_reachability scenario_store) 1 500 = [300; 2000] ∧
  attributed_rows (bb_attributed_to scenario_store) 1 500 = [Attributed 1 500 None true].
Proof.
  split; [exact scenario_run|]. split; [reflexivity|].
  destruct (attribution_by_reachability scenario_master scenario_mapping
              (Some scenario_edges_B) scenario_cov_A scenario_cov_B [] scenario_store
              1 500 scenario_run) as (_ & _ & Hshared & _).
  apply Hshared. simpl. lia.
Defined.

(** C10.  After a run on a new store every frontier target [f] of a
    binary is recorded as reachable from itself, and [bb_attributed_to]
    has exactly one row for it: attributed to [f] itself when no other
    frontier target reaches it, shared otherwise. *)
Theorem frontier_reaches_itself master mapping edges_B cov_A cov_B cache st t :
  analyze master mapping edges_B cov_A cov_B (fresh cache) = Some st →
  t ∈ frontier_targets st →
  ReachRow (t_binary_id t) (t_bb_rva t) (t_bb_rva t) ∈ frontier_reachability st ∧
  t_bb_rva t ∈ frontiers_of (frontier_reachability st) (t_binary_id t) (t_bb_rva t) ∧
  (frontiers_of (frontier_reachability st) (t_binary_id t) (t_bb_rva t) = [t_bb_rva t] →
   attributed_rows (bb_attributed_to st) (t_binary_id t) (t_bb_rva t)
   = [Attributed (t_binary_id t) (t_bb_rva t) (Some (t_bb_rva t)) false]) ∧
  (frontiers_of (frontier_reachability st) (t_binary_id t) (t_bb_rva t) ≠ [t_bb_rva t] →
   attributed_rows (bb_attributed_to st) (t_binary_id t) (t_bb_rva t)
   = [Attributed (t_binary_id t) (t_bb_rva t) None true]).
Proof.
  intros Hrun Ht.
  destruct (run_target _ _ _ _ _ _ _ Hrun t Ht) as (_ & Hnew & _).
  destruct (analyze_stages _ _ _ _ _ _ _ Hrun) as (_ & _ & _ & Hr & _).
  destruct (compute_reachability_fresh (graph_B_nodes st) (graph_B_edges st)
              (bb_labels st) (frontier_targets st)) as (reach & Hr' & _ & Hreach).
  rewrite Hr in Hr'. injection Hr' as <-.
  set (b := t_binary_id t) in *. set (f := t_bb_rva t) in *.
  assert (ReachRow b f f ∈ frontier_reachability st) as Hrow.
  { apply Hreach. simpl. split; [by eapply new_block_binary|]. split.
    - unfold targets_of. apply list_elem_of_fmap. exists t. split; [done|].
      by apply list_elem_of_filter.
    - destruct (reachable_from_spec (graph_B_edges st) (bb_labels st) b f)
        as (result & Hres & _ & Hself).
      exists result. split; [done|]. apply Hself. unfold new_blocks_of.
      apply elem_of_list_to_set, list_elem_of_fmap.
      destruct Hnew as (l & Hl & [= Hlb Hlf] & Hln). exists l. split; [done|].
      by apply list_elem_of_filter. }
  assert (f ∈ frontiers_of (frontier_reachability st) b f) as Hin.
  { unfold frontiers_of. apply list_elem_of_fmap. exists (ReachRow b f f).
    split; [done|]. apply list_elem_of_filter. split; [done|].
    by apply list_elem_of_filter. }
  destruct (run_attributed_rows _ _ _ _ _ _ _ Hrun b f) as (Hnd & Hone & Hmany & _).
  split_and!; [done|done|by apply Hone|].
  intros Hne. apply Hmany.
  destruct (frontiers_of (frontier_reachability st) b f) as [|f1 [|f2 F]] eqn:E.
  - inversion Hin.
  - apply list_elem_of_singleton in Hin. by subst f1.
  - simpl. lia.
Qed.

(** The theorem at the strong target 300 of the scenario. *)
Lemma frontier_reaches_itself_witness :
  analyze scenario_master scenario_mapping (Some scenario_edges_B)
          scenario_cov_A scenario_cov_B (fresh []) = Some scenario_store ∧
  Target 1 300 7 strong ∈ frontier_targets scenario_store ∧
  ReachRow 1 300 300 ∈ frontier_reachability scenario_store ∧
  attributed_rows (bb_attributed_to scenario_store) 1 300
  = [Attributed 1 300 (Some 300) false].
Proof.
  split; [exact scenario_run|]. split; [apply list_elem_of_here|].
  destruct (frontier_reaches_itself scenario_master scenario_mapping
              (Some scenario_edges_B) scenario_cov_A scenario_cov_B [] scenario_store
              (Target 1 300 7 strong) scenario_run (list_elem_of_here _ _))
    as (Hrow & _ & Hunique & _).
  split; [exact Hrow|]. apply Hunique. reflexivity.
Defined.

(** C7 (the code at the failing input).  A run on a new store leaves a
    store on which a second run raises in [compute_diff_labels] as soon as
    one block joined in the first run is joined again, as it is on the same
    inputs: the plain [INSERT INTO bb_labels] meets a primary key of the
    first run. *)
Theorem second_run_fails master mapping edges_B cov_A cov_B cache st
    master' mapping' edges_B' cov_A' cov_B' r :
  analyze master mapping edges_B cov_A cov_B (fresh cache) = Some st →
  r ∈ cov_A ++ cov_B →
  joined_key r ∈ joined_key <$> (cov_A' ++ cov_B') →
  analyze master' mapping' edges_B' cov_A' cov_B' st = None.
Proof.
  intros Hrun Hr Hagain.
  destruct (analyze_stages _ _ _ _ _ _ _ Hrun) as (Hlabels & _).
  unfold analyze.
  rewrite (compute_diff_labels_again cov_A' cov_B' (bb_labels st) (joined_key r));
    [done| |done].
  rewrite Hlabels. apply elem_of_diff_rows_keys, list_elem_of_fmap. eauto.
Qed.

(** The theorem at the scenario, run twice on the same inputs. *)
Lemma second_run_fails_witness :
  analyze scenario_master scenario_mapping (Some scenario_edges_B)
          scenario_cov_A scenario_cov_B (fresh []) = Some scenario_store ∧
  Joined 1 7 100 ∈ scenario_cov_A ++ scenario_cov_B ∧
  analyze scenario_master scenario_mapping (Some scenario_edges_B)
          scenario_cov_A scenario_cov_B scenario_store = None.
Proof.
  split; [exact scenario_run|]. split; [apply list_elem_of_here|].
  apply (second_run_fails scenario_master scenario_mapping (Some scenario_edges_B)
           scenario_cov_A scenario_cov_B [] scenario_store
           scenario_master scenario_mapping (Some scenario_edges_B)
           scenario_cov_A scenario_cov_B (Joined 1 7 100) scenario_run).
  - apply list_elem_of_here.
  - apply list_elem_of_here.
Defined.

End PipelineFacts.

(** ------------------------------------------------------------------ *)
(** ** The visualization export                                         *)
(** ------------------------------------------------------------------ *)

Module VizFacts.
Import Labels Frontier Attribution Viz.

(** An address that is neither NULL nor zero is exported as [hex]. *)
Lemma hex_if_nonzero x : x ≠ 0 → hex_if (Some x) = Some (hex x).
Proof. intros Hx. unfold hex_if. by rewrite bool_decide_eq_true_2. Qed.

(** The address zero is exported as null. *)
Lemma hex_if_zero : hex_if (Some 0) = None.
Proof. reflexivity. Qed.

(** C9 (the code at the failing input).  A binary whose block at RVA 0 has
    start VA 0 and end VA 0x10; the block is a new, weak frontier target,
    attributed to itself and not shared.  The exported block has
    [bb_start_va = null] although the address is present in [basic_blocks],
    and [attribution.frontier_bb_rva = null] although the attribution is not
    shared; [bb_rva] and [bb_end_va] are the strings "0x0" and "0x10". *)
Theorem export_zero_address_is_null :
  blocks_array [Resolver.BasicBlock 1 7 0 0 0x10]
               [Label 1 7 0 false true true]
               [Target 1 0 7 weak]
               [Attributed 1 0 (Some 0) false]
               1 7
  = [BlockObj "0x0" None (Some "0x10") 0x10 "new" true (Some weak)
              (AttributionObj true None false)].
Proof. vm_compute. reflexivity. Qed.

End VizFacts.

(** ------------------------------------------------------------------ *)
(** ** Bulk inserts that are repeated                                   *)
(** ------------------------------------------------------------------ *)

Module SqlRepeat.
Import Sql SqlFacts.
Section pk.
Context {Row Key : Type} `{!EqDecision Key} (key : Row → Key).

(** [INSERT OR IGNORE] of rows whose keys are all there changes nothing. *)
Lemma insert_or_ignore_all_present (t rs : list Row) :
  (∀ r, r ∈ rs → key r ∈ key <$> t) → insert_or_ignore_all key t rs = t.
Proof.
  induction rs as [|r rs IH] using rev_ind; intros H; [done|].
  rewrite insert_or_ignore_all_snoc, IH.
  - unfold insert_or_ignore. rewrite (proj2 (has_key_true key t (key r))); [done|].
    apply H, elem_of_app. right. left.
  - intros r' Hr'. apply H, elem_of_app. by left.
Qed.

Lemma insert_or_ignore_all_again (t rs : list Row) :
  insert_or_ignore_all key (insert_or_ignore_all key t rs) rs
  = insert_or_ignore_all key t rs.
Proof.
  apply insert_or_ignore_all_present. intros r Hr.
  apply insert_or_ignore_all_keys. right. apply list_elem_of_fmap. eauto.
Qed.

(** [INSERT OR IGNORE] only appends. *)
Lemma insert_or_ignore_all_prefix (t rs : list Row) :
  ∃ extra, insert_or_ignore_all key t rs = t ++ extra.
Proof.
  induction rs as [|r rs [extra IH]] using rev_ind; [exists []; by rewrite app_nil_r|].
  rewrite insert_or_ignore_all_snoc, IH. unfold insert_or_ignore.
  destruct (has_key key (t ++ extra) (key r)); [by exists extra|].
  exists (extra ++ [r]). by rewrite app_assoc.
Qed.

Lemma filter_filter_key (t : list Row) (ks : list Key) k :
  filter (λ x, key x ≠ k) (filter (λ x, key x ∉ ks) t)
  = filter (λ x, key x ∉ ks ++ [k]) t.
Proof.
  rewrite list_filter_filter. apply list_filter_iff. intros x.
  rewrite elem_of_app, list_elem_of_singleton. tauto.
Qed.

(** A bulk [INSERT OR REPLACE] of rows with pairwise different keys removes
    the rows under those keys and appends the new ones. *)
Lemma insert_or_replace_all_NoDup (t rs : list Row) :
  NoDup (key <$> rs) →
  insert_or_replace_all key t rs = filter (λ x, key x ∉ key <$> rs) t ++ rs.
Proof.
  induction rs as [|r rs IH] using rev_ind; intros Hnd.
  - simpl. rewrite app_nil_r. symmetry. clear Hnd.
    induction t as [|y t IHt]; [done|]. rewrite filter_cons, decide_True; [by f_equal|].
    intros Hin. inversion Hin.
  - rewrite fmap_app in Hnd. apply NoDup_app in Hnd as (Hnd & Hr & _).
    rewrite insert_or_replace_all_snoc, IH by done. unfold insert_or_replace.
    rewrite filter_app, filter_filter_key, fmap_app, <- app_assoc. f_equal. f_equal.
    clear IH. induction rs as [|y rs IHrs]; [done|].
    rewrite fmap_cons in Hnd, Hr. apply NoDup_cons in Hnd as [_ Hnd].
    rewrite filter_cons, decide_True.
    + f_equal. apply IHrs; [done|]. intros k Hk. apply Hr. by right.
    + intros Heq. apply (Hr (key y)); [left|]. rewrite Heq. left.
Qed.

Lemma insert_or_replace_all_again (t rs : list Row) :
  NoDup (key <$> rs) →
  insert_or_replace_all key (insert_or_replace_all key t rs) rs
  = insert_or_replace_all key t rs.
Proof.
  intros Hnd. rewrite !insert_or_replace_all_NoDup by done.
  f_equal. rewrite filter_app, list_filter_filter.
  assert (filter (λ x, key x ∉ key <$> rs) rs = []) as ->.
  { destruct (filter (λ x, key x ∉ key <$> rs) rs) as [|z l] eqn:E; [done|].
    assert (z ∈ filter (λ x, key x ∉ key <$> rs) rs) as Hz by (rewrite E; left).
    apply list_elem_of_filter in Hz as [Hk Hz]. destruct Hk.
    apply list_elem_of_fmap. eauto. }
  rewrite app_nil_r. apply list_filter_iff. tauto.
Qed.

End pk.
End SqlRepeat.

(** ------------------------------------------------------------------ *)
(** ** The table [modules]                                              *)
(** ------------------------------------------------------------------ *)

Module ModulesFacts.
Import Modules ListFacts.

Lemma foldr_max_le (l : list Z) (s x : Z) : x ∈ l → x ≤ foldr Z.max s l.
Proof.
  induction l as [|y l IH]; intros Hx; [inversion Hx|]. simpl.
  apply elem_of_cons in Hx as [->|Hx]; [lia|]. specialize (IH Hx). lia.
Qed.

(** The next id is above every id of the table. *)
Lemma next_id_above t r : r ∈ rows t → mod_id r < next_id t.
Proof.
  intros Hr. unfold next_id.
  pose proof (foldr_max_le (mod_id <$> rows t) (seq t) (mod_id r)) as H.
  assert (mod_id r ∈ mod_id <$> rows t) as Hin by (apply list_elem_of_fmap; eauto).
  specialize (H Hin). lia.
Qed.

(** [fetchone()] on a table that has grown returns the row it returned
    before. *)
Lemma id_of_app rs extra s s' name :
  name ∈ mod_name <$> rs →
  id_of (ModulesTable (rs ++ extra) s) name = id_of (ModulesTable rs s') name.
Proof.
  intros (r & -> & Hr)%list_elem_of_fmap. unfold id_of. simpl. rewrite filter_app.
  destruct (head_filter_is_Some (λ r0, mod_name r0 = mod_name r) rs r Hr eq_refl)
    as [y Hy].
  destruct (filter (λ r0, mod_name r0 = mod_name r) rs); [done|]. done.
Qed.

Lemma id_of_is_Some t name : name ∈ mod_name <$> rows t → is_Some (id_of t name).
Proof.
  intros (r & -> & Hr)%list_elem_of_fmap. unfold id_of.
  destruct (head_filter_is_Some (λ r0, mod_name r0 = mod_name r) (rows t) r Hr eq_refl)
    as [y ->]. simpl. eauto.
Qed.

Lemma id_of_Some t name i :
  id_of t name = Some i → ∃ r, r ∈ rows t ∧ mod_name r = name ∧ mod_id r = i.
Proof.
  unfold id_of. intros (r & Hh & ->)%fmap_Some.
  apply head_filter_Some in Hh as [Hr Hn]. eauto.
Qed.

Section autoincrement.
Context (takes_id : bool) (bind_number : string → option parameter).

Lemma insert_or_ignore_module_rows t name p :
  rows (insert_or_ignore_module takes_id t name p)
  = match p with
    | Text sha => if bool_decide (name ∈ mod_name <$> rows t) then rows t
                  else rows t ++ [ModuleRow (next_id t) name sha]
    | Null => rows t
    end.
Proof. unfold insert_or_ignore_module. destruct p; [|done]. by case_bool_decide. Qed.

(** An insert adds at most a row, under the name and a new one. *)
Lemma insert_or_ignore_module_extends t name p :
  ∃ extra, rows (insert_or_ignore_module takes_id t name p) = rows t ++ extra ∧
           ∀ r, r ∈ extra → mod_name r = name ∧ name ∉ mod_name <$> rows t.
Proof.
  rewrite insert_or_ignore_module_rows.
  assert (∃ extra : list module_row, rows t = rows t ++ extra ∧
            ∀ r, r ∈ extra → mod_name r = name ∧ name ∉ mod_name <$> rows t) as Hsame.
  { exists []. rewrite app_nil_r. split; [done|]. intros r Hr. inversion Hr. }
  destruct p as [sha|]; [|done]. case_bool_decide as Hin; [done|].
  eexists. split; [done|]. by intros r ->%list_elem_of_singleton.
Qed.

Lemma insert_or_ignore_module_ids t name p :
  ids_ok t → ids_ok (insert_or_ignore_module takes_id t name p).
Proof.
  unfold ids_ok. rewrite insert_or_ignore_module_rows. destruct p as [sha|]; [|done].
  case_bool_decide; [done|].
  intros Hnd. rewrite fmap_app. apply NoDup_app. split_and!; [done| |apply NoDup_singleton].
  intros i (r & -> & Hr)%list_elem_of_fmap Hi. simpl in Hi.
  apply list_elem_of_singleton in Hi. pose proof (next_id_above t r Hr). lia.
Qed.

(** The row is found after the insert when the hash is a text, or the
    table has the name. *)
Lemma insert_or_ignore_module_name t name p :
  name ∈ mod_name <$> rows (insert_or_ignore_module takes_id t name p) ↔
  p ≠ Null ∨ name ∈ mod_name <$> rows t.
Proof.
  rewrite insert_or_ignore_module_rows. destruct p as [sha|].
  - case_bool_decide as Hin; [naive_solver|]. split; [by left|]. intros _.
    rewrite fmap_app, elem_of_app. right. left.
  - naive_solver.
Qed.

(** One pass of the loop. *)
Lemma add_module_Some st name v st' :
  add_module takes_id bind_number st (name, v) = Some st' ↔
  ∃ p i, bind bind_number v = Some p ∧
         id_of (insert_or_ignore_module takes_id st.1 name p) name = Some i ∧
         st' = (insert_or_ignore_module takes_id st.1 name p, <[name := i]> st.2).
Proof.
  unfold add_module. cbn [fst snd]. split.
  - intros (p & Hp & (i & Hi & [= <-])%bind_Some)%bind_Some. by exists p, i.
  - intros (p & i & -> & Hi & ->). cbn [mbind option_bind]. by rewrite Hi.
Qed.

Lemma add_module_is_Some st item :
  is_Some (add_module takes_id bind_number st item) ↔ item_ok bind_number st.1 item.
Proof.
  destruct item as [name v]. unfold item_ok. cbn [fst snd]. split.
  - intros [st' (p & i & Hp & Hi & _)%add_module_Some]. exists p. split; [done|].
    intros ->. assert (name ∈ mod_name <$> rows (insert_or_ignore_module takes_id st.1 name Null)) as Hin.
    { apply id_of_Some in Hi as (r & Hr & <- & _). apply list_elem_of_fmap. eauto. }
    apply insert_or_ignore_module_name in Hin as [?|?]; done.
  - intros (p & Hp & Hnull).
    destruct (id_of_is_Some (insert_or_ignore_module takes_id st.1 name p) name) as [i Hi].
    { apply insert_or_ignore_module_name. destruct p; [by left|right; by apply Hnull]. }
    exists (insert_or_ignore_module takes_id st.1 name p, <[name := i]> st.2).
    apply add_module_Some. by exists p, i.
Qed.

Lemma create_fold_None (items : list (string * json_value)) :
  foldl (λ acc item, acc ≫= λ st, add_module takes_id bind_number st item)
        None items = None.
Proof. induction items as [|item items IH]; [done|exact IH]. Qed.

(** The loop of [create_modules_table] from any table and dict, when it
    completes. *)
Lemma create_fold (items : list (string * json_value)) t0 m0 t' m' :
  foldl (λ acc item, acc ≫= λ st, add_module takes_id bind_number st item)
        (Some (t0, m0)) items = Some (t', m') →
  ∃ extra,
    rows t' = rows t0 ++ extra ∧
    (∀ r, r ∈ extra → mod_name r ∈ items.*1 ∧ mod_name r ∉ mod_name <$> rows t0) ∧
    (ids_ok t0 → ids_ok t') ∧
    (∀ name, name ∈ items.*1 → name ∈ mod_name <$> rows t') ∧
    (∀ name, m' !! name = if decide (name ∈ items.*1) then id_of t' name else m0 !! name) ∧
    (∀ item, item ∈ items → is_Some (bind bind_number item.2)).
Proof.
  revert t0 m0. induction items as [|[n v] items IH]; intros t0 m0.
  - intros [= <- <-]. exists []. rewrite app_nil_r. split_and!; try done.
    + intros r Hr. inversion Hr.
    + intros name Hn. inversion Hn.
    + intros item Hi. inversion Hi.
  - cbn [foldl]. cbn [mbind option_bind].
    destruct (add_module takes_id bind_number (t0, m0) (n, v)) as [st1|] eqn:E1;
      [|by rewrite create_fold_None].
    apply add_module_Some in E1 as (p & i & Hp & Hi & ->). cbn [fst snd] in Hi.
    cbn [fst snd]. set (t1 := insert_or_ignore_module takes_id t0 n p) in *.
    intros Hfold.
    destruct (IH t1 (<[n := i]> m0) Hfold) as (extra & Hrows & Hextra & Hids
                                         & Hnames & Hm & Hbind).
    destruct (insert_or_ignore_module_extends t0 n p) as (extra1 & He1 & Hn1).
    fold t1 in He1.
    assert (n ∈ mod_name <$> rows t1) as Hn_in.
    { apply id_of_Some in Hi as (r & Hr & <- & _). apply list_elem_of_fmap. eauto. }
    assert (∀ name, name ∈ mod_name <$> rows t1 → id_of t' name = id_of t1 name) as Hstable.
    { intros name Hname. destruct t' as [rs' s'], t1 as [rs1 s1]. simpl in *. subst rs'.
      by apply id_of_app. }
    exists (extra1 ++ extra). split_and!.
    + by rewrite Hrows, He1, app_assoc.
    + intros r [Hr|Hr]%elem_of_app.
      * destruct (Hn1 r Hr) as [-> ?]. split; [left|done].
      * destruct (Hextra r Hr) as [Hin Hnot]. split; [by right|].
        rewrite He1, fmap_app, elem_of_app in Hnot. tauto.
    + intros H0. by apply Hids, insert_or_ignore_module_ids.
    + intros name [->|Hn]%elem_of_cons; [|by apply Hnames]. simpl.
      rewrite Hrows, fmap_app, elem_of_app. by left.
    + intros name. rewrite Hm. simpl. destruct (decide (name ∈ items.*1)) as [Hin|Hnin].
      * rewrite decide_True; [done|by right].
      * destruct (decide (name = n)) as [->|Hne].
        -- rewrite lookup_insert_eq, decide_True by left. by rewrite Hstable.
        -- rewrite lookup_insert_ne by done.
           rewrite decide_False; [done|]. intros [?|?]%elem_of_cons; done.
    + intros item [->|Hin]%elem_of_cons; [|by apply Hbind]. cbn [snd]. by rewrite Hp.
Qed.

(** The loop completes when every item can be bound and every NULL
    belongs to a name of the table. *)
Lemma create_completes (items : list (string * json_value)) t0 m0 :
  (∀ item, item ∈ items → item_ok bind_number t0 item) →
  is_Some (foldl (λ acc item, acc ≫= λ st, add_module takes_id bind_number st item)
        (Some (t0, m0)) items).
Proof.
  revert t0 m0. induction items as [|[n v] items IH]; intros t0 m0 Hok; [by eexists|].
  cbn [foldl mbind option_bind].
  destruct (proj2 (add_module_is_Some (t0, m0) (n, v)) (Hok _ ltac:(left))) as [st1 E1].
  rewrite E1. apply add_module_Some in E1 as (p & i & _ & _ & ->).
  apply IH. intros item Hin. destruct (Hok item ltac:(by right)) as (p' & Hp' & Hnull).
  exists p'. split; [done|]. intros Hn. specialize (Hnull Hn). cbn [fst].
  destruct (insert_or_ignore_module_extends t0 n p) as (extra1 & -> & _).
  rewrite fmap_app, elem_of_app. by left.
Qed.



(** X2.  When the ids of the table are pairwise different, the dict gives
    different names different ids. *)
Theorem create_modules_table_injective t modules_data t' m n1 n2 i :
  ids_ok t →
  create_modules_table takes_id bind_number t modules_data = Some (t', m) →
  m !! n1 = Some i → m !! n2 = Some i → n1 = n2.
Proof.
  intros Hids Hc H1 H2.
  destruct (create_fold modules_data t ∅ t' m Hc) as (extra & _ & _ & Hok & _ & Hm & _).
  specialize (Hok Hids). rewrite Hm in H1, H2.
  destruct (decide (n1 ∈ modules_data.*1)); [|by rewrite lookup_empty in H1].
  destruct (decide (n2 ∈ modules_data.*1)); [|by rewrite lookup_empty in H2].
  apply id_of_Some in H1 as (r1 & Hr1 & <- & Hi1).
  apply id_of_Some in H2 as (r2 & Hr2 & <- & Hi2).
  f_equal. unfold ids_ok in Hok. rewrite <- Hi2 in Hi1.
  apply list_elem_of_lookup in Hr1 as [k1 Hk1]. apply list_elem_of_lookup in Hr2 as [k2 Hk2].
  assert (k1 = k2) as ->.
  { apply (NoDup_lookup _ k1 k2 (mod_id r1) Hok); rewrite list_lookup_fmap.
    - by rewrite Hk1.
    - rewrite Hk2. simpl. by rewrite Hi1. }
  congruence.
Qed.

(** X3.  [create_modules_table] only appends rows, and none under a name
    that the table already has: a module that is already there keeps its
    id and its hash, whatever hash the JSON object gives.  A second call
    with the same object adds no row and returns the same dict. *)
Theorem create_modules_table_again t modules_data t' m :
  create_modules_table takes_id bind_number t modules_data = Some (t', m) →
  (∃ extra, rows t' = rows t ++ extra ∧
            ∀ r, r ∈ extra → mod_name r ∉ mod_name <$> rows t) ∧
  (∃ t'', create_modules_table takes_id bind_number t' modules_data = Some (t'', m) ∧
          rows t'' = rows t').
Proof.
  intros Hc.
  destruct (create_fold modules_data t ∅ t' m Hc)
    as (extra & Hrows & Hextra & _ & Hnames & Hm & Hbind).
  split.
  { exists extra. split; [done|]. intros r Hr. by destruct (Hextra r Hr). }
  destruct (create_completes modules_data t' ∅) as [[t2 m2] Hfold2].
  { intros item Hin. destruct (Hbind item Hin) as [p Hp]. exists p. split; [done|].
    intros _. apply Hnames. apply list_elem_of_fmap. by exists item. }
  destruct (create_fold modules_data t' ∅ t2 m2 Hfold2)
    as (extra2 & Hrows2 & Hextra2 & _ & _ & Hm2 & _).
  assert (extra2 = []) as ->.
  { destruct extra2 as [|r extra2]; [done|].
    destruct (Hextra2 r ltac:(left)) as [Hin Hnot]. destruct Hnot. by apply Hnames. }
  rewrite app_nil_r in Hrows2.
  assert (m2 = m) as ->.
  { apply map_eq. intros name. rewrite Hm, Hm2. case_decide; [|done].
    unfold id_of. by rewrite Hrows2. }
  exists t2. done.
Qed.

End autoincrement.


(** X2 at two modules and a new table. *)
Lemma create_modules_table_injective_witness :
  ids_ok (ModulesTable [] 0) ∧
  create_modules_table false (λ literal, Some (Text literal)) (ModulesTable [] 0)
    [("a.dll", JString "11"); ("b.dll", JString "22")]
  = Some (ModulesTable [ModuleRow 1 "a.dll" "11"; ModuleRow 2 "b.dll" "22"] 2,
          <["b.dll" := 2]> (<["a.dll" := 1]> ∅)) ∧
  "a.dll" = "a.dll".
Proof.
  assert (ids_ok (ModulesTable [] 0)) as Hids by constructor.
  assert (create_modules_table false (λ literal, Some (Text literal)) (ModulesTable [] 0)
            [("a.dll", JString "11"); ("b.dll", JString "22")]
          = Some (ModulesTable [ModuleRow 1 "a.dll" "11"; ModuleRow 2 "b.dll" "22"] 2,
                  <["b.dll" := 2]> (<["a.dll" := 1]> ∅))) as Hrun
    by (vm_compute; reflexivity).
  split; [exact Hids|]. split; [exact Hrun|].
  apply (create_modules_table_injective false _ _ _ _ _ "a.dll" "a.dll" 1 Hids Hrun);
    vm_compute; reflexivity.
Defined.

(** X3 at a table that has the module under another hash. *)
Lemma create_modules_table_again_witness :
  create_modules_table true (λ literal, Some (Text literal))
    (ModulesTable [ModuleRow 1 "a.dll" "11"] 1)
    [("a.dll", JString "99"); ("b.dll", JString "22")]
  = Some (ModulesTable [ModuleRow 1 "a.dll" "11"; ModuleRow 3 "b.dll" "22"] 3,
          <["b.dll" := 3]> (<["a.dll" := 1]> ∅)) ∧
  ∃ t'', create_modules_table true (λ literal, Some (Text literal))
           (ModulesTable [ModuleRow 1 "a.dll" "11"; ModuleRow 3 "b.dll" "22"] 3)
           [("a.dll", JString "99"); ("b.dll", JString "22")]
         = Some (t'', <["b.dll" := 3]> (<["a.dll" := 1]> ∅)) ∧
         rows t'' = [ModuleRow 1 "a.dll" "11"; ModuleRow 3 "b.dll" "22"].
Proof.
  assert (create_modules_table true (λ literal, Some (Text literal))
            (ModulesTable [ModuleRow 1 "a.dll" "11"] 1)
            [("a.dll", JString "99"); ("b.dll", JString "22")]
          = Some (ModulesTable [ModuleRow 1 "a.dll" "11"; ModuleRow 3 "b.dll" "22"] 3,
                  <["b.dll" := 3]> (<["a.dll" := 1]> ∅))) as Hrun
    by (vm_compute; reflexivity).
  split; [exact Hrun|].
  exact (proj2 (create_modules_table_again true _ _ _ _ _ Hrun)).
Defined.

End ModulesFacts.

(** ------------------------------------------------------------------ *)
(** ** The lines of a coverage file                                     *)
(** ------------------------------------------------------------------ *)

Module LinesFacts.
Import Parser Lines.

Lemma newline_not_hex : is_hex newline = false.
Proof. reflexivity. Qed.

Lemma plus_not_hex : is_hex plus = false.
Proof. reflexivity. Qed.

Lemma plus_not_newline : plus ≠ newline.
Proof. discriminate. Qed.

Lemma hex_to_end_spec s d :
  hex_to_end s = Some d ↔ d ≠ [] ∧ hex_run d ∧ (s = d ∨ s = d ++ [newline]).
Proof.
  revert d. induction s as [|c rest IH]; intros d; simpl.
  - split; [done|]. intros (Hd & _ & [<-|Hs]); [done|]. by destruct d.
  - destruct (is_hex c) eqn:Hc.
    + case_bool_decide as Hrest.
      * split.
        -- intros [= <-]. split_and!; [done|by repeat constructor|].
           destruct Hrest as [->| ->]; [by left|by right].
        -- intros (Hd & Hhex & Hs). destruct d as [|c' d]; [done|]. f_equal.
           apply Forall_cons in Hhex as [_ Hhex].
           destruct Hs as [[= <- <-]|[= <- Hs]]; destruct Hrest as [Hr|Hr].
           ++ by rewrite Hr.
           ++ rewrite Hr in Hhex. apply Forall_cons in Hhex as [Hn _].
              by rewrite newline_not_hex in Hn.
           ++ rewrite Hs in Hr. by destruct d.
           ++ rewrite Hs in Hr. destruct d as [|c'' d]; [done|].
              injection Hr as _ Hr. by destruct d.
      * rewrite fmap_Some. split.
        -- intros (d' & Hd' & ->). apply IH in Hd' as (Hne & Hhex & Hs).
           split_and!; [done|by constructor|]. destruct Hs as [->| ->]; [by left|by right].
        -- intros (Hd & Hhex & Hs). destruct d as [|c' d]; [done|].
           apply Forall_cons in Hhex as [_ Hhex].
           assert (c' = c ∧ (rest = d ∨ rest = d ++ [newline])) as [-> Hs'].
           { destruct Hs as [[= <- <-]|[= <- <-]]; auto. }
           exists d. split; [|done]. apply IH. split_and!; [|done|done].
           intros ->. apply Hrest. destruct Hs' as [->| ->]; [by left|by right].
    + split; [done|]. intros (Hd & Hhex & Hs). destruct d as [|c' d]; [done|].
      apply Forall_cons in Hhex as [Hc' _].
      assert (c' = c) as -> by (destruct Hs as [[= <- _]|[= <- _]]; done).
      by rewrite Hc in Hc'.
Qed.

(** A string with a [+] in it is not a run of digits to the end. *)
Lemma hex_to_end_plus mid tail : hex_to_end (mid ++ plus :: tail) = None.
Proof.
  destruct (hex_to_end (mid ++ plus :: tail)) as [d|] eqn:E; [|done].
  apply hex_to_end_spec in E as (_ & Hhex & Hs).
  assert (plus ∈ d ∨ plus = newline) as [Hin|Heq].
  { assert (plus ∈ mid ++ plus :: tail) as Hin by (rewrite elem_of_app; right; left).
    destruct Hs as [Hs|Hs]; rewrite Hs in Hin; [by left|].
    apply elem_of_app in Hin as [?|Hin%list_elem_of_singleton]; auto. }
  - unfold hex_run in Hhex. rewrite Forall_forall in Hhex.
    specialize (Hhex plus Hin). by rewrite plus_not_hex in Hhex.
  - by destruct plus_not_newline.
Qed.

Lemma lazy_match_spec group1 rest g1 g2 :
  lazy_match group1 rest = Some (g1, g2) ↔
  ∃ mid tail, g1 = group1 ++ mid ∧ g1 ≠ [] ∧ (newline ∉ mid)
              ∧ rest = mid ++ plus :: tail ∧ hex_to_end tail = Some g2.
Proof.
  split.
  - revert group1. induction rest as [|c rest IH]; intros group1; simpl; [done|].
    destruct (if bool_decide (group1 ≠ [] ∧ c = plus) then hex_to_end rest else None)
      as [group2|] eqn:E.
    + intros [= <- <-]. case_bool_decide as Hc; [|done]. destruct Hc as [Hne ->].
      exists [], rest. rewrite app_nil_r. split_and!; try done.
      intros Hin. inversion Hin.
    + destruct (bool_decide (c = newline)) eqn:Hnl; [done|].
      apply bool_decide_eq_false in Hnl. intros H.
      apply IH in H as (mid & tail & -> & Hne & Hmid & -> & Htail).
      exists (c :: mid), tail. rewrite <- app_assoc in *. split_and!; try done.
      intros [Heq|Hin]%elem_of_cons; [by destruct Hnl|done].
  - intros (mid & tail & -> & Hne & Hmid & -> & Htail). revert group1 Hne.
    induction mid as [|c mid IH]; intros group1 Hne; simpl.
    + rewrite app_nil_r in Hne. rewrite bool_decide_eq_true_2 by done.
      by rewrite Htail, app_nil_r.
    + assert ((if bool_decide (group1 ≠ [] ∧ c = plus)
               then hex_to_end (mid ++ plus :: tail) else None) = None) as ->.
      { case_bool_decide; [apply hex_to_end_plus|done]. }
      rewrite bool_decide_eq_false_2.
      * rewrite IH.
        -- by rewrite <- app_assoc.
        -- intros Hin. apply Hmid. by right.
        -- by rewrite <- app_assoc.
      * intros ->. apply Hmid. left.
Qed.

(** [int(digits, 16)] digit by digit. *)
Lemma int16_fold (digits : list Ascii.ascii) (v0 : Z) :
  hex_run digits → 0 ≤ v0 →
  ∃ v, foldl (λ acc c, v ← acc; d ← hex_digit_value c; Some (16 * v + d)) (Some v0) digits
       = Some v
       ∧ v0 * 16 ^ Z.of_nat (length digits) ≤ v < (v0 + 1) * 16 ^ Z.of_nat (length digits).
Proof.
  intros Hhex. revert v0. induction Hhex as [|c digits Hc Hhex IH]; intros v0 Hv0; simpl.
  - exists v0. split; [done|]. lia.
  - unfold is_hex in Hc. apply bool_decide_eq_true in Hc as [d Hd]. rewrite Hd. simpl.
    assert (0 ≤ d < 16) as Hrange.
    { unfold hex_digit_value in Hd. repeat case_bool_decide; simplify_eq; lia. }
    destruct (IH (16 * v0 + d) ltac:(lia)) as (v & -> & Hv). exists v. split; [done|].
    rewrite Nat2Z.inj_succ, Z.pow_succ_r by lia. nia.
Qed.

(** On one or more hexadecimal digits [int(digits, 16)] raises no
    [ValueError], and [n] digits give a value below [16^n]. *)
Lemma int16_hex digits :
  digits ≠ [] → hex_run digits →
  ∃ v, int16 digits = Some v ∧ 0 ≤ v < 16 ^ Z.of_nat (length digits).
Proof.
  intros Hne Hhex. destruct (int16_fold digits 0 Hhex ltac:(lia)) as (v & Hv & Hr).
  exists v. split; [|lia]. unfold int16. by destruct digits.
Qed.

Lemma string_of_list_ascii_nil l : String.string_of_list_ascii l = "" → l = [].
Proof. by destruct l. Qed.

(** X4.  The line grammar.  A stripped line is accepted exactly when it
    is a module name (one or more characters, no newline), a [+], and one
    or more hexadecimal digits, which a single newline may follow; the
    module name is all that stands before the last [+], so it may contain
    [+] itself, and the value is what [int(digits, 16)] gives.  Every
    other line is skipped.  On the digits of a matched line [int] raises no
    [ValueError], and [n] digits give a value in [[0, 16^n)]. *)
Theorem parse_line_grammar :
  (∀ line name value,
     parse_line line = Some (name, value) ↔
     ∃ g1 g2, name = String.string_of_list_ascii g1 ∧ int16 g2 = Some value ∧
              g1 ≠ [] ∧ (newline ∉ g1) ∧ g2 ≠ [] ∧ hex_run g2 ∧
              (String.list_ascii_of_string line = g1 ++ plus :: g2 ∨
               String.list_ascii_of_string line = g1 ++ plus :: g2 ++ [newline])) ∧
  (∀ line g1 g2,
     pattern_match line = Some (g1, g2) →
     ∃ value, int16 g2 = Some value ∧ 0 ≤ value < 16 ^ Z.of_nat (length g2)).
Proof.
  assert (∀ line g1 g2, pattern_match line = Some (g1, g2) ↔
            g1 ≠ [] ∧ (newline ∉ g1) ∧ g2 ≠ [] ∧ hex_run g2 ∧
            (line = g1 ++ plus :: g2 ∨ line = g1 ++ plus :: g2 ++ [newline])) as Hmatch.
  { intros line g1 g2. unfold pattern_match. rewrite lazy_match_spec. split.
    - intros (mid & tail & -> & Hne & Hmid & -> & Htail). simpl in *.
      apply hex_to_end_spec in Htail as (Hg2 & Hhex & Htail).
      split_and!; try done. destruct Htail as [->| ->]; [by left|by right].
    - intros (Hne & Hnl & Hg2 & Hhex & Hline).
      exists g1, (if decide (line = g1 ++ plus :: g2) then g2 else g2 ++ [newline]).
      split_and!; try done.
      + case_decide; [done|]. by destruct Hline.
      + apply hex_to_end_spec. split_and!; try done. case_decide; [by left|by right]. }
  split.
  - intros line name value. unfold parse_line. split.
    + case_bool_decide as Hline; [done|].
      destruct (pattern_match (String.list_ascii_of_string line)) as [[g1 g2]|] eqn:E;
        [|done]. simpl.
      destruct (int16 g2) as [v|] eqn:Ev; [|done]. simpl. intros [= <- <-].
      apply Hmatch in E as (? & ? & ? & ? & ?). exists g1, g2. done.
    + intros (g1 & g2 & -> & Hv & Hne & Hnl & Hg2 & Hhex & Hline).
      rewrite bool_decide_eq_false_2.
      * rewrite (proj2 (Hmatch _ g1 g2)) by done. simpl. by rewrite Hv.
      * intros ->. simpl in Hline. destruct Hline as [Hl|Hl]; by destruct g1.
  - intros line g1 g2 (_ & _ & Hg2 & Hhex & _)%Hmatch. by apply int16_hex.
Qed.

Lemma lower_32_range value : 0 ≤ lower_32 value < 2 ^ 32.
Proof. rewrite ParserFacts.lower_32_mod. apply Z.mod_pos_bound. lia. Qed.

Lemma upper_32_range value : 0 ≤ upper_32 value < 2 ^ 32.
Proof.
  unfold upper_32. change 0xFFFFFFFF with (Z.ones 32). rewrite Z.land_ones by lia.
  apply Z.mod_pos_bound. lia.
Qed.

Lemma parse_entries_from ids entries :
  (∀ row, row ∈ (foldl (parse_entry ids) ([], []) entries).1 → block_of ids entries row) ∧
  (∀ row, row ∈ (foldl (parse_entry ids) ([], []) entries).2 → edge_of ids entries row).
Proof.
  induction entries as [|[name value] entries [IHb IHe]] using rev_ind.
  { split; intros row Hrow; inversion Hrow. }
  rewrite foldl_app. cbn [foldl].
  destruct (foldl (parse_entry ids) ([], []) entries) as [bs es]. cbn [fst snd] in *.
  unfold parse_entry.
  assert (∀ row, block_of ids entries row → block_of ids (entries ++ [(name, value)]) row)
    as Hb.
  { intros row (n & v & Hin & H). exists n, v. split; [|done]. apply elem_of_app. by left. }
  assert (∀ row, edge_of ids entries row → edge_of ids (entries ++ [(name, value)]) row)
    as He.
  { intros row (n & v & Hin & H). exists n, v. split; [|done]. apply elem_of_app. by left. }
  assert ((name, value) ∈ entries ++ [(name, value)]) as Hlast
    by (apply elem_of_app; right; left).
  destruct (ids !! name) as [module_id|] eqn:Hid; [|split; auto].
  case_bool_decide as Hu; cbn [fst snd]; split; auto.
  - intros row [Hrow| ->%list_elem_of_singleton]%elem_of_app; [auto|].
    exists name, value. done.
  - intros row [Hrow| ->%list_elem_of_singleton]%elem_of_app; [auto|].
    exists name, value. split_and!; try done.
    all: by destruct (decide (upper_32 value = 0)).
Qed.

(** X5.  Every row of [cov_S_blocks] and [cov_S_edges] after the import
    was there before or comes from an entry of the file with a known
    module.  A new block row holds an address in [[0, 2^32)]; a new edge
    row holds a source in [[1, 2^32)] and a destination in [[0, 2^32)]: no
    edge with source 0 and no address of more than 32 bits is stored. *)
Theorem parse_coverage_file_rows ids entries tables :
  (∀ row, row ∈ (parse_coverage_file ids entries tables).1 →
     row ∈ tables.1 ∨ (block_of ids entries row ∧ 0 ≤ row.2 < 2 ^ 32)) ∧
  (∀ row, row ∈ (parse_coverage_file ids entries tables).2 →
     row ∈ tables.2 ∨ (edge_of ids entries row ∧ 1 ≤ row.1.2 < 2 ^ 32
                       ∧ 0 ≤ row.2 < 2 ^ 32)).
Proof.
  unfold parse_coverage_file. destruct (parse_entries_from ids entries) as [Hb He].
  destruct (foldl (parse_entry ids) ([], []) entries) as [bs es]. simpl in *.
  split; intros row [Hrow|Hrow]%SqlFacts.elem_of_insert_or_ignore_all_id; auto; right.
  - specialize (Hb row Hrow). split; [done|].
    destruct Hb as (n & v & _ & _ & _ & ->). apply lower_32_range.
  - specialize (He row Hrow). split; [done|].
    destruct He as (n & v & _ & _ & Hne & -> & ->).
    pose proof (upper_32_range v). pose proof (lower_32_range v). lia.
Qed.

(** X6.  The import only appends rows, and importing the same entries a
    second time changes nothing. *)
Theorem parse_coverage_file_again ids entries tables :
  (∃ bs es, parse_coverage_file ids entries tables = (tables.1 ++ bs, tables.2 ++ es)) ∧
  parse_coverage_file ids entries (parse_coverage_file ids entries tables)
  = parse_coverage_file ids entries tables.
Proof.
  unfold parse_coverage_file.
  destruct (foldl (parse_entry ids) ([], []) entries) as [bs es]. simpl. split.
  - destruct (SqlRepeat.insert_or_ignore_all_prefix id tables.1 bs) as [bs' ->].
    destruct (SqlRepeat.insert_or_ignore_all_prefix id tables.2 es) as [es' ->].
    by exists bs', es'.
  - by rewrite !SqlRepeat.insert_or_ignore_all_again.
Qed.

Lemma upper_32_low_64 value : upper_32 (value mod 2 ^ 64) = upper_32 value.
Proof.
  unfold upper_32. apply Z.bits_inj'. intros n Hn.
  rewrite !Z.land_spec, !Z.shiftr_spec by done.
  change 0xFFFFFFFF with (Z.ones 32).
  destruct (decide (n < 32)) as [Hlt|Hge].
  - by rewrite Z.mod_pow2_bits_low by lia.
  - rewrite Z.ones_spec_high by lia. by rewrite !andb_false_r.
Qed.

Lemma lower_32_low_64 value : lower_32 (value mod 2 ^ 64) = lower_32 value.
Proof.
  unfold lower_32. apply Z.bits_inj'. intros n Hn.
  rewrite !Z.land_spec. change 0xFFFFFFFF with (Z.ones 32).
  destruct (decide (n < 32)) as [Hlt|Hge].
  - by rewrite Z.mod_pow2_bits_low by lia.
  - rewrite Z.ones_spec_high by lia. by rewrite !andb_false_r.
Qed.

Lemma parse_entry_low_64 ids st name value :
  parse_entry ids st (name, value mod 2 ^ 64) = parse_entry ids st (name, value).
Proof.
  unfold parse_entry. destruct st as [bs es].
  by rewrite upper_32_low_64, lower_32_low_64.
Qed.

(** X7.  Only the low 64 bits of a value count: a file whose values are
    cut to their low 64 bits is imported to the same tables, so a value of
    more than 16 hexadecimal digits is stored as its low 64 bits. *)
Theorem parse_coverage_file_low_64 ids entries tables :
  parse_coverage_file ids ((λ e, (e.1, e.2 mod 2 ^ 64)) <$> entries) tables
  = parse_coverage_file ids entries tables.
Proof.
  unfold parse_coverage_file.
  assert (∀ st, foldl (parse_entry ids) st ((λ e, (e.1, e.2 mod 2 ^ 64)) <$> entries)
                = foldl (parse_entry ids) st entries) as ->; [|done].
  induction entries as [|[name value] entries IH]; intros st; [done|].
  simpl. by rewrite parse_entry_low_64, IH.
Qed.

End LinesFacts.

(** ------------------------------------------------------------------ *)
(** ** Modules to binaries                                              *)
(** ------------------------------------------------------------------ *)

Module MappingFacts.
Import Modules Mapping ListFacts.

(** The two lists at the end of the loop over the modules. *)
Lemma map_module_fold binaries modules st :
  foldl (map_module binaries) st modules
  = (st.1 ++ omap (mapped_row binaries) modules,
     st.2 ++ filter (λ m, find_binary binaries (mod_sha256_hash m) = None) modules).
Proof.
  revert st. induction modules as [|m modules IH]; intros [mapping unmapped].
  - cbn. by rewrite !app_nil_r.
  - cbn [foldl]. rewrite IH.
    assert (omap (mapped_row binaries) (m :: modules)
            = match mapped_row binaries m with
              | Some r => r :: omap (mapped_row binaries) modules
              | None => omap (mapped_row binaries) modules
              end) as -> by done.
    unfold map_module, mapped_row at 2.
    destruct (find_binary binaries (mod_sha256_hash m)) as [b|] eqn:E;
      cbn [fst snd fmap option_fmap option_map].
    + rewrite filter_cons_False by (by rewrite E). by rewrite <- app_assoc.
    + rewrite filter_cons_True by done. by rewrite <- app_assoc.
Qed.

Lemma map_modules_to_binaries_eq modules binaries table :
  map_modules_to_binaries modules binaries table
  = (Sql.insert_or_replace_all mp_module_id table (omap (mapped_row binaries) modules),
     (length (omap (mapped_row binaries) modules),
      filter (λ m, find_binary binaries (mod_sha256_hash m) = None) modules)).
Proof. unfold map_modules_to_binaries. by rewrite map_module_fold. Qed.

Lemma mapped_row_id binaries m r : mapped_row binaries m = Some r → mp_module_id r = mod_id m.
Proof. unfold mapped_row. by intros (b & _ & ->)%fmap_Some. Qed.

(** The rows of [mapping] have the ids of their modules. *)
Lemma mapping_keys binaries modules :
  NoDup (mod_id <$> modules) →
  NoDup (mp_module_id <$> omap (mapped_row binaries) modules).
Proof.
  induction modules as [|m modules IH]; simpl; [constructor|].
  rewrite NoDup_cons. intros [Hm Hnd].
  destruct (mapped_row binaries m) as [r|] eqn:Hr; [|auto].
  rewrite fmap_cons. apply NoDup_cons. split; [|auto].
  intros (r' & Hk & (m' & Hm' & Hr')%list_elem_of_omap)%list_elem_of_fmap.
  apply mapped_row_id in Hr, Hr'. apply Hm. apply list_elem_of_fmap.
  exists m'. split; [congruence|done].
Qed.

Lemma find_binary_None binaries sha :
  find_binary binaries sha = None ↔ ∀ b, b ∈ binaries → ab_sha256_hash b ≠ Some sha.
Proof. unfold find_binary. by rewrite head_filter_None. Qed.

Lemma length_omap_filter {A B} (f : A → option B) (l : list A) :
  (length (omap f l) + length (filter (λ x, f x = None) l) = length l)%nat.
Proof.
  induction l as [|x l IH]; [done|]. simpl. rewrite filter_cons.
  unfold omap in IH. destruct (f x) eqn:E; simpl; lia.
Qed.

(** X8.  [map_modules_to_binaries] sorts every module into exactly one of
    two lists: the returned count and the length of [unmapped] add up to
    the number of modules; a module is in [unmapped] exactly when no binary
    of the master store has its hash; and the count is zero (the case in
    which [main] gives up) exactly when that holds for all modules. *)
Theorem map_modules_to_binaries_partition modules binaries table :
  ((map_modules_to_binaries modules binaries table).2.1
   + length (map_modules_to_binaries modules binaries table).2.2 = length modules)%nat ∧
  (∀ m, m ∈ (map_modules_to_binaries modules binaries table).2.2 ↔
        m ∈ modules ∧ ∀ b, b ∈ binaries → ab_sha256_hash b ≠ Some (mod_sha256_hash m)) ∧
  ((map_modules_to_binaries modules binaries table).2.1 = 0%nat ↔
   ∀ m b, m ∈ modules → b ∈ binaries → ab_sha256_hash b ≠ Some (mod_sha256_hash m)).
Proof.
  rewrite map_modules_to_binaries_eq. simpl. split_and!.
  - rewrite <- (length_omap_filter (mapped_row binaries) modules). f_equal.
    f_equal. apply list_filter_iff. intros m. unfold mapped_row. by rewrite fmap_None.
  - intros m. rewrite list_elem_of_filter, find_binary_None. tauto.
  - rewrite length_zero_iff_nil. split.
    + intros Hnil m b Hm. revert b. apply find_binary_None.
      destruct (find_binary binaries (mod_sha256_hash m)) as [b|] eqn:E; [|done].
      assert (MappingRow (mod_id m) (ab_binary_id b) (mod_name m) (ab_binary_name b)
                (mod_sha256_hash m) ∈ omap (mapped_row binaries) modules) as Hin.
      { apply list_elem_of_omap. exists m. split; [done|]. unfold mapped_row. by rewrite E. }
      rewrite Hnil in Hin. inversion Hin.
    + intros Hno. destruct (omap (mapped_row binaries) modules) as [|r l] eqn:E; [done|].
      assert (r ∈ omap (mapped_row binaries) modules) as Hin by (rewrite E; left).
      apply list_elem_of_omap in Hin as (m & Hm & Hr). unfold mapped_row in Hr.
      apply fmap_Some in Hr as (b & Hb & _). apply head_filter_Some in Hb as [Hb Hsha].
      by destruct (Hno m b Hm Hb).
Qed.

(** X9.  After [map_modules_to_binaries], when the modules have pairwise
    different ids: a module whose hash is the hash of a binary has the row
    that maps it to the first such binary, and that row only; the rows of
    the other module ids are as they were before, so a row that an earlier
    run wrote for a module whose hash is no longer known stays in the
    table.  The primary key of the table is kept. *)
Theorem map_modules_to_binaries_table modules binaries table :
  NoDup (mod_id <$> modules) →
  (∀ r, r ∈ (map_modules_to_binaries modules binaries table).1 ↔
        (r ∈ table ∧ ∀ m, m ∈ modules → mp_module_id r = mod_id m →
                          find_binary binaries (mod_sha256_hash m) = None) ∨
        (∃ m, m ∈ modules ∧ mapped_row binaries m = Some r)) ∧
  (Sql.pk_ok mp_module_id table →
   Sql.pk_ok mp_module_id (map_modules_to_binaries modules binaries table).1).
Proof.
  intros Hnd. rewrite map_modules_to_binaries_eq. simpl. split.
  - intros r. rewrite SqlFacts.elem_of_insert_or_replace_all by by apply mapping_keys.
    rewrite list_elem_of_omap. apply or_iff_compat_r. apply and_iff_compat_l. split.
    + intros Hnot m Hm Hid.
      destruct (find_binary binaries (mod_sha256_hash m)) as [b|] eqn:E; [|done].
      destruct Hnot. apply list_elem_of_fmap.
      eexists. split; [|apply list_elem_of_omap; exists m; split; [done|]].
      2:{ unfold mapped_row. rewrite E. done. }
      done.
    + intros Hno (r' & Hk & (m & Hm & Hr)%list_elem_of_omap)%list_elem_of_fmap.
      pose proof (mapped_row_id _ _ _ Hr) as Hid.
      specialize (Hno m Hm ltac:(congruence)). unfold mapped_row in Hr.
      by rewrite Hno in Hr.
  - apply SqlFacts.insert_or_replace_all_pk_ok.
Qed.

(** X10.  [map_modules_to_binaries] may be repeated: on the table that it
    has left, a second call with the same modules and binaries returns the
    same table and the same pair. *)
Theorem map_modules_to_binaries_again modules binaries table :
  NoDup (mod_id <$> modules) →
  map_modules_to_binaries modules binaries
    (map_modules_to_binaries modules binaries table).1
  = map_modules_to_binaries modules binaries table.
Proof.
  intros Hnd. rewrite !map_modules_to_binaries_eq. simpl. f_equal.
  apply SqlRepeat.insert_or_replace_all_again. by apply mapping_keys.
Qed.

(** X9 and X10 at two modules, of which the first has the hash of a
    binary, and a table with an old row for the second. *)
Lemma map_modules_to_binaries_table_witness :
  NoDup (mod_id <$> [ModuleRow 1 "a.dll" "11"; ModuleRow 2 "b.dll" "22"]) ∧
  ∀ r, r ∈ [MappingRow 2 77 "b.dll" "old.dll" "00"; MappingRow 1 10 "a.dll" "A.DLL" "11"] →
       r ∈ (map_modules_to_binaries
              [ModuleRow 1 "a.dll" "11"; ModuleRow 2 "b.dll" "22"]
              [BinaryRow 10 "A.DLL" (Some "11"); BinaryRow 11 "c.dll" None]
              [MappingRow 2 77 "b.dll" "old.dll" "00"]).1.
Proof.
  assert (NoDup (mod_id <$> [ModuleRow 1 "a.dll" "11"; ModuleRow 2 "b.dll" "22"])) as Hnd
    by compute_done.
  split; [exact Hnd|]. intros r Hr.
  apply (map_modules_to_binaries_table _
           [BinaryRow 10 "A.DLL" (Some "11"); BinaryRow 11 "c.dll" None]
           [MappingRow 2 77 "b.dll" "old.dll" "00"] Hnd).
  apply elem_of_cons in Hr as [->|Hr]; [left|right].
  - split; [left|]. intros m Hm Hid.
    apply elem_of_cons in Hm as [->|Hm]; [done|].
    apply list_elem_of_singleton in Hm as ->. reflexivity.
  - apply list_elem_of_singleton in Hr as ->.
    exists (ModuleRow 1 "a.dll" "11"). split; [left|reflexivity].
Defined.

Lemma map_modules_to_binaries_again_witness :
  NoDup (mod_id <$> [ModuleRow 1 "a.dll" "11"; ModuleRow 2 "b.dll" "22"]) ∧
  map_modules_to_binaries
    [ModuleRow 1 "a.dll" "11"; ModuleRow 2 "b.dll" "22"]
    [BinaryRow 10 "A.DLL" (Some "11"); BinaryRow 11 "c.dll" None]
    [MappingRow 2 77 "b.dll" "old.dll" "00"; MappingRow 1 10 "a.dll" "A.DLL" "11"]
  = ([MappingRow 2 77 "b.dll" "old.dll" "00"; MappingRow 1 10 "a.dll" "A.DLL" "11"],
     (1%nat, [ModuleRow 2 "b.dll" "22"])).
Proof.
  assert (NoDup (mod_id <$> [ModuleRow 1 "a.dll" "11"; ModuleRow 2 "b.dll" "22"])) as Hnd
    by compute_done.
  split; [exact Hnd|].
  exact (map_modules_to_binaries_again _
           [BinaryRow 10 "A.DLL" (Some "11"); BinaryRow 11 "c.dll" None]
           [MappingRow 2 77 "b.dll" "old.dll" "00"] Hnd).
Defined.

End MappingFacts.

(** ------------------------------------------------------------------ *)
(** ** Coverage joined to basic blocks                                  *)
(** ------------------------------------------------------------------ *)

Module JoinFacts.
Import Resolver Expand Join ListFacts.

(** What the master queries return is a row of [basic_blocks]. *)
Lemma resolve_Some blocks b rva bb f :
  resolve blocks b rva = Some (bb, f) →
  ∃ blk, blk ∈ blocks ∧ bb_binary_id blk = b ∧ bb_rva blk = bb ∧ bb_func_id blk = f
         ∧ bb ≤ rva.
Proof.
  unfold resolve. destruct (exact_match blocks b rva) as [p|] eqn:E.
  - intros [= ->]. apply ResolverFacts.exact_match_Some in E as (blk & ? & ? & ? & [= -> ->]).
    exists blk. split_and!; done || lia.
  - destruct (greatest_below blocks b rva) as [[[bb' f'] size]|] eqn:E2; [|done].
    case_bool_decide; [|done]. intros [= -> ->].
    apply ResolverFacts.greatest_below_Some in E2 as (g & ? & ? & ? & ? & ? & _).
    exists g. done.
Qed.

Section join.
Context (blocks : list basic_block) (mapping : list Graph.map_row).

(** One entry, with a consistent cache: what the loop body does is decided
    by the dict-free master queries. *)
Lemma join_entry_step st entry :
  cache_consistent blocks (cache st) →
  entry ∉ processed_blocks st →
  cache_consistent blocks (cache (join_entry blocks mapping st entry)) ∧
  processed_blocks (join_entry blocks mapping st entry) = {[entry]} ∪ processed_blocks st ∧
  ((∃ r, resolves_to blocks mapping entry r ∧
         joined_data (join_entry blocks mapping st entry) = joined_data st ++ [r] ∧
         missing_blocks (join_entry blocks mapping st entry) = missing_blocks st) ∨
   (∃ m, unresolved blocks mapping entry m ∧
         joined_data (join_entry blocks mapping st entry) = joined_data st ∧
         missing_blocks (join_entry blocks mapping st entry) = missing_blocks st ++ [m])).
Proof.
  intros Hc Hnew. unfold join_entry. rewrite decide_False by done.
  destruct (binary_of mapping entry.1) as [b|] eqn:Hb.
  - destruct (ResolverFacts.find_resolve blocks (cache st) b entry.2 Hc) as [Hres Hc'].
    destruct (find_containing_basic_block blocks (cache st) b entry.2) as [[[bb f]|] cache'];
      simpl in *.
    + split; [done|]. split; [done|]. left. exists (Joined b f bb).
      split; [|done]. by split.
    + split; [done|]. split; [done|]. right.
      exists (Missing entry.1 (Some b) entry.2 not_found_in_static_analysis).
      split; [|done]. split; [done|]. split; [done|]. right. by exists b.
  - simpl. split; [done|]. split; [done|]. right.
    exists (Missing entry.1 None entry.2 module_not_mapped).
    split; [|done]. split; [done|]. split; [done|]. by left.
Qed.

(** The state at the end of the loop over the entries. *)
Lemma join_entries_spec cache0 entries :
  cache_consistent blocks cache0 →
  let st := join_entries blocks mapping cache0 entries in
  cache_consistent blocks (cache st) ∧
  processed_blocks st = list_to_set entries ∧
  (length (joined_data st) + length (missing_blocks st)
   = size (list_to_set entries : gset (Z * Z)))%nat ∧
  (∀ r, r ∈ joined_data st → ∃ entry, entry ∈ entries ∧ resolves_to blocks mapping entry r) ∧
  (∀ m, m ∈ missing_blocks st → ∃ entry, entry ∈ entries ∧ unresolved blocks mapping entry m) ∧
  (∀ entry, entry ∈ entries →
     (∃ r, r ∈ joined_data st ∧ resolves_to blocks mapping entry r) ∨
     (∃ m, m ∈ missing_blocks st ∧ unresolved blocks mapping entry m)).
Proof.
  intros Hc0. unfold join_entries.
  induction entries as [|entry entries IH] using rev_ind.
  { simpl. split_and!; try done.
    - intros r Hr. inversion Hr.
    - intros m Hm. inversion Hm.
    - intros e He. inversion He. }
  rewrite foldl_app. simpl in *.
  set (st := foldl (join_entry blocks mapping) (JoinState ∅ [] [] cache0) entries) in *.
  destruct IH as (Hc & Hp & Hlen & Hj & Hm & Hall).
  assert (∀ e, e ∈ entries → e ∈ entries ++ [entry]) as Hmono
    by (intros e He; apply elem_of_app; by left).
  destruct (decide (entry ∈ processed_blocks st)) as [Hin|Hnew].
  - assert (join_entry blocks mapping st entry = st) as ->
      by (unfold join_entry; by rewrite decide_True).
    assert (list_to_set (entries ++ [entry]) = (list_to_set entries : gset (Z * Z))) as Hset.
    { rewrite list_to_set_app_L. simpl. rewrite Hp in Hin. set_solver. }
    rewrite Hset. split_and!; try done.
    + intros r Hr. destruct (Hj r Hr) as (e & He & ?). eauto.
    + intros m Hm'. destruct (Hm m Hm') as (e & He & ?). eauto.
    + intros e [He| ->%list_elem_of_singleton]%elem_of_app; [auto|].
      apply Hall. rewrite Hp in Hin. by apply elem_of_list_to_set in Hin.
  - destruct (join_entry_step st entry Hc Hnew) as (Hc' & Hp' & Hcase).
    assert (size (list_to_set (entries ++ [entry]) : gset (Z * Z))
            = S (size (list_to_set entries : gset (Z * Z)))) as Hsize.
    { rewrite list_to_set_app_L. simpl. rewrite Hp in Hnew.
      rewrite (union_comm_L _ ({[entry]} ∪ ∅)), union_empty_r_L.
      rewrite size_union by set_solver. by rewrite size_singleton. }
    split_and!.
    + done.
    + rewrite Hp', Hp, list_to_set_app_L. simpl. set_solver.
    + rewrite Hsize. destruct Hcase as [(r & _ & -> & ->)|(m & _ & -> & ->)];
        rewrite length_app; simpl; lia.
    + intros r Hr. destruct Hcase as [(r' & Hres & Hjd & _)|(m & _ & Hjd & _)];
        rewrite Hjd in Hr.
      * apply elem_of_app in Hr as [Hr| ->%list_elem_of_singleton].
        -- destruct (Hj r Hr) as (e & He & ?). eauto.
        -- exists entry. split; [|done]. apply elem_of_app. right. left.
      * destruct (Hj r Hr) as (e & He & ?). eauto.
    + intros m Hm'. destruct Hcase as [(r' & _ & _ & Hmd)|(m' & Hun & _ & Hmd)];
        rewrite Hmd in Hm'.
      * destruct (Hm m Hm') as (e & He & ?). eauto.
      * apply elem_of_app in Hm' as [Hm'| ->%list_elem_of_singleton].
        -- destruct (Hm m Hm') as (e & He & ?). eauto.
        -- exists entry. split; [|done]. apply elem_of_app. right. left.
    + intros e [He| ->%list_elem_of_singleton]%elem_of_app.
      * destruct (Hall e He) as [(r & Hr & ?)|(m & Hm' & ?)]; [left|right].
        -- exists r. split; [|done].
           destruct Hcase as [(? & _ & -> & _)|(? & _ & -> & _)]; [|done].
           apply elem_of_app. by left.
        -- exists m. split; [|done].
           destruct Hcase as [(? & _ & _ & ->)|(? & _ & _ & ->)]; [done|].
           apply elem_of_app. by left.
      * destruct Hcase as [(r & Hres & -> & _)|(m & Hun & _ & ->)]; [left|right].
        -- exists r. split; [|done]. apply elem_of_app. right. left.
        -- exists m. split; [|done]. apply elem_of_app. right. left.
Qed.

Lemma resolves_to_unique entry r r' :
  resolves_to blocks mapping entry r → resolves_to blocks mapping entry r' → r = r'.
Proof.
  intros [Hb Hr] [Hb' Hr']. destruct r, r'. simpl in *.
  rewrite Hb in Hb'. injection Hb' as <-. rewrite Hr in Hr'. by injection Hr' as <- <-.
Qed.

Lemma unresolved_unique entry m m' :
  unresolved blocks mapping entry m → unresolved blocks mapping entry m' → m = m'.
Proof.
  intros (H1 & H2 & H3) (H1' & H2' & H3'). destruct m, m'. simpl in *. subst.
  destruct H3 as [(Hb & -> & ->)|(b & Hb & _ & -> & ->)];
    destruct H3' as [(Hb' & -> & ->)|(b' & Hb' & _ & -> & ->)]; try congruence.
Qed.

Lemma resolves_to_not_unresolved entry r m :
  resolves_to blocks mapping entry r → ¬ unresolved blocks mapping entry m.
Proof.
  intros [Hb Hr] (_ & _ & [(Hb' & _)|(b & Hb' & Hr' & _)]); [congruence|].
  rewrite Hb in Hb'. injection Hb' as <-. congruence.
Qed.

(** Two runs of the loop from consistent caches differ in the cache only. *)
Lemma join_entries_cache cache1 cache2 entries :
  cache_consistent blocks cache1 → cache_consistent blocks cache2 →
  processed_blocks (join_entries blocks mapping cache1 entries)
  = processed_blocks (join_entries blocks mapping cache2 entries) ∧
  missing_blocks (join_entries blocks mapping cache1 entries)
  = missing_blocks (join_entries blocks mapping cache2 entries) ∧
  joined_data (join_entries blocks mapping cache1 entries)
  = joined_data (join_entries blocks mapping cache2 entries).
Proof.
  intros Hc1 Hc2. induction entries as [|entry entries IH] using rev_ind; [done|].
  destruct (join_entries_spec cache1 entries Hc1) as (Hcc1 & _).
  destruct (join_entries_spec cache2 entries Hc2) as (Hcc2 & _).
  unfold join_entries in *. rewrite !foldl_app. simpl.
  set (st1 := foldl (join_entry blocks mapping) (JoinState ∅ [] [] cache1) entries) in *.
  set (st2 := foldl (join_entry blocks mapping) (JoinState ∅ [] [] cache2) entries) in *.
  destruct IH as (Hp & Hm & Hj).
  destruct (decide (entry ∈ processed_blocks st1)) as [Hin|Hnew].
  - unfold join_entry. rewrite decide_True by done. by rewrite decide_True by by rewrite <- Hp.
  - destruct (join_entry_step st1 entry Hcc1 Hnew) as (_ & Hp1 & Hcase1).
    destruct (join_entry_step st2 entry Hcc2 ltac:(by rewrite <- Hp)) as (_ & Hp2 & Hcase2).
    rewrite Hp1, Hp2, Hp. split; [done|].
    destruct Hcase1 as [(r1 & Hr1 & -> & ->)|(m1 & Hm1 & -> & ->)];
      destruct Hcase2 as [(r2 & Hr2 & -> & ->)|(m2 & Hm2 & -> & ->)].
    + rewrite (resolves_to_unique _ _ _ Hr1 Hr2). by rewrite Hm, Hj.
    + by destruct (resolves_to_not_unresolved _ _ _ Hr1 Hm2).
    + by destruct (resolves_to_not_unresolved _ _ _ Hr2 Hm1).
    + rewrite (unresolved_unique _ _ _ Hm1 Hm2). by rewrite Hm, Hj.
Qed.

Section result.
Context (blocks_table : list Parser.block_row) (edges_table : option (list Parser.edge_row))
        (joined : list joined_row) (cache0 : list cache_row).

(** X11.  With a consistent cache, [join_coverage_to_blocks] accounts
    for every coverage entry, be it a row of the blocks table or an end of
    a row of the edges table: either the master queries resolve it to a
    block, and the joined table then has a row for that block, or it is
    reported in the returned list, with the reason that applies.  No entry
    is dropped without a report. *)
Theorem join_accounts_for_every_entry entry :
  cache_consistent blocks cache0 →
  entry ∈ coverage_blocks blocks_table edges_table →
  (∃ r, resolves_to blocks mapping entry r ∧
        joined_key r ∈ joined_key <$>
          (join_coverage_to_blocks blocks mapping blocks_table edges_table joined cache0).1.2)
  ∨
  (∃ m, m ∈ (join_coverage_to_blocks blocks mapping blocks_table edges_table joined
               cache0).1.1
        ∧ unresolved blocks mapping entry m).
Proof.
  intros Hc He. unfold join_coverage_to_blocks. simpl.
  destruct (join_entries_spec cache0 (coverage_blocks blocks_table edges_table) Hc)
    as (_ & _ & _ & _ & _ & Hall).
  destruct (Hall entry He) as [(r & Hr & Hres)|(m & Hm & Hun)]; [left|right].
  - exists r. split; [done|]. apply SqlFacts.insert_or_ignore_all_keys. right.
    apply list_elem_of_fmap. eauto.
  - eauto.
Qed.

(** X12.  With a consistent cache, the join makes nothing up: a row of the
    joined table that was not there before is the block that the master
    queries give for a coverage entry, and [basic_blocks] has that block,
    with that function; an entry of the returned list reports a coverage
    entry that has no block. *)
Theorem join_rows_are_blocks :
  cache_consistent blocks cache0 →
  (∀ r, r ∈ (join_coverage_to_blocks blocks mapping blocks_table edges_table joined
               cache0).1.2 →
        r ∈ joined ∨
        ((∃ entry, entry ∈ coverage_blocks blocks_table edges_table
                   ∧ resolves_to blocks mapping entry r) ∧
         (∃ blk, blk ∈ blocks ∧ bb_binary_id blk = j_binary_id r
                 ∧ bb_rva blk = j_bb_rva r ∧ bb_func_id blk = j_func_id r))) ∧
  (∀ m, m ∈ (join_coverage_to_blocks blocks mapping blocks_table edges_table joined
               cache0).1.1 →
        ∃ entry, entry ∈ coverage_blocks blocks_table edges_table
                 ∧ unresolved blocks mapping entry m).
Proof.
  intros Hc. unfold join_coverage_to_blocks. simpl.
  destruct (join_entries_spec cache0 (coverage_blocks blocks_table edges_table) Hc)
    as (_ & _ & _ & Hj & Hm & _).
  split; [|exact Hm].
  intros r [Hr|Hr]%SqlFacts.insert_or_ignore_all_incl; [by left|]. right.
  destruct (Hj r Hr) as (entry & He & Hres). split; [eauto|].
  destruct Hres as [_ Hres]. apply resolve_Some in Hres as (blk & ? & ? & ? & ? & _).
  exists blk. done.
Qed.

(** X13.  The join keeps what it is given: the joined table only grows at
    its end, its primary key stays intact, and a consistent cache stays
    consistent. *)
Theorem join_keeps_tables :
  (∃ extra, (join_coverage_to_blocks blocks mapping blocks_table edges_table joined
               cache0).1.2 = joined ++ extra) ∧
  (Sql.pk_ok joined_key joined →
   Sql.pk_ok joined_key
     (join_coverage_to_blocks blocks mapping blocks_table edges_table joined cache0).1.2) ∧
  (cache_consistent blocks cache0 →
   cache_consistent blocks
     (join_coverage_to_blocks blocks mapping blocks_table edges_table joined cache0).2).
Proof.
  unfold join_coverage_to_blocks. simpl. split_and!.
  - apply SqlRepeat.insert_or_ignore_all_prefix.
  - apply SqlFacts.insert_or_ignore_all_pk_ok.
  - intros Hc.
    by destruct (join_entries_spec cache0 (coverage_blocks blocks_table edges_table) Hc).
Qed.

(** X14.  The cache only saves queries: from any two consistent caches the
    join returns the same list and leaves the same joined table.  So a
    second join of the same coverage, on the table and the cache that the
    first one left, changes neither the list nor the table. *)
Theorem join_cache_transparent cache1 :
  cache_consistent blocks cache0 → cache_consistent blocks cache1 →
  (join_coverage_to_blocks blocks mapping blocks_table edges_table joined cache1).1
  = (join_coverage_to_blocks blocks mapping blocks_table edges_table joined cache0).1 ∧
  (join_coverage_to_blocks blocks mapping blocks_table edges_table
     (join_coverage_to_blocks blocks mapping blocks_table edges_table joined cache0).1.2
     (join_coverage_to_blocks blocks mapping blocks_table edges_table joined cache0).2).1
  = (join_coverage_to_blocks blocks mapping blocks_table edges_table joined cache0).1.
Proof.
  intros Hc0 Hc1. unfold join_coverage_to_blocks. simpl.
  set (entries := coverage_blocks blocks_table edges_table).
  destruct (join_entries_cache cache1 cache0 entries Hc1 Hc0) as (_ & Hm & Hj).
  split; [by rewrite Hm, Hj|].
  destruct (join_entries_spec cache0 entries Hc0) as (Hc' & _).
  destruct (join_entries_cache (cache (join_entries blocks mapping cache0 entries)) cache0
              entries Hc' Hc0) as (_ & Hm' & Hj').
  rewrite Hm', Hj'. by rewrite SqlRepeat.insert_or_ignore_all_again.
Qed.

End result.
End join.

(** A binary with one block at [0x1000] of length [0x20]; coverage of the
    block start, of a return address inside the block, of an address
    beyond it, and of a module that is not mapped. *)
Lemma join_accounts_for_every_entry_witness :
  cache_consistent [BasicBlock 1 7 0x1000 0x401000 0x401020] [] ∧
  (5, 0x101c) ∈ coverage_blocks [(5, 0x1000); (6, 0x10)] (Some [(5, 0x101c, 0x2000)]) ∧
  join_coverage_to_blocks [BasicBlock 1 7 0x1000 0x401000 0x401020] [Graph.MapRow 5 1]
    [(5, 0x1000); (6, 0x10)] (Some [(5, 0x101c, 0x2000)]) [] []
  = ([Missing 6 None 0x10 module_not_mapped;
      Missing 5 (Some 1) 0x2000 not_found_in_static_analysis],
     [Joined 1 7 0x1000],
     [CacheRow 1 0x1000 0x1000 7; CacheRow 1 0x101c 0x1000 7]) ∧
  ((∃ r, resolves_to [BasicBlock 1 7 0x1000 0x401000 0x401020] [Graph.MapRow 5 1]
           (5, 0x101c) r ∧
         joined_key r ∈ joined_key <$> [Joined 1 7 0x1000]) ∨
   (∃ m, m ∈ [Missing 6 None 0x10 module_not_mapped;
              Missing 5 (Some 1) 0x2000 not_found_in_static_analysis] ∧
         unresolved [BasicBlock 1 7 0x1000 0x401000 0x401020] [Graph.MapRow 5 1]
           (5, 0x101c) m)).
Proof.
  assert (cache_consistent [BasicBlock 1 7 0x1000 0x401000 0x401020] []) as Hc
    by apply ResolverFacts.cache_consistent_nil.
  assert ((5, 0x101c) ∈ coverage_blocks [(5, 0x1000); (6, 0x10)]
                          (Some [(5, 0x101c, 0x2000)])) as He by compute_done.
  split; [exact Hc|]. split; [exact He|]. split; [vm_compute; reflexivity|].
  exact (join_accounts_for_every_entry [BasicBlock 1 7 0x1000 0x401000 0x401020]
           [Graph.MapRow 5 1] [(5, 0x1000); (6, 0x10)] (Some [(5, 0x101c, 0x2000)]) [] []
           (5, 0x101c) Hc He).
Defined.

Lemma join_rows_are_blocks_witness :
  cache_consistent [BasicBlock 1 7 0x1000 0x401000 0x401020] [] ∧
  ∀ m, m ∈ [Missing 6 None 0x10 module_not_mapped;
            Missing 5 (Some 1) 0x2000 not_found_in_static_analysis] →
       ∃ entry, entry ∈ coverage_blocks [(5, 0x1000); (6, 0x10)] (Some [(5, 0x101c, 0x2000)])
                ∧ unresolved [BasicBlock 1 7 0x1000 0x401000 0x401020] [Graph.MapRow 5 1]
                    entry m.
Proof.
  assert (cache_consistent [BasicBlock 1 7 0x1000 0x401000 0x401020] []) as Hc
    by apply ResolverFacts.cache_consistent_nil.
  split; [exact Hc|].
  exact (proj2 (join_rows_are_blocks [BasicBlock 1 7 0x1000 0x401000 0x401020]
                  [Graph.MapRow 5 1] [(5, 0x1000); (6, 0x10)] (Some [(5, 0x101c, 0x2000)])
                  [] [] Hc)).
Defined.

Lemma join_cache_transparent_witness :
  cache_consistent [BasicBlock 1 7 0x1000 0x401000 0x401020] [] ∧
  cache_consistent [BasicBlock 1 7 0x1000 0x401000 0x401020]
    [CacheRow 1 0x101c 0x1000 7] ∧
  (join_coverage_to_blocks [BasicBlock 1 7 0x1000 0x401000 0x401020] [Graph.MapRow 5 1]
     [(5, 0x1000); (6, 0x10)] (Some [(5, 0x101c, 0x2000)]) []
     [CacheRow 1 0x101c 0x1000 7]).1
  = ([Missing 6 None 0x10 module_not_mapped;
      Missing 5 (Some 1) 0x2000 not_found_in_static_analysis],
     [Joined 1 7 0x1000]).
Proof.
  assert (cache_consistent [BasicBlock 1 7 0x1000 0x401000 0x401020] []) as Hc
    by apply ResolverFacts.cache_consistent_nil.
  assert (cache_consistent [BasicBlock 1 7 0x1000 0x401000 0x401020]
            [CacheRow 1 0x101c 0x1000 7]) as Hc1.
  { intros c ->%list_elem_of_singleton. reflexivity. }
  split; [exact Hc|]. split; [exact Hc1|].
  exact (proj1 (join_cache_transparent [BasicBlock 1 7 0x1000 0x401000 0x401020]
                  [Graph.MapRow 5 1] [(5, 0x1000); (6, 0x10)] (Some [(5, 0x101c, 0x2000)])
                  [] [] [CacheRow 1 0x101c 0x1000 7] Hc Hc1)).
Defined.

End JoinFacts.

(** ------------------------------------------------------------------ *)
(** ** Deterministic expansion, repeated                                *)
(** ------------------------------------------------------------------ *)

Module ExpandAgain.
Import Resolver Expand ExpandFacts.

(** A path that avoids a larger covered set avoids a smaller one. *)
Lemma det_chain_mono rows (covered covered' : gset Z) x y :
  covered ⊆ covered' → det_chain rows covered' x y → det_chain rows covered x y.
Proof.
  intros Hsub. induction 1 as [x y Hstep Hy|x y z _ IH Hstep Hz].
  - apply det_chain_one; [done|set_solver].
  - eapply det_chain_next; [exact IH|done|set_solver].
Qed.

Lemma det_chain_trans rows covered x y z :
  det_chain rows covered x y → det_chain rows covered y z → det_chain rows covered x z.
Proof.
  intros Hxy. induction 1 as [y z Hstep Hz|y z w _ IH Hstep Hw].
  - by eapply det_chain_next.
  - eapply det_chain_next; [by apply IH|done|done].
Qed.

(** An invariant of the rows of the joined table that every binary's
    expansion keeps is kept by the expansion of the sample. *)
Lemma expand_invariant blocks cfg_edges (P : list joined_row → Prop) table table' :
  (∀ t b t', P t → expand_binary blocks cfg_edges t b = Some t' → P t') →
  P table →
  expand_deterministic_for_sample blocks cfg_edges table = Some table' → P table'.
Proof.
  intros Hstep. unfold expand_deterministic_for_sample.
  generalize (remove_dups (j_binary_id <$> table)) as bs. intros bs. revert table.
  induction bs as [|b bs IH]; intros table HP; simpl; [by intros [= <-]|].
  destruct (expand_binary blocks cfg_edges table b) as [t1|] eqn:E; simpl.
  - apply IH. by eapply Hstep.
  - by rewrite foldl_bind_None.
Qed.

Lemma expand_binary_rows blocks cfg_edges t b t' :
  expand_binary blocks cfg_edges t b = Some t' →
  ∃ rows, t' = Sql.insert_or_ignore_all joined_key t rows.
Proof.
  unfold expand_binary. destruct (discovered_of cfg_edges t b) as [newly|]; [|done].
  simpl. intros [= <-]. eauto.
Qed.

(** After the expansion no block that [basic_blocks] lists is left to be
    discovered. *)
Lemma expanded_nothing_left blocks cfg_edges table table' b d f :
  expand_deterministic_for_sample blocks cfg_edges table = Some table' →
  det_reachable (cfg_rows_of cfg_edges b) (covered_of table' b) d →
  func_id_of blocks b d = Some f → False.
Proof.
  intros Hexp (s & Hs & Hchain) Hf.
  destruct (expand_rows blocks cfg_edges table) as (t & Ht & Hrows).
  rewrite Hexp in Ht. injection Ht as <-.
  assert (covered_of table b ⊆ covered_of table' b) as Hsub.
  { intros x. rewrite !elem_of_covered_of, !list_elem_of_fmap.
    intros (r & Hk & Hr). exists r. split; [done|]. apply Hrows. by left. }
  assert (det_reachable (cfg_rows_of cfg_edges b) (covered_of table b) d) as Hreach.
  { pose proof (det_chain_mono _ _ _ _ _ Hsub Hchain) as Hchain'.
    apply elem_of_covered_of, list_elem_of_fmap in Hs as (r & Hk & Hr).
    injection Hk as Hb Hrva.
    apply Hrows in Hr as [Hr|[(s0 & Hs0 & Hchain0) _]].
    - exists s. split; [|done]. apply elem_of_covered_of, list_elem_of_fmap.
      exists r. split; [|done]. unfold joined_key. by rewrite <- Hb, <- Hrva.
    - rewrite <- Hb in Hs0, Hchain0. rewrite <- Hrva in Hchain0.
      exists s0. split; [done|]. by eapply det_chain_trans. }
  apply det_chain_not_covered in Hchain. apply Hchain.
  apply elem_of_covered_of, list_elem_of_fmap. exists (Joined b f d). split; [done|].
  apply Hrows. right. split; done.
Qed.

(** X15.  Deterministic expansion only appends rows to the joined table
    and keeps its primary key, and it reaches a fixed point at once:
    expanding the expanded table again returns it unchanged. *)
Theorem expand_deterministic_for_sample_again blocks cfg_edges table table' :
  expand_deterministic_for_sample blocks cfg_edges table = Some table' →
  (∃ extra, table' = table ++ extra) ∧
  (Sql.pk_ok joined_key table → Sql.pk_ok joined_key table') ∧
  expand_deterministic_for_sample blocks cfg_edges table' = Some table'.
Proof.
  intros Hexp. split_and!.
  - apply (expand_invariant blocks cfg_edges (λ t, ∃ extra, t = table ++ extra) table table');
      [|exists []; by rewrite app_nil_r|done].
    intros t b t' [extra ->] [rows ->]%expand_binary_rows.
    destruct (SqlRepeat.insert_or_ignore_all_prefix joined_key (table ++ extra) rows)
      as [extra' ->].
    exists (extra ++ extra'). by rewrite app_assoc.
  - intros Hpk.
    apply (expand_invariant blocks cfg_edges (Sql.pk_ok joined_key) table table');
      [|done|done].
    intros t b t' Ht [rows ->]%expand_binary_rows.
    by apply SqlFacts.insert_or_ignore_all_pk_ok.
  - assert (∀ b, expand_binary blocks cfg_edges table' b = Some table') as Hfix.
    { intros b. unfold expand_binary, discovered_of.
      destruct (discover_total (cfg_rows_of cfg_edges b) (covered_of table' b))
        as [newly Hd].
      rewrite Hd. simpl. f_equal.
      pose proof (discover_spec _ _ _ Hd) as Hspec.
      assert (omap (λ bb_rva, (λ func_id, Joined b func_id bb_rva)
                                <$> func_id_of blocks b bb_rva) (elements newly) = [])
        as ->; [|done].
      destruct (omap _ (elements newly)) as [|r l] eqn:E; [done|].
      assert (r ∈ omap (λ bb_rva, (λ func_id, Joined b func_id bb_rva)
                                    <$> func_id_of blocks b bb_rva) (elements newly))
        as Hr by (rewrite E; left).
      apply list_elem_of_omap in Hr as (d & Hd' & Hrow).
      apply fmap_Some in Hrow as (f & Hf & _).
      apply elem_of_elements, Hspec in Hd'.
      destruct (expanded_nothing_left _ _ _ _ _ _ _ Hexp Hd' Hf). }
    unfold expand_deterministic_for_sample.
    induction (remove_dups (j_binary_id <$> table')) as [|b bs IH]; [done|].
    simpl. by rewrite Hfix.
Qed.

(** X15 at scenario 6 of the specification. *)
Lemma expand_deterministic_for_sample_again_witness :
  expand_deterministic_for_sample scenario6_blocks scenario6_cfg scenario6_recorded
  = Some [Joined 1 7 10; Joined 1 7 40; Joined 1 7 30; Joined 1 7 20] ∧
  expand_deterministic_for_sample scenario6_blocks scenario6_cfg
    [Joined 1 7 10; Joined 1 7 40; Joined 1 7 30; Joined 1 7 20]
  = Some [Joined 1 7 10; Joined 1 7 40; Joined 1 7 30; Joined 1 7 20].
Proof.
  assert (expand_deterministic_for_sample scenario6_blocks scenario6_cfg scenario6_recorded
          = Some [Joined 1 7 10; Joined 1 7 40; Joined 1 7 30; Joined 1 7 20]) as Hrun
    by (vm_compute; reflexivity).
  split; [exact Hrun|].
  exact (proj2 (proj2 (expand_deterministic_for_sample_again _ _ _ _ Hrun))).
Defined.

End ExpandAgain.

(** ------------------------------------------------------------------ *)
(** ** The flags of the diff labels                                     *)
(** ------------------------------------------------------------------ *)

Module LabelFlags.
Import Expand Labels LabelsFacts.

Lemma elem_of_union_all cov_A cov_B x :
  x ∈ union_all cov_A cov_B ↔
  (x.1.1 ∈ cov_A ∧ x.1.2 = true ∧ x.2 = false) ∨
  (x.1.1 ∈ cov_B ∧ x.1.2 = false ∧ x.2 = true).
Proof.
  unfold union_all. rewrite elem_of_app, !list_elem_of_fmap. split.
  - intros [(r & -> & Hr)|(r & -> & Hr)]; [left|right]; done.
  - destruct x as [[r a] b]. simpl.
    intros [(Hr & -> & ->)|(Hr & -> & ->)]; [left|right]; by exists r.
Qed.

Lemma existsb_filter {A} (f : A → bool) (P : A → Prop) `{!∀ x, Decision (P x)}
    (l : list A) :
  existsb f (filter P l) = true ↔ ∃ x, x ∈ l ∧ P x ∧ f x = true.
Proof.
  rewrite existsb_exists. split.
  - intros (x & [HP Hx]%list_elem_of_In%list_elem_of_filter & Hf). eauto.
  - intros (x & Hx & HP & Hf). exists x. split; [|done].
    apply list_elem_of_In, list_elem_of_filter. done.
Qed.

(** The flags and the function of the label of one group. *)
Lemma group_label_flags cov_A cov_B k l :
  group_label (union_all cov_A cov_B) k = Some l →
  (l_in_A l = true ↔ k ∈ joined_key <$> cov_A) ∧
  (l_in_B l = true ↔ k ∈ joined_key <$> cov_B) ∧
  (∃ r, r ∈ cov_A ++ cov_B ∧ joined_key r = k ∧ j_func_id r = l_func_id l).
Proof.
  unfold group_label.
  assert (existsb (λ x : joined_row * bool * bool, x.1.2)
            (filter (λ x, joined_key x.1.1 = k) (union_all cov_A cov_B)) = true
          ↔ k ∈ joined_key <$> cov_A) as HA.
  { rewrite existsb_filter. split.
    - intros (x & [(Hx & _)|(_ & Hf & _)]%elem_of_union_all & Hk & Ha); [|congruence].
      apply list_elem_of_fmap. eauto.
    - intros (r & -> & Hr)%list_elem_of_fmap. exists (r, true, false).
      split; [|done]. apply elem_of_union_all. left. done. }
  assert (existsb (λ x : joined_row * bool * bool, x.2)
            (filter (λ x, joined_key x.1.1 = k) (union_all cov_A cov_B)) = true
          ↔ k ∈ joined_key <$> cov_B) as HB.
  { rewrite existsb_filter. split.
    - intros (x & [(_ & _ & Hf)|(Hx & _)]%elem_of_union_all & Hk & Hb); [congruence|].
      apply list_elem_of_fmap. eauto.
    - intros (r & -> & Hr)%list_elem_of_fmap. exists (r, false, true).
      split; [|done]. apply elem_of_union_all. right. done. }
  destruct (filter (λ x, joined_key x.1.1 = k) (union_all cov_A cov_B))
    as [|first others] eqn:E; [done|].
  intros [= <-]. split; [exact HA|]. split; [exact HB|].
  cbn [l_func_id].
  assert (default first (head (filter (λ x : joined_row * bool * bool, x.2 = true)
                                 (first :: others))) ∈ first :: others) as Hbare.
  { destruct (head (filter (λ x : joined_row * bool * bool, x.2 = true)
                      (first :: others))) as [x|] eqn:Hh; cbn [default]; [|left].
    apply head_Some_elem_of in Hh. by apply list_elem_of_filter in Hh as [_ ?]. }
  set (bare := default first (head (filter (λ x : joined_row * bool * bool, x.2 = true)
                                      (first :: others)))) in *.
  clearbody bare. rewrite <- E in Hbare. apply list_elem_of_filter in Hbare as [Hk Hf].
  exists bare.1.1. split; [|done]. apply elem_of_app. apply elem_of_union_all in Hf. tauto.
Qed.

(** X16.  The diff labels.  On an empty [bb_labels] the stage succeeds
    and writes one label for every block that has a row in one of the two
    joined tables, and no other label.  A label has [in_A = 1] exactly
    when [cov_A_blocks_joined] has a row for its block, [in_B = 1] exactly
    when [cov_B_blocks_joined] has one, and [is_new = 1] exactly when the
    second has one and the first has none; its function is that of a
    joined row of the block. *)
Theorem compute_diff_labels_flags cov_A cov_B :
  compute_diff_labels cov_A cov_B [] = Some (diff_rows cov_A cov_B) ∧
  NoDup (label_key <$> diff_rows cov_A cov_B) ∧
  (∀ k, k ∈ label_key <$> diff_rows cov_A cov_B ↔
        k ∈ joined_key <$> cov_A ∨ k ∈ joined_key <$> cov_B) ∧
  (∀ l, l ∈ diff_rows cov_A cov_B →
     (l_in_A l = true ↔ label_key l ∈ joined_key <$> cov_A) ∧
     (l_in_B l = true ↔ label_key l ∈ joined_key <$> cov_B) ∧
     (l_is_new l = true ↔
      label_key l ∈ joined_key <$> cov_B ∧ label_key l ∉ joined_key <$> cov_A) ∧
     (∃ r, r ∈ cov_A ++ cov_B ∧ joined_key r = label_key l
           ∧ j_func_id r = l_func_id l)).
Proof.
  split_and!.
  - apply compute_diff_labels_fresh.
  - apply diff_rows_pk.
  - intros k. by rewrite elem_of_diff_rows_keys, fmap_app, elem_of_app.
  - intros l Hl. pose proof (labels_new _ (diff_rows_ok cov_A cov_B) l Hl) as Hnew.
    apply list_elem_of_omap in Hl as (k & _ & Hl).
    pose proof (group_label_Some _ _ _ Hl) as [Hk _].
    apply group_label_flags in Hl as (HA & HB & Hf). rewrite Hk.
    split_and!; [done|done| |done].
    rewrite Hnew, andb_true_iff, negb_true_iff, <- HA, <- HB.
    destruct (l_in_A l); split; intros [? ?]; done.
Qed.

End LabelFlags.

(** ------------------------------------------------------------------ *)
(** ** Which new blocks are frontier targets                            *)
(** ------------------------------------------------------------------ *)

Module FrontierComplete.
Import Expand Labels Graph Frontier Pipeline.
Import LabelsFacts GraphFacts FrontierFacts PipelineFacts.

(** A new block is entered by a CFG, call or observed edge, or else it
    gets an orphan edge. *)
Lemma build_graph_entered master bb_labels mapping edges_B cache0 nodes edges cache' l :
  build_executed_graph master bb_labels mapping edges_B [] [] cache0
  = Some (nodes, edges, cache') →
  l ∈ bb_labels → l_is_new l = true →
  (∃ e, e ∈ edges ∧ enters e (l_binary_id l) (l_bb_rva l)
        ∧ like_super_root (e_type e) = false)
  ∨ orphan_entered edges (l_binary_id l) (l_bb_rva l).
Proof.
  unfold build_executed_graph. intros H Hl Hnew.
  apply bind_Some in H as (nodes1 & _ & H).
  apply bind_Some in H as (nodes2 & _ & H).
  apply bind_Some in H as (edges1 & _ & H). simpl in H.
  destruct (add_inner_edges master bb_labels mapping edges_B (b_nodes_of nodes2)
              edges1 cache0) as [edges3 cache1].
  apply bind_Some in H as (edges4 & H4 & [= <- <- <-]).
  apply SqlFacts.insert_all_Some in H4 as (-> & _ & _).
  destruct (decide (l_bb_rva l ∈ entered edges3 (l_binary_id l))) as [Hin|Hnot].
  - left. unfold entered in Hin.
    apply list_elem_of_fmap in Hin as (e & Hd & [(Hb & Ht1 & Ht2) He]%list_elem_of_filter).
    exists e. split_and!; [apply elem_of_app; by left|done|by destruct (e_type e)].
  - right. exists (Edge (l_binary_id l) SUPER (l_bb_rva l) super_root_orphan).
    split_and!; [|done|done]. apply elem_of_app. right.
    apply elem_of_orphan_edges. by exists l.
Qed.

(** [frontier_targets] respects its primary key. *)
Lemma identify_frontier_pk bb_labels edges fe ft :
  identify_frontier bb_labels edges [] [] = Some (fe, ft) →
  NoDup (target_key <$> ft).
Proof.
  unfold identify_frontier. intros H.
  apply bind_Some in H as (fe1 & _ & H).
  apply bind_Some in H as (fe2 & _ & H).
  apply bind_Some in H as (ft' & H3 & [= <- <-]).
  by apply SqlFacts.insert_all_Some in H3 as (-> & ? & _).
Qed.

(** X17.  After a run on a new store, a new block is a frontier target
    (once, by the primary key) exactly when an edge whose type is not
    ['super_root'] enters it from an A-covered block or a
    [super_root_orphan] edge enters it.  A new block that is no frontier
    target is entered by a CFG, call or observed edge, and every such edge
    into it comes from a new block. *)
Theorem frontier_targets_complete master mapping edges_B cov_A cov_B cache st b n :
  analyze master mapping edges_B cov_A cov_B (fresh cache) = Some st →
  block_is_new (bb_labels st) b n →
  ((∃ t, t ∈ frontier_targets st ∧ target_key t = (b, n)) ↔
   (∃ e, e ∈ graph_B_edges st ∧ enters e b n ∧ e_type e ≠ super_root
         ∧ block_in_A (bb_labels st) b (e_src e))
   ∨ orphan_entered (graph_B_edges st) b n) ∧
  (∀ t t', t ∈ frontier_targets st → t' ∈ frontier_targets st →
           target_key t = target_key t' → t = t') ∧
  ((¬ ∃ t, t ∈ frontier_targets st ∧ target_key t = (b, n)) →
   (∃ e, e ∈ graph_B_edges st ∧ enters e b n ∧ like_super_root (e_type e) = false) ∧
   (∀ e, e ∈ graph_B_edges st → enters e b n → like_super_root (e_type e) = false →
         block_is_new (bb_labels st) b (e_src e))).
Proof.
  intros Hrun Hnew.
  destruct (analyze_stages _ _ _ _ _ _ _ Hrun) as (_ & Hg & Hf & _).
  pose proof (run_graph_ok _ _ _ _ _ _ _ Hrun) as Hok.
  pose proof (identify_frontier_fresh _ _ _ _ Hf) as [Hfe Hft].
  (* an entering frontier edge gives a target *)
  assert (∀ e, e ∈ frontier_edges st → enters e b n →
               ∃ t, t ∈ frontier_targets st ∧ target_key t = (b, n)) as Htarget.
  { intros e He [Hb Hd]. destruct Hnew as (l & Hl & Hk & _).
    exists (Target b n (l_func_id l) (classify (bb_labels st) (graph_B_edges st) b n)).
    split; [|done]. rewrite Hft. apply list_elem_of_fmap.
    exists (b, n, l_func_id l). split; [done|].
    apply elem_of_frontier_candidates. exists e, l. rewrite Hb, Hd. done. }
  assert ((∃ e, e ∈ graph_B_edges st ∧ enters e b n ∧ e_type e ≠ super_root
                ∧ block_in_A (bb_labels st) b (e_src e))
          ∨ orphan_entered (graph_B_edges st) b n →
          ∃ t, t ∈ frontier_targets st ∧ target_key t = (b, n)) as Hback.
  { intros [(e & He & Hent & Hty & HA)|(e & He & Hent & Hty)].
    - apply (Htarget e); [|done]. rewrite Hfe. apply elem_of_app. left.
      apply elem_of_frontier_query. destruct Hent as [Hb Hd]. rewrite Hb, Hd. done.
    - apply (Htarget e); [|done]. rewrite Hfe. apply elem_of_app. right.
      by apply list_elem_of_filter. }
  split_and!.
  - split; [|exact Hback].
    intros (t & Ht & [= <- <-]).
    destruct (run_target _ _ _ _ _ _ _ Hrun t Ht) as (_ & _ & [(e & He & Hent & Hty & HA)|?]);
      [left|by right].
    exists e. split_and!; try done. intros Heq. by rewrite Heq in Hty.
  - intros t t' Ht Ht' Hk. pose proof (identify_frontier_pk _ _ _ _ Hf) as Hpk.
    apply list_elem_of_lookup in Ht as [i Hi]. apply list_elem_of_lookup in Ht' as [j Hj].
    assert (i = j) as ->.
    { eapply NoDup_lookup; [exact Hpk| |]; rewrite list_lookup_fmap.
      - by rewrite Hi.
      - rewrite Hj. simpl. by rewrite Hk. }
    congruence.
  - intros Hno. destruct Hnew as (l & Hl & [= <- <-] & Hnew).
    destruct (build_graph_entered _ _ _ _ _ _ _ _ l Hg Hl Hnew) as [Hin|Horph];
      [|destruct Hno; apply Hback; by right].
    split; [done|]. intros e He Hent Hty.
    destruct (inner_source _ _ _ _ _ _ _ Hrun e He Hty) as [HA|HN].
    + destruct Hno. apply Hback. left. exists e. destruct Hent as [Hb Hd].
      rewrite Hb in HA. split_and!; try done. intros Heq. by rewrite Heq in Hty.
    + destruct Hent as [Hb _]. by rewrite Hb in HN.
Qed.

(** X17 at the scenario: block 300 is new and a frontier target. *)
Lemma frontier_targets_complete_witness :
  analyze scenario_master scenario_mapping (Some scenario_edges_B)
          scenario_cov_A scenario_cov_B (fresh []) = Some scenario_store ∧
  block_is_new (bb_labels scenario_store) 1 300 ∧
  ((∃ t, t ∈ frontier_targets scenario_store ∧ target_key t = (1, 300)) ↔
   (∃ e, e ∈ graph_B_edges scenario_store ∧ enters e 1 300 ∧ e_type e ≠ super_root
         ∧ block_in_A (bb_labels scenario_store) 1 (e_src e))
   ∨ orphan_entered (graph_B_edges scenario_store) 1 300).
Proof.
  assert (block_is_new (bb_labels scenario_store) 1 300) as Hnew.
  { exists (Label 1 7 300 false true true). split_and!; [|done|done].
    apply list_elem_of_further, list_elem_of_here. }
  split; [exact scenario_run|]. split; [exact Hnew|].
  exact (proj1 (frontier_targets_complete _ _ _ _ _ _ _ 1 300 scenario_run Hnew)).
Defined.

End FrontierComplete.

(** ------------------------------------------------------------------ *)
(** ** Reachability is reachability along the edges of G_B              *)
(** ------------------------------------------------------------------ *)

Module PathFacts.
Import Labels Graph Frontier Reach Paths ListFacts ReachFacts.

(** The neighbours that the adjacency list gives. *)
Lemma build_adjacency_lookup edges x :
  default [] (build_adjacency edges !! x) = snd <$> filter (λ e, e.1 = x) edges.
Proof.
  unfold build_adjacency.
  rewrite (group_lookup (λ e : Z * Z, e.1) (λ e : Z * Z, e.2) edges x).
  by destruct (snd <$> filter (λ e, e.1 = x) edges).
Qed.

Lemma elem_of_neighbours edges x y :
  y ∈ default [] (build_adjacency edges !! x) ↔ (x, y) ∈ edges.
Proof.
  rewrite build_adjacency_lookup, list_elem_of_fmap. split.
  - intros ([a b] & -> & [Ha He]%list_elem_of_filter). simpl in *. by subst.
  - intros He. exists (x, y). split; [done|]. by apply list_elem_of_filter.
Qed.

(** The loop over the neighbours of a node. *)
Lemma visit_neighbors_spec ns queue visited :
  (foldl visit_neighbor (queue, visited) ns).2 = visited ∪ list_to_set ns ∧
  (∀ x, x ∈ (foldl visit_neighbor (queue, visited) ns).1 →
        x ∈ queue ∨ x ∈ ns) ∧
  (∀ x, x ∈ queue → x ∈ (foldl visit_neighbor (queue, visited) ns).1) ∧
  (∀ x, x ∈ ns → x ∉ visited → x ∈ (foldl visit_neighbor (queue, visited) ns).1).
Proof.
  revert queue visited. induction ns as [|n ns IH]; intros queue visited.
  - cbn. split_and!; [set_solver|auto|auto|]. intros x Hx. inversion Hx.
  - cbn [foldl]. unfold visit_neighbor at 2 4 6 8. cbn [fst snd].
    destruct (decide (n ∈ visited)) as [Hn|Hn].
    + destruct (IH queue visited) as (Hv & Hq & Hk & Hnew). split_and!.
      * rewrite Hv. set_solver.
      * intros x Hx. destruct (Hq x Hx); [by left|right; by right].
      * done.
      * intros x [->|Hx]%elem_of_cons Hxv; [done|auto].
    + destruct (IH (queue ++ [n]) ({[n]} ∪ visited)) as (Hv & Hq & Hk & Hnew). split_and!.
      * rewrite Hv. set_solver.
      * intros x Hx. destruct (Hq x Hx) as [[?| ->%list_elem_of_singleton]%elem_of_app|?];
          [by left|right; left|right; by right].
      * intros x Hx. apply Hk, elem_of_app. by left.
      * intros x [->|Hx]%elem_of_cons Hxv.
        -- apply Hk, elem_of_app. right. left.
        -- destruct (decide (x = n)) as [->|Hne].
           ++ apply Hk, elem_of_app. right. left.
           ++ apply Hnew; [done|]. set_solver.
Qed.

Section bfs.
Context (edges : list (Z * Z)) (new_blocks : gset Z) (start : Z).

(** One iteration keeps the invariant. *)
Lemma bfs_step_inv current rest visited reachable_new :
  bfs_inv edges new_blocks start (current :: rest) visited reachable_new →
  bfs_inv edges new_blocks start
    (foldl visit_neighbor (rest, visited) (default [] (build_adjacency edges !! current))).1
    (foldl visit_neighbor (rest, visited) (default [] (build_adjacency edges !! current))).2
    (if decide (current ∈ new_blocks) then {[current]} ∪ reachable_new else reachable_new).
Proof.
  intros [Hq Hs Hst Hd Hn].
  set (ns := default [] (build_adjacency edges !! current)).
  destruct (visit_neighbors_spec ns rest visited) as (Hv & Hq1 & Hq2 & Hq3).
  assert (current ∈ visited) as Hcur by (apply Hq; left).
  split.
  - intros q Hq'. rewrite Hv. destruct (Hq1 q Hq') as [Hr|Hr].
    + apply elem_of_union. left. apply Hq. by right.
    + apply elem_of_union. right. by apply elem_of_list_to_set.
  - intros v. rewrite Hv. intros [Hvis|Hin%elem_of_list_to_set]%elem_of_union; [auto|].
    eapply rtc_r; [apply (Hs current Hcur)|]. by apply elem_of_neighbours.
  - rewrite Hv. apply elem_of_union. by left.
  - intros v. rewrite Hv. intros [Hvis|Hin%elem_of_list_to_set]%elem_of_union.
    + destruct (decide (v = current)) as [->|Hne].
      * right. split.
        -- intros w Hw. apply elem_of_union. right.
           by apply elem_of_list_to_set, elem_of_neighbours.
        -- intros Hnew. rewrite decide_True by done. set_solver.
      * destruct (Hd v Hvis) as [[?|Hr]%elem_of_cons|[Hsucc Hnew]]; [done| |].
        -- left. by apply Hq2.
        -- right. split.
           ++ intros w Hw. apply elem_of_union. left. by apply Hsucc.
           ++ intros Hv'. specialize (Hnew Hv'). case_decide; set_solver.
    + destruct (decide (v ∈ visited)) as [Hvis|Hnot].
      * destruct (decide (v = current)) as [->|Hne].
        -- right. split.
           ++ intros w Hw. apply elem_of_union. right.
              by apply elem_of_list_to_set, elem_of_neighbours.
           ++ intros Hnew. rewrite decide_True by done. set_solver.
        -- destruct (Hd v Hvis) as [[?|Hr]%elem_of_cons|[Hsucc Hnew]]; [done| |].
           ++ left. by apply Hq2.
           ++ right. split.
              ** intros w Hw. apply elem_of_union. left. by apply Hsucc.
              ** intros Hv'. specialize (Hnew Hv'). case_decide; set_solver.
      * left. by apply Hq3.
  - intros n Hn'. rewrite Hv.
    assert (n ∈ reachable_new ∨ (n = current ∧ current ∈ new_blocks)) as [Hold|[-> Hnew]].
    { case_decide; [|by left]. apply elem_of_union in Hn' as [->%elem_of_singleton|?];
        [by right|by left]. }
    + destruct (Hn n Hold). split; [done|]. apply elem_of_union. by left.
    + split; [done|]. apply elem_of_union. by left.
Qed.

(** What the BFS returns, from a state that satisfies the invariant. *)
Lemma bfs_result fuel queue visited reachable_new result :
  bfs_inv edges new_blocks start queue visited reachable_new →
  bfs fuel (build_adjacency edges) new_blocks queue visited reachable_new = Some result →
  ∀ n, n ∈ result ↔ n ∈ new_blocks ∧ rtc (λ x y, (x, y) ∈ edges) start n.
Proof.
  revert queue visited reachable_new.
  induction fuel as [|fuel IH]; intros queue visited rn Hinv; [done|].
  cbn [bfs]. destruct queue as [|current rest].
  - intros [= <-] n. destruct Hinv as [Hq Hs Hst Hd Hn]. split.
    + intros Hin. destruct (Hn n Hin). split; [done|auto].
    + intros [Hnew Hpath].
      assert (∀ x y, rtc (λ x y, (x, y) ∈ edges) x y → x ∈ visited → y ∈ visited)
        as Hclosed.
      { induction 1 as [x|x y z Hxy _ IHp]; [done|]. intros Hx. apply IHp.
        destruct (Hd x Hx) as [Hin|[Hsucc _]]; [inversion Hin|auto]. }
      pose proof (Hclosed start n Hpath Hst) as Hvis.
      destruct (Hd n Hvis) as [Hin|[_ Hrn]]; [inversion Hin|auto].
  - pose proof (bfs_step_inv current rest visited rn Hinv) as Hinv'.
    destruct (foldl visit_neighbor (rest, visited)
                (default [] (build_adjacency edges !! current))) as [queue' visited'].
    cbn [fst snd] in Hinv'. intros Hr. by apply (IH _ _ _ Hinv').
Qed.

(** The state at the start of the BFS. *)
Lemma bfs_inv_start : bfs_inv edges new_blocks start [start] {[start]} ∅.
Proof.
  split.
  - intros q ->%list_elem_of_singleton. by apply elem_of_singleton.
  - intros v ->%elem_of_singleton. apply rtc_refl.
  - by apply elem_of_singleton.
  - intros v ->%elem_of_singleton. left. left.
  - intros n Hn. by apply elem_of_empty in Hn.
Qed.

End bfs.

Lemma elem_of_edge_pairs graph_B_edges b x y :
  (x, y) ∈ edge_pairs graph_B_edges b ↔ edge_step graph_B_edges b x y.
Proof.
  unfold edge_pairs, edge_step. rewrite list_elem_of_fmap. split.
  - intros (e & [= -> ->] & [Hb He]%list_elem_of_filter). by exists e.
  - intros (e & He & Hb & <- & <-). exists e. split; [done|]. by apply list_elem_of_filter.
Qed.

Lemma path_edge_pairs graph_B_edges b x y :
  rtc (λ u v, (u, v) ∈ edge_pairs graph_B_edges b) x y ↔ path graph_B_edges b x y.
Proof.
  unfold path. split; induction 1 as [|u v w Huv _ IH]; try apply rtc_refl;
    (eapply rtc_l; [|exact IH]); by apply elem_of_edge_pairs.
Qed.

(** The BFS from a block returns the new blocks on a path from it. *)
Lemma reachable_from_paths graph_B_edges bb_labels b f :
  ∃ result, reachable_from graph_B_edges bb_labels b f = Some result ∧
    ∀ n, n ∈ result ↔ n ∈ new_blocks_of bb_labels b ∧ path graph_B_edges b f n.
Proof.
  destruct (reachable_from_spec graph_B_edges bb_labels b f) as (result & Hr & _).
  exists result. split; [done|]. intros n. rewrite <- path_edge_pairs.
  unfold reachable_from in Hr.
  apply (bfs_result _ _ f _ _ _ _ _ (bfs_inv_start _ _ f) Hr).
Qed.

(** X18.  On an empty [frontier_reachability], [compute_reachability]
    completes and leaves, without duplicates, exactly the rows
    [(binary_id, frontier_bb_rva, new_bb_rva)] in which the binary has a
    node in G_B, the frontier block is a frontier target of the binary, the
    new block is labelled [is_new = 1], and [graph_B_edges] has a path of
    zero or more edges of the binary, of any type, from the frontier block
    to the new block. *)
Theorem compute_reachability_paths graph_B_nodes graph_B_edges bb_labels frontier_targets :
  ∃ reach,
    compute_reachability graph_B_nodes graph_B_edges bb_labels frontier_targets []
    = Some reach ∧
    NoDup reach ∧
    ∀ r, r ∈ reach ↔
         r_binary_id r ∈ node_binaries graph_B_nodes ∧
         r_frontier_bb_rva r ∈ targets_of frontier_targets (r_binary_id r) ∧
         r_new_bb_rva r ∈ new_blocks_of bb_labels (r_binary_id r) ∧
         path graph_B_edges (r_binary_id r) (r_frontier_bb_rva r) (r_new_bb_rva r).
Proof.
  destruct (compute_reachability_fresh graph_B_nodes graph_B_edges bb_labels
              frontier_targets) as (reach & Hc & Hnd & Hr).
  exists reach. split; [done|]. split; [done|]. intros r. rewrite Hr. unfold reaches.
  destruct (reachable_from_paths graph_B_edges bb_labels (r_binary_id r)
              (r_frontier_bb_rva r)) as (result & Hres & Hpaths).
  rewrite Hres. split.
  - intros (Hb & Hf & result' & [= <-] & Hn). apply Hpaths in Hn. tauto.
  - intros (Hb & Hf & Hn & Hp). split; [done|]. split; [done|].
    exists result. split; [done|]. apply Hpaths. done.
Qed.

End PathFacts.

(** ------------------------------------------------------------------ *)
(** ** The cache of the resolver                                        *)
(** ------------------------------------------------------------------ *)

Module ResolverCache.
Import Resolver ListFacts.

Lemma cache_lookup_None cache b rva :
  cache_lookup cache b rva = None ↔ (b, rva) ∉ cache_key <$> cache.
Proof.
  unfold cache_lookup. rewrite fmap_None, head_filter_None, list_elem_of_fmap. split.
  - intros H (c & Hk & Hc). by apply (H c Hc).
  - intros H c Hc Hk. apply H. by exists c.
Qed.

(** A row that misses in the cache is appended to it, and found from then on. *)
Lemma cache_insert_lookup cache b rva bb f :
  cache_lookup cache b rva = None →
  Sql.insert_or_ignore cache_key cache (CacheRow b rva bb f)
  = cache ++ [CacheRow b rva bb f] ∧
  cache_lookup (cache ++ [CacheRow b rva bb f]) b rva = Some (bb, f).
Proof.
  intros Hmiss. split.
  - unfold Sql.insert_or_ignore.
    rewrite (proj2 (SqlFacts.has_key_false cache_key cache (b, rva))); [done|].
    by apply cache_lookup_None.
  - unfold cache_lookup in *. rewrite filter_app.
    apply fmap_None, head_None in Hmiss. rewrite Hmiss.
    rewrite filter_cons_True by done. done.
Qed.

(** X19.  The resolver remembers what it found and nothing else: after a
    call that returned a block, the same call on the cache it left returns
    the same block and leaves that cache as it is; a call that returns
    [None] leaves the cache unchanged (failures are looked up again every
    time); and no call removes or changes a row of the cache. *)
Theorem find_containing_basic_block_cached blocks cache b rva :
  (∀ r, (find_containing_basic_block blocks cache b rva).1 = Some r →
        find_containing_basic_block blocks
          (find_containing_basic_block blocks cache b rva).2 b rva
        = (Some r, (find_containing_basic_block blocks cache b rva).2)) ∧
  ((find_containing_basic_block blocks cache b rva).1 = None →
   (find_containing_basic_block blocks cache b rva).2 = cache) ∧
  (∃ extra, (find_containing_basic_block blocks cache b rva).2 = cache ++ extra).
Proof.
  destruct (find_containing_basic_block blocks cache b rva) as [res cache'] eqn:E.
  cbn [fst snd]. unfold find_containing_basic_block in E.
  destruct (cache_lookup cache b rva) as [r0|] eqn:Hl.
  { injection E as <- <-. split_and!; [|done|exists []; by rewrite app_nil_r].
    intros r [= <-]. unfold find_containing_basic_block. by rewrite Hl. }
  assert (∀ bb f,
    find_containing_basic_block blocks
      (Sql.insert_or_ignore cache_key cache (CacheRow b rva bb f)) b rva
    = (Some (bb, f), Sql.insert_or_ignore cache_key cache (CacheRow b rva bb f))) as Hhit.
  { intros bb f. destruct (cache_insert_lookup cache b rva bb f Hl) as [-> Hlook].
    unfold find_containing_basic_block. by rewrite Hlook. }
  assert (∀ bb f, ∃ extra,
    Sql.insert_or_ignore cache_key cache (CacheRow b rva bb f) = cache ++ extra) as Happ.
  { intros bb f. destruct (cache_insert_lookup cache b rva bb f Hl) as [-> _]. eauto. }
  destruct (exact_match blocks b rva) as [[bb f]|].
  { injection E as <- <-. split_and!; [|done|apply Happ]. intros r [= <-]. apply Hhit. }
  destruct (greatest_below blocks b rva) as [[[bb f] size]|].
  - case_bool_decide; injection E as <- <-.
    + split_and!; [|done|apply Happ]. intros r [= <-]. apply Hhit.
    + split_and!; [done|done|exists []; by rewrite app_nil_r].
  - injection E as <- <-. split_and!; [done|done|exists []; by rewrite app_nil_r].
Qed.

End ResolverCache.

(** ------------------------------------------------------------------ *)
(** ** Statuses and statistics of the export                            *)
(** ------------------------------------------------------------------ *)

Module StatusFacts.
Import Expand Labels Graph Viz Status LabelsFacts.

Lemma elem_of_statuses (m : gmap Z string) s :
  s ∈ (list_to_set (snd <$> map_to_list m) : gset string) ↔ ∃ k, m !! k = Some s.
Proof.
  rewrite elem_of_list_to_set, list_elem_of_fmap. split.
  - intros ([k s'] & -> & Hk%elem_of_map_to_list). by exists k.
  - intros [k Hk]. exists (k, s). split; [done|]. by apply elem_of_map_to_list.
Qed.

(** X20.  [get_function_status] returns ["new"] exactly when the function
    has a block and all its blocks are new, ["old"] exactly when none of
    its blocks is new (so also for a function without blocks), and
    ["changed"] in the remaining case, when some but not all blocks are
    new. *)
Theorem get_function_status_spec (blocks_status : gmap Z string) :
  (get_function_status blocks_status = "new" ↔
   blocks_status ≠ ∅ ∧ ∀ k s, blocks_status !! k = Some s → s = "new") ∧
  (get_function_status blocks_status = "old" ↔
   ∀ k s, blocks_status !! k = Some s → s ≠ "new") ∧
  (get_function_status blocks_status = "changed" ↔
   (∃ k, blocks_status !! k = Some "new") ∧
   (∃ k s, blocks_status !! k = Some s ∧ s ≠ "new")).
Proof.
  unfold get_function_status.
  set (statuses := list_to_set (snd <$> map_to_list blocks_status) : gset string).
  assert (∀ s, s ∈ statuses ↔ ∃ k, blocks_status !! k = Some s) as Hin
    by apply elem_of_statuses.
  assert (size statuses = 1%nat → "new" ∈ statuses →
          ∀ k s, blocks_status !! k = Some s → s = "new") as Hone.
  { intros [x Hx]%size_1_elem_of Hnew k s Hk.
    assert (s ∈ statuses) as Hs by (apply Hin; eauto).
    rewrite Hx in Hs, Hnew. apply elem_of_singleton in Hs, Hnew. congruence. }
  assert ((∀ k s, blocks_status !! k = Some s → s = "new") → "new" ∈ statuses →
          size statuses = 1%nat) as Hall.
  { intros Hall Hnew. assert (statuses = {["new"]}) as ->; [|apply size_singleton].
    apply set_eq. intros s. rewrite elem_of_singleton. split.
    - intros [k Hk]%Hin. by eapply Hall.
    - by intros ->. }
  destruct (decide ("new" ∈ statuses)) as [Hnew|Hnew].
  - pose proof Hnew as [k0 Hk0]%Hin.
    destruct (decide (size statuses = 1%nat)) as [H1|H1].
    + split_and!.
      * split; [|done]. intros _. split; [|by apply Hone].
        intros ->. by rewrite lookup_empty in Hk0.
      * split; [done|]. intros Hno. by destruct (Hno k0 "new" Hk0).
      * split; [done|]. intros [_ (k & s & Hk & Hne)]. destruct Hne. by eapply Hone.
    + split_and!.
      * split; [done|]. intros [_ Hall']. destruct H1. by apply Hall.
      * split; [done|]. intros Hno. by destruct (Hno k0 "new" Hk0).
      * split; [|done]. intros _. split; [by exists k0|].
        destruct (decide (Forall (λ s, s = "new") (snd <$> map_to_list blocks_status)))
          as [Hyes|Hnot].
        -- destruct H1. apply Hall; [|done]. intros k s Hk.
           rewrite Forall_forall in Hyes. apply Hyes, list_elem_of_fmap.
           exists (k, s). split; [done|]. by apply elem_of_map_to_list.
        -- apply not_Forall_Exists in Hnot; [|apply _].
           apply Exists_exists in Hnot as (s & Hs & Hne).
           apply list_elem_of_fmap in Hs as ([k s'] & -> & Hk%elem_of_map_to_list).
           by exists k, s'.
  - split_and!.
    + split; [done|]. intros [Hne Hall'].
      destruct (map_choose blocks_status Hne) as (k & s & Hk).
      destruct Hnew. apply Hin. exists k. by rewrite (Hall' k s Hk) in Hk.
    + split; [|done]. intros _ k s Hk ->. apply Hnew, Hin. eauto.
    + split; [done|]. intros [[k Hk] _]. destruct Hnew. apply Hin. eauto.
Qed.

(** X21.  The statuses of the blocks that [compute_diff_labels] labels:
    no label has the status ["neither"]; the status is ["new"] exactly
    when [is_new = 1], ["in_A"] exactly when the block is in A and not in
    B, and ["in_both"] exactly when it is in both. *)
Theorem block_status_of_labels cov_A cov_B l :
  l ∈ diff_rows cov_A cov_B →
  status_of l ≠ "neither" ∧
  (status_of l = "new" ↔ l_is_new l = true) ∧
  (status_of l = "in_A" ↔ l_in_A l = true ∧ l_in_B l = false) ∧
  (status_of l = "in_both" ↔ l_in_A l = true ∧ l_in_B l = true).
Proof.
  intros Hl. pose proof (labels_new _ (diff_rows_ok cov_A cov_B) l Hl) as Hnew.
  assert (l_in_A l = true ∨ l_in_B l = true) as Hcov.
  { apply list_elem_of_omap in Hl as (k & _ & Hl).
    apply LabelFlags.group_label_flags in Hl as (HA & HB & (r & Hr & Hk & _)).
    apply elem_of_app in Hr as [Hr|Hr]; [left; apply HA|right; apply HB];
      apply list_elem_of_fmap; eauto. }
  unfold status_of, get_block_status. rewrite Hnew.
  destruct (l_in_A l), (l_in_B l); cbn; destruct Hcov; split_and!; try split;
    try done; intros [? ?]; done.
Qed.

Lemma block_status_of_labels_witness :
  Label 1 7 300 false true true ∈ diff_rows Pipeline.scenario_cov_A Pipeline.scenario_cov_B ∧
  status_of (Label 1 7 300 false true true) = "new".
Proof.
  assert (Label 1 7 300 false true true
          ∈ diff_rows Pipeline.scenario_cov_A Pipeline.scenario_cov_B) as Hl.
  { apply list_elem_of_further, list_elem_of_here. }
  split; [exact Hl|].
  destruct (block_status_of_labels _ _ _ Hl) as (_ & Hnew & _). by apply Hnew.
Defined.

(** The statuses of the functions are results of [get_function_status]. *)
Lemma function_statuses_values fns covered_blocks binary_id s :
  s ∈ snd <$> map_to_list (function_statuses fns covered_blocks binary_id) →
  s = "new" ∨ s = "changed" ∨ s = "old".
Proof.
  intros ([k s'] & -> & Hk%elem_of_map_to_list)%list_elem_of_fmap. simpl.
  unfold function_statuses in Hk. revert Hk.
  generalize (filter (λ f, fn_binary_id f = binary_id
                           ∧ fn_func_id f ∈ covered_func_ids covered_blocks) fns).
  intros l. induction l as [|f l IH] using rev_ind.
  - cbn. by rewrite lookup_empty.
  - rewrite foldl_app. cbn [foldl]. destruct (decide (fn_func_id f = k)) as [->|Hne].
    + rewrite lookup_insert_eq. intros [= <-]. unfold get_function_status.
      repeat case_decide; auto.
    + by rewrite lookup_insert_ne.
Qed.

Lemma count_three (l : list string) :
  (∀ s, s ∈ l → s = "new" ∨ s = "changed" ∨ s = "old") →
  (count "new" l + count "changed" l + count "old" l = length l)%nat.
Proof.
  unfold count. induction l as [|x l IH]; intros H; [done|].
  rewrite !filter_cons. specialize (IH (λ s Hs, H s (list_elem_of_further _ _ _ Hs))).
  destruct (H x (list_elem_of_here _ _)) as [->|[->| ->]];
    repeat (case_decide; try done); cbn [length]; lia.
Qed.

Lemma count_fmap_le {A} (f : A → string) (Q : A → Prop) `{!∀ x, Decision (Q x)}
    (s : string) (l : list A) :
  (∀ x, f x = s → Q x) → (count s (f <$> l) ≤ length (filter Q l))%nat.
Proof.
  intros Himp. unfold count. induction l as [|x l IH]; [done|].
  rewrite fmap_cons, !filter_cons. destruct (decide (f x = s)) as [Hx|Hx].
  - rewrite decide_True by auto. cbn [length]. lia.
  - case_decide; cbn [length]; lia.
Qed.

(** X22.  The statistics of a module add up: every exported function is
    counted as new, changed or old, and as one of them only; the module is
    ["new"] exactly when it has an exported function and all exported
    functions are new, and ["old"] exactly when no exported function is
    new or changed, so also when none of its covered functions has a row
    in [functions]; and the new blocks are among the blocks in B. *)
Theorem module_statistics_add_up fns bb_labels binary_id :
  (new_functions (module_statistics fns bb_labels binary_id)
   + changed_functions (module_statistics fns bb_labels binary_id)
   + old_functions (module_statistics fns bb_labels binary_id)
   = total_functions (module_statistics fns bb_labels binary_id))%nat ∧
  (module_status (module_statistics fns bb_labels binary_id) = "new" ↔
   (0 < total_functions (module_statistics fns bb_labels binary_id))%nat ∧
   new_functions (module_statistics fns bb_labels binary_id)
   = total_functions (module_statistics fns bb_labels binary_id)) ∧
  (module_status (module_statistics fns bb_labels binary_id) = "old" ↔
   new_functions (module_statistics fns bb_labels binary_id) = 0%nat ∧
   changed_functions (module_statistics fns bb_labels binary_id) = 0%nat) ∧
  (new_blocks (module_statistics fns bb_labels binary_id)
   ≤ blocks_in_B (module_statistics fns bb_labels binary_id)
   ≤ total_blocks (module_statistics fns bb_labels binary_id))%nat.
Proof.
  pose proof (count_three _ (function_statuses_values fns
                               (covered_blocks_of bb_labels binary_id) binary_id)) as Hsum.
  unfold module_status, module_statistics. cbn [new_functions changed_functions
    old_functions total_functions new_blocks blocks_in_B total_blocks].
  set (fs := snd <$> map_to_list (function_statuses fns
                                    (covered_blocks_of bb_labels binary_id) binary_id)) in *.
  set (blocks := snd <$> map_to_list (covered_blocks_of bb_labels binary_id)).
  split_and!.
  - exact Hsum.
  - repeat case_decide; split; try done; try lia.
    all: intros [? ?]; lia.
  - repeat case_decide; split; try done; try lia.
    all: intros [? ?]; lia.
  - apply (count_fmap_le status_of (λ l, l_in_B l = true)).
    intros l. unfold status_of, get_block_status.
    by destruct (l_in_A l), (l_in_B l).
  - apply length_filter.
Qed.

End StatusFacts.

(** ------------------------------------------------------------------ *)
(** ** The counters of [frontier_attribution]                           *)
(** ------------------------------------------------------------------ *)

Module CountersFacts.
Import Labels Graph Frontier Reach Attribution Counters AttributionFacts.

Lemma add_unique_lookup m f n g f' :
  default empty_bucket (add_unique m f n g !! f')
  = if decide (f' = f)
    then Bucket ({[n]} ∪ unique (default empty_bucket (m !! f)))
                (shared (default empty_bucket (m !! f)))
                ({[g]} ∪ funcs (default empty_bucket (m !! f)))
    else default empty_bucket (m !! f').
Proof.
  unfold add_unique. case_decide as Hf.
  - subst f'. by rewrite lookup_insert_eq.
  - by rewrite lookup_insert_ne.
Qed.

Lemma add_shared_lookup m f n g f' :
  default empty_bucket (add_shared m f n g !! f')
  = if decide (f' = f)
    then Bucket (unique (default empty_bucket (m !! f)))
                ({[n]} ∪ shared (default empty_bucket (m !! f)))
                ({[g]} ∪ funcs (default empty_bucket (m !! f)))
    else default empty_bucket (m !! f').
Proof.
  unfold add_shared. case_decide as Hf.
  - subst f'. by rewrite lookup_insert_eq.
  - by rewrite lookup_insert_ne.
Qed.

Lemma add_unique_keys m f n g f' :
  is_Some (add_unique m f n g !! f') ↔ f' = f ∨ is_Some (m !! f').
Proof.
  unfold add_unique. destruct (decide (f' = f)) as [->|Hne].
  - rewrite lookup_insert_eq. split; [by left|eauto].
  - rewrite lookup_insert_ne by done. split; [by right|]. by intros [?|?].
Qed.

Lemma add_shared_keys m f n g f' :
  is_Some (add_shared m f n g !! f') ↔ f' = f ∨ is_Some (m !! f').
Proof.
  unfold add_shared. destruct (decide (f' = f)) as [->|Hne].
  - rewrite lookup_insert_eq. split; [by left|eauto].
  - rewrite lookup_insert_ne by done. split; [by right|]. by intros [?|?].
Qed.

(** The loop [for frontier in frontiers] of the shared case. *)
Lemma add_shared_fold (fs : list Z) m n g f' :
  let m' := foldl (λ m0 frontier, add_shared m0 frontier n g) m fs in
  unique (default empty_bucket (m' !! f')) = unique (default empty_bucket (m !! f')) ∧
  (∀ x, x ∈ shared (default empty_bucket (m' !! f')) ↔
        (x = n ∧ f' ∈ fs) ∨ x ∈ shared (default empty_bucket (m !! f'))) ∧
  (∀ x, x ∈ funcs (default empty_bucket (m' !! f')) ↔
        (x = g ∧ f' ∈ fs) ∨ x ∈ funcs (default empty_bucket (m !! f'))) ∧
  (is_Some (m' !! f') ↔ f' ∈ fs ∨ is_Some (m !! f')).
Proof.
  cbn zeta. revert m. induction fs as [|f fs IH]; intros m.
  - cbn [foldl]. split_and!; [done| | |].
    + intros x. split; [by right|]. intros [[_ Hin]|?]; [inversion Hin|done].
    + intros x. split; [by right|]. intros [[_ Hin]|?]; [inversion Hin|done].
    + split; [by right|]. intros [Hin|?]; [inversion Hin|done].
  - cbn [foldl]. destruct (IH (add_shared m f n g)) as (Hu & Hs & Hf & Hk).
    rewrite Hu. split_and!.
    + rewrite add_shared_lookup. by case_decide; subst.
    + intros x. rewrite Hs, add_shared_lookup, elem_of_cons.
      case_decide; subst; cbn [shared]; set_solver.
    + intros x. rewrite Hf, add_shared_lookup, elem_of_cons.
      case_decide; subst; cbn [funcs]; set_solver.
    + rewrite Hk, add_shared_keys, elem_of_cons. naive_solver.
Qed.

(** One item more. *)
Lemma count_block_ok new_blocks items m n fs m' :
  buckets_ok new_blocks items m →
  count_block new_blocks m n fs = Some m' →
  buckets_ok new_blocks (items ++ [(n, fs)]) m'.
Proof.
  intros [HU HS HF HK]. unfold count_block.
  destruct (new_blocks !! n) as [g|] eqn:Hg; [|done]. cbn [mbind option_bind].
  assert (∀ (x : Z * list Z), x ∈ items ++ [(n, fs)] ↔ x ∈ items ∨ x = (n, fs)) as Hin.
  { intros x. by rewrite elem_of_app, list_elem_of_singleton. }
  destruct (decide (length fs = 1%nat)) as [Hlen|Hlen].
  - destruct fs as [|f0 [|? ?]]; try done. intros [= <-]. split.
    + intros f x. rewrite add_unique_lookup, Hin.
      case_decide as Hf; cbn [unique]; rewrite ?elem_of_union, ?elem_of_singleton, HU.
      * subst. split; [intros [->|?]; auto|]. intros [?|[= ->]]; auto.
      * split; [auto|]. intros [?|[= _ ?]]; [done|]. by destruct Hf.
    + intros f x. rewrite add_unique_lookup.
      assert (shared (if decide (f = f0)
                      then Bucket ({[n]} ∪ unique (default empty_bucket (m !! f0)))
                                  (shared (default empty_bucket (m !! f0)))
                                  ({[g]} ∪ funcs (default empty_bucket (m !! f0)))
                      else default empty_bucket (m !! f))
              = shared (default empty_bucket (m !! f))) as -> by (case_decide; by subst).
      rewrite HS. split.
      * intros (fs & ? & ? & ?). exists fs. rewrite Hin. auto.
      * intros (fs & [?|[= ? ?]]%Hin & ? & Hl); [by exists fs|by subst].
    + intros f x. rewrite add_unique_lookup.
      case_decide as Hf; cbn [funcs]; rewrite ?elem_of_union, ?elem_of_singleton, HF.
      * subst. split.
        -- intros [->|(n' & fs & ? & ? & ?)].
           ++ exists n, [f0]. rewrite Hin. split_and!; [by right|left|done].
           ++ exists n', fs. rewrite Hin. auto.
        -- intros (n' & fs & [?|[= -> ->]]%Hin & ? & Hn'); [right; by exists n', fs|].
           left. congruence.
      * split.
        -- intros (n' & fs & ? & ? & ?). exists n', fs. rewrite Hin. auto.
        -- intros (n' & fs & [?|[= -> ->]]%Hin & Hf' & ?); [by exists n', fs|].
           apply list_elem_of_singleton in Hf'. done.
    + intros f. rewrite add_unique_keys, HK. split.
      * intros [->|(n' & fs & ? & ?)].
        -- exists n, [f0]. rewrite Hin. split; [by right|left].
        -- exists n', fs. rewrite Hin. auto.
      * intros (n' & fs & [?|[= -> ->]]%Hin & Hf'); [right; by exists n', fs|].
        left. by apply list_elem_of_singleton in Hf'.
  - assert (Some (foldl (λ m0 frontier, add_shared m0 frontier n g) m fs) = Some m' → 
            foldl (λ m0 frontier, add_shared m0 frontier n g) m fs = m') as Hinj
      by (by intros [= ?]).
    intros Hm'. assert (foldl (λ m0 frontier, add_shared m0 frontier n g) m fs = m') as <-.
    { apply Hinj. by destruct fs as [|? [|? ?]]. }
    clear Hm' Hinj. split.
    + intros f x. destruct (add_shared_fold fs m n g f) as (-> & _). rewrite HU, Hin.
      split; [auto|]. intros [?|Heq]; [done|]. injection Heq as _ Hfs. by rewrite <- Hfs in Hlen.
    + intros f x. destruct (add_shared_fold fs m n g f) as (_ & -> & _). rewrite HS. split.
      * intros [[-> ?]|(fs' & ? & ? & ?)].
        -- exists fs. rewrite Hin. auto.
        -- exists fs'. rewrite Hin. auto.
      * intros (fs' & [?|[= -> ->]]%Hin & ? & ?); [right; by exists fs'|by left].
    + intros f x. destruct (add_shared_fold fs m n g f) as (_ & _ & -> & _). rewrite HF.
      split.
      * intros [[-> ?]|(n' & fs' & ? & ? & ?)].
        -- exists n, fs. rewrite Hin. auto.
        -- exists n', fs'. rewrite Hin. auto.
      * intros (n' & fs' & [?|[= -> ->]]%Hin & ? & ?); [right; by exists n', fs'|].
        left. split; [congruence|done].
    + intros f. destruct (add_shared_fold fs m n g f) as (_ & _ & _ & ->). rewrite HK.
      split.
      * intros [?|(n' & fs' & ? & ?)].
        -- exists n, fs. rewrite Hin. auto.
        -- exists n', fs'. rewrite Hin. auto.
      * intros (n' & fs' & [?|[= -> ->]]%Hin & ?); [right; by exists n', fs'|by left].
Qed.

Lemma buckets_ok_empty new_blocks : buckets_ok new_blocks [] ∅.
Proof.
  split.
  - intros f n. rewrite lookup_empty. cbn. split; [set_solver|]. intros H. inversion H.
  - intros f n. rewrite lookup_empty. cbn. split; [set_solver|].
    intros (? & H & _). inversion H.
  - intros f g. rewrite lookup_empty. cbn. split; [set_solver|].
    intros (? & ? & H & _). inversion H.
  - intros f. rewrite lookup_empty. split; [by intros [? ?]|].
    intros (? & ? & H & _). inversion H.
Qed.

(** The dict at the end of the loop over the items. *)
Lemma frontier_attribution_map_ok new_blocks (items : list (Z * list Z)) m :
  foldl (λ (acc : option (gmap Z bucket)) item,
           m ← acc; count_block new_blocks m item.1 item.2) (Some ∅) items = Some m →
  buckets_ok new_blocks items m.
Proof.
  revert m. induction items as [|[n fs] items IH] using rev_ind; intros m.
  - intros [= <-]. apply buckets_ok_empty.
  - rewrite foldl_app. cbn [foldl].
    destruct (foldl _ (Some ∅) items) as [m0|]; [|done]. cbn [mbind option_bind fst snd].
    intros Hc. apply (count_block_ok _ _ m0); [by apply IH|done].
Qed.

(** The blocks of a frontier are those that name it among their frontiers. *)
Lemma elem_of_reached_by reach b f n :
  n ∈ reached_by reach b f ↔ f ∈ frontiers_of reach b n.
Proof.
  unfold reached_by, frontiers_of.
  rewrite elem_of_list_to_set, !list_elem_of_fmap. split.
  - intros (r & -> & [Hr Hin]%list_elem_of_filter). destruct Hr as [Hb Hf].
    exists r. split; [done|]. by rewrite !list_elem_of_filter.
  - intros (r & -> & [Hn [Hb Hin]%list_elem_of_filter]%list_elem_of_filter).
    exists r. split; [done|]. by rewrite list_elem_of_filter.
Qed.

Lemma elem_of_reached_funcs bb_labels reach b f g :
  g ∈ reached_funcs bb_labels reach b f ↔
  ∃ n, n ∈ reached_by reach b f ∧ new_block_funcs bb_labels b !! n = Some g.
Proof.
  unfold reached_funcs. rewrite elem_of_list_to_set, list_elem_of_omap.
  split; intros (n & Hn & Hg); exists n; (split; [|done]); by apply elem_of_elements.
Qed.

(** A block is reached alone or with others. *)
Lemma reached_by_split reach b f :
  (size (reached_alone reach b f) + size (reached_with_others reach b f))%nat
  = size (reached_by reach b f).
Proof.
  unfold reached_alone, reached_with_others.
  set (X := reached_by reach b f).
  set (P := λ n, frontiers_of reach b n = [f]).
  assert (filter P X ## filter (λ n, ¬ P n) X) as Hdisj.
  { intros n [HP _]%elem_of_filter [HnP _]%elem_of_filter. done. }
  pose proof (size_union (filter P X : gset Z) (filter (λ n, ¬ P n) X) Hdisj) as Hsz.
  etrans; [symmetry; exact Hsz|]. f_equal. apply set_eq. intros n.
  rewrite elem_of_union, !elem_of_filter. destruct (decide (P n)); naive_solver.
Qed.

(** The items of [new_block_to_frontiers]. *)
Lemma group_frontiers_items reach b n fs :
  (n, fs) ∈ map_to_list (group_frontiers reach b) ↔
  frontiers_of reach b n = fs ∧ fs ≠ [].
Proof.
  rewrite elem_of_map_to_list, group_frontiers_lookup.
  destruct (frontiers_of reach b n) as [|f0 F]; split.
  - done.
  - by intros [<- ?].
  - by intros [= <-].
  - by intros [<- _].
Qed.

(** The buckets of a binary hold the sets of its frontiers. *)
Lemma frontier_attribution_map_sets bb_labels reach b m f :
  frontier_attribution_map (new_block_funcs bb_labels b) (group_frontiers reach b) = Some m →
  unique (default empty_bucket (m !! f)) = reached_alone reach b f ∧
  shared (default empty_bucket (m !! f)) = reached_with_others reach b f ∧
  funcs (default empty_bucket (m !! f)) = reached_funcs bb_labels reach b f ∧
  (is_Some (m !! f) ↔ reached_by reach b f ≠ ∅).
Proof.
  intros [HU HS HF HK]%frontier_attribution_map_ok. split_and!.
  - apply set_eq. intros n. rewrite HU, group_frontiers_items.
    unfold reached_alone. rewrite elem_of_filter, elem_of_reached_by. split.
    + intros [-> _]. split; [done|left].
    + by intros [-> _].
  - apply set_eq. intros n. rewrite HS.
    unfold reached_with_others. rewrite elem_of_filter, elem_of_reached_by. split.
    + intros (fs & [<- _]%group_frontiers_items & Hf & Hl). split; [|done].
      intros Heq. by rewrite Heq in Hl.
    + intros [Hne Hf]. exists (frontiers_of reach b n).
      rewrite group_frontiers_items. split_and!; [done| |done|].
      * intros Heq. rewrite Heq in Hf. inversion Hf.
      * intros Hl. apply Hne.
        destruct (frontiers_of reach b n) as [|f0 [|? ?]]; try done.
        by apply list_elem_of_singleton in Hf as ->.
  - apply set_eq. intros g. rewrite HF, elem_of_reached_funcs. split.
    + intros (n & fs & [<- _]%group_frontiers_items & Hf & Hg). exists n.
      by rewrite elem_of_reached_by.
    + intros (n & Hf%elem_of_reached_by & Hg). exists n, (frontiers_of reach b n).
      rewrite group_frontiers_items. split_and!; [done| |done|done].
      intros Heq. rewrite Heq in Hf. inversion Hf.
  - rewrite HK. split.
    + intros (n & fs & [<- _]%group_frontiers_items & Hf) Hempty.
      apply elem_of_reached_by in Hf. rewrite Hempty in Hf. set_solver.
    + intros [n Hn%elem_of_reached_by]%set_choose_L. exists n, (frontiers_of reach b n).
      rewrite group_frontiers_items. split_and!; [done| |done].
      intros Heq. rewrite Heq in Hn. inversion Hn.
Qed.

(** One binary: the rows of its frontiers are added, the others stay. *)
Lemma count_binary_spec bb_labels reach table b table' :
  count_binary bb_labels reach table b = Some table' →
  Sql.pk_ok count_key table →
  (∀ row, row ∈ table → fa_binary_id row ≠ b) →
  Sql.pk_ok count_key table' ∧
  (∀ row, row ∈ table' ↔
          row ∈ table ∨
          (fa_binary_id row = b ∧
           reached_by reach b (fa_frontier_bb_rva row) ≠ ∅ ∧
           counts_ok bb_labels reach row)).
Proof.
  unfold count_binary. intros H Hpk Hother.
  apply bind_Some in H as (m & Hm & [= <-]).
  pose proof (λ f, frontier_attribution_map_sets _ _ _ _ f Hm) as Hsets.
  assert (NoDup (count_key <$> attr_data b m)) as Hnd.
  { unfold attr_data. rewrite <- list_fmap_compose.
    apply (NoDup_fmap_2_strong _); [|apply NoDup_map_to_list].
    intros [f1 b1] [f2 b2] H1%elem_of_map_to_list H2%elem_of_map_to_list [= ->].
    congruence. }
  assert (∀ row, row ∈ attr_data b m ↔
                 fa_binary_id row = b ∧
                 reached_by reach b (fa_frontier_bb_rva row) ≠ ∅ ∧
                 counts_ok bb_labels reach row) as Hdata.
  { intros row. unfold attr_data. rewrite list_elem_of_fmap. unfold counts_ok. split.
    - intros ([f bk] & -> & Hin%elem_of_map_to_list). cbn [fst snd fa_binary_id
        fa_frontier_bb_rva fa_attributed_new_bb_count fa_unique_new_bb_count
        fa_shared_new_bb_count fa_attributed_new_func_count].
      destruct (Hsets f) as (HU & HS & HF & HK). rewrite Hin in HU, HS, HF. cbn in HU, HS, HF.
      rewrite <- reached_by_split, <- HU, <- HS, <- HF. split_and!; try done.
      apply HK. by exists bk.
    - intros (<- & Hne & Hu & Hs & Ha & Hf).
      destruct (Hsets (fa_frontier_bb_rva row)) as (HU & HS & HF & HK).
      apply HK in Hne as [bk Hbk]. rewrite Hbk in HU, HS, HF. cbn in HU, HS, HF.
      exists (fa_frontier_bb_rva row, bk). split; [|by apply elem_of_map_to_list].
      cbn [fst snd]. rewrite <- reached_by_split in Ha. rewrite <- HU in Hu, Ha.
      rewrite <- HS in Hs, Ha. rewrite <- HF in Hf.
      destruct row; cbn in *. congruence. }
  split.
  - by apply SqlFacts.insert_or_replace_all_pk_ok.
  - intros row. rewrite SqlFacts.elem_of_insert_or_replace_all by done.
    rewrite Hdata. split; [tauto|]. intros [Hrow|?]; [left|by right].
    split; [done|]. intros (row' & Hk & [Hb _]%Hdata)%list_elem_of_fmap.
    apply (Hother row Hrow). injection Hk as -> _. done.
Qed.

(** The dict of a binary is made exactly when its reached blocks are new. *)
Lemma count_binary_completes bb_labels reach table b :
  is_Some (count_binary bb_labels reach table b) ↔
  (∀ r, r ∈ reach → r_binary_id r = b → r_new_bb_rva r ∈ new_blocks_of bb_labels b).
Proof.
  unfold count_binary.
  assert (is_Some (frontier_attribution_map (new_block_funcs bb_labels b)
                     (group_frontiers reach b)) ↔
          ∀ item, item ∈ map_to_list (group_frontiers reach b) →
                  is_Some (new_block_funcs bb_labels b !! item.1)) as Hmap.
  { unfold frontier_attribution_map. generalize (∅ : gmap Z bucket).
    induction (map_to_list (group_frontiers reach b)) as [|item items IHi]; intros m0.
    - cbn [foldl]. split; [|eauto]. intros _ item Hin. inversion Hin.
    - cbn [foldl mbind option_bind]. unfold count_block at 2.
      destruct (new_block_funcs bb_labels b !! item.1) as [g|] eqn:Hg;
        cbn [mbind option_bind].
      + assert (∃ m1, (match item.2 with
                       | [frontier] => Some (add_unique m0 frontier item.1 g)
                       | _ => Some (foldl (λ m' frontier, add_shared m' frontier item.1 g)
                                          m0 item.2)
                       end) = Some m1) as [m1 ->]
          by (destruct (item.2) as [|? [|? ?]]; eauto).
        rewrite IHi. split.
        * intros H item' [->|Hin]%elem_of_cons; [by rewrite Hg|auto].
        * intros H item' Hin. apply H. by right.
      + split.
        * intros [m Hm]. exfalso. revert Hm. clear.
          induction items as [|i items IH]; [done|exact IH].
        * intros H. destruct (H item) as [g' Hg']; [left|]. congruence. }
  split.
  - intros [t Ht]. apply bind_Some in Ht as (m & Hm & _).
    intros r Hr Hb. apply new_block_funcs_lookup.
    assert (is_Some (frontier_attribution_map (new_block_funcs bb_labels b)
                       (group_frontiers reach b))) as Hs by eauto.
    rewrite Hmap in Hs.
    apply (Hs (r_new_bb_rva r, frontiers_of reach b (r_new_bb_rva r))).
    apply group_frontiers_items. split; [done|].
    assert (r_frontier_bb_rva r ∈ frontiers_of reach b (r_new_bb_rva r)) as Hin.
    { unfold frontiers_of. apply list_elem_of_fmap. exists r. split; [done|].
      by rewrite !list_elem_of_filter. }
    intros Heq. rewrite Heq in Hin. inversion Hin.
  - intros Hnew.
    assert (is_Some (frontier_attribution_map (new_block_funcs bb_labels b)
                       (group_frontiers reach b))) as [m ->]; [|cbn; eauto].
    apply Hmap. intros [n fs] [Hfs Hne]%group_frontiers_items. cbn [fst].
    apply new_block_funcs_lookup.
    destruct fs as [|f fs']; [done|].
    assert (f ∈ frontiers_of reach b n) as Hf by (rewrite Hfs; left).
    unfold frontiers_of in Hf.
    apply list_elem_of_fmap in Hf
      as (r & _ & [Hn [Hb Hr]%list_elem_of_filter]%list_elem_of_filter).
    rewrite <- Hn. by apply Hnew.
Qed.

(** X23. The rows of [frontier_attribution] after [compute_attribution] on
    a new store: one row for every frontier of a binary of [graph_B_nodes]
    that [frontier_reachability] gives at least one block, and no other;
    [unique_new_bb_count] is the number of the frontier's blocks that no
    other frontier reaches, [shared_new_bb_count] the number of the others,
    [attributed_new_bb_count] the number of all of them, the sum of the
    two, and at least one; [attributed_new_func_count] is the number of
    functions of these blocks. *)
Theorem compute_attribution_counts graph_B_nodes bb_labels reach table :
  compute_frontier_attribution graph_B_nodes bb_labels reach [] = Some table →
  Sql.pk_ok count_key table ∧
  (∀ row, row ∈ table ↔
          fa_binary_id row ∈ node_binaries graph_B_nodes ∧
          reached_by reach (fa_binary_id row) (fa_frontier_bb_rva row) ≠ ∅ ∧
          counts_ok bb_labels reach row) ∧
  (∀ row, row ∈ table →
          fa_attributed_new_bb_count row
          = (fa_unique_new_bb_count row + fa_shared_new_bb_count row)%nat ∧
          (1 ≤ fa_attributed_new_bb_count row)%nat).
Proof.
  unfold compute_frontier_attribution.
  assert (∀ (bs done : list Z) (table0 table : list attribution_count),
    NoDup bs → (∀ b, b ∈ bs → b ∉ done) →
    Sql.pk_ok count_key table0 →
    (∀ row, row ∈ table0 ↔
            fa_binary_id row ∈ done ∧
            reached_by reach (fa_binary_id row) (fa_frontier_bb_rva row) ≠ ∅ ∧
            counts_ok bb_labels reach row) →
    foldl (λ acc binary_id,
             acc ≫= λ t, count_binary bb_labels reach t binary_id)
          (Some table0) bs = Some table →
    Sql.pk_ok count_key table ∧
    (∀ row, row ∈ table ↔
            fa_binary_id row ∈ done ++ bs ∧
            reached_by reach (fa_binary_id row) (fa_frontier_bb_rva row) ≠ ∅ ∧
            counts_ok bb_labels reach row)) as H.
  { intros bs. induction bs as [|b bs IH]; intros done table0 table' Hnd Hfresh Hpk H0;
      cbn [foldl].
    - intros [= <-]. split; [done|]. intros row. by rewrite app_nil_r.
    - apply NoDup_cons in Hnd as [Hb Hnd]. cbn [mbind option_bind].
      destruct (count_binary bb_labels reach table0 b) as [t1|] eqn:E1.
      2:{ intros H. exfalso. revert H. clear.
          induction bs as [|i bs IH]; [done|]. exact IH. }
      assert (∀ row, row ∈ table0 → fa_binary_id row ≠ b) as Hoth.
      { intros row [Hrow _]%H0 Heq. subst b. by apply (Hfresh (fa_binary_id row)); [left|]. }
      apply count_binary_spec in E1 as (Hpk1 & H1); [|done|done].
      intros Hfold. apply (IH (done ++ [b])) in Hfold as (Hpk' & H'); [|done| |done|].
      + split; [done|]. intros row. rewrite H', <- app_assoc. done.
      + intros b' Hb' [Hin| ->%list_elem_of_singleton]%elem_of_app; [|done].
        apply (Hfresh b'); [by right|done].
      + intros row. rewrite H1, H0, elem_of_app, list_elem_of_singleton. naive_solver. }
  intros Hc. apply (H _ [] [] table) in Hc as [Hpk Hrows];
    [|apply NoDup_remove_dups| | |].
  - split_and!; [done|done|].
    intros row (_ & Hne & Hu & Hs & Ha & _)%Hrows.
    rewrite Ha, Hu, Hs, reached_by_split. split; [done|].
    assert (size (reached_by reach (fa_binary_id row) (fa_frontier_bb_rva row)) ≠ 0%nat)
      as Hsize.
    { intros Hz%size_empty_inv. apply Hne. by apply leibniz_equiv. }
    lia.
  - intros b _ Hb. inversion Hb.
  - constructor.
  - intros row. split; [intros Hrow; inversion Hrow|intros [Hrow _]; inversion Hrow].
Qed.

Lemma compute_attribution_counts_witness :
  compute_frontier_attribution (Pipeline.graph_B_nodes Pipeline.scenario_store)
    (Pipeline.bb_labels Pipeline.scenario_store) (Pipeline.frontier_reachability Pipeline.scenario_store) []
  = Some [AttributionCount 1 300 2 1 1 1; AttributionCount 1 2000 2 1 1 2] ∧
  Sql.pk_ok count_key [AttributionCount 1 300 2 1 1 1; AttributionCount 1 2000 2 1 1 2] ∧
  (∀ row, row ∈ [AttributionCount 1 300 2 1 1 1; AttributionCount 1 2000 2 1 1 2] ↔
          fa_binary_id row ∈ node_binaries (Pipeline.graph_B_nodes Pipeline.scenario_store) ∧
          reached_by (Pipeline.frontier_reachability Pipeline.scenario_store)
            (fa_binary_id row) (fa_frontier_bb_rva row) ≠ ∅ ∧
          counts_ok (Pipeline.bb_labels Pipeline.scenario_store)
            (Pipeline.frontier_reachability Pipeline.scenario_store) row) ∧
  (∀ row, row ∈ [AttributionCount 1 300 2 1 1 1; AttributionCount 1 2000 2 1 1 2] →
          fa_attributed_new_bb_count row
          = (fa_unique_new_bb_count row + fa_shared_new_bb_count row)%nat ∧
          (1 ≤ fa_attributed_new_bb_count row)%nat).
Proof.
  assert (compute_frontier_attribution (Pipeline.graph_B_nodes Pipeline.scenario_store)
            (Pipeline.bb_labels Pipeline.scenario_store)
            (Pipeline.frontier_reachability Pipeline.scenario_store) []
          = Some [AttributionCount 1 300 2 1 1 1; AttributionCount 1 2000 2 1 1 2]) as Hrun
    by (vm_compute; reflexivity).
  split; [exact Hrun|].
  exact (compute_attribution_counts _ _ _ _ Hrun).
Defined.

(** X24. [compute_attribution] raises [KeyError] at [new_blocks[new_bb]]
    exactly when [frontier_reachability] has a row of a binary of
    [graph_B_nodes] whose [new_bb_rva] is not a new block of [bb_labels];
    what [frontier_attribution] holds before plays no part. *)
Theorem compute_attribution_key_error graph_B_nodes bb_labels reach table :
  is_Some (compute_frontier_attribution graph_B_nodes bb_labels reach table) ↔
  (∀ r, r ∈ reach → r_binary_id r ∈ node_binaries graph_B_nodes →
        r_new_bb_rva r ∈ new_blocks_of bb_labels (r_binary_id r)).
Proof.
  unfold compute_frontier_attribution. revert table.
  induction (node_binaries graph_B_nodes) as [|b bs IH]; intros table; cbn [foldl].
  - split; [|eauto]. intros _ r _ Hin. inversion Hin.
  - cbn [mbind option_bind].
    pose proof (count_binary_completes bb_labels reach table b) as Hb.
    destruct (count_binary bb_labels reach table b) as [t1|] eqn:E1.
    + rewrite IH. split.
      * intros H r Hr [Heq|Hin]%elem_of_cons; [|auto].
        rewrite Heq. apply Hb; [eauto|done|done].
      * intros H r Hr Hin. apply H; [done|by right].
    + split.
      * intros [t Ht]. exfalso. revert Ht. clear.
        induction bs as [|i bs IH]; [done|exact IH].
      * intros H. assert (is_Some (None : option (list attribution_count))) as [? ?];
          [|done].
        apply Hb. intros r Hr <-. apply H; [done|left].
Qed.

End CountersFacts.

(** ------------------------------------------------------------------ *)
(** ** The numbers of the summary                                       *)
(** ------------------------------------------------------------------ *)

Module SummaryFacts.
Import Expand Labels Graph Frontier Reach Attribution Pipeline Summary.
Import AttributionFacts PipelineFacts.

Lemma length_filter_split {A} (P Q : A → Prop) `{!∀ x, Decision (P x)}
    `{!∀ x, Decision (Q x)} (l : list A) :
  length (filter P l)
  = (length (filter (λ x, P x ∧ Q x) l) + length (filter (λ x, P x ∧ ¬ Q x) l))%nat.
Proof.
  induction l as [|x l IH]; [done|]. rewrite !filter_cons.
  destruct (decide (P x)) as [HP|HP]; destruct (decide (Q x)) as [HQ|HQ];
    repeat case_decide; cbn [length]; try lia; tauto.
Qed.

(** Two tables with a column each that holds no value twice have as many
    rows as each other when the columns hold the same values. *)
Lemma length_by_keys {A B K} (f : A → K) (g : B → K) (l : list A) (k : list B) :
  NoDup (f <$> l) → NoDup (g <$> k) →
  (∀ x, x ∈ f <$> l ↔ x ∈ g <$> k) →
  length l = length k.
Proof.
  intros Hl Hk Heq. rewrite <- (length_fmap f l), <- (length_fmap g k).
  apply Permutation_length. by apply NoDup_Permutation.
Qed.

Lemma NoDup_fmap_filter {A K} (f : A → K) (P : A → Prop) `{!∀ x, Decision (P x)}
    (l : list A) :
  NoDup (f <$> l) → NoDup (f <$> filter P l).
Proof.
  intros Hnd. apply (sublist_NoDup _ (f <$> l)); [done|].
  apply fmap_sublist, sublist_filter.
Qed.

Lemma length_filter_compl {A} (P Q : A → Prop) `{!∀ x, Decision (P x)}
    `{!∀ x, Decision (Q x)} (l : list A) :
  (∀ x, P x ↔ ¬ Q x) →
  length l = (length (filter P l) + length (filter Q l))%nat.
Proof.
  intros HPQ. induction l as [|x l IH]; [done|]. rewrite !filter_cons.
  pose proof (HPQ x). repeat case_decide; cbn [length]; try lia; tauto.
Qed.

Lemma filter_all {A} (P : A → Prop) `{!∀ x, Decision (P x)} (l : list A) :
  (∀ x, P x) → filter P l = l.
Proof.
  intros HP. induction l as [|x l IH]; [done|].
  rewrite filter_cons_True by done. by rewrite IH.
Qed.

(** The flag that [attribute_block] gives a nonempty list. *)
Lemma attribute_block_flag nb n fs att :
  fs ≠ [] → attribute_block nb n fs = Some att →
  (att.2 = false ↔ length fs = 1%nat) ∧ (att.2 = true ↔ (2 ≤ length fs)%nat).
Proof.
  unfold attribute_block. intros Hne. destruct (nb !! n); cbn [mbind option_bind]; [|done].
  destruct fs as [|f [|f' fs]]; [done| |]; intros [= <-]; cbn [snd length];
    (split; split; intros; done || lia).
Qed.

Section run.
Context (master : master_db) (mapping : list map_row)
        (edges_B : option (list Parser.edge_row)) (cov_A cov_B : list joined_row)
        (cache : list Resolver.cache_row) (st : store).
Hypothesis Hrun : analyze master mapping edges_B cov_A cov_B (fresh cache) = Some st.

(** The rows of [bb_attributed_to] whose [is_shared] is in [S] are as many
    as the new blocks whose F(n) is in [P], when [attribute_block] sends
    the lists of [P], and no other, to [S]. *)
Lemma attributed_count (S : bool → Prop) (P : list Z → Prop)
    `{!∀ x, Decision (S x)} `{!∀ fs, Decision (P fs)} :
  (∀ fs, P fs → fs ≠ []) →
  (∀ nb n fs att, fs ≠ [] → attribute_block nb n fs = Some att → (S att.2 ↔ P fs)) →
  length (filter (λ a, S (a_is_shared a)) (bb_attributed_to st))
  = length (new_blocks_with P (bb_labels st) (frontier_reachability st)).
Proof.
  intros HP HS.
  destruct (analyze_stages _ _ _ _ _ _ _ Hrun) as (_ & _ & _ & _ & Ha).
  apply compute_attribution_fresh in Ha as (Hpk & _ & Hattr).
  pose proof (run_labels_ok _ _ _ _ _ _ _ Hrun) as [Hlpk _].
  apply (length_by_keys attributed_key label_key).
  - by apply NoDup_fmap_filter.
  - by apply NoDup_fmap_filter.
  - intros [b n]. unfold new_blocks_with. rewrite !list_elem_of_fmap. split.
    + intros (a & Hk & [Hsh [Hb [Hne Hatt]]%Hattr]%list_elem_of_filter).
      injection Hk as -> ->.
      assert (is_Some (new_block_funcs (bb_labels st) (a_binary_id a) !! a_new_bb_rva a))
        as Hnew.
      { unfold attribute_block in Hatt.
        destruct (new_block_funcs (bb_labels st) (a_binary_id a) !! a_new_bb_rva a); eauto.
        done. }
      apply new_block_funcs_lookup in Hnew. unfold new_blocks_of in Hnew.
      apply elem_of_list_to_set, list_elem_of_fmap in Hnew
        as (l & Hrva & [[Hlb Hlnew] Hl]%list_elem_of_filter).
      exists l. split; [unfold label_key; congruence|].
      apply list_elem_of_filter. split; [|done]. split; [done|].
      rewrite Hlb, <- Hrva. by apply (HS _ _ _ _ Hne Hatt).
    + intros (l & Hk & [[Hnew HPl] Hl]%list_elem_of_filter).
      injection Hk as -> ->.
      pose proof (HP _ HPl) as Hne.
      assert (block_is_new (bb_labels st) (l_binary_id l) (l_bb_rva l)) as Hbn
        by (by exists l).
      pose proof (new_block_binary _ _ _ _ _ _ _ Hrun _ _ Hbn) as Hb.
      assert (is_Some (new_block_funcs (bb_labels st) (l_binary_id l) !! l_bb_rva l))
        as [g Hg].
      { apply new_block_funcs_lookup. unfold new_blocks_of.
        apply elem_of_list_to_set, list_elem_of_fmap. exists l. split; [done|].
        by apply list_elem_of_filter. }
      set (F := frontiers_of (frontier_reachability st) (l_binary_id l) (l_bb_rva l)) in *.
      assert (∃ att, attribute_block (new_block_funcs (bb_labels st) (l_binary_id l))
                       (l_bb_rva l) F = Some att) as [att Hatt].
      { unfold attribute_block. rewrite Hg. cbn [mbind option_bind].
        destruct F as [|? [|? ?]]; eauto. }
      exists (Attributed (l_binary_id l) (l_bb_rva l) att.1 att.2). split; [done|].
      apply list_elem_of_filter. split.
      * cbn [a_is_shared]. by apply (HS _ _ _ _ Hne Hatt).
      * apply Hattr. cbn [a_binary_id a_new_bb_rva a_frontier_bb_rva a_is_shared].
        split; [done|]. split; [done|]. fold F. by destruct att.
Qed.

End run.

(** X25. The "Overall Statistics" of [print_summary] after a run on a new
    store: "Attributed blocks" is the number of new blocks that some
    frontier reaches, "Uniquely attributed" the number of those that
    exactly one frontier reaches, "Shared attribution" the number of those
    that two or more reach, and "Unattributed" the number of new blocks
    that no frontier reaches, so it is not negative; "Total frontier
    blocks" is the number of rows of [frontier_targets]. *)
Theorem print_summary_counts master mapping edges_B cov_A cov_B cache st :
  analyze master mapping edges_B cov_A cov_B (fresh cache) = Some st →
  let s := print_summary (frontier_targets st) (bb_labels st) (bb_attributed_to st) in
  total_frontier s = count (frontier_targets st) ∧
  total_attributed s
  = count (new_blocks_with (λ fs, fs ≠ []) (bb_labels st) (frontier_reachability st)) ∧
  unique_attributed s
  = count (new_blocks_with (λ fs, length fs = 1%nat) (bb_labels st)
             (frontier_reachability st)) ∧
  shared_attributed s
  = count (new_blocks_with (λ fs, (2 ≤ length fs)%nat) (bb_labels st)
             (frontier_reachability st)) ∧
  unattributed s
  = count (new_blocks_with (λ fs, fs = []) (bb_labels st) (frontier_reachability st)) ∧
  total_attributed s = unique_attributed s + shared_attributed s ∧
  0 ≤ unattributed s.
Proof.
  intros Hrun. cbn zeta.
  unfold print_summary; cbn [total_frontier total_attributed unique_attributed
    shared_attributed unattributed]. unfold count.
  assert (length (bb_attributed_to st)
          = length (new_blocks_with (λ fs, fs ≠ []) (bb_labels st)
                      (frontier_reachability st))) as Htotal.
  { rewrite <- (attributed_count _ _ _ _ _ _ _ Hrun (λ _, True) (λ fs, fs ≠ [])).
    - by rewrite filter_all.
    - done.
    - done. }
  assert (length (filter (λ a, a_is_shared a = false) (bb_attributed_to st))
          = length (new_blocks_with (λ fs, length fs = 1%nat) (bb_labels st)
                      (frontier_reachability st))) as Hunique.
  { etrans; [|etrans; [apply (attributed_count _ _ _ _ _ _ _ Hrun (λ x, x = false)
                                  (λ fs, length fs = 1%nat))|]].
    - first [reflexivity|f_equal; by apply list_filter_iff].
    - by intros [|? ?].
    - intros nb n fs att Hne Hatt. by apply (attribute_block_flag nb n).
    - first [reflexivity|unfold new_blocks_with; f_equal; by apply list_filter_iff]. }
  assert (length (filter (λ a, a_is_shared a = true) (bb_attributed_to st))
          = length (new_blocks_with (λ fs, (2 ≤ length fs)%nat) (bb_labels st)
                      (frontier_reachability st))) as Hshared.
  { etrans; [|etrans; [apply (attributed_count _ _ _ _ _ _ _ Hrun (λ x, x = true)
                                  (λ fs, (2 ≤ length fs)%nat))|]].
    - first [reflexivity|f_equal; by apply list_filter_iff].
    - intros [|? ?]; cbn [length]; [lia|done].
    - intros nb n fs att Hne Hatt. by apply (attribute_block_flag nb n).
    - first [reflexivity|unfold new_blocks_with; f_equal; by apply list_filter_iff]. }
  assert (length (filter (λ l, l_is_new l = true) (bb_labels st))
          = (length (new_blocks_with (λ fs, fs = []) (bb_labels st)
                       (frontier_reachability st))
             + length (new_blocks_with (λ fs, fs ≠ []) (bb_labels st)
                         (frontier_reachability st)))%nat) as Hnew.
  { rewrite (length_filter_split _
      (λ l, frontiers_of (frontier_reachability st) (l_binary_id l) (l_bb_rva l) = [])).
    unfold new_blocks_with. f_equal; f_equal; by apply list_filter_iff. }
  pose proof (length_filter_compl (λ a, a_is_shared a = false) (λ a, a_is_shared a = true)
                (bb_attributed_to st)) as Hsplit.
  pose proof (length_filter_compl (λ t, t_type t = strong) (λ t, t_type t = weak)
                (frontier_targets st)) as Hft.
  specialize (Hsplit ltac:(intros a; cbn beta; destruct (a_is_shared a); intuition congruence)).
  specialize (Hft ltac:(intros t; cbn beta; destruct (t_type t); intuition congruence)).
  split_and!; lia.
Qed.

Lemma print_summary_counts_witness :
  analyze scenario_master scenario_mapping (Some scenario_edges_B)
          scenario_cov_A scenario_cov_B (fresh []) = Some scenario_store ∧
  let st := scenario_store in
  let s := print_summary (frontier_targets st) (bb_labels st) (bb_attributed_to st) in
  total_frontier s = count (frontier_targets st) ∧
  total_attributed s
  = count (new_blocks_with (λ fs, fs ≠ []) (bb_labels st) (frontier_reachability st)) ∧
  unique_attributed s
  = count (new_blocks_with (λ fs, length fs = 1%nat) (bb_labels st)
             (frontier_reachability st)) ∧
  shared_attributed s
  = count (new_blocks_with (λ fs, (2 ≤ length fs)%nat) (bb_labels st)
             (frontier_reachability st)) ∧
  unattributed s
  = count (new_blocks_with (λ fs, fs = []) (bb_labels st) (frontier_reachability st)) ∧
  total_attributed s = unique_attributed s + shared_attributed s ∧
  0 ≤ unattributed s.
Proof.
  split; [exact scenario_run|].
  exact (print_summary_counts _ _ _ _ _ _ _ scenario_run).
Defined.

End SummaryFacts.
